(** * Angband [cave.c]: line of sight, field of view, room lighting, flow

    A shallow embedding of the visibility and pathing code of [src/cave.c],
    and the properties of it that the specification states.

    Conventions of the embedding.
    - A C [int] is a [Z].  Every intermediate value of the functions below
      is bounded by a small multiple of the square of a grid dimension, so
      on the coordinates of a level no [int] computation leaves its range;
      a property of [los] or [distance] over arbitrary coordinates carries
      the range of the offsets as a hypothesis ([los_in_range],
      [distance_in_range]).  [byte] stores (the flow arrays, [cost],
      [when], [feat]) are written out with their truncation [to_byte].
    - The per-level arrays [feat], [info], [cost] and [when] of
      [struct chunk] are functions of the two indices; a store is a
      pointwise update.  The accessors of the source assert their
      coordinates in bounds; the functions below index the arrays at the
      same places as the source does.  Where the source itself offers
      coordinates outside the level to an accessor (the flood of
      [light_room]), the failed assertion is the result [None].
    - [bitflag] sets are bit masks, with [Z.testbit], [Z.setbit] and
      [Z.clearbit] for [flag_has], [flag_on] and [flag_off].
    - Redraw notifications ([square_light_spot]), the marking of objects
      in [square_note_spot], [display_feeling] and the waking of monsters in
      [cave_light] act on the event sink, the object registry and the
      monster registry; they never touch the grid and are left out.
    - A [while] loop is a [Fixpoint] on fuel that returns [None] when the
      fuel runs out; each loop comes with the proof that the fuel its caller
      passes is enough. *)

From Stdlib Require Import ZArith List Bool Lia Arith FinFun.
Import ListNotations.
Local Open Scope Z_scope.

(** ** Flags *)

(** The flags of a grid ([list-square-flags.h], absent from the sources at
    hand): the enumeration of the specification's data model. *)
Inductive square_flag : Set :=
| SQUARE_VIEW | SQUARE_SEEN | SQUARE_WASSEEN | SQUARE_GLOW | SQUARE_MARK
| SQUARE_ROOM | SQUARE_VAULT | SQUARE_TRAP | SQUARE_INVIS | SQUARE_DTRAP
| SQUARE_DEDGE | SQUARE_FEEL | SQUARE_WALL_INNER | SQUARE_WALL_OUTER
| SQUARE_WALL_SOLID | SQUARE_MON_RESTRICT | SQUARE_NO_TELEPORT
| SQUARE_NO_MAP | SQUARE_NO_ESP.

(** Bit position of a flag; position 0 is the unused [SQUARE_NONE]. *)
Definition square_flag_index (f : square_flag) : Z :=
  match f with
  | SQUARE_VIEW => 1 | SQUARE_SEEN => 2 | SQUARE_WASSEEN => 3
  | SQUARE_GLOW => 4 | SQUARE_MARK => 5 | SQUARE_ROOM => 6
  | SQUARE_VAULT => 7 | SQUARE_TRAP => 8 | SQUARE_INVIS => 9
  | SQUARE_DTRAP => 10 | SQUARE_DEDGE => 11 | SQUARE_FEEL => 12
  | SQUARE_WALL_INNER => 13 | SQUARE_WALL_OUTER => 14
  | SQUARE_WALL_SOLID => 15 | SQUARE_MON_RESTRICT => 16
  | SQUARE_NO_TELEPORT => 17 | SQUARE_NO_MAP => 18 | SQUARE_NO_ESP => 19
  end.

Definition sqinfo_has (s : Z) (f : square_flag) : bool :=
  Z.testbit s (square_flag_index f).
Definition sqinfo_on (s : Z) (f : square_flag) : Z :=
  Z.setbit s (square_flag_index f).
Definition sqinfo_off (s : Z) (f : square_flag) : Z :=
  Z.clearbit s (square_flag_index f).

(** The terrain flags the engine reads ([list-terrain-flags.h]). *)
Inductive terrain_flag : Set :=
| TF_PROJECT | TF_NO_FLOW | TF_INTERESTING | TF_ROCK.

Definition terrain_flag_index (f : terrain_flag) : Z :=
  match f with
  | TF_PROJECT => 1 | TF_NO_FLOW => 2 | TF_INTERESTING => 3 | TF_ROCK => 4
  end.

Record feature_type : Set := { fflags : Z }.

Definition tf_has (s : Z) (f : terrain_flag) : bool :=
  Z.testbit s (terrain_flag_index f).

(** The monster race flags the engine reads. *)
Record monster_race : Set := { rf_has_light : bool }.

Record monster : Set := {
  race : option monster_race;   (* NULL for a dead monster *)
  fy : Z;
  fx : Z }.

Record player_type : Set := {
  py : Z;
  px : Z;
  cur_light : Z;      (* p->state.cur_light *)
  timed_blind : Z }.  (* p->timed[TMD_BLIND] *)

(** [struct loc] and its constructor [loc(x, y)]. *)
Record loc_t : Set := { loc_x : Z; loc_y : Z }.
Definition loc (x y : Z) : loc_t := {| loc_x := x; loc_y := y |}.

(** ** The grid *)

Record chunk : Type := {
  height : Z;
  width : Z;
  feat : Z -> Z -> Z;
  info : Z -> Z -> Z;
  cost : Z -> Z -> Z;
  when_ : Z -> Z -> Z;
  feat_count : Z -> Z;
  feeling_squares : Z;
  monsters : list monster }.   (* cave_monster(c, k), 1 <= k < m_max *)

Definition upd2 {A : Type} (g : Z -> Z -> A) (y x : Z) (v : A) : Z -> Z -> A :=
  fun y' x' => if (y' =? y) && (x' =? x) then v else g y' x'.

Definition upd1 {A : Type} (g : Z -> A) (i : Z) (v : A) : Z -> A :=
  fun i' => if i' =? i then v else g i'.

Definition to_byte (v : Z) : Z := v mod 256.

Definition set_info (c : chunk) (y x s : Z) : chunk :=
  {| height := height c; width := width c; feat := feat c;
     info := upd2 (info c) y x s; cost := cost c; when_ := when_ c;
     feat_count := feat_count c; feeling_squares := feeling_squares c;
     monsters := monsters c |}.

Definition set_feat (c : chunk) (y x f : Z) : chunk :=
  {| height := height c; width := width c;
     feat := upd2 (feat c) y x (to_byte f);
     info := info c; cost := cost c; when_ := when_ c;
     feat_count := feat_count c; feeling_squares := feeling_squares c;
     monsters := monsters c |}.

Definition set_cost (c : chunk) (y x v : Z) : chunk :=
  {| height := height c; width := width c; feat := feat c;
     info := info c; cost := upd2 (cost c) y x (to_byte v); when_ := when_ c;
     feat_count := feat_count c; feeling_squares := feeling_squares c;
     monsters := monsters c |}.

Definition set_when (c : chunk) (y x v : Z) : chunk :=
  {| height := height c; width := width c; feat := feat c;
     info := info c; cost := cost c; when_ := upd2 (when_ c) y x (to_byte v);
     feat_count := feat_count c; feeling_squares := feeling_squares c;
     monsters := monsters c |}.

Definition set_feat_count (c : chunk) (f v : Z) : chunk :=
  {| height := height c; width := width c; feat := feat c;
     info := info c; cost := cost c; when_ := when_ c;
     feat_count := upd1 (feat_count c) f v;
     feeling_squares := feeling_squares c; monsters := monsters c |}.

Definition set_feeling_squares (c : chunk) (v : Z) : chunk :=
  {| height := height c; width := width c; feat := feat c;
     info := info c; cost := cost c; when_ := when_ c;
     feat_count := feat_count c; feeling_squares := v;
     monsters := monsters c |}.

(** [sqinfo_on(c->info[y][x], f)] and [sqinfo_off(c->info[y][x], f)]. *)
Definition info_on (c : chunk) (y x : Z) (f : square_flag) : chunk :=
  set_info c y x (sqinfo_on (info c y x) f).
Definition info_off (c : chunk) (y x : Z) (f : square_flag) : chunk :=
  set_info c y x (sqinfo_off (info c y x) f).

(** ** What the file takes from the rest of the game

    The terrain catalog [f_info] is filled in by the initialisation code;
    [MAX_SIGHT] and [MONSTER_FLOW_DEPTH] are constants of headers that are
    not part of [cave.c]. *)
Class Game : Type := {
  f_info : Z -> feature_type;
  MAX_SIGHT : Z;
  MONSTER_FLOW_DEPTH : Z }.

(** Modelled from the spec: the direction tables [ddy_ddd] and [ddx_ddd]
    live in [tables.c]; they list the 8 neighbours of a grid, the four
    orthogonal ones first. *)
Definition ddy_ddd : list Z := [1; -1; 0; 0; 1; 1; -1; -1].
Definition ddx_ddd : list Z := [0; 0; 1; -1; 1; -1; 1; -1].

(** Size of the circular queue used by [cave_update_flow]. *)
Definition FLOW_MAX : Z := 2048.

(** ** Loops over the grid *)

(** The values [0 .. n-1] of a counting [for] loop. *)
Definition zrange (n : Z) : list Z := map Z.of_nat (seq 0 (Z.to_nat n)).

(** [for (y = 0; y < c->height; y++) for (x = 0; x < c->width; x++) body] *)
Definition for_grid (body : chunk -> Z -> Z -> chunk) (c : chunk) : chunk :=
  fold_left (fun c y => fold_left (fun c x => body c y x) (zrange (width c)) c)
            (zrange (height c)) c.

(** The coordinates the double loop visits, in its order. *)
Definition grid_cells (c : chunk) : list (Z * Z) :=
  flat_map (fun y => map (fun x => (y, x)) (zrange (width c))) (zrange (height c)).

Section Cave.
Context `{G : Game}.

(** ** Predicates on grids *)

Definition square_in_bounds (c : chunk) (y x : Z) : bool :=
  (x >=? 0) && (x <? width c) && (y >=? 0) && (y <? height c).

Definition square_in_bounds_fully (c : chunk) (y x : Z) : bool :=
  (x >? 0) && (x <? width c - 1) && (y >? 0) && (y <? height c - 1).

Definition feat_isprojectable (f : feature_type) : bool :=
  tf_has (fflags f) TF_PROJECT.

Definition square_isprojectable (c : chunk) (y x : Z) : bool :=
  feat_isprojectable (f_info (feat c y x)).

Definition square_iswall (c : chunk) (y x : Z) : bool :=
  negb (square_isprojectable c y x).

(** The flag accessors.  In the source each of them first asserts
    [square_in_bounds]: a caller passes a grid of the level, or the
    assertion stops the game ([cave_room_aux] below writes that out). *)
Definition square_ismark (c : chunk) (y x : Z) : bool :=
  sqinfo_has (info c y x) SQUARE_MARK.
Definition square_isglow (c : chunk) (y x : Z) : bool :=
  sqinfo_has (info c y x) SQUARE_GLOW.
Definition square_isroom (c : chunk) (y x : Z) : bool :=
  sqinfo_has (info c y x) SQUARE_ROOM.
Definition square_isseen (c : chunk) (y x : Z) : bool :=
  sqinfo_has (info c y x) SQUARE_SEEN.
Definition square_isview (c : chunk) (y x : Z) : bool :=
  sqinfo_has (info c y x) SQUARE_VIEW.
Definition square_wasseen (c : chunk) (y x : Z) : bool :=
  sqinfo_has (info c y x) SQUARE_WASSEEN.
Definition square_isfeel (c : chunk) (y x : Z) : bool :=
  sqinfo_has (info c y x) SQUARE_FEEL.


(** ** Distance *)

(** [distance].  The source computes it with [int]s: the value below is
    the source's as long as the two offsets together fit an [int]
    ([distance_in_range] below), as they do between the grids of a level. *)
Definition distance (y1 x1 y2 x2 : Z) : Z :=
  let ay := Z.abs (y2 - y1) in
  let ax := Z.abs (x2 - x1) in
  if ay >? ax then ay + Z.shiftr ax 1 else ax + Z.shiftr ay 1.

(** ** Line of sight *)

(** The four orthogonal scans
    [for (t = from; t < to; t++)] and [for (t = from; t > to; t--)];
    [proj t] is the projectability test of the grid with running
    coordinate [t]. *)
Fixpoint los_scan_up (fuel : nat) (proj : Z -> bool) (t stop : Z) : option bool :=
  match fuel with
  | O => None
  | S fuel' =>
      if t <? stop then
        if negb (proj t) then Some false
        else los_scan_up fuel' proj (t + 1) stop
      else Some true
  end.

Fixpoint los_scan_down (fuel : nat) (proj : Z -> bool) (t stop : Z) : option bool :=
  match fuel with
  | O => None
  | S fuel' =>
      if t >? stop then
        if negb (proj t) then Some false
        else los_scan_down fuel' proj (t - 1) stop
      else Some true
  end.

(** The loop [while (x2 - tx)] of the "travel horizontally" branch. *)
Fixpoint los_walk_h (fuel : nat) (c : chunk) (x2 sx sy f1 f2 m : Z)
    (tx ty qy : Z) : option bool :=
  match fuel with
  | O => None
  | S fuel' =>
      if x2 - tx =? 0 then Some true
      else if negb (square_isprojectable c ty tx) then Some false
      else
        let qy := qy + m in
        if qy <? f2 then
          los_walk_h fuel' c x2 sx sy f1 f2 m (tx + sx) ty qy
        else if qy >? f2 then
          let ty := ty + sy in
          if negb (square_isprojectable c ty tx) then Some false
          else los_walk_h fuel' c x2 sx sy f1 f2 m (tx + sx) ty (qy - f1)
        else
          los_walk_h fuel' c x2 sx sy f1 f2 m (tx + sx) (ty + sy) (qy - f1)
  end.

(** The loop [while (y2 - ty)] of the "travel vertically" branch. *)
Fixpoint los_walk_v (fuel : nat) (c : chunk) (y2 sx sy f1 f2 m : Z)
    (tx ty qx : Z) : option bool :=
  match fuel with
  | O => None
  | S fuel' =>
      if y2 - ty =? 0 then Some true
      else if negb (square_isprojectable c ty tx) then Some false
      else
        let qx := qx + m in
        if qx <? f2 then
          los_walk_v fuel' c y2 sx sy f1 f2 m tx (ty + sy) qx
        else if qx >? f2 then
          let tx := tx + sx in
          if negb (square_isprojectable c ty tx) then Some false
          else los_walk_v fuel' c y2 sx sy f1 f2 m tx (ty + sy) (qx - f1)
        else
          los_walk_v fuel' c y2 sx sy f1 f2 m (tx + sx) (ty + sy) (qx - f1)
  end.

(** The fixed-point walk of [los], from "Calculate scale factor div 2" to
    the end of the function. *)
Definition los_diag (c : chunk) (y1 x1 y2 x2 sx sy ax ay : Z) : option bool :=
  let f2 := ax * ay in
  let f1 := Z.shiftl f2 1 in
  if ax >=? ay then
    let qy := ay * ay in
    let m := Z.shiftl qy 1 in
    let tx := x1 + sx in
    if qy =? f2 then
      los_walk_h (Z.to_nat ax) c x2 sx sy f1 f2 m tx (y1 + sy) (qy - f1)
    else
      los_walk_h (Z.to_nat ax) c x2 sx sy f1 f2 m tx y1 qy
  else
    let qx := ax * ax in
    let m := Z.shiftl qx 1 in
    let ty := y1 + sy in
    if qx =? f2 then
      los_walk_v (Z.to_nat ay) c y2 sx sy f1 f2 m (x1 + sx) ty (qx - f1)
    else
      los_walk_v (Z.to_nat ay) c y2 sx sy f1 f2 m x1 ty qx.

(** [los] with its loops on fuel: [ay] iterations bound the vertical
    loops and [ax] the horizontal ones. *)
Definition los_fuel (c : chunk) (y1 x1 y2 x2 : Z) : option bool :=
  let dy := y2 - y1 in
  let dx := x2 - x1 in
  let ay := Z.abs dy in
  let ax := Z.abs dx in
  if (ax <? 2) && (ay <? 2) then Some true
  else if dx =? 0 then
    if dy >? 0 then
      los_scan_up (Z.to_nat ay) (fun ty => square_isprojectable c ty x1) (y1 + 1) y2
    else
      los_scan_down (Z.to_nat ay) (fun ty => square_isprojectable c ty x1) (y1 - 1) y2
  else if dy =? 0 then
    if dx >? 0 then
      los_scan_up (Z.to_nat ax) (fun tx => square_isprojectable c y1 tx) (x1 + 1) x2
    else
      los_scan_down (Z.to_nat ax) (fun tx => square_isprojectable c y1 tx) (x1 - 1) x2
  else
    let sx := if dx <? 0 then -1 else 1 in
    let sy := if dy <? 0 then -1 else 1 in
    if ax =? 1 then
      if ay =? 2 then
        if square_isprojectable c (y1 + sy) x1 then Some true
        else los_diag c y1 x1 y2 x2 sx sy ax ay
      else los_diag c y1 x1 y2 x2 sx sy ax ay
    else if ay =? 1 then
      if ax =? 2 then
        if square_isprojectable c y1 (x1 + sx) then Some true
        else los_diag c y1 x1 y2 x2 sx sy ax ay
      else los_diag c y1 x1 y2 x2 sx sy ax ay
    else los_diag c y1 x1 y2 x2 sx sy ax ay.

(** [los]: the result of [los_fuel] ([los_fuel_total] shows that the fuel
    never runs out).  The source computes the scale factors, the slope and
    the fractions with [int]s and says "overflow may occur if dx and dy
    exceed 90": the value below is the source's for offsets up to that
    bound ([los_in_range] below), where no product exceeds [3 * 90 * 90];
    [update_view] calls [los] within [MAX_SIGHT] only. *)
Definition los (c : chunk) (y1 x1 y2 x2 : Z) : bool :=
  match los_fuel c y1 x1 y2 x2 with
  | Some b => b
  | None => false
  end.

(** ** Memorising a grid *)

(** [square_note_spot]: the objects of the grid are marked in the object
    registry; on the grid only [SQUARE_MARK] changes. *)
Definition square_note_spot (c : chunk) (y x : Z) : chunk :=
  if negb (square_isseen c y x) then c
  else if square_ismark c y x then c
  else info_on c y x SQUARE_MARK.

(** [square_set_feat]; [character_dungeon] is a global of the game.  The
    source asserts the grid in bounds; the counters are indexed by the
    [int] it is given, and [set_feat] stores it into the byte array. *)
Definition square_set_feat (character_dungeon : bool) (c : chunk)
    (y x new_feat : Z) : chunk :=
  let current_feat := feat c y x in
  let c := if current_feat =? 0 then c
           else set_feat_count c current_feat (feat_count c current_feat - 1) in
  let c := if new_feat =? 0 then c
           else set_feat_count c new_feat (feat_count c new_feat + 1) in
  let c := set_feat c y x new_feat in
  if character_dungeon then square_note_spot c y x
  else
    let c := info_off c y x SQUARE_WALL_INNER in
    let c := info_off c y x SQUARE_WALL_OUTER in
    info_off c y x SQUARE_WALL_SOLID.

(** ** The field of view *)


Definition mark_wasseen (c : chunk) : chunk :=
  for_grid (fun c y x =>
    let c := if square_isseen c y x then info_on c y x SQUARE_WASSEEN else c in
    let c := info_off c y x SQUARE_VIEW in
    info_off c y x SQUARE_SEEN) c.

(** The body of the two inner loops of [add_monster_lights], for the
    offset [(i, j)] of the 3x3 box around monster [m]. *)
Definition add_monster_light_at (from : loc_t) (m : monster) (in_los : bool)
    (c : chunk) (i j : Z) : chunk :=
  let sy := fy m + i in
  let sx := fx m + j in
  if negb in_los && negb (square_isprojectable c sy sx) then c
  else if distance (loc_y from) (loc_x from) sy sx >? MAX_SIGHT then c
  else if negb (los c (loc_y from) (loc_x from) sy sx) then c
  else
    let c := info_on c sy sx SQUARE_VIEW in
    info_on c sy sx SQUARE_SEEN.

(** The body of the loop over the monster list. *)
Definition add_monster_light (from : loc_t) (c : chunk) (m : monster) : chunk :=
  let in_los := los c (loc_y from) (loc_x from) (fy m) (fx m) in
  match race m with
  | None => c
  | Some r =>
      if negb (rf_has_light r) then c
      else
        fold_left (fun c i =>
          fold_left (fun c j => add_monster_light_at from m in_los c i j)
                    [-1; 0; 1] c)
          [-1; 0; 1] c
  end.

Definition add_monster_lights (c : chunk) (from : loc_t) : chunk :=
  fold_left (add_monster_light from) (monsters c) c.

Definition update_one (c : chunk) (y x blind : Z) : chunk :=
  let c := if negb (blind =? 0) then info_off c y x SQUARE_SEEN else c in
  let c :=
    if square_isseen c y x && negb (square_wasseen c y x) then
      let c :=
        if square_isfeel c y x then
          let c := set_feeling_squares c (feeling_squares c + 1) in
          info_off c y x SQUARE_FEEL
        else c in
      square_note_spot c y x
    else c in
  info_off c y x SQUARE_WASSEEN.

Definition become_viewable (c : chunk) (y x : Z) (lit : bool) (py px : Z) : chunk :=
  let xc := x in
  let yc := y in
  if square_isview c y x then c
  else
    let c := info_on c y x SQUARE_VIEW in
    let c := if lit then info_on c y x SQUARE_SEEN else c in
    if square_isglow c y x then
      let '(yc, xc) :=
        if square_iswall c y x then
          (if y <? py then y + 1 else if y >? py then y - 1 else y,
           if x <? px then x + 1 else if x >? px then x - 1 else x)
        else (yc, xc) in
      if square_isglow c yc xc then info_on c y x SQUARE_SEEN else c
    else c.

(** The point whose line of sight decides whether [(y, x)] is viewable:
    the first part of [update_view_one], up to the call of [los]. *)
Definition view_reference (c : chunk) (y x py px : Z) : Z * Z :=
  let xc := x in
  let yc := y in
  if square_iswall c y x then
    let dx := x - px in
    let dy := y - py in
    let ax := Z.abs dx in
    let ay := Z.abs dy in
    let sx := if dx >? 0 then 1 else -1 in
    let sy := if dy >? 0 then 1 else -1 in
    let xc := if x <? px then x + 1 else if x >? px then x - 1 else x in
    let yc := if y <? py then y + 1 else if y >? py then y - 1 else y in
    let '(yc, xc) := if square_iswall c yc xc then (y, x) else (yc, xc) in
    if (ax =? 2) && (ay =? 1) then
      if negb (square_iswall c y (x - sx)) && square_iswall c (y - sy) (x - sx)
      then (y, x) else (yc, xc)
    else if (ax =? 1) && (ay =? 2) then
      if negb (square_iswall c (y - sy) x) && square_iswall c (y - sy) (x - sx)
      then (y, x) else (yc, xc)
    else (yc, xc)
  else (yc, xc).

Definition update_view_one (c : chunk) (y x radius py px : Z) : chunk :=
  let d := distance y x py px in
  let lit := d <? radius in
  if d >? MAX_SIGHT then c
  else
    let '(yc, xc) := view_reference c y x py px in
    if los c py px yc xc then become_viewable c y x lit py px
    else c.

(** The full scan and the commit pass of [update_view]. *)
Definition update_view_scan (c : chunk) (radius py px : Z) : chunk :=
  for_grid (fun c y x => update_view_one c y x radius py px) c.

Definition update_view (c : chunk) (p : player_type) : chunk :=
  let c := mark_wasseen c in
  let radius := cur_light p in
  let radius := if radius >? 0 then radius + 1 else radius in
  let c := add_monster_lights c (loc (px p) (py p)) in
  let c := info_on c (py p) (px p) SQUARE_VIEW in
  let c := if (radius >? 0) || square_isglow c (py p) (px p)
           then info_on c (py p) (px p) SQUARE_SEEN else c in
  let c := update_view_scan c radius (py p) (px p) in
  for_grid (fun c y x => update_one c y x (timed_blind p)) c.


(** ** Room lighting *)

(** A step that may stop on a failed assertion. *)
Definition opt_bind {A B : Type} (e : option A) (f : A -> option B)
    : option B :=
  match e with
  | Some a => f a
  | None => None
  end.

Notation "x <- e ;; f" := (opt_bind e (fun x => f))
  (at level 61, e at next level, right associativity).

(** Modelled from the spec: the point set of [point-set.c], "an
    insertion-ordered, duplicate-free coordinate collection"; a point is
    the pair [(y, x)]. *)
Definition point_set : Type := list (Z * Z).

Definition point_set_contains (ps : point_set) (y x : Z) : bool :=
  existsb (fun q => (fst q =? y) && (snd q =? x)) ps.

Definition add_to_point_set (ps : point_set) (y x : Z) : point_set :=
  ps ++ [(y, x)].



(** [cave_room_aux].  [square_isroom] asserts that its grid is in bounds:
    [None] is the failed assertion, on which the game stops. *)
Definition cave_room_aux (c : chunk) (seen : point_set) (y x : Z)
    : option point_set :=
  if point_set_contains seen y x then Some seen
  else if negb (square_in_bounds c y x) then None
  else if negb (square_isroom c y x) then Some seen
  else Some (add_to_point_set seen y x).

(** "Spread adjacent" and "Spread diagonal": the eight calls of
    [cave_room_aux] around [(y, x)], in the order of the source. *)
Definition light_room_spread (c : chunk) (ps : point_set) (y x : Z)
    : option point_set :=
  ps <- cave_room_aux c ps (y + 1) x ;;
  ps <- cave_room_aux c ps (y - 1) x ;;
  ps <- cave_room_aux c ps y (x + 1) ;;
  ps <- cave_room_aux c ps y (x - 1) ;;
  ps <- cave_room_aux c ps (y + 1) (x + 1) ;;
  ps <- cave_room_aux c ps (y - 1) (x - 1) ;;
  ps <- cave_room_aux c ps (y - 1) (x + 1) ;;
  cave_room_aux c ps (y + 1) (x - 1).

(** The loop [for (i = 0; i < ps->n; i++)] of [light_room], over a set that
    grows while it is scanned; [None] when an assertion fails, or when the
    fuel runs out. *)
Fixpoint light_room_scan (fuel : nat) (c : chunk) (ps : point_set) (i : nat)
    : option point_set :=
  match fuel with
  | O => None
  | S fuel' =>
      match nth_error ps i with
      | None => Some ps
      | Some (y, x) =>
          if negb (square_isprojectable c y x) then
            light_room_scan fuel' c ps (S i)
          else
            ps <- light_room_spread c ps y x ;;
            light_room_scan fuel' c ps (S i)
      end
  end.

(** The grids [light_room] collects from [(y1, x1)]; a room has at most
    [height * width] grids. *)
Definition light_room_set (c : chunk) (y1 x1 : Z) : option point_set :=
  ps <- cave_room_aux c [] y1 x1 ;;
  light_room_scan (S (Z.to_nat (height c * width c))) c ps 0.


(** ** The flow field *)

(** The local state of [cave_update_flow]: the level and the circular
    queue [flow_y], [flow_x] between [flow_head] and [flow_tail]. *)
Record flow_queue : Type := {
  fq_chunk : chunk;
  flow_y : Z -> Z;
  flow_x : Z -> Z;
  flow_head : Z;
  flow_tail : Z }.

(** The body of the loop [for (d = 0; d < 8; d++)] that adds the children
    of the grid [(ty, tx)]. *)
Definition flow_child (flow_n n ty tx : Z) (st : flow_queue) (d : nat)
    : flow_queue :=
  let c := fq_chunk st in
  let old_head := flow_tail st in
  let y := ty + nth d ddy_ddd 0 in
  let x := tx + nth d ddx_ddd 0 in
  if negb (square_in_bounds c y x) then st
  else if when_ c y x =? flow_n then st
  else if tf_has (fflags (f_info (feat c y x))) TF_NO_FLOW then st
  else
    let c := set_when c y x flow_n in
    let c := set_cost c y x n in
    let qy := upd1 (flow_y st) (flow_tail st) (to_byte y) in
    let qx := upd1 (flow_x st) (flow_tail st) (to_byte x) in
    let tail := if flow_tail st + 1 =? FLOW_MAX then 0 else flow_tail st + 1 in
    let tail := if tail =? flow_head st then old_head else tail in
    {| fq_chunk := c; flow_y := qy; flow_x := qx;
       flow_head := flow_head st; flow_tail := tail |}.

Definition flow_children (flow_n n ty tx : Z) (st : flow_queue) : flow_queue :=
  fold_left (flow_child flow_n n ty tx) (seq 0 8) st.

(** The body of the loop [while (flow_head != flow_tail)]: one grid
    leaves the queue and, short of the depth limit, has its children
    added. *)
Definition flow_step (flow_n : Z) (st : flow_queue) : flow_queue :=
  let ty := flow_y st (flow_head st) in
  let tx := flow_x st (flow_head st) in
  let head := if flow_head st + 1 =? FLOW_MAX then 0 else flow_head st + 1 in
  let st := {| fq_chunk := fq_chunk st; flow_y := flow_y st;
               flow_x := flow_x st; flow_head := head;
               flow_tail := flow_tail st |} in
  let n := cost (fq_chunk st) ty tx + 1 in
  if n =? MONSTER_FLOW_DEPTH then st
  else flow_children flow_n n ty tx st.

(** The loop [while (flow_head != flow_tail)]. *)
Fixpoint flow_process (fuel : nat) (flow_n : Z) (st : flow_queue)
    : option flow_queue :=
  match fuel with
  | O => None
  | S fuel' =>
      if flow_head st =? flow_tail st then Some st
      else flow_process fuel' flow_n (flow_step flow_n st)
  end.

(** "Cycle the flow": the rebase of every time stamp. *)
Definition flow_cycle (c : chunk) : chunk :=
  for_grid (fun c y x =>
    let w := when_ c y x in
    set_when c y x (if w >=? 128 then w - 128 else 0)) c.

(** [cave_update_flow]; the static [flow_save] is passed in and returned.
    The queue arrays are locals that the source leaves uninitialised: every
    slot is written before it is read, and they start here as zeroes. *)
Definition cave_update_flow (c : chunk) (p : player_type) (flow_save : Z)
    : option (chunk * Z) :=
  let py := py p in
  let px := px p in
  let flow_tail := 0 in
  let flow_head := 0 in
  let '(c, flow_save) :=
    if flow_save =? 255 then (flow_cycle c, 128) else (c, flow_save + 1) in
  let flow_n := flow_save in
  let c := set_when c py px flow_n in
  let c := set_cost c py px 0 in
  let qy := upd1 (fun _ => 0) flow_head (to_byte py) in
  let qx := upd1 (fun _ => 0) flow_head (to_byte px) in
  let flow_tail := flow_tail + 1 in
  match flow_process (Z.to_nat (height c * width c) + 2) flow_n
          {| fq_chunk := c; flow_y := qy; flow_x := qx;
             flow_head := flow_head; flow_tail := flow_tail |} with
  | Some st => Some (fq_chunk st, flow_save)
  | None => None
  end.

(** [k] calls of [cave_update_flow] in a row, on a level and a player that
    nothing else touches. *)
Fixpoint cave_update_flow_iter (k : nat) (c : chunk) (p : player_type)
    (flow_save : Z) : option (chunk * Z) :=
  match k with
  | O => Some (c, flow_save)
  | S k' =>
      match cave_update_flow c p flow_save with
      | Some (c', flow_save') => cave_update_flow_iter k' c' p flow_save'
      | None => None
      end
  end.

End Cave.


(** ** More of [cave.c]

    The functions of the file around those above: the wrappers of the view
    flags, the edge of a trap detection, the bookkeeping of the flow, the
    forgetting and the lighting of a whole level, the count of features
    around the player and the doors. *)

(** Two more flags of the terrain ([list-terrain-flags.h]), read through
    the same [tf_has] of the source. *)
Inductive terrain_flag_more : Set :=
| TF_FLOOR | TF_SHOP.

Definition terrain_flag_more_index (f : terrain_flag_more) : Z :=
  match f with
  | TF_FLOOR => 5 | TF_SHOP => 6
  end.

Definition tf_has_more (s : Z) (f : terrain_flag_more) : bool :=
  Z.testbit s (terrain_flag_more_index f).

(** The direction tables with their ninth entry, the grid itself, for
    the loops [for (d = 0; d < 9; d++)]. *)
Definition ddy_ddd9 : list Z := ddy_ddd ++ [0].
Definition ddx_ddd9 : list Z := ddx_ddd ++ [0].

(** The values [a .. b-1] of the loop [for (v = a; v < b; v++)]. *)
Definition zrange_from (a b : Z) : list Z := map (fun i => a + i) (zrange (b - a)).

(** [for (y = 1; y < c->height - 1; y++)
       for (x = 1; x < c->width - 1; x++) body] *)
Definition for_interior (body : chunk -> Z -> Z -> chunk) (c : chunk) : chunk :=
  fold_left (fun c y =>
               fold_left (fun c x => body c y x) (zrange_from 1 (width c - 1)) c)
            (zrange_from 1 (height c - 1)) c.

Section CaveMore.
Context `{G : Game}.

(** [player_has_los_bold], [player_can_see_bold] and [no_light], on the
    level [cave] and the player [player] of the game. *)
Definition player_has_los_bold (c : chunk) (y x : Z) : bool :=
  if sqinfo_has (info c y x) SQUARE_VIEW then true else false.

Definition player_can_see_bold (c : chunk) (y x : Z) : bool :=
  if sqinfo_has (info c y x) SQUARE_SEEN then true else false.

Definition no_light (c : chunk) (p : player_type) : bool :=
  negb (player_can_see_bold c (py p) (px p)).

Definition square_isdtrap (c : chunk) (y x : Z) : bool :=
  sqinfo_has (info c y x) SQUARE_DTRAP.

(** [dtrap_edge]: the grid is at the inner edge of a trap detection. *)
Definition dtrap_edge (c : chunk) (y x : Z) : bool :=
  if negb (square_isdtrap c y x) then false
  else if square_in_bounds_fully c (y + 1) x
          && negb (square_isdtrap c (y + 1) x) then true
  else if square_in_bounds_fully c y (x + 1)
          && negb (square_isdtrap c y (x + 1)) then true
  else if square_in_bounds_fully c (y - 1) x
          && negb (square_isdtrap c (y - 1) x) then true
  else if square_in_bounds_fully c y (x - 1)
          && negb (square_isdtrap c y (x - 1)) then true
  else false.

(** [cave_forget_flow]; the static [flow_save] is passed in and
    returned. *)
Definition cave_forget_flow (c : chunk) (flow_save : Z) : chunk * Z :=
  if flow_save =? 0 then (c, flow_save)
  else
    (for_grid (fun c y x =>
                 let c := set_cost c y x 0 in
                 set_when c y x 0) c,
     0).


Definition square_isfloor (c : chunk) (y x : Z) : bool :=
  tf_has_more (fflags (f_info (feat c y x))) TF_FLOOR.

Definition feature_isshop (feat : Z) : bool :=
  tf_has_more (fflags (f_info feat)) TF_SHOP.

Definition square_isshop (c : chunk) (y x : Z) : bool :=
  feature_isshop (feat c y x).

Definition square_seemslikewall (c : chunk) (y x : Z) : bool :=
  tf_has (fflags (f_info (feat c y x))) TF_ROCK.

(** The first pass of [cave_illuminate], "Apply light or darkness". *)
Definition cave_illuminate_apply (c : chunk) (daytime : bool) : chunk :=
  for_grid (fun c y x =>
              let f_ptr := f_info (feat c y x) in
              if daytime || negb (tf_has_more (fflags f_ptr) TF_FLOOR) then
                let c := info_on c y x SQUARE_GLOW in
                info_on c y x SQUARE_MARK
              else
                let c := info_off c y x SQUARE_GLOW in
                info_off c y x SQUARE_MARK) c.

(** The body of its second pass, "Light shop doorways". *)
Definition cave_illuminate_shop (c : chunk) (y x : Z) : chunk :=
  if negb (square_isshop c y x) then c
  else
    fold_left (fun c i =>
                 let yy := y + nth i ddy_ddd 0 in
                 let xx := x + nth i ddx_ddd 0 in
                 let c := info_on c yy xx SQUARE_GLOW in
                 info_on c yy xx SQUARE_MARK) (seq 0 8) c.

(** [cave_illuminate] on the grid. *)
Definition cave_illuminate (c : chunk) (daytime : bool) : chunk :=
  let c := cave_illuminate_apply c daytime in
  for_grid cave_illuminate_shop c.

(** The loop [for (i = 0; i < 9; i++)] of [wiz_light] around the grid
    [(y, x)].  [square_visible_trap] belongs to the trap code, outside
    [cave.c], and is passed in. *)
Definition wiz_light_around (visible_trap : chunk -> Z -> Z -> bool)
    (c : chunk) (y x : Z) : chunk :=
  fold_left (fun c i =>
               let yy := y + nth i ddy_ddd9 0 in
               let xx := x + nth i ddx_ddd9 0 in
               let c := info_on c yy xx SQUARE_GLOW in
               if negb (square_isfloor c yy xx) || visible_trap c yy xx
               then info_on c yy xx SQUARE_MARK
               else c) (seq 0 9) c.

(** [wiz_light] on the grid; [full] only decides how the objects of the
    object registry are marked. *)
Definition wiz_light (visible_trap : chunk -> Z -> Z -> bool) (c : chunk)
    (full : bool) : chunk :=
  for_interior (fun c y x =>
                  if negb (square_seemslikewall c y x)
                  then wiz_light_around visible_trap c y x
                  else c) c.

(** The body of the loop of [count_feats]; the state is the count and the
    location that the pointers [y] and [x] receive. *)
Definition count_feats_step (c : chunk) (p : player_type)
    (test : chunk -> Z -> Z -> bool) (under : bool) (acc : Z * Z * Z) (d : nat)
    : Z * Z * Z :=
  let '(count, y, x) := acc in
  if (Nat.eqb d 8) && negb under then acc
  else
    let yy := py p + nth d ddy_ddd9 0 in
    let xx := px p + nth d ddx_ddd9 0 in
    if negb (square_in_bounds_fully c yy xx) then acc
    else if negb (square_ismark c yy xx) then acc
    else if negb (test c yy xx) then acc
    else (count + 1, yy, xx).

(** [count_feats]: the count, and the location it leaves behind the
    pointers [y] and [x], whose values at the call are passed in. *)
Definition count_feats (c : chunk) (p : player_type) (y x : Z)
    (test : chunk -> Z -> Z -> bool) (under : bool) : Z * Z * Z :=
  fold_left (count_feats_step c p test under) (seq 0 9) (0, y, x).

End CaveMore.

(** The doors: [FEAT_DOOR_HEAD] is a constant of the terrain list, outside
    [cave.c]. *)
Section Doors.
Variable FEAT_DOOR_HEAD : Z.

Definition square_door_power (c : chunk) (y x : Z) : Z :=
  Z.land (feat c y x - FEAT_DOOR_HEAD) 7.

Definition square_lock_door (character_dungeon : bool) (c : chunk)
    (y x power : Z) : chunk :=
  square_set_feat character_dungeon c y x (FEAT_DOOR_HEAD + power).

Definition square_close_door (character_dungeon : bool) (c : chunk)
    (y x : Z) : chunk :=
  square_set_feat character_dungeon c y x FEAT_DOOR_HEAD.

End Doors.

(** ** Notions used to state the properties *)

(** The line from the centre of the start to the centre of the target,
    [ax] columns and [ay] rows away, enters the grid [j] rows and [k]
    columns from the start: in units of [1 / (2 * ax * ay)] of a grid, with
    [a = ay * ay] and [f2 = ax * ay], the line is at height [(2k-1) * a] on
    the near border of column [k] and at height [(2k+1) * a] on its far
    border, and row [j] is the band from [(2j-1) * f2] to [(2j+1) * f2]. *)
Definition line_enters (a f2 k j : Z) : Prop :=
  (- f2 <= (2 * k - 1) * a - j * (2 * f2) < f2) \/
  (- f2 < (2 * k + 1) * a - j * (2 * f2) <= f2).

(** The level read with rows and columns exchanged. *)
Definition transpose (c : chunk) : chunk :=
  {| height := width c; width := height c;
     feat := fun y x => feat c x y; info := fun y x => info c x y;
     cost := fun y x => cost c x y; when_ := fun y x => when_ c x y;
     feat_count := feat_count c; feeling_squares := feeling_squares c;
     monsters := monsters c |}.

(** Every grid that the line from [(y1, x1)] to [(y2, x2)] enters strictly
    between the first and the last step along its longer axis lets
    projections through. *)
Definition diag_clear `{G : Game} (c : chunk) (y1 x1 y2 x2 : Z) : Prop :=
  let dy := y2 - y1 in
  let dx := x2 - x1 in
  let ay := Z.abs dy in
  let ax := Z.abs dx in
  let sx := if dx <? 0 then -1 else 1 in
  let sy := if dy <? 0 then -1 else 1 in
  if ax >=? ay then
    forall k j, 1 <= k < ax -> line_enters (ay * ay) (ax * ay) k j ->
      square_isprojectable c (y1 + sy * j) (x1 + sx * k) = true
  else
    forall k j, 1 <= k < ay -> line_enters (ax * ax) (ax * ay) k j ->
      square_isprojectable c (y1 + sy * k) (x1 + sx * j) = true.

(** The offsets of a chess knight's move. *)
Definition knight_offset (y1 x1 y2 x2 : Z) : Prop :=
  (Z.abs (x2 - x1) = 1 /\ Z.abs (y2 - y1) = 2) \/
  (Z.abs (x2 - x1) = 2 /\ Z.abs (y2 - y1) = 1).

(** The offsets for which the source vouches for the [int] arithmetic of
    [los]: "overflow may occur if dx and dy exceed 90". *)
Definition LOS_OFFSET_MAX : Z := 90.

Definition los_in_range (y1 x1 y2 x2 : Z) : Prop :=
  Z.abs (y2 - y1) <= LOS_OFFSET_MAX /\ Z.abs (x2 - x1) <= LOS_OFFSET_MAX.

(** The largest [int] of the game, 32 bits wide. *)
Definition INT_MAX : Z := 2147483647.

(** No [int] that [distance] computes between the two grids leaves its
    range: the two differences, their absolute values, and the sum of one
    with half of the other are at most the sum of the two offsets. *)
Definition distance_in_range (y1 x1 y2 x2 : Z) : Prop :=
  Z.abs (y2 - y1) + Z.abs (x2 - x1) <= INT_MAX.

(** What [los] decides, regime by regime: nothing for adjacent grids, the
    grids strictly between the ends of an orthogonal line, the single
    near grid of a knight's move, the grids the line enters otherwise. *)
Definition los_clear `{G : Game} (c : chunk) (y1 x1 y2 x2 : Z) : Prop :=
  let dy := y2 - y1 in
  let dx := x2 - x1 in
  let ay := Z.abs dy in
  let ax := Z.abs dx in
  let sx := if dx <? 0 then -1 else 1 in
  let sy := if dy <? 0 then -1 else 1 in
  if (ax <? 2) && (ay <? 2) then True
  else if dx =? 0 then
    forall u, Z.min y1 y2 < u < Z.max y1 y2 -> square_isprojectable c u x1 = true
  else if dy =? 0 then
    forall u, Z.min x1 x2 < u < Z.max x1 x2 -> square_isprojectable c y1 u = true
  else if (ax =? 1) && (ay =? 2) then square_isprojectable c (y1 + sy) x1 = true
  else if (ax =? 2) && (ay =? 1) then square_isprojectable c y1 (x1 + sx) = true
  else diag_clear c y1 x1 y2 x2.

(** The grids strictly between two grids of one row or one column. *)
Definition between_orthogonal (y1 x1 y2 x2 y x : Z) : Prop :=
  (x1 = x2 /\ x = x1 /\ Z.min y1 y2 < y < Z.max y1 y2) \/
  (y1 = y2 /\ y = y1 /\ Z.min x1 x2 < x < Z.max x1 x2).

(** Equality of two flags, through their bit positions. *)
Definition flag_eqb (f g : square_flag) : bool :=
  square_flag_index f =? square_flag_index g.

(** [c'] is the level [c] with, at most, other flags and another count of
    discovered grids. *)
Definition same_level (c c' : chunk) : Prop :=
  height c' = height c /\ width c' = width c /\ feat c' = feat c /\
  monsters c' = monsters c /\ cost c' = cost c /\ when_ c' = when_ c /\
  feat_count c' = feat_count c.

(** One step toward the player along one axis. *)
Definition step_toward (v p : Z) : Z :=
  if v <? p then v + 1 else if v >? p then v - 1 else v.

(** The knight sub-cases of [update_view_one]: the offset is a knight's
    move, the orthogonal neighbour toward the player is open and the
    diagonal neighbour toward the player is a wall. *)
Definition knight_exception `{G : Game} (c : chunk) (y x py px : Z) : bool :=
  let dx := x - px in
  let dy := y - py in
  let sx := if dx >? 0 then 1 else -1 in
  let sy := if dy >? 0 then 1 else -1 in
  ((Z.abs dx =? 2) && (Z.abs dy =? 1)
   && negb (square_iswall c y (x - sx)) && square_iswall c (y - sy) (x - sx))
  || ((Z.abs dx =? 1) && (Z.abs dy =? 2)
      && negb (square_iswall c (y - sy) x) && square_iswall c (y - sy) (x - sx)).

(** The invariant of the field of view at one grid: a seen grid is in
    view. *)
Definition seen_in_view (c : chunk) (y x : Z) : Prop :=
  square_isseen c y x = true -> square_isview c y x = true.

(** Flags exist on the grids of the level only: no grid outside the
    bounds carries the ROOM flag. *)
Definition room_in_bounds (c : chunk) : Prop :=
  forall y x, square_isroom c y x = true ->
              0 <= y < height c /\ 0 <= x < width c.

(** The invariant of the flood: the set has no duplicate and holds ROOM
    grids only. *)
Definition room_set (c : chunk) (ps : point_set) : Prop :=
  NoDup ps /\ Forall (fun q => square_isroom c (fst q) (snd q) = true) ps.

(** The flood of [light_room] with the assertions left out: what the scan
    collects when none of them fails. *)
Definition room_flood_aux (c : chunk) (seen : point_set) (y x : Z) : point_set :=
  if point_set_contains seen y x then seen
  else if negb (square_isroom c y x) then seen
  else add_to_point_set seen y x.

Definition room_flood_spread (c : chunk) (ps : point_set) (y x : Z) : point_set :=
  let ps := room_flood_aux c ps (y + 1) x in
  let ps := room_flood_aux c ps (y - 1) x in
  let ps := room_flood_aux c ps y (x + 1) in
  let ps := room_flood_aux c ps y (x - 1) in
  let ps := room_flood_aux c ps (y + 1) (x + 1) in
  let ps := room_flood_aux c ps (y - 1) (x - 1) in
  let ps := room_flood_aux c ps (y - 1) (x + 1) in
  room_flood_aux c ps (y + 1) (x - 1).

Fixpoint room_flood_scan `{G : Game} (fuel : nat) (c : chunk) (ps : point_set)
    (i : nat) : option point_set :=
  match fuel with
  | O => None
  | S fuel' =>
      match nth_error ps i with
      | None => Some ps
      | Some (y, x) =>
          if negb (square_isprojectable c y x) then
            room_flood_scan fuel' c ps (S i)
          else
            room_flood_scan fuel' c (room_flood_spread c ps y x) (S i)
      end
  end.

Definition room_flood `{G : Game} (c : chunk) (y1 x1 : Z) : option point_set :=
  let ps := room_flood_aux c [] y1 x1 in
  room_flood_scan (S (Z.to_nat (height c * width c))) c ps 0.

(** The grids of a room from which the flood spreads lie off the outer
    ring of the level, so that the eight neighbours that [light_room]
    offers to [cave_room_aux] are grids of the level. *)
Definition room_inside `{G : Game} (c : chunk) : Prop :=
  forall y x, square_isroom c y x = true ->
              square_isprojectable c y x = true ->
              square_in_bounds_fully c y x = true.

(** The flags other than VIEW and SEEN. *)
Definition not_view_flag (f : square_flag) : Prop :=
  SQUARE_VIEW <> f /\ SQUARE_SEEN <> f.

(** The flags that the field of view never writes. *)
Definition stable_flag (f : square_flag) : Prop :=
  not_view_flag f /\ SQUARE_WASSEEN <> f /\ SQUARE_MARK <> f /\ SQUARE_FEEL <> f.

(** [c'] has the flag [f] where [c] has it. *)
Definition keeps_flag (f : square_flag) (c c' : chunk) : Prop :=
  forall y x, sqinfo_has (info c' y x) f = sqinfo_has (info c y x) f.

(** The queue of [cave_update_flow] as a list: the entries from
    [flow_head] up to, not including, [flow_tail], around the end of the
    arrays. *)
Definition flow_wf (st : flow_queue) : Prop :=
  0 <= flow_head st < FLOW_MAX /\ 0 <= flow_tail st < FLOW_MAX.

Definition flow_len (st : flow_queue) : Z :=
  (flow_tail st - flow_head st) mod FLOW_MAX.

Definition flow_entry (st : flow_queue) (i : Z) : Z * Z :=
  (flow_y st (i mod FLOW_MAX), flow_x st (i mod FLOW_MAX)).

Definition flow_list (st : flow_queue) : list (Z * Z) :=
  map (fun k => flow_entry st (flow_head st + Z.of_nat k))
      (seq 0 (Z.to_nat (flow_len st))).

(** [c'] has the size and the terrain of [c]. *)
Definition same_map (c c' : chunk) : Prop :=
  height c' = height c /\ width c' = width c /\ feat c' = feat c.

(** The grids of the level that do not carry the time stamp [n], counted;
    with the length of the queue, what is left for [cave_update_flow] to
    do. *)
Definition flow_unstamped (c : chunk) (n : Z) : nat :=
  length (filter (fun q => negb (when_ c (fst q) (snd q) =? n)) (grid_cells c)).

Definition flow_measure (n : Z) (st : flow_queue) : nat :=
  (flow_unstamped (fq_chunk st) n + Z.to_nat (flow_len st))%nat.

(** The time stamps of the level are those of generations up to
    [flow_save], and [flow_save] is within the range of a byte. *)
Definition flow_inv (c : chunk) (flow_save : Z) : Prop :=
  0 <= flow_save <= 255 /\
  forall y x, square_in_bounds c y x = true -> 0 <= when_ c y x <= flow_save.

(** Two levels carry the same flow: the grids stamped [n1] in the first
    are the grids stamped [n2] in the second, with the same costs. *)
Definition flow_agree (c1 : chunk) (n1 : Z) (c2 : chunk) (n2 : Z) : Prop :=
  forall y x, square_in_bounds c1 y x = true ->
    (when_ c1 y x = n1 <-> when_ c2 y x = n2) /\
    (when_ c1 y x = n1 -> cost c1 y x = cost c2 y x).

(** Two runs of the flow in step: same map, same queue, same flow. *)
Definition flow_rel (n1 n2 : Z) (st1 st2 : flow_queue) : Prop :=
  same_map (fq_chunk st1) (fq_chunk st2) /\
  flow_y st2 = flow_y st1 /\ flow_x st2 = flow_x st1 /\
  flow_head st2 = flow_head st1 /\ flow_tail st2 = flow_tail st1 /\
  flow_agree (fq_chunk st1) n1 (fq_chunk st2) n2.

(** The entries of the queue are grids of the level that carry the
    stamp. *)
Definition flow_live (n : Z) (st : flow_queue) : Prop :=
  forall q, In q (flow_list st) ->
    square_in_bounds (fq_chunk st) (fst q) (snd q) = true /\
    when_ (fq_chunk st) (fst q) (snd q) = n.

(** The distance that the flow measures: a step costs one, diagonal or
    not. *)
Definition chebyshev (y1 x1 y2 x2 : Z) : Z :=
  Z.max (Z.abs (y2 - y1)) (Z.abs (x2 - x1)).

(** The grids of a rectangle, corners included. *)
Definition in_rect (y0 x0 y1 x1 y x : Z) : Prop :=
  y0 <= y <= y1 /\ x0 <= x <= x1.

(** An open rectangular room: its grids are grids of the level whose
    terrain does not block the flow, and a step out of it leads outside the
    level or onto terrain that blocks the flow. *)
Definition open_room_at `{G : Game} (c : chunk) (y0 x0 y1 x1 : Z) : Prop :=
  (forall y x, in_rect y0 x0 y1 x1 y x ->
     square_in_bounds c y x = true /\
     tf_has (fflags (f_info (feat c y x))) TF_NO_FLOW = false) /\
  (forall y x (d : nat), (d < 8)%nat -> in_rect y0 x0 y1 x1 y x ->
     ~ in_rect y0 x0 y1 x1 (y + nth d ddy_ddd 0) (x + nth d ddx_ddd 0) ->
     square_in_bounds c (y + nth d ddy_ddd 0) (x + nth d ddx_ddd 0) = false \/
     tf_has (fflags (f_info (feat c (y + nth d ddy_ddd 0)
                                    (x + nth d ddx_ddd 0)))) TF_NO_FLOW = true).

(** The grids of the box of [h] rows and [w] columns from [(y0, x0)]. *)
Definition box_cells (y0 x0 h w : Z) : list (Z * Z) :=
  flat_map (fun i => map (fun j => (y0 + i, x0 + j)) (zrange w)) (zrange h).

(** Every neighbour of [(y, x)] in the room carries the stamp [n]. *)
Definition flow_expanded (y0 x0 y1 x1 n : Z) (a : chunk) (y x : Z) : Prop :=
  forall d, (d < 8)%nat ->
    in_rect y0 x0 y1 x1 (y + nth d ddy_ddd 0) (x + nth d ddx_ddd 0) ->
    when_ a (y + nth d ddy_ddd 0) (x + nth d ddx_ddd 0) = n.

(** The invariant of the flow in an open room, at the head of the loop:
    stamped grids are grids of the room at their distance from the player;
    the queue holds stamped grids, each once, those at some distance [m]
    before those at distance [m + 1]; a stamped grid that has left the queue
    has its neighbours stamped, unless it sits at the depth limit. *)
Definition flow_bfs_inv `{G : Game} (y0 x0 y1 x1 py px n : Z) (c0 : chunk)
    (st : flow_queue) : Prop :=
  same_map c0 (fq_chunk st) /\ flow_wf st /\
  (forall y x, square_in_bounds (fq_chunk st) y x = true ->
     when_ (fq_chunk st) y x = n ->
     in_rect y0 x0 y1 x1 y x /\
     cost (fq_chunk st) y x = chebyshev py px y x /\
     chebyshev py px y x < MONSTER_FLOW_DEPTH) /\
  when_ (fq_chunk st) py px = n /\
  NoDup (flow_list st) /\
  (forall q, In q (flow_list st) ->
     in_rect y0 x0 y1 x1 (fst q) (snd q) /\
     when_ (fq_chunk st) (fst q) (snd q) = n) /\
  (exists m A B,
     flow_list st = A ++ B /\
     (forall q, In q A -> chebyshev py px (fst q) (snd q) = m) /\
     (forall q, In q B -> chebyshev py px (fst q) (snd q) = m + 1)) /\
  (forall y x, in_rect y0 x0 y1 x1 y x -> when_ (fq_chunk st) y x = n ->
     ~ In (y, x) (flow_list st) ->
     chebyshev py px y x + 1 = MONSTER_FLOW_DEPTH \/
     flow_expanded y0 x0 y1 x1 n (fq_chunk st) y x).

(** The same invariant inside the loop over the children of the grid [t]
    at distance [m], once the directions [done] are dealt with: the queue is
    what the loop found, [rest], and children at distance [m + 1]; the
    grids up to distance [m] are stamped; [t] is the one grid that may still
    have a neighbour without a stamp, in a direction that is not done. *)
Definition flow_bfs_mid `{G : Game} (y0 x0 y1 x1 py px n : Z) (c0 : chunk)
    (t : Z * Z) (rest : list (Z * Z)) (m : Z) (done : list nat)
    (st : flow_queue) : Prop :=
  same_map c0 (fq_chunk st) /\ flow_wf st /\
  (forall y x, square_in_bounds (fq_chunk st) y x = true ->
     when_ (fq_chunk st) y x = n ->
     in_rect y0 x0 y1 x1 y x /\
     cost (fq_chunk st) y x = chebyshev py px y x /\
     chebyshev py px y x < MONSTER_FLOW_DEPTH) /\
  (forall y x, in_rect y0 x0 y1 x1 y x -> chebyshev py px y x <= m ->
     when_ (fq_chunk st) y x = n) /\
  NoDup (flow_list st) /\
  (forall q, In q (flow_list st) ->
     in_rect y0 x0 y1 x1 (fst q) (snd q) /\
     when_ (fq_chunk st) (fst q) (snd q) = n) /\
  (exists C,
     flow_list st = rest ++ C /\
     (forall q, In q C -> chebyshev py px (fst q) (snd q) = m + 1)) /\
  (forall y x, in_rect y0 x0 y1 x1 y x -> when_ (fq_chunk st) y x = n ->
     ~ In (y, x) (flow_list st) -> (y, x) <> t ->
     chebyshev py px y x + 1 = MONSTER_FLOW_DEPTH \/
     flow_expanded y0 x0 y1 x1 n (fq_chunk st) y x) /\
  (forall d, In d done ->
     in_rect y0 x0 y1 x1 (fst t + nth d ddy_ddd 0) (snd t + nth d ddx_ddd 0) ->
     when_ (fq_chunk st) (fst t + nth d ddy_ddd 0) (snd t + nth d ddx_ddd 0)
       = n).

(** The grids of the bounding rectangle of two grids, the two grids
    themselves left out. *)
Definition los_between (y1 x1 y2 x2 y x : Z) : Prop :=
  Z.min y1 y2 <= y <= Z.max y1 y2 /\ Z.min x1 x2 <= x <= Z.max x1 x2 /\
  (y, x) <> (y1, x1) /\ (y, x) <> (y2, x2).

(** The number of grids of the level whose terrain is [f]. *)
Definition feat_census (c : chunk) (f : Z) : Z :=
  Z.of_nat (length (filter (fun q => feat c (fst q) (snd q) =? f)
                           (grid_cells c))).

(** The counters [feat_count] are right: each terrain other than
    [FEAT_NONE], which is not counted, has as many grids as its counter
    says. *)
Definition feat_counted (c : chunk) : Prop :=
  forall f, f <> 0 -> feat_count c f = feat_census c f.

(** The grid [(y, x)] is lit by a monster for a viewer at [from]: it lies
    in the box of three by three grids around a living monster that carries
    a light, within [MAX_SIGHT] of the viewer and in line of sight; and the
    viewer sees the monster, or the grid lets projections through. *)
Definition monster_lit `{G : Game} (c : chunk) (from : loc_t) (y x : Z) : Prop :=
  exists m r,
    In m (monsters c) /\ race m = Some r /\ rf_has_light r = true /\
    -1 <= y - fy m <= 1 /\ -1 <= x - fx m <= 1 /\
    (los c (loc_y from) (loc_x from) (fy m) (fx m) = true \/
     square_isprojectable c y x = true) /\
    distance (loc_y from) (loc_x from) y x <= MAX_SIGHT /\
    los c (loc_y from) (loc_x from) y x = true.

(** What the field of view keeps from one update to the next: no grid of
    the level carries the scratch flag WASSEEN, and a grid that is seen is
    remembered. *)
Definition view_settled (c : chunk) : Prop :=
  forall y x, square_in_bounds c y x = true ->
    square_wasseen c y x = false /\
    (square_isseen c y x = true -> square_ismark c y x = true).

(** [update_view] up to its last pass: the level once the monsters'
    lights, the player's grid and the full scan have set VIEW and SEEN,
    before [update_one] commits them. *)
Definition update_view_lit `{G : Game} (c : chunk) (p : player_type) : chunk :=
  let c := mark_wasseen c in
  let radius := cur_light p in
  let radius := if radius >? 0 then radius + 1 else radius in
  let c := add_monster_lights c (loc (px p) (py p)) in
  let c := info_on c (py p) (px p) SQUARE_VIEW in
  let c := if (radius >? 0) || square_isglow c (py p) (px p)
           then info_on c (py p) (px p) SQUARE_SEEN else c in
  update_view_scan c radius (py p) (px p).

(** The grids that the flood of [light_room] reaches from [(y1, x1)]: the
    origin, if it belongs to a room, and the room grids that touch a
    reached grid which lets projections through. *)
Inductive room_reach `{G : Game} (c : chunk) (y1 x1 : Z) : Z -> Z -> Prop :=
| room_reach_origin :
    square_isroom c y1 x1 = true -> room_reach c y1 x1 y1 x1
| room_reach_step (y x y' x' : Z) :
    room_reach c y1 x1 y x ->
    square_isprojectable c y x = true ->
    -1 <= y' - y <= 1 -> -1 <= x' - x <= 1 ->
    square_isroom c y' x' = true ->
    room_reach c y1 x1 y' x'.

(** The eight steps of "Spread adjacent" and "Spread diagonal", in the
    order of the source. *)
Definition spread_offsets : list (Z * Z) :=
  [(1, 0); (-1, 0); (0, 1); (0, -1); (1, 1); (-1, -1); (-1, 1); (1, -1)].

(** The costs of the flow lead downhill to the player: a grid of the
    level that carries the stamp [n] is the player's grid, at cost 0, or a
    grid whose terrain lets the flow through, at a cost from 1 to the depth
    limit excluded, with a neighbour that carries the stamp at one less. *)
Definition flow_downhill `{G : Game} (py px n : Z) (a : chunk) : Prop :=
  forall y x, square_in_bounds a y x = true -> when_ a y x = n ->
    ((y, x) = (py, px) /\ cost a y x = 0) \/
    (1 <= cost a y x < MONSTER_FLOW_DEPTH /\
     tf_has (fflags (f_info (feat a y x))) TF_NO_FLOW = false /\
     exists d, (d < 8)%nat /\
       square_in_bounds a (y + nth d ddy_ddd 0) (x + nth d ddx_ddd 0) = true /\
       when_ a (y + nth d ddy_ddd 0) (x + nth d ddx_ddd 0) = n /\
       cost a (y + nth d ddy_ddd 0) (x + nth d ddx_ddd 0) = cost a y x - 1).

(** The invariant of the loop of [cave_update_flow] on any map: the queue
    is well formed and holds stamped grids of the level, and the costs
    lead downhill. *)
Definition flow_run_inv `{G : Game} (c0 : chunk) (py px n : Z)
    (st : flow_queue) : Prop :=
  same_map c0 (fq_chunk st) /\ flow_wf st /\ flow_live n st /\
  flow_downhill py px n (fq_chunk st).

(** The grid [(y, x)] touches the entrance of a shop of the level. *)
Definition by_shop `{G : Game} (c : chunk) (y x : Z) : Prop :=
  exists ys xs i,
    square_in_bounds c ys xs = true /\ square_isshop c ys xs = true /\
    (i < 8)%nat /\ y = ys + nth i ddy_ddd 0 /\ x = xs + nth i ddx_ddd 0.

(** The coordinates that the double loop over the interior visits, in its
    order. *)
Definition interior_cells (c : chunk) : list (Z * Z) :=
  flat_map (fun y => map (fun x => (y, x)) (zrange_from 1 (width c - 1)))
           (zrange_from 1 (height c - 1)).

(** The grid [(y, x)] is, or touches, a grid of the interior of the level
    that does not look like a wall. *)
Definition by_open_interior `{G : Game} (c : chunk) (y x : Z) : Prop :=
  exists yc xc,
    square_in_bounds_fully c yc xc = true /\
    square_seemslikewall c yc xc = false /\
    -1 <= y - yc <= 1 /\ -1 <= x - xc <= 1.

(** Two levels show the same scene: same size, terrain and monsters, and
    the same grids glow. *)
Definition same_scene (a b : chunk) : Prop :=
  height b = height a /\ width b = width a /\ feat b = feat a /\
  monsters b = monsters a /\
  forall y x, square_isglow b y x = square_isglow a y x.

(** Two levels with the same scene have the same view: the same grids
    of the level are in view, and the same are seen. *)
Definition same_view (a b : chunk) : Prop :=
  same_scene a b /\
  forall y x, square_in_bounds a y x = true ->
    square_isview b y x = square_isview a y x /\
    square_isseen b y x = square_isseen a y x.

(** ** A small game to run the code on

    Terrain 1 is open floor, terrain 2 a granite wall, terrain 3 an open
    door; the constants are those of the game's headers. *)
Definition FEAT_FLOOR : Z := 1.
Definition FEAT_GRANITE : Z := 2.
Definition FEAT_OPEN : Z := 3.

Definition demo_game : Game :=
  {| f_info := fun f =>
       if f =? FEAT_FLOOR then {| fflags := 2 |}          (* PROJECT *)
       else if f =? FEAT_GRANITE then {| fflags := 20 |}  (* NO_FLOW, ROCK *)
       else if f =? FEAT_OPEN then {| fflags := 10 |}     (* PROJECT, INTERESTING *)
       else {| fflags := 0 |};
     MAX_SIGHT := 20;
     MONSTER_FLOW_DEPTH := 32 |}.

(** A level of the given size, terrain and flags, with no monster and
    the flow arrays zeroed. *)
Definition demo_chunk (h w : Z) (f i : Z -> Z -> Z) : chunk :=
  {| height := h; width := w; feat := f; info := i;
     cost := fun _ _ => 0; when_ := fun _ _ => 0;
     feat_count := fun _ => 0; feeling_squares := 0; monsters := [] |}.

(** An open room: floor everywhere. *)
Definition open_room (h w : Z) : chunk :=
  demo_chunk h w (fun _ _ => FEAT_FLOOR) (fun _ _ => 0).

(** A player at [(y, x)] with a light of the given radius, not blind. *)
Definition demo_player (y x light : Z) : player_type :=
  {| py := y; px := x; cur_light := light; timed_blind := 0 |}.

(** Two rows of four grids.  The far wall [(1, 3)] glows; the grid
    [(0, 2)] in front of it, one step toward a player at [(0, 0)], is a
    dark wall; everything else is dark floor.
<<
      @ . # .
      . . . #      (the last wall glows)
>> *)
Definition glow_wall_level : chunk :=
  demo_chunk 2 4
    (fun y x => if ((y =? 0) && (x =? 2)) || ((y =? 1) && (x =? 3))
                then FEAT_GRANITE else FEAT_FLOOR)
    (fun y x => if (y =? 1) && (x =? 3) then sqinfo_on 0 SQUARE_GLOW else 0).

(** A walled room of five by five grids, all of them flagged ROOM; the
    floor grids [(1, 1)] and [(2, 2)] are remembered (MARK).
<<
      # # # # #
      # . . . #
      # . . . #
      # . . . #
      # # # # #
>> *)
Definition walled_room : chunk :=
  demo_chunk 5 5
    (fun y x => if (1 <=? y) && (y <=? 3) && (1 <=? x) && (x <=? 3)
                then FEAT_FLOOR else FEAT_GRANITE)
    (fun y x => if (0 <=? y) && (y <=? 4) && (0 <=? x) && (x <=? 4) then
                  if ((y =? 1) && (x =? 1)) || ((y =? 2) && (x =? 2))
                  then sqinfo_on (sqinfo_on 0 SQUARE_ROOM) SQUARE_MARK
                  else sqinfo_on 0 SQUARE_ROOM
                else 0).

(** A queue over the open room of three by three grids, with the given
    indices; every slot holds the centre [(1, 1)]. *)
Definition demo_queue (head tail : Z) : flow_queue :=
  {| fq_chunk := open_room 3 3; flow_y := fun _ => 1; flow_x := fun _ => 1;
     flow_head := head; flow_tail := tail |}.

(** A level of two by two floor grids whose terrain counters are
    right. *)
Definition counted_room : chunk :=
  {| height := 2; width := 2; feat := fun _ _ => FEAT_FLOOR;
     info := fun _ _ => 0; cost := fun _ _ => 0; when_ := fun _ _ => 0;
     feat_count := fun f => if f =? FEAT_FLOOR then 4 else 0;
     feeling_squares := 0; monsters := [] |}.

(** The open room of five by five grids with a monster that carries a
    light at [(1, 3)]. *)
Definition lit_monster_room : chunk :=
  {| height := 5; width := 5; feat := fun _ _ => FEAT_FLOOR;
     info := fun _ _ => 0; cost := fun _ _ => 0; when_ := fun _ _ => 0;
     feat_count := fun _ => 0; feeling_squares := 0;
     monsters := [ {| race := Some {| rf_has_light := true |};
                      fy := 1; fx := 3 |} ] |}.

(** A level of seven by seven floor grids where the traps of the three
    by three grids in the middle have been detected. *)
Definition detected_room : chunk :=
  demo_chunk 7 7 (fun _ _ => FEAT_FLOOR)
    (fun y x => if (2 <=? y) && (y <=? 4) && (2 <=? x) && (x <=? 4)
                then sqinfo_on 0 SQUARE_DTRAP else 0).

(** Terrain 4 is the entrance of a shop. *)
Definition FEAT_SHOP_ENTRANCE : Z := 4.

(** A game whose floor carries the flag FLOOR and whose shop entrances
    carry the flag SHOP. *)
Definition town_game : Game :=
  {| f_info := fun f =>
       if f =? FEAT_FLOOR then {| fflags := 34 |}             (* PROJECT, FLOOR *)
       else if f =? FEAT_GRANITE then {| fflags := 20 |}      (* NO_FLOW, ROCK *)
       else if f =? FEAT_SHOP_ENTRANCE then {| fflags := 66 |} (* PROJECT, SHOP *)
       else {| fflags := 0 |};
     MAX_SIGHT := 20;
     MONSTER_FLOW_DEPTH := 32 |}.

(** A town of seven by seven grids: floor, with the entrance of a shop
    at [(2, 2)]. *)
Definition town : chunk :=
  demo_chunk 7 7
    (fun y x => if (y =? 2) && (x =? 2) then FEAT_SHOP_ENTRANCE else FEAT_FLOOR)
    (fun _ _ => 0).

(** The walled room after one call of [cave_update_flow] with the player
    at [(2, 2)] and the counter at 6: the floor carries stamps and
    costs. *)
Definition flowed_room : chunk :=
  match @cave_update_flow demo_game walled_room (demo_player 2 2 0) 6 with
  | Some (c, _) => c
  | None => walled_room
  end.


(** A room of three by three grids of floor, all flagged ROOM, with no
    wall around it. *)
Definition edge_room : chunk :=
  demo_chunk 3 3 (fun _ _ => FEAT_FLOOR)
    (fun y x => if (0 <=? y) && (y <=? 2) && (0 <=? x) && (x <=? 2)
                then sqinfo_on 0 SQUARE_ROOM else 0).

(** * Properties *)

(** ** Bit masks and array updates *)

Lemma square_flag_index_pos (f : square_flag) : 0 <= square_flag_index f.
Proof. destruct f; simpl; lia. Qed.

Lemma square_flag_index_inj (f g : square_flag) :
  square_flag_index f = square_flag_index g -> f = g.
Proof. destruct f, g; simpl; intros H; try reflexivity; discriminate H. Qed.

Lemma sqinfo_has_on_same (s : Z) (f : square_flag) :
  sqinfo_has (sqinfo_on s f) f = true.
Proof. apply Z.setbit_eq, square_flag_index_pos. Qed.

Lemma sqinfo_has_on_other (s : Z) (f g : square_flag) :
  f <> g -> sqinfo_has (sqinfo_on s f) g = sqinfo_has s g.
Proof.
  intros Hfg. apply Z.setbit_neq.
  - apply square_flag_index_pos.
  - intros H. apply Hfg, square_flag_index_inj, H.
Qed.

Lemma sqinfo_has_off_same (s : Z) (f : square_flag) :
  sqinfo_has (sqinfo_off s f) f = false.
Proof. apply Z.clearbit_eq. Qed.

Lemma sqinfo_has_off_other (s : Z) (f g : square_flag) :
  f <> g -> sqinfo_has (sqinfo_off s f) g = sqinfo_has s g.
Proof.
  intros Hfg. apply Z.clearbit_neq.
  intros H. apply Hfg, square_flag_index_inj, H.
Qed.

Lemma upd2_same {A : Type} (g : Z -> Z -> A) (y x : Z) (v : A) :
  upd2 g y x v y x = v.
Proof. unfold upd2. now rewrite !Z.eqb_refl. Qed.

Lemma upd2_other {A : Type} (g : Z -> Z -> A) (y x y' x' : Z) (v : A) :
  (y', x') <> (y, x) -> upd2 g y x v y' x' = g y' x'.
Proof.
  intros Hne. unfold upd2.
  destruct (Z.eqb_spec y' y), (Z.eqb_spec x' x); simpl; try reflexivity.
  subst. now elim Hne.
Qed.

Lemma upd1_same {A : Type} (g : Z -> A) (i : Z) (v : A) : upd1 g i v i = v.
Proof. unfold upd1. now rewrite Z.eqb_refl. Qed.

Lemma upd1_other {A : Type} (g : Z -> A) (i j : Z) (v : A) :
  j <> i -> upd1 g i v j = g j.
Proof. intros Hne. unfold upd1. now destruct (Z.eqb_spec j i). Qed.

Lemma cell_eq_dec (a b : Z * Z) : {a = b} + {a <> b}.
Proof. decide equality; apply Z.eq_dec. Qed.

Lemma zrange_In (n v : Z) : In v (zrange n) <-> 0 <= v < n.
Proof.
  unfold zrange. rewrite in_map_iff. split.
  - intros [k [<- Hk]]. apply in_seq in Hk. lia.
  - intros Hv. exists (Z.to_nat v). split; [lia|]. apply in_seq. lia.
Qed.

Lemma zrange_NoDup (n : Z) : NoDup (zrange n).
Proof.
  unfold zrange. apply Injective_map_NoDup.
  - intros a b H. lia.
  - apply seq_NoDup.
Qed.

Lemma zrange_length (n : Z) : length (zrange n) = Z.to_nat n.
Proof. unfold zrange. now rewrite length_map, length_seq. Qed.

Section LineOfSight.
Context `{G : Game}.

(** ** Line of sight: the orthogonal scans *)

Lemma los_scan_up_spec (proj : Z -> bool) (stop : Z) (fuel : nat) (t : Z) :
  (Z.to_nat (stop - t) < fuel)%nat ->
  exists b, los_scan_up fuel proj t stop = Some b /\
            (b = true <-> forall u, t <= u < stop -> proj u = true).
Proof.
  revert t. induction fuel as [|fuel IH]; intros t Hfuel; [lia|].
  simpl. destruct (Z.ltb_spec t stop) as [Hlt|Hge].
  - destruct (proj t) eqn:Ht; simpl.
    + destruct (IH (t + 1)) as [b [Hb Hiff]]; [lia|].
      exists b. split; [exact Hb|]. rewrite Hiff. split.
      * intros H u Hu. destruct (Z.eq_dec u t) as [->|]; [exact Ht|].
        apply H. lia.
      * intros H u Hu. apply H. lia.
    + exists false. split; [reflexivity|]. split; [discriminate|].
      intros H. rewrite (H t) in Ht by lia. discriminate Ht.
  - exists true. split; [reflexivity|]. split; [|reflexivity].
    intros _ u Hu. lia.
Qed.

Lemma los_scan_down_spec (proj : Z -> bool) (stop : Z) (fuel : nat) (t : Z) :
  (Z.to_nat (t - stop) < fuel)%nat ->
  exists b, los_scan_down fuel proj t stop = Some b /\
            (b = true <-> forall u, stop < u <= t -> proj u = true).
Proof.
  revert t. induction fuel as [|fuel IH]; intros t Hfuel; [lia|].
  simpl. destruct (Z.gtb_spec t stop) as [Hgt|Hle].
  - destruct (proj t) eqn:Ht; simpl.
    + destruct (IH (t - 1)) as [b [Hb Hiff]]; [lia|].
      exists b. split; [exact Hb|]. rewrite Hiff. split.
      * intros H u Hu. destruct (Z.eq_dec u t) as [->|]; [exact Ht|].
        apply H. lia.
      * intros H u Hu. apply H. lia.
    + exists false. split; [reflexivity|]. split; [discriminate|].
      intros H. rewrite (H t) in Ht by lia. discriminate Ht.
  - exists true. split; [reflexivity|]. split; [|reflexivity].
    intros _ u Hu. lia.
Qed.

(** ** Line of sight: the fixed-point walk *)

Lemma band_unique (f x j j' : Z) :
  0 < f ->
  - f <= x - j * (2 * f) <= f ->
  - f < x - j' * (2 * f) < f ->
  j = j'.
Proof. intros Hf H1 H2. nia. Qed.

Lemma band_unique_low (f x j j' : Z) :
  0 < f ->
  - f <= x - j * (2 * f) < f ->
  - f <= x - j' * (2 * f) < f ->
  j = j'.
Proof. intros Hf H1 H2. nia. Qed.

Lemma band_unique_high (f x j j' : Z) :
  0 < f ->
  - f < x - j * (2 * f) <= f ->
  - f < x - j' * (2 * f) <= f ->
  j = j'.
Proof. intros Hf H1 H2. nia. Qed.

Lemma los_walk_h_spec (c : chunk) (x1 y1 sx sy ax a f2 : Z) :
  sx = 1 \/ sx = -1 ->
  0 < a <= f2 ->
  forall (fuel : nat) (k j q : Z),
  1 <= k <= ax ->
  q = (2 * k - 1) * a - j * (2 * f2) ->
  - f2 <= q < f2 ->
  (Z.to_nat (ax - k) < fuel)%nat ->
  exists b,
    los_walk_h fuel c (x1 + sx * ax) sx sy (2 * f2) f2 (2 * a)
               (x1 + sx * k) (y1 + sy * j) q = Some b /\
    (b = true <->
     forall k' j', k <= k' < ax -> line_enters a f2 k' j' ->
       square_isprojectable c (y1 + sy * j') (x1 + sx * k') = true).
Proof.
  intros Hsx Ha. induction fuel as [|fuel IH]; intros k j q Hk Hq Hband Hfuel;
    [lia|].
  cbn [los_walk_h].
  destruct (Z.eqb_spec (x1 + sx * ax - (x1 + sx * k)) 0) as [Hend|Hmore].
  { exists true. split; [reflexivity|]. split; [|reflexivity].
    intros _ k' j' Hk'. assert (k = ax) by nia. lia. }
  assert (Hlt : k < ax) by (destruct (Z.eq_dec k ax); [subst; lia | lia]).
  destruct (square_isprojectable c (y1 + sy * j) (x1 + sx * k)) eqn:Hp; cbn [negb].
  2:{ exists false. split; [reflexivity|]. split; [discriminate|].
      intros H. rewrite (H k j) in Hp; [discriminate Hp | lia | left; lia]. }
  replace (x1 + sx * k + sx) with (x1 + sx * (k + 1)) by ring.
  replace (y1 + sy * j + sy) with (y1 + sy * (j + 1)) by ring.
  destruct (Z.ltb_spec (q + 2 * a) f2) as [Hlow|Hnlow].
  - (* the line stays in row j *)
    destruct (IH (k + 1) j (q + 2 * a)) as [b [Hb Hiff]]; try lia.
    exists b. split; [exact Hb|]. rewrite Hiff. split.
    + intros H k' j' Hk' He. destruct (Z.eq_dec k' k) as [->|Hne].
      * assert (j' = j); [|subst j'; exact Hp].
        destruct He as [He|He].
        -- apply (band_unique_low f2 ((2 * k - 1) * a)); lia.
        -- apply (band_unique_high f2 ((2 * k + 1) * a)); lia.
      * apply H; [lia | exact He].
    + intros H k' j' Hk' He. apply H; [lia | exact He].
  - destruct (Z.gtb_spec (q + 2 * a) f2) as [Hhigh|Hnhigh].
    + (* the line enters row j + 1 inside column k *)
      destruct (square_isprojectable c (y1 + sy * (j + 1)) (x1 + sx * k)) eqn:Hp';
        cbn [negb].
      2:{ exists false. split; [reflexivity|]. split; [discriminate|].
          intros H. rewrite (H k (j + 1)) in Hp'; [discriminate Hp' | lia |].
          right. lia. }
      destruct (IH (k + 1) (j + 1) (q + 2 * a - 2 * f2)) as [b [Hb Hiff]];
        try lia.
      exists b. split; [exact Hb|]. rewrite Hiff. split.
      * intros H k' j' Hk' He. destruct (Z.eq_dec k' k) as [->|Hne].
        -- destruct He as [He|He].
           ++ assert (j' = j); [|subst j'; exact Hp].
              apply (band_unique_low f2 ((2 * k - 1) * a)); lia.
           ++ assert (j' = j + 1); [|subst j'; exact Hp'].
              apply (band_unique_high f2 ((2 * k + 1) * a)); lia.
        -- apply H; [lia | exact He].
      * intros H k' j' Hk' He. apply H; [lia | exact He].
    + (* the line leaves column k through the corner of the grid *)
      destruct (IH (k + 1) (j + 1) (q + 2 * a - 2 * f2)) as [b [Hb Hiff]];
        try lia.
      exists b. split; [exact Hb|]. rewrite Hiff. split.
      * intros H k' j' Hk' He. destruct (Z.eq_dec k' k) as [->|Hne].
        -- assert (j' = j); [|subst j'; exact Hp].
           destruct He as [He|He].
           ++ apply (band_unique_low f2 ((2 * k - 1) * a)); lia.
           ++ apply (band_unique_high f2 ((2 * k + 1) * a)); lia.
        -- apply H; [lia | exact He].
      * intros H k' j' Hk' He. apply H; [lia | exact He].
Qed.

Lemma square_isprojectable_transpose (c : chunk) (y x : Z) :
  square_isprojectable (transpose c) y x = square_isprojectable c x y.
Proof. reflexivity. Qed.

Lemma los_walk_v_transpose (c : chunk) (y2 sx sy f1 f2 m : Z) (fuel : nat) :
  forall tx ty qx,
  los_walk_v fuel c y2 sx sy f1 f2 m tx ty qx =
  los_walk_h fuel (transpose c) y2 sy sx f1 f2 m ty tx qx.
Proof.
  induction fuel as [|fuel IH]; intros tx ty qx; [reflexivity|].
  cbn [los_walk_v los_walk_h]. rewrite !square_isprojectable_transpose.
  destruct (y2 - ty =? 0); [reflexivity|].
  destruct (square_isprojectable c ty tx); [|reflexivity]. cbn [negb].
  destruct (qx + m <? f2); [apply IH|].
  destruct (qx + m >? f2); [|apply IH].
  destruct (square_isprojectable c ty (tx + sx)); [|reflexivity].
  apply IH.
Qed.

Lemma shiftl_1 (v : Z) : Z.shiftl v 1 = 2 * v.
Proof. rewrite Z.shiftl_mul_pow2 by lia. change (2 ^ 1) with 2. ring. Qed.

Lemma shiftr_1 (v : Z) : Z.shiftr v 1 = v / 2.
Proof. rewrite Z.shiftr_div_pow2 by lia. reflexivity. Qed.

(** The walk ends, and succeeds exactly on a clear line. *)
Lemma los_diag_walk (c : chunk) (y1 x1 sx sy ax ay : Z) :
  sx = 1 \/ sx = -1 -> sy = 1 \/ sy = -1 -> 1 <= ax -> 1 <= ay ->
  exists b,
    los_diag c y1 x1 (y1 + sy * ay) (x1 + sx * ax) sx sy ax ay = Some b /\
    (b = true <->
     if ax >=? ay then
       forall k j, 1 <= k < ax -> line_enters (ay * ay) (ax * ay) k j ->
         square_isprojectable c (y1 + sy * j) (x1 + sx * k) = true
     else
       forall k j, 1 <= k < ay -> line_enters (ax * ax) (ax * ay) k j ->
         square_isprojectable c (y1 + sy * k) (x1 + sx * j) = true).
Proof.
  intros Hsx Hsy Hax Hay. unfold los_diag. rewrite !shiftl_1.
  destruct (Z.geb_spec ax ay) as [Hge|Hlt].
  - replace (x1 + sx) with (x1 + sx * 1) by ring.
    destruct (Z.eqb_spec (ay * ay) (ax * ay)) as [Heq|Hne].
    + replace (y1 + sy) with (y1 + sy * 1) by ring.
      apply los_walk_h_spec; try assumption; try nia.
    + destruct (los_walk_h_spec c x1 y1 sx sy ax (ay * ay) (ax * ay) Hsx
                  ltac:(nia) (Z.to_nat ax) 1 0 (ay * ay))
        as [b [Hb Hiff]]; try nia.
      replace (y1 + sy * 0) with y1 in Hb by ring.
      exists b. split; [exact Hb | exact Hiff].
  - rewrite !los_walk_v_transpose.
    replace (y1 + sy) with (y1 + sy * 1) by ring.
    destruct (Z.eqb_spec (ax * ax) (ax * ay)) as [Heq|Hne]; [nia|].
    destruct (los_walk_h_spec (transpose c) y1 x1 sy sx ay (ax * ax) (ax * ay)
                Hsy ltac:(nia) (Z.to_nat ay) 1 0 (ax * ax))
      as [b [Hb Hiff]]; try nia.
    replace (x1 + sx * 0) with x1 in Hb by ring.
    exists b. split; [exact Hb|]. rewrite Hiff. split.
    + intros H k j Hk He. rewrite <- square_isprojectable_transpose.
      apply H; assumption.
    + intros H k j Hk He. rewrite square_isprojectable_transpose.
      apply H; assumption.
Qed.

Lemma los_diag_spec (c : chunk) (y1 x1 y2 x2 : Z) :
  x2 - x1 <> 0 -> y2 - y1 <> 0 ->
  exists b,
    los_diag c y1 x1 y2 x2
      (if x2 - x1 <? 0 then -1 else 1) (if y2 - y1 <? 0 then -1 else 1)
      (Z.abs (x2 - x1)) (Z.abs (y2 - y1)) = Some b /\
    (b = true <-> diag_clear c y1 x1 y2 x2).
Proof.
  intros Hdx Hdy. unfold diag_clear.
  pose proof (los_diag_walk c y1 x1
    (if x2 - x1 <? 0 then -1 else 1) (if y2 - y1 <? 0 then -1 else 1)
    (Z.abs (x2 - x1)) (Z.abs (y2 - y1))) as H.
  replace (y1 + (if y2 - y1 <? 0 then -1 else 1) * Z.abs (y2 - y1))
    with y2 in H by (destruct (Z.ltb_spec (y2 - y1) 0); lia).
  replace (x1 + (if x2 - x1 <? 0 then -1 else 1) * Z.abs (x2 - x1))
    with x2 in H by (destruct (Z.ltb_spec (x2 - x1) 0); lia).
  apply H.
  - destruct (x2 - x1 <? 0); auto.
  - destruct (y2 - y1 <? 0); auto.
  - lia.
  - lia.
Qed.

(** On a knight's move the walk tests the near grid first. *)
Lemma diag_clear_knight_v (c : chunk) (y1 x1 y2 x2 : Z) :
  Z.abs (x2 - x1) = 1 -> Z.abs (y2 - y1) = 2 ->
  diag_clear c y1 x1 y2 x2 ->
  square_isprojectable c (y1 + (if y2 - y1 <? 0 then -1 else 1)) x1 = true.
Proof.
  intros Hax Hay. unfold diag_clear. rewrite Hax, Hay. cbn [Z.geb Z.compare Pos.compare Pos.compare_cont].
  intros H. specialize (H 1 0).
  replace (y1 + (if y2 - y1 <? 0 then -1 else 1) * 1)
    with (y1 + (if y2 - y1 <? 0 then -1 else 1)) in H by ring.
  replace (x1 + (if x2 - x1 <? 0 then -1 else 1) * 0) with x1 in H by ring.
  apply H; [lia|]. left. lia.
Qed.

Lemma diag_clear_knight_h (c : chunk) (y1 x1 y2 x2 : Z) :
  Z.abs (x2 - x1) = 2 -> Z.abs (y2 - y1) = 1 ->
  diag_clear c y1 x1 y2 x2 ->
  square_isprojectable c y1 (x1 + (if x2 - x1 <? 0 then -1 else 1)) = true.
Proof.
  intros Hax Hay. unfold diag_clear. rewrite Hax, Hay. cbn [Z.geb Z.compare Pos.compare Pos.compare_cont].
  intros H. specialize (H 1 0).
  replace (x1 + (if x2 - x1 <? 0 then -1 else 1) * 1)
    with (x1 + (if x2 - x1 <? 0 then -1 else 1)) in H by ring.
  replace (y1 + (if y2 - y1 <? 0 then -1 else 1) * 0) with y1 in H by ring.
  apply H; [lia|]. left. lia.
Qed.

(** [los_fuel] always has a result, and the result is [los_clear]. *)
Lemma los_fuel_spec (c : chunk) (y1 x1 y2 x2 : Z) :
  exists b, los_fuel c y1 x1 y2 x2 = Some b /\
            (b = true <-> los_clear c y1 x1 y2 x2).
Proof.
  cbv beta zeta delta [los_fuel los_clear].
  destruct (Z.ltb_spec (Z.abs (x2 - x1)) 2) as [Hax2|Hax2];
  destruct (Z.ltb_spec (Z.abs (y2 - y1)) 2) as [Hay2|Hay2]; cbn [andb].
  1:{ exists true. tauto. }
  all: destruct (Z.eqb_spec (x2 - x1) 0) as [Hdx|Hdx].
  all: try (exfalso; lia).
  all: try (destruct (Z.gtb_spec (y2 - y1) 0) as [Hdy|Hdy];
            [ destruct (los_scan_up_spec (fun ty => square_isprojectable c ty x1)
                          y2 (Z.to_nat (Z.abs (y2 - y1))) (y1 + 1))
                as [b [Hb Hiff]]; [lia|];
              exists b; split; [exact Hb|]; rewrite Hiff;
              split; intros H u Hu; apply H; lia
            | destruct (los_scan_down_spec (fun ty => square_isprojectable c ty x1)
                          y2 (Z.to_nat (Z.abs (y2 - y1))) (y1 - 1))
                as [b [Hb Hiff]]; [lia|];
              exists b; split; [exact Hb|]; rewrite Hiff;
              split; intros H u Hu; apply H; lia ]).
  all: destruct (Z.eqb_spec (y2 - y1) 0) as [Hdy|Hdy].
  all: try (exfalso; lia).
  all: try (destruct (Z.gtb_spec (x2 - x1) 0) as [Hdx'|Hdx'];
            [ destruct (los_scan_up_spec (fun tx => square_isprojectable c y1 tx)
                          x2 (Z.to_nat (Z.abs (x2 - x1))) (x1 + 1))
                as [b [Hb Hiff]]; [lia|];
              exists b; split; [exact Hb|]; rewrite Hiff;
              split; intros H u Hu; apply H; lia
            | destruct (los_scan_down_spec (fun tx => square_isprojectable c y1 tx)
                          x2 (Z.to_nat (Z.abs (x2 - x1))) (x1 - 1))
                as [b [Hb Hiff]]; [lia|];
              exists b; split; [exact Hb|]; rewrite Hiff;
              split; intros H u Hu; apply H; lia ]).
  all: destruct (los_diag_spec c y1 x1 y2 x2 Hdx Hdy) as [b [Hb Hiff]].
  all: destruct (Z.eqb_spec (Z.abs (x2 - x1)) 1) as [Hx1|Hx1];
       destruct (Z.eqb_spec (Z.abs (y2 - y1)) 2) as [Hy2|Hy2];
       destruct (Z.eqb_spec (Z.abs (y2 - y1)) 1) as [Hy1|Hy1];
       destruct (Z.eqb_spec (Z.abs (x2 - x1)) 2) as [Hx2|Hx2];
       cbn [andb]; try (exfalso; lia).
  all: try (exists b; split; [exact Hb | exact Hiff]).
  - destruct (square_isprojectable c
               (y1 + (if y2 - y1 <? 0 then -1 else 1)) x1) eqn:Hp.
    + exists true. tauto.
    + exists b. split; [exact Hb|]. rewrite Hiff. split; [|discriminate].
      intros Hd. rewrite (diag_clear_knight_v c y1 x1 y2 x2 Hx1 Hy2 Hd) in Hp.
      discriminate Hp.
  - destruct (square_isprojectable c y1
               (x1 + (if x2 - x1 <? 0 then -1 else 1))) eqn:Hp.
    + exists true. tauto.
    + exists b. split; [exact Hb|]. rewrite Hiff. split; [|discriminate].
      intros Hd. rewrite (diag_clear_knight_h c y1 x1 y2 x2 Hx2 Hy1 Hd) in Hp.
      discriminate Hp.
Qed.

Lemma los_fuel_total (c : chunk) (y1 x1 y2 x2 : Z) :
  los_fuel c y1 x1 y2 x2 = Some (los c y1 x1 y2 x2).
Proof.
  unfold los. destruct (los_fuel_spec c y1 x1 y2 x2) as [b [Hb _]].
  now rewrite Hb.
Qed.

Lemma los_iff_clear (c : chunk) (y1 x1 y2 x2 : Z) :
  los c y1 x1 y2 x2 = true <-> los_clear c y1 x1 y2 x2.
Proof.
  unfold los. destruct (los_fuel_spec c y1 x1 y2 x2) as [b [Hb Hiff]].
  now rewrite Hb.
Qed.

Lemma line_enters_flip (a b f2 k j : Z) :
  f2 = a * b ->
  line_enters (a * a) f2 k j -> line_enters (a * a) f2 (b - k) (a - j).
Proof.
  intros -> [H|H]; [right|left].
  - replace ((2 * (b - k) + 1) * (a * a) - (a - j) * (2 * (a * b)))
      with (- ((2 * k - 1) * (a * a) - j * (2 * (a * b)))) by ring. lia.
  - replace ((2 * (b - k) - 1) * (a * a) - (a - j) * (2 * (a * b)))
      with (- ((2 * k + 1) * (a * a) - j * (2 * (a * b)))) by ring. lia.
Qed.

(** The line from B to A enters the grids that the line from A to B
    enters. *)
Lemma diag_clear_sym (c : chunk) (y1 x1 y2 x2 : Z) :
  x2 - x1 <> 0 -> y2 - y1 <> 0 ->
  diag_clear c y1 x1 y2 x2 -> diag_clear c y2 x2 y1 x1.
Proof.
  intros Hdx Hdy. unfold diag_clear.
  replace (Z.abs (x1 - x2)) with (Z.abs (x2 - x1)) by lia.
  replace (Z.abs (y1 - y2)) with (Z.abs (y2 - y1)) by lia.
  assert (Hx : x2 = x1 + (if x2 - x1 <? 0 then -1 else 1) * Z.abs (x2 - x1))
    by (destruct (Z.ltb_spec (x2 - x1) 0); lia).
  assert (Hy : y2 = y1 + (if y2 - y1 <? 0 then -1 else 1) * Z.abs (y2 - y1))
    by (destruct (Z.ltb_spec (y2 - y1) 0); lia).
  assert (Hsx : (if x1 - x2 <? 0 then -1 else 1)
                = - (if x2 - x1 <? 0 then -1 else 1))
    by (destruct (Z.ltb_spec (x1 - x2) 0), (Z.ltb_spec (x2 - x1) 0); lia).
  assert (Hsy : (if y1 - y2 <? 0 then -1 else 1)
                = - (if y2 - y1 <? 0 then -1 else 1))
    by (destruct (Z.ltb_spec (y1 - y2) 0), (Z.ltb_spec (y2 - y1) 0); lia).
  rewrite Hsx, Hsy. clear Hsx Hsy.
  remember (if x2 - x1 <? 0 then -1 else 1) as sx eqn:Esx.
  remember (if y2 - y1 <? 0 then -1 else 1) as sy eqn:Esy.
  remember (Z.abs (x2 - x1)) as ax eqn:Eax.
  remember (Z.abs (y2 - y1)) as ay eqn:Eay.
  clear Esx Esy Eax Eay Hdx Hdy. subst x2 y2.
  destruct (ax >=? ay); intros H k j Hk He.
  - replace (y1 + sy * ay + - sy * j) with (y1 + sy * (ay - j)) by ring.
    replace (x1 + sx * ax + - sx * k) with (x1 + sx * (ax - k)) by ring.
    apply H; [lia|]. apply line_enters_flip; [ring | exact He].
  - replace (y1 + sy * ay + - sy * k) with (y1 + sy * (ay - k)) by ring.
    replace (x1 + sx * ax + - sx * j) with (x1 + sx * (ax - j)) by ring.
    apply H; [lia|]. apply line_enters_flip; [ring | exact He].
Qed.

Lemma los_clear_sym (c : chunk) (y1 x1 y2 x2 : Z) :
  ~ knight_offset y1 x1 y2 x2 ->
  los_clear c y1 x1 y2 x2 -> los_clear c y2 x2 y1 x1.
Proof.
  unfold knight_offset, los_clear. intros Hk.
  replace (Z.abs (x1 - x2)) with (Z.abs (x2 - x1)) by lia.
  replace (Z.abs (y1 - y2)) with (Z.abs (y2 - y1)) by lia.
  destruct ((Z.abs (x2 - x1) <? 2) && (Z.abs (y2 - y1) <? 2)); [trivial|].
  destruct (Z.eqb_spec (x2 - x1) 0) as [Hdx|Hdx];
    destruct (Z.eqb_spec (x1 - x2) 0) as [Hdx'|Hdx']; try (exfalso; lia).
  { intros H u Hu. replace x2 with x1 by lia. apply H. lia. }
  destruct (Z.eqb_spec (y2 - y1) 0) as [Hdy|Hdy];
    destruct (Z.eqb_spec (y1 - y2) 0) as [Hdy'|Hdy']; try (exfalso; lia).
  { intros H u Hu. replace y2 with y1 by lia. apply H. lia. }
  destruct (Z.eqb_spec (Z.abs (x2 - x1)) 1) as [Hx1|Hx1];
    destruct (Z.eqb_spec (Z.abs (y2 - y1)) 2) as [Hy2|Hy2];
    destruct (Z.eqb_spec (Z.abs (y2 - y1)) 1) as [Hy1|Hy1];
    destruct (Z.eqb_spec (Z.abs (x2 - x1)) 2) as [Hx2|Hx2];
    cbn [andb]; try (exfalso; lia); try (exfalso; apply Hk; lia).
  all: apply diag_clear_sym; assumption.
Qed.

(** ** C3 *)

(** C3. For every grid and every pair of coordinates whose offset is not
    a knight's move, [los] from the first to the second returns what [los]
    from the second to the first returns.  The offset is within the bound
    that the source gives for the [int] arithmetic of [los]. *)
Theorem los_symmetric (c : chunk) (y1 x1 y2 x2 : Z) :
  los_in_range y1 x1 y2 x2 ->
  ~ knight_offset y1 x1 y2 x2 ->
  los c y1 x1 y2 x2 = los c y2 x2 y1 x1.
Proof.
  intros _ Hk. apply eq_true_iff_eq. rewrite !los_iff_clear. split.
  - apply los_clear_sym, Hk.
  - apply los_clear_sym. unfold knight_offset in *. lia.
Qed.

(** ** C6 *)

(** C6. On a knight's move, [los] returns true whenever the grid next to
    the start along the axis of the larger delta, on the side of that
    delta's sign, is projectable. *)
Theorem los_knight_move (c : chunk) (y1 x1 y2 x2 : Z) :
  (Z.abs (x2 - x1) = 1 /\ Z.abs (y2 - y1) = 2 /\
   square_isprojectable c (y1 + Z.sgn (y2 - y1)) x1 = true) \/
  (Z.abs (x2 - x1) = 2 /\ Z.abs (y2 - y1) = 1 /\
   square_isprojectable c y1 (x1 + Z.sgn (x2 - x1)) = true) ->
  los c y1 x1 y2 x2 = true.
Proof.
  intros H. apply los_iff_clear. unfold los_clear.
  destruct H as [[Hx [Hy Hp]]|[Hx [Hy Hp]]]; rewrite Hx, Hy; cbn [Z.ltb Z.compare Pos.compare Pos.compare_cont andb Z.eqb Pos.eqb].
  - destruct (Z.eqb_spec (x2 - x1) 0); [lia|].
    destruct (Z.eqb_spec (y2 - y1) 0); [lia|].
    replace (if y2 - y1 <? 0 then -1 else 1) with (Z.sgn (y2 - y1))
      by (destruct (Z.ltb_spec (y2 - y1) 0); lia).
    exact Hp.
  - destruct (Z.eqb_spec (x2 - x1) 0); [lia|].
    destruct (Z.eqb_spec (y2 - y1) 0); [lia|].
    replace (if x2 - x1 <? 0 then -1 else 1) with (Z.sgn (x2 - x1))
      by (destruct (Z.ltb_spec (x2 - x1) 0); lia).
    exact Hp.
Qed.

(** ** C7 *)

Lemma to_byte_small (v : Z) : 0 <= v < 256 -> to_byte v = v.
Proof. intros H. unfold to_byte. now apply Z.mod_small. Qed.

Lemma feat_square_set_feat (cd : bool) (c : chunk) (y x v y' x' : Z) :
  feat (square_set_feat cd c y x v) y' x'
  = upd2 (feat c) y x (to_byte v) y' x'.
Proof.
  unfold square_set_feat, square_note_spot.
  destruct (feat c y x =? 0), (v =? 0), cd; cbn [feat set_feat set_feat_count
    info_on info_off set_info];
    repeat match goal with |- context [if ?b then _ else _] => destruct b end;
    reflexivity.
Qed.

Lemma square_isprojectable_set_feat (cd : bool) (c : chunk) (y x v y' x' : Z) :
  square_isprojectable (square_set_feat cd c y x v) y' x' =
  if (y' =? y) && (x' =? x) then feat_isprojectable (f_info (to_byte v))
  else square_isprojectable c y' x'.
Proof.
  unfold square_isprojectable. rewrite feat_square_set_feat. unfold upd2.
  now destruct ((y' =? y) && (x' =? x)).
Qed.

Lemma los_orthogonal_iff (c : chunk) (y1 x1 y2 x2 : Z) :
  (x1 = x2 /\ 2 <= Z.abs (y2 - y1)) \/ (y1 = y2 /\ 2 <= Z.abs (x2 - x1)) ->
  (los c y1 x1 y2 x2 = true <->
   forall y x, between_orthogonal y1 x1 y2 x2 y x ->
               square_isprojectable c y x = true).
Proof.
  intros Hal. rewrite los_iff_clear. unfold los_clear, between_orthogonal.
  destruct Hal as [[Hx Hd]|[Hy Hd]].
  - destruct (Z.ltb_spec (Z.abs (y2 - y1)) 2) as [E1|E1]; [lia|].
    rewrite andb_false_r.
    destruct (Z.eqb_spec (x2 - x1) 0) as [E2|E2]; [|lia]. split.
    + intros H y x [[_ [-> Hb]]|[Hyy _]]; [apply H, Hb | lia].
    + intros H u Hu. apply H. left. auto.
  - destruct (Z.ltb_spec (Z.abs (x2 - x1)) 2) as [E1|E1]; [lia|]. cbn [andb].
    destruct (Z.eqb_spec (x2 - x1) 0) as [E2|E2]; [lia|].
    destruct (Z.eqb_spec (y2 - y1) 0) as [E3|E3]; [|lia]. split.
    + intros H y x [[Hxx _]|[_ [-> Hb]]]; [lia | apply H, Hb].
    + intros H u Hu. apply H. right. auto.
Qed.

(** C7. Between two distinct grids of one row or one column, at least two
    apart, [los] holds exactly when every grid strictly between them is
    projectable; so turning one of those grids into a wall makes a true
    [los] false, and putting the old terrain back makes it true again.
    The grid that changes is a grid of the level, and the wall, like the
    terrain it replaces, fits the byte that [feat] stores. *)
Theorem los_orthogonal_blocking (c : chunk) (y1 x1 y2 x2 : Z) :
  (x1 = x2 /\ 2 <= Z.abs (y2 - y1)) \/ (y1 = y2 /\ 2 <= Z.abs (x2 - x1)) ->
  (los c y1 x1 y2 x2 = true <->
   forall y x, between_orthogonal y1 x1 y2 x2 y x ->
               square_isprojectable c y x = true) /\
  (forall (character_dungeon : bool) (y x wall : Z),
     between_orthogonal y1 x1 y2 x2 y x ->
     square_in_bounds c y x = true ->
     0 <= wall < 256 -> 0 <= feat c y x < 256 ->
     feat_isprojectable (f_info wall) = false ->
     los c y1 x1 y2 x2 = true ->
     los (square_set_feat character_dungeon c y x wall) y1 x1 y2 x2 = false /\
     los (square_set_feat character_dungeon
            (square_set_feat character_dungeon c y x wall) y x (feat c y x))
         y1 x1 y2 x2 = true).
Proof.
  intros Hal. split; [apply los_orthogonal_iff, Hal|].
  intros cd y x wall Hb _ Hbyte Hold Hwall Hlos. split.
  - apply not_true_is_false. intros H.
    rewrite (los_orthogonal_iff _ _ _ _ _ Hal) in H.
    specialize (H y x Hb). rewrite square_isprojectable_set_feat in H.
    rewrite !Z.eqb_refl, to_byte_small in H by exact Hbyte.
    cbn [andb] in H. congruence.
  - rewrite (los_orthogonal_iff c _ _ _ _ Hal) in Hlos.
    apply (los_orthogonal_iff _ _ _ _ _ Hal).
    intros y' x' Hb'. rewrite !square_isprojectable_set_feat.
    destruct ((y' =? y) && (x' =? x)) eqn:E.
    + apply andb_true_iff in E. destruct E as [Ey Ex].
      apply Z.eqb_eq in Ey, Ex. subst y' x'.
      rewrite to_byte_small by exact Hold. apply (Hlos y x Hb).
    + apply Hlos, Hb'.
Qed.

End LineOfSight.

(** The properties of [los] on a corridor of the small game. *)

Lemma los_knight_move_witness :
  ((Z.abs (1 - 0) = 1 /\ Z.abs (2 - 0) = 2 /\
    @square_isprojectable demo_game (open_room 3 3) (0 + Z.sgn (2 - 0)) 0 = true) \/
   (Z.abs (1 - 0) = 2 /\ Z.abs (2 - 0) = 1 /\
    @square_isprojectable demo_game (open_room 3 3) 0 (0 + Z.sgn (1 - 0)) = true)) /\
  @los demo_game (open_room 3 3) 0 0 2 1 = true.
Proof.
  assert (H : (Z.abs (1 - 0) = 1 /\ Z.abs (2 - 0) = 2 /\
    @square_isprojectable demo_game (open_room 3 3) (0 + Z.sgn (2 - 0)) 0 = true) \/
   (Z.abs (1 - 0) = 2 /\ Z.abs (2 - 0) = 1 /\
    @square_isprojectable demo_game (open_room 3 3) 0 (0 + Z.sgn (1 - 0)) = true)).
  { left. repeat split; reflexivity. }
  split; [exact H|]. exact (@los_knight_move demo_game (open_room 3 3) 0 0 2 1 H).
Defined.

Lemma los_symmetric_witness :
  (los_in_range 0 0 2 3 /\ ~ knight_offset 0 0 2 3) /\
  @los demo_game (open_room 4 4) 0 0 2 3 = @los demo_game (open_room 4 4) 2 3 0 0.
Proof.
  assert (H : ~ knight_offset 0 0 2 3) by (unfold knight_offset; simpl; lia).
  assert (R : los_in_range 0 0 2 3)
    by (unfold los_in_range, LOS_OFFSET_MAX; simpl; lia).
  split; [exact (conj R H)|].
  exact (@los_symmetric demo_game (open_room 4 4) 0 0 2 3 R H).
Defined.

Lemma los_orthogonal_blocking_witness :
  ((0 = 0 /\ 2 <= Z.abs (3 - 0)) \/ (0 = 3 /\ 2 <= Z.abs (0 - 0))) /\
  @los demo_game (open_room 4 1) 0 0 3 0 = true /\
  @los demo_game (square_set_feat true (open_room 4 1) 2 0 FEAT_GRANITE)
       0 0 3 0 = false /\
  @los demo_game
       (square_set_feat true
          (square_set_feat true (open_room 4 1) 2 0 FEAT_GRANITE)
          2 0 FEAT_FLOOR) 0 0 3 0 = true.
Proof.
  assert (H : (0 = 0 /\ 2 <= Z.abs (3 - 0)) \/ (0 = 3 /\ 2 <= Z.abs (0 - 0)))
    by (left; simpl; lia).
  split; [exact H|].
  assert (L : @los demo_game (open_room 4 1) 0 0 3 0 = true) by reflexivity.
  split; [exact L|].
  apply (proj2 (@los_orthogonal_blocking demo_game (open_room 4 1) 0 0 3 0 H)
           true 2 0 FEAT_GRANITE).
  - left. simpl. lia.
  - reflexivity.
  - unfold FEAT_GRANITE. lia.
  - cbn. unfold FEAT_FLOOR. lia.
  - reflexivity.
  - exact L.
Defined.

(** ** Flags of a level after a store *)

Lemma flag_eqb_eq (f g : square_flag) : flag_eqb f g = true <-> f = g.
Proof.
  unfold flag_eqb. rewrite Z.eqb_eq. split.
  - apply square_flag_index_inj.
  - now intros ->.
Qed.

Lemma has_info_on (c : chunk) (y x : Z) (f : square_flag) (y' x' : Z)
    (g : square_flag) :
  sqinfo_has (info (info_on c y x f) y' x') g =
  ((y' =? y) && (x' =? x) && flag_eqb f g) || sqinfo_has (info c y' x') g.
Proof.
  cbn. unfold upd2.
  destruct (Z.eqb_spec y' y) as [->|], (Z.eqb_spec x' x) as [->|]; cbn;
    try reflexivity.
  destruct (flag_eqb f g) eqn:E; cbn.
  - apply flag_eqb_eq in E. subst g. apply sqinfo_has_on_same.
  - apply sqinfo_has_on_other. intros ->.
    assert (flag_eqb g g = true) by now apply flag_eqb_eq. congruence.
Qed.

Lemma has_info_off (c : chunk) (y x : Z) (f : square_flag) (y' x' : Z)
    (g : square_flag) :
  sqinfo_has (info (info_off c y x f) y' x') g =
  negb ((y' =? y) && (x' =? x) && flag_eqb f g) && sqinfo_has (info c y' x') g.
Proof.
  cbn. unfold upd2.
  destruct (Z.eqb_spec y' y) as [->|], (Z.eqb_spec x' x) as [->|]; cbn;
    try reflexivity.
  destruct (flag_eqb f g) eqn:E; cbn.
  - apply flag_eqb_eq in E. subst g. apply sqinfo_has_off_same.
  - apply sqinfo_has_off_other. intros ->.
    assert (flag_eqb g g = true) by now apply flag_eqb_eq. congruence.
Qed.

Lemma info_info_on_other (c : chunk) (y x : Z) (f : square_flag) (y' x' : Z) :
  (y', x') <> (y, x) -> info (info_on c y x f) y' x' = info c y' x'.
Proof. intros H. cbn. now apply upd2_other. Qed.

Lemma info_info_off_other (c : chunk) (y x : Z) (f : square_flag) (y' x' : Z) :
  (y', x') <> (y, x) -> info (info_off c y x f) y' x' = info c y' x'.
Proof. intros H. cbn. now apply upd2_other. Qed.

(** ** Frames *)

Lemma same_level_refl (c : chunk) : same_level c c.
Proof. unfold same_level. tauto. Qed.

Lemma same_level_trans (c1 c2 c3 : chunk) :
  same_level c1 c2 -> same_level c2 c3 -> same_level c1 c3.
Proof.
  unfold same_level. intros (A1 & A2 & A3 & A4 & A5 & A6 & A7)
    (B1 & B2 & B3 & B4 & B5 & B6 & B7).
  repeat split; congruence.
Qed.

Lemma same_level_info_on (c : chunk) (y x : Z) (f : square_flag) :
  same_level c (info_on c y x f).
Proof. unfold same_level. cbn. tauto. Qed.

Lemma same_level_info_off (c : chunk) (y x : Z) (f : square_flag) :
  same_level c (info_off c y x f).
Proof. unfold same_level. cbn. tauto. Qed.

Lemma same_level_feeling (c : chunk) (v : Z) :
  same_level c (set_feeling_squares c v).
Proof. unfold same_level. cbn. tauto. Qed.

Ltac level_step :=
  match goal with
  | |- same_level ?c ?c => apply same_level_refl
  | |- same_level ?c (if ?b then _ else _) => destruct b
  | |- same_level ?c (let '(_, _) := ?p in _) => destruct p
  | |- same_level ?c (info_on ?d _ _ _) =>
      apply (same_level_trans c d); [|apply same_level_info_on]
  | |- same_level ?c (info_off ?d _ _ _) =>
      apply (same_level_trans c d); [|apply same_level_info_off]
  | |- same_level ?c (set_feeling_squares ?d _) =>
      apply (same_level_trans c d); [|apply same_level_feeling]
  end.

Ltac level := cbv beta zeta; repeat level_step.

(** ** Loops over the grid *)

Lemma fold_left_invariant {A B : Type} (P : A -> Prop) (f : A -> B -> A)
    (l : list B) :
  (forall a b, In b l -> P a -> P (f a b)) ->
  forall a, P a -> P (fold_left f l a).
Proof.
  induction l as [|b l IH]; intros Hf a Ha; [exact Ha|].
  cbn. apply IH.
  - intros a' b' Hb'. apply Hf. now right.
  - apply Hf; [now left | exact Ha].
Qed.

(** Something that one iteration establishes and the others keep. *)
Lemma fold_left_establish {A B : Type} (Q : A -> Prop) (f : A -> B -> A)
    (l : list B) (b : B) :
  In b l ->
  (forall a, Q (f a b)) ->
  (forall a b', Q a -> Q (f a b')) ->
  forall a, Q (fold_left f l a).
Proof.
  intros Hin Hest Hkeep. induction l as [|b' l IH]; intros a; [destruct Hin|].
  cbn. destruct Hin as [->|Hin].
  - apply fold_left_invariant; [intros; now apply Hkeep | apply Hest].
  - now apply IH.
Qed.

(** The same, below an invariant that holds until the iteration. *)
Lemma fold_left_establish_inv {A B : Type} (P Q : A -> Prop) (f : A -> B -> A)
    (l : list B) (b : B) :
  (forall x y : B, {x = y} + {x <> y}) ->
  In b l ->
  (forall a b', P a -> b' <> b -> P (f a b')) ->
  (forall a, P a -> Q (f a b)) ->
  (forall a b', Q a -> Q (f a b')) ->
  forall a, P a -> Q (fold_left f l a).
Proof.
  intros Hdec Hin HP Hest Hkeep.
  induction l as [|b' l IH]; intros a Ha; [destruct Hin|].
  cbn. destruct (Hdec b' b) as [->|Hne].
  - apply fold_left_invariant; [intros; now apply Hkeep | now apply Hest].
  - destruct Hin as [E|Hin]; [contradiction|]. apply IH; [exact Hin|].
    now apply HP.
Qed.

Lemma grid_cells_In (c : chunk) (y x : Z) :
  In (y, x) (grid_cells c) <-> 0 <= y < height c /\ 0 <= x < width c.
Proof.
  unfold grid_cells. rewrite in_flat_map. split.
  - intros [y' [Hy H]]. apply in_map_iff in H. destruct H as [x' [E Hx]].
    inversion E; subst. now rewrite zrange_In in Hy, Hx.
  - intros [Hy Hx]. exists y. rewrite zrange_In. split; [exact Hy|].
    apply in_map_iff. exists x. now rewrite zrange_In.
Qed.

Lemma for_grid_rows (body : chunk -> Z -> Z -> chunk) (w : Z) :
  (forall c y x, width (body c y x) = width c) ->
  forall (rows : list Z) (c : chunk),
  width c = w ->
  fold_left (fun c y => fold_left (fun c x => body c y x) (zrange (width c)) c)
            rows c =
  fold_left (fun c q => body c (fst q) (snd q))
            (flat_map (fun y => map (fun x => (y, x)) (zrange w)) rows) c.
Proof.
  intros Hw.
  assert (Hin : forall (l : list Z) (c' : chunk) (y : Z),
    fold_left (fun c x => body c y x) l c' =
    fold_left (fun c q => body c (fst q) (snd q)) (map (fun x => (y, x)) l) c').
  { induction l as [|x l IH]; intros c' y; [reflexivity|]. cbn. apply IH. }
  assert (Hwf : forall (l : list Z) (c' : chunk) (y : Z),
    width (fold_left (fun c x => body c y x) l c') = width c').
  { intros l c' y. apply (fold_left_invariant (fun d => width d = width c'));
      [intros; rewrite Hw; assumption | reflexivity]. }
  induction rows as [|y rows IH]; intros c Hc; [reflexivity|].
  cbn. rewrite fold_left_app, <- Hin, Hc. apply IH.
  now rewrite Hwf.
Qed.

(** The double loop is one loop over [grid_cells], when the body keeps
    the width of the level. *)
Lemma for_grid_cells (body : chunk -> Z -> Z -> chunk) (c : chunk) :
  (forall c y x, width (body c y x) = width c) ->
  for_grid body c =
  fold_left (fun c q => body c (fst q) (snd q)) (grid_cells c) c.
Proof.
  intros Hw. unfold for_grid, grid_cells. now apply for_grid_rows.
Qed.

Lemma for_grid_invariant (P : chunk -> Prop) (body : chunk -> Z -> Z -> chunk)
    (c : chunk) :
  (forall c y x, P c -> P (body c y x)) -> P c -> P (for_grid body c).
Proof.
  intros Hb Hc. unfold for_grid.
  apply fold_left_invariant; [|exact Hc]. intros a y _ Ha.
  apply fold_left_invariant; [|exact Ha]. intros a' x _ Ha'. now apply Hb.
Qed.

Lemma for_grid_same_level (body : chunk -> Z -> Z -> chunk) (c : chunk) :
  (forall c y x, same_level c (body c y x)) -> same_level c (for_grid body c).
Proof.
  intros Hb. apply (for_grid_invariant (same_level c)).
  - intros c' y x Hc'. eapply same_level_trans; [exact Hc' | apply Hb].
  - apply same_level_refl.
Qed.

(** Something that the body establishes at [(y, x)] and keeps elsewhere
    holds after the loop, for [(y, x)] in bounds. *)
Lemma for_grid_establish (Q : chunk -> Prop) (body : chunk -> Z -> Z -> chunk)
    (c : chunk) (y x : Z) :
  (forall c y x, width (body c y x) = width c) ->
  0 <= y < height c -> 0 <= x < width c ->
  (forall c, Q (body c y x)) ->
  (forall c y' x', Q c -> Q (body c y' x')) ->
  Q (for_grid body c).
Proof.
  intros Hw Hy Hx Hest Hkeep. rewrite for_grid_cells by exact Hw.
  apply (fold_left_establish Q _ _ (y, x)).
  - now apply grid_cells_In.
  - intros a. apply Hest.
  - intros a [y' x'] Ha. now apply Hkeep.
Qed.

Lemma for_grid_establish_inv (P Q : chunk -> Prop)
    (body : chunk -> Z -> Z -> chunk) (c : chunk) (y x : Z) :
  (forall c y x, width (body c y x) = width c) ->
  0 <= y < height c -> 0 <= x < width c ->
  (forall c y' x', P c -> (y', x') <> (y, x) -> P (body c y' x')) ->
  (forall c, P c -> Q (body c y x)) ->
  (forall c y' x', Q c -> Q (body c y' x')) ->
  P c -> Q (for_grid body c).
Proof.
  intros Hw Hy Hx HP Hest Hkeep Hc. rewrite for_grid_cells by exact Hw.
  apply (fold_left_establish_inv P Q _ _ (y, x)).
  - apply cell_eq_dec.
  - now apply grid_cells_In.
  - intros a [y' x'] Ha Hne. now apply HP.
  - intros a Ha. now apply Hest.
  - intros a [y' x'] Ha. now apply Hkeep.
  - exact Hc.
Qed.

Lemma info_set_feeling_squares (c : chunk) (v : Z) :
  info (set_feeling_squares c v) = info c.
Proof. reflexivity. Qed.

Ltac flags :=
  unfold square_isseen, square_isview, square_wasseen, square_ismark,
    square_isglow, square_isfeel, square_isroom in *;
  repeat (progress
            rewrite ?has_info_on, ?has_info_off, ?info_set_feeling_squares in *);
  cbn [flag_eqb square_flag_index Z.eqb Pos.eqb andb orb negb] in *;
  rewrite ?andb_false_r, ?andb_true_r, ?orb_false_r, ?orb_true_r in *;
  cbn [andb orb negb] in *.

Ltac bools :=
  repeat match goal with
         | H : @eq bool _ _ |- _ => revert H
         end;
  repeat match goal with
         | |- context [Z.eqb ?a ?b] => destruct (Z.eqb_spec a b); try subst
         end;
  cbn [andb orb negb];
  repeat match goal with
         | |- context [sqinfo_has ?a ?b] => destruct (sqinfo_has a b)
         end;
  cbn [andb orb negb]; intuition congruence.

Ltac split_ifs :=
  repeat match goal with
         | |- context [if ?b then _ else _] => destruct b eqn:?
         | |- context [let '(_, _) := ?p in _] => destruct p eqn:?
         end.

Section FieldOfView.
Context `{G : Game}.

(** ** The passes of [update_view] keep the level *)

Lemma same_level_square_note_spot (c : chunk) (y x : Z) :
  same_level c (square_note_spot c y x).
Proof. unfold square_note_spot. level. Qed.

Lemma same_level_update_one (c : chunk) (y x blind : Z) :
  same_level c (update_one c y x blind).
Proof.
  unfold update_one. cbv beta zeta. level_step.
  match goal with |- same_level _ (if ?b then _ else _) => destruct b end;
    [|level].
  eapply same_level_trans; [|apply same_level_square_note_spot]. level.
Qed.

Lemma same_level_become_viewable (c : chunk) (y x : Z) (lit : bool) (py px : Z) :
  same_level c (become_viewable c y x lit py px).
Proof. unfold become_viewable. level. Qed.

Lemma same_level_update_view_one (c : chunk) (y x radius py px : Z) :
  same_level c (update_view_one c y x radius py px).
Proof.
  unfold update_view_one. level. apply same_level_become_viewable.
Qed.

Lemma same_level_add_monster_light_at (from : loc_t) (m : monster)
    (in_los : bool) (c : chunk) (i j : Z) :
  same_level c (add_monster_light_at from m in_los c i j).
Proof. unfold add_monster_light_at. level. Qed.

Lemma same_level_add_monster_light (from : loc_t) (c : chunk) (m : monster) :
  same_level c (add_monster_light from c m).
Proof.
  unfold add_monster_light. destruct (race m) as [r|]; [|level].
  destruct (negb (rf_has_light r)); [level|].
  apply (fold_left_invariant (same_level c)); [|level]. intros a i _ Ha.
  apply (fold_left_invariant (same_level c)); [|exact Ha]. intros a' j _ Ha'.
  eapply same_level_trans; [exact Ha' | apply same_level_add_monster_light_at].
Qed.

Lemma same_level_add_monster_lights (c : chunk) (from : loc_t) :
  same_level c (add_monster_lights c from).
Proof.
  unfold add_monster_lights.
  apply (fold_left_invariant (same_level c)); [|level]. intros a m _ Ha.
  eapply same_level_trans; [exact Ha | apply same_level_add_monster_light].
Qed.

Lemma same_level_mark_wasseen (c : chunk) : same_level c (mark_wasseen c).
Proof. apply for_grid_same_level. intros. level. Qed.


Lemma same_level_update_view_scan (c : chunk) (radius py px : Z) :
  same_level c (update_view_scan c radius py px).
Proof.
  apply for_grid_same_level. intros. apply same_level_update_view_one.
Qed.

Lemma same_level_update_view (c : chunk) (p : player_type) :
  same_level c (update_view c p).
Proof.
  unfold update_view.
  eapply same_level_trans;
    [|apply for_grid_same_level; intros; apply same_level_update_one].
  eapply same_level_trans; [|apply same_level_update_view_scan].
  level.
  all: eapply same_level_trans;
    [apply same_level_mark_wasseen | apply same_level_add_monster_lights].
Qed.


Lemma same_level_width (c c' : chunk) : same_level c c' -> width c' = width c.
Proof. unfold same_level. tauto. Qed.

Lemma same_level_height (c c' : chunk) : same_level c c' -> height c' = height c.
Proof. unfold same_level. tauto. Qed.

Lemma square_in_bounds_iff (c : chunk) (y x : Z) :
  square_in_bounds c y x = true <-> 0 <= y < height c /\ 0 <= x < width c.
Proof. unfold square_in_bounds. rewrite !andb_true_iff. lia. Qed.

(** ** C1: a seen grid is in view *)

Lemma seen_in_view_add_monster_light_at (from : loc_t) (m : monster)
    (in_los : bool) (c : chunk) (i j y x : Z) :
  seen_in_view c y x ->
  seen_in_view (add_monster_light_at from m in_los c i j) y x.
Proof.
  unfold add_monster_light_at. cbv zeta. intros H. split_ifs; try exact H.
  revert H. unfold seen_in_view. flags. bools.
Qed.

Lemma seen_in_view_add_monster_lights (c : chunk) (from : loc_t) (y x : Z) :
  seen_in_view c y x -> seen_in_view (add_monster_lights c from) y x.
Proof.
  unfold add_monster_lights.
  apply (fold_left_invariant (fun c => seen_in_view c y x)).
  intros a m _ Ha. unfold add_monster_light.
  destruct (race m) as [r|]; [|exact Ha].
  destruct (negb (rf_has_light r)); [exact Ha|].
  apply (fold_left_invariant (fun c => seen_in_view c y x)); [|exact Ha].
  intros a' i _ Ha'.
  apply (fold_left_invariant (fun c => seen_in_view c y x)); [|exact Ha'].
  intros a'' j _. apply seen_in_view_add_monster_light_at.
Qed.

Lemma seen_in_view_become_viewable (c : chunk) (y' x' : Z) (lit : bool)
    (py px y x : Z) :
  seen_in_view c y x -> seen_in_view (become_viewable c y' x' lit py px) y x.
Proof.
  unfold become_viewable. cbv zeta. intros H. split_ifs; try exact H.
  all: revert H; unfold seen_in_view; flags; bools.
Qed.

Lemma seen_in_view_update_view_one (c : chunk) (y' x' radius py px y x : Z) :
  seen_in_view c y x ->
  seen_in_view (update_view_one c y' x' radius py px) y x.
Proof.
  unfold update_view_one. cbv zeta. intros H. split_ifs; try exact H.
  now apply seen_in_view_become_viewable.
Qed.

Lemma update_one_other (c : chunk) (y' x' blind y x : Z) :
  (y, x) <> (y', x') -> info (update_one c y' x' blind) y x = info c y x.
Proof.
  intros Hne. unfold update_one, square_note_spot. cbv zeta.
  split_ifs;
    repeat (first [ rewrite info_info_on_other by exact Hne
                  | rewrite info_info_off_other by exact Hne
                  | rewrite info_set_feeling_squares ]);
    reflexivity.
Qed.


(** What [update_one] leaves on its own grid. *)
Lemma update_one_flags (c : chunk) (y x blind : Z) :
  square_isseen (update_one c y x blind) y x
    = (blind =? 0) && square_isseen c y x /\
  square_wasseen (update_one c y x blind) y x = false /\
  square_isview (update_one c y x blind) y x = square_isview c y x /\
  square_ismark (update_one c y x blind) y x
    = square_ismark c y x
      || ((blind =? 0) && square_isseen c y x && negb (square_wasseen c y x)).
Proof.
  unfold update_one, square_note_spot. cbv zeta.
  unfold square_isseen, square_wasseen, square_isview, square_ismark,
    square_isfeel.
  destruct (blind =? 0); cbn [negb andb];
    repeat first
      [ progress rewrite ?has_info_on, ?has_info_off,
          ?info_set_feeling_squares, ?Z.eqb_refl
      | progress cbn [flag_eqb square_flag_index Z.eqb Pos.eqb andb orb negb]
      | match goal with
        | H : sqinfo_has (info c y x) _ = _ |- _ => progress rewrite H
        end
      | match goal with
        | |- context [sqinfo_has (info c y x) ?f] =>
            destruct (sqinfo_has (info c y x) f) eqn:?
        end ];
    repeat split; reflexivity.
Qed.

Lemma seen_in_view_update_one (c : chunk) (y' x' blind y x : Z) :
  seen_in_view c y x -> seen_in_view (update_one c y' x' blind) y x.
Proof.
  intros H. destruct (cell_eq_dec (y, x) (y', x')) as [E|Hne].
  - inversion E; subst y' x'. unfold seen_in_view in *.
    destruct (update_one_flags c y x blind) as (-> & _ & -> & _).
    intros Hs. apply andb_true_iff in Hs. now apply H.
  - unfold seen_in_view, square_isseen, square_isview in *.
    now rewrite update_one_other.
Qed.

Lemma mark_wasseen_clears (c : chunk) (y x : Z) :
  0 <= y < height c -> 0 <= x < width c ->
  square_isseen (mark_wasseen c) y x = false /\
  square_isview (mark_wasseen c) y x = false.
Proof.
  intros Hy Hx. unfold mark_wasseen.
  apply (for_grid_establish
           (fun c => square_isseen c y x = false /\ square_isview c y x = false)
           _ _ y x);
    try assumption.
  - intros. apply same_level_width. level.
  - intros a. cbv zeta. split_ifs; flags; rewrite !Z.eqb_refl; cbn; auto.
  - intros a y' x'. cbv zeta. split_ifs; flags; bools.
Qed.

(** The scan of [update_view] starts from a level with no grid seen and
    every step of it keeps "seen only if in view". *)
Lemma update_view_keeps_seen_in_view (c : chunk) (p : player_type) (y x : Z) :
  0 <= y < height c -> 0 <= x < width c ->
  seen_in_view (update_view c p) y x.
Proof.
  intros Hy Hx. unfold update_view.
  apply (for_grid_invariant (fun c => seen_in_view c y x));
    [intros; now apply seen_in_view_update_one|].
  apply (for_grid_invariant (fun c => seen_in_view c y x));
    [intros; now apply seen_in_view_update_view_one|].
  assert (H : seen_in_view
                (add_monster_lights (mark_wasseen c) (loc (px p) (py p))) y x).
  { apply seen_in_view_add_monster_lights. intros Hs.
    destruct (mark_wasseen_clears c y x Hy Hx) as [Hs' _]. congruence. }
  revert H. generalize (add_monster_lights (mark_wasseen c) (loc (px p) (py p))).
  intros a Ha. split_ifs; revert Ha; unfold seen_in_view; flags; bools.
Qed.

(** C1. After [update_view], on every grid in bounds, the SEEN flag is set
    only if the VIEW flag is set. *)
Theorem update_view_seen_in_view (c : chunk) (p : player_type) (y x : Z) :
  square_in_bounds c y x = true ->
  square_isseen (update_view c p) y x = true ->
  square_isview (update_view c p) y x = true.
Proof.
  intros Hb. apply square_in_bounds_iff in Hb. destruct Hb as [Hy Hx].
  exact (update_view_keeps_seen_in_view c p y x Hy Hx).
Qed.

(** ** C10: a grid already in view is left alone *)

Lemma become_viewable_other (c : chunk) (y' x' : Z) (lit : bool)
    (py px y x : Z) :
  (y, x) <> (y', x') ->
  info (become_viewable c y' x' lit py px) y x = info c y x.
Proof.
  intros Hne. unfold become_viewable. cbv zeta.
  split_ifs; rewrite ?info_info_on_other by exact Hne; reflexivity.
Qed.

Lemma become_viewable_in_view (c : chunk) (y x : Z) (lit : bool) (py px : Z) :
  square_isview c y x = true -> become_viewable c y x lit py px = c.
Proof. intros H. unfold become_viewable. now rewrite H. Qed.

Lemma update_view_one_keeps_viewed (c : chunk) (y' x' radius py px y x : Z) :
  square_isview c y x = true ->
  info (update_view_one c y' x' radius py px) y x = info c y x.
Proof.
  intros Hv. unfold update_view_one. cbv zeta. split_ifs; try reflexivity.
  destruct (cell_eq_dec (y, x) (y', x')) as [E|Hne].
  - inversion E; subst. now rewrite become_viewable_in_view.
  - now apply become_viewable_other.
Qed.

(** C10. [become_viewable] on a grid whose VIEW flag is already set returns
    the level as it is; hence the full scan leaves every flag of such a
    grid, one lit by a monster for instance, as it found it. *)
Theorem become_viewable_keeps_viewed (c : chunk) (y x : Z) (lit : bool)
    (radius py px : Z) :
  square_isview c y x = true ->
  become_viewable c y x lit py px = c /\
  info (update_view_scan c radius py px) y x = info c y x.
Proof.
  intros Hv. split; [now apply become_viewable_in_view|].
  unfold update_view_scan.
  apply (for_grid_invariant (fun c' => info c' y x = info c y x));
    [|reflexivity].
  intros c' y' x' Hc'. rewrite update_view_one_keeps_viewed; [exact Hc'|].
  unfold square_isview in *. now rewrite Hc'.
Qed.

(** ** C4: the reference point of a wall *)

Lemma view_reference_wall (c : chunk) (y x py px : Z) :
  square_iswall c y x = true ->
  view_reference c y x py px =
  if square_iswall c (step_toward y py) (step_toward x px)
     || knight_exception c y x py px
  then (y, x) else (step_toward y py, step_toward x px).
Proof.
  intros Hw. unfold view_reference, knight_exception, step_toward.
  rewrite Hw. cbv zeta.
  destruct (square_iswall c (if y <? py then y + 1 else if y >? py then y - 1 else y)
              (if x <? px then x + 1 else if x >? px then x - 1 else x)).
  all: destruct (Z.eqb_spec (Z.abs (x - px)) 2), (Z.eqb_spec (Z.abs (y - py)) 1),
         (Z.eqb_spec (Z.abs (x - px)) 1), (Z.eqb_spec (Z.abs (y - py)) 2);
    try (exfalso; lia); cbn [andb orb].
  all: repeat match goal with
              | |- context [square_iswall ?a ?b ?d] =>
                  destruct (square_iswall a b d)
              end; reflexivity.
Qed.

Lemma square_iswall_info_on (c : chunk) (y x : Z) (f : square_flag) (y' x' : Z) :
  square_iswall (info_on c y x f) y' x' = square_iswall c y' x'.
Proof. reflexivity. Qed.

Lemma square_isglow_info_on (c : chunk) (y x : Z) (f : square_flag) (y' x' : Z) :
  f <> SQUARE_GLOW ->
  square_isglow (info_on c y x f) y' x' = square_isglow c y' x'.
Proof.
  intros Hf. unfold square_isglow. rewrite has_info_on.
  destruct (flag_eqb f SQUARE_GLOW) eqn:E.
  - apply flag_eqb_eq in E. contradiction.
  - now rewrite andb_false_r.
Qed.

Lemma become_viewable_fresh (c : chunk) (y x : Z) (lit : bool) (py px : Z) :
  square_isview c y x = false ->
  square_isseen c y x = false ->
  square_isview (become_viewable c y x lit py px) y x = true /\
  square_isseen (become_viewable c y x lit py px) y x =
    lit || (square_isglow c y x &&
            if square_iswall c y x
            then square_isglow c (step_toward y py) (step_toward x px)
            else square_isglow c y x).
Proof.
  intros Hv Hs. unfold become_viewable. rewrite Hv. cbv zeta.
  fold (step_toward y py). fold (step_toward x px).
  destruct lit; rewrite !square_iswall_info_on;
    rewrite !square_isglow_info_on by discriminate;
    destruct (square_iswall c y x); cbv beta iota;
    rewrite ?square_isglow_info_on by discriminate;
    destruct (square_isglow c y x) eqn:Hg; cbn [andb orb];
    try destruct (square_isglow c (step_toward y py) (step_toward x px));
    flags; rewrite ?Z.eqb_refl; cbn [andb orb]; split; congruence.
Qed.

(** C4, amended.  In the full scan, for a wall within [MAX_SIGHT] of the
    player that is not yet in view: the reference point is the grid one
    step toward the player along each axis on which they differ, unless
    that grid is a wall or a knight sub-case applies, in which case it is
    the wall itself; when [los] from the player to the reference point
    succeeds the wall is marked VIEW, and it is marked SEEN exactly when it
    is lit by the torch, or when it glows and the grid one step toward the
    player -- shifted without any exception -- glows too. *)
Theorem update_view_one_wall (c : chunk) (y x radius py px : Z) :
  square_iswall c y x = true ->
  distance y x py px <= MAX_SIGHT ->
  square_isview c y x = false ->
  square_isseen c y x = false ->
  view_reference c y x py px =
    (if square_iswall c (step_toward y py) (step_toward x px)
        || knight_exception c y x py px
     then (y, x) else (step_toward y py, step_toward x px)) /\
  if los c py px (fst (view_reference c y x py px))
                 (snd (view_reference c y x py px))
  then square_isview (update_view_one c y x radius py px) y x = true /\
       square_isseen (update_view_one c y x radius py px) y x =
         (distance y x py px <? radius)
         || (square_isglow c y x &&
             square_isglow c (step_toward y py) (step_toward x px))
  else update_view_one c y x radius py px = c.
Proof.
  intros Hw Hd Hv Hs. split; [now apply view_reference_wall|].
  unfold update_view_one. cbv zeta.
  destruct (Z.gtb_spec (distance y x py px) MAX_SIGHT) as [Hgt|_]; [lia|].
  destruct (view_reference c y x py px) as [yc xc]. cbn [fst snd].
  destruct (los c py px yc xc); [|reflexivity].
  destruct (become_viewable_fresh c y x (distance y x py px <? radius) py px
              Hv Hs) as [H1 H2].
  rewrite Hw in H2. split; assumption.
Qed.

End FieldOfView.

(** The field of view of the small game. *)

Lemma update_view_seen_in_view_witness :
  @square_in_bounds (open_room 5 5) 2 2 = true /\
  square_isseen (@update_view demo_game (open_room 5 5) (demo_player 2 2 1)) 2 2
    = true /\
  square_isview (@update_view demo_game (open_room 5 5) (demo_player 2 2 1)) 2 2
    = true.
Proof.
  assert (Hb : @square_in_bounds (open_room 5 5) 2 2 = true) by reflexivity.
  assert (Hs : square_isseen
                 (@update_view demo_game (open_room 5 5) (demo_player 2 2 1)) 2 2
               = true) by (vm_compute; reflexivity).
  split; [exact Hb|]. split; [exact Hs|].
  exact (@update_view_seen_in_view demo_game (open_room 5 5)
           (demo_player 2 2 1) 2 2 Hb Hs).
Defined.

Lemma become_viewable_keeps_viewed_witness :
  square_isview (info_on (open_room 3 3) 1 1 SQUARE_VIEW) 1 1 = true /\
  @become_viewable demo_game (info_on (open_room 3 3) 1 1 SQUARE_VIEW) 1 1
    true 0 0 = info_on (open_room 3 3) 1 1 SQUARE_VIEW /\
  info (@update_view_scan demo_game (info_on (open_room 3 3) 1 1 SQUARE_VIEW)
          2 0 0) 1 1
    = info (info_on (open_room 3 3) 1 1 SQUARE_VIEW) 1 1.
Proof.
  assert (Hv : square_isview (info_on (open_room 3 3) 1 1 SQUARE_VIEW) 1 1 = true)
    by reflexivity.
  split; [exact Hv|].
  exact (@become_viewable_keeps_viewed demo_game
           (info_on (open_room 3 3) 1 1 SQUARE_VIEW) 1 1 true 2 0 0 Hv).
Defined.

Lemma update_view_one_wall_witness :
  (@square_iswall demo_game glow_wall_level 1 3 = true /\
   distance 1 3 0 0 <= @MAX_SIGHT demo_game /\
   square_isview glow_wall_level 1 3 = false /\
   square_isseen glow_wall_level 1 3 = false) /\
  square_isview (@update_view_one demo_game glow_wall_level 1 3 0 0 0) 1 3 = true /\
  square_isseen (@update_view_one demo_game glow_wall_level 1 3 0 0 0) 1 3 =
    (distance 1 3 0 0 <? 0)
    || (square_isglow glow_wall_level 1 3 &&
        square_isglow glow_wall_level (step_toward 1 0) (step_toward 3 0)).
Proof.
  assert (Hw : @square_iswall demo_game glow_wall_level 1 3 = true) by reflexivity.
  assert (Hd : distance 1 3 0 0 <= @MAX_SIGHT demo_game) by (vm_compute; discriminate).
  assert (Hv : square_isview glow_wall_level 1 3 = false) by reflexivity.
  assert (Hs : square_isseen glow_wall_level 1 3 = false) by reflexivity.
  split; [repeat split; assumption|].
  pose proof (@update_view_one_wall demo_game glow_wall_level 1 3 0 0 0
                Hw Hd Hv Hs) as [_ H].
  assert (L : @los demo_game glow_wall_level 0 0
                (fst (@view_reference demo_game glow_wall_level 1 3 0 0))
                (snd (@view_reference demo_game glow_wall_level 1 3 0 0)) = true)
    by reflexivity.
  rewrite L in H. exact H.
Defined.

(** C4 as stated fails on [glow_wall_level], with the player at [(0, 0)]
    and no torch.  The wall [(1, 3)] is within sight; the grid one step
    toward the player is a wall, so the reference point is [(1, 3)] itself,
    and [los] to it succeeds.  The wall glows, hence so does its reference
    point, and the statement wants it SEEN; [update_view] marks it VIEW
    and leaves it unseen, because [become_viewable] looks for the glow of
    the dark grid [(0, 2)]. *)
Lemma update_view_glow_reference_counterexample :
  @square_iswall demo_game glow_wall_level 1 3 = true /\
  distance 1 3 0 0 <= @MAX_SIGHT demo_game /\
  @view_reference demo_game glow_wall_level 1 3 0 0 = (1, 3) /\
  @los demo_game glow_wall_level 0 0 1 3 = true /\
  square_isglow glow_wall_level 1 3 && square_isglow glow_wall_level 1 3 = true /\
  square_isview (@update_view demo_game glow_wall_level (demo_player 0 0 0)) 1 3
    = true /\
  square_isseen (@update_view demo_game glow_wall_level (demo_player 0 0 0)) 1 3
    = false.
Proof.
  repeat split; try reflexivity.
  - vm_compute. discriminate.
Qed.

(** ** Room lighting: the flood *)

Lemma point_set_contains_In (ps : point_set) (y x : Z) :
  point_set_contains ps y x = true <-> In (y, x) ps.
Proof.
  unfold point_set_contains. rewrite existsb_exists. split.
  - intros [[y' x'] [Hin H]]. cbn in H. apply andb_true_iff in H.
    destruct H as [Hy Hx]. apply Z.eqb_eq in Hy, Hx. now subst.
  - intros Hin. exists (y, x). split; [exact Hin|]. cbn.
    now rewrite !Z.eqb_refl.
Qed.

Lemma grid_cells_NoDup (c : chunk) : NoDup (grid_cells c).
Proof.
  unfold grid_cells. generalize (zrange_NoDup (height c)).
  generalize (zrange (height c)) as rows.
  induction rows as [|y rows IH]; intros Hnd; [constructor|].
  cbn. inversion Hnd as [|? ? Hy Hrows]; subst.
  apply NoDup_app; [| now apply IH |].
  - apply Injective_map_NoDup; [|apply zrange_NoDup].
    intros a b H. now inversion H.
  - intros [y' x'] H1 H2. apply in_map_iff in H1. destruct H1 as [x1 [E _]].
    inversion E; subst. apply in_flat_map in H2. destruct H2 as [y2 [Hy2 H2]].
    apply in_map_iff in H2. destruct H2 as [x2 [E2 _]]. inversion E2; subst.
    contradiction.
Qed.

Lemma grid_cells_length (c : chunk) :
  (length (grid_cells c) <= Z.to_nat (height c * width c))%nat.
Proof.
  unfold grid_cells.
  assert (H : forall rows : list Z,
    length (flat_map (fun y => map (fun x => (y, x)) (zrange (width c))) rows)
    = (length rows * Z.to_nat (width c))%nat).
  { induction rows as [|y rows IH]; [reflexivity|].
    cbn. rewrite length_app, length_map, zrange_length, IH. lia. }
  rewrite H, zrange_length.
  destruct (Z_le_gt_dec (height c) 0); [replace (Z.to_nat (height c)) with O by lia; lia|].
  destruct (Z_le_gt_dec (width c) 0); [replace (Z.to_nat (width c)) with O by lia; lia|].
  rewrite Z2Nat.inj_mul by lia. lia.
Qed.

Section RoomLighting.
Context `{G : Game}.

Lemma room_flood_aux_room_set (c : chunk) (ps : point_set) (y x : Z) :
  room_set c ps -> room_set c (room_flood_aux c ps y x) /\
                   incl ps (room_flood_aux c ps y x).
Proof.
  intros [Hnd Hall]. unfold room_flood_aux, add_to_point_set.
  destruct (point_set_contains ps y x) eqn:Hc;
    [split; [split; assumption | apply incl_refl]|].
  destruct (square_isroom c y x) eqn:Hr; cbn [negb];
    [|split; [split; assumption | apply incl_refl]].
  split; [split|].
  - apply NoDup_app; [exact Hnd | repeat constructor; intros [] |].
    intros q Hq [<-|[]]. apply point_set_contains_In in Hq. congruence.
  - apply Forall_app. split; [exact Hall|]. now repeat constructor.
  - apply incl_appl, incl_refl.
Qed.

Lemma room_flood_spread_room_set (c : chunk) (ps : point_set) (y x : Z) :
  room_set c ps -> room_set c (room_flood_spread c ps y x) /\
                   incl ps (room_flood_spread c ps y x).
Proof.
  intros H0. unfold room_flood_spread. cbv zeta.
  pose proof (room_flood_aux_room_set c _ (y + 1) x H0) as [H1 I1].
  pose proof (room_flood_aux_room_set c _ (y - 1) x H1) as [H2 I2].
  pose proof (room_flood_aux_room_set c _ y (x + 1) H2) as [H3 I3].
  pose proof (room_flood_aux_room_set c _ y (x - 1) H3) as [H4 I4].
  pose proof (room_flood_aux_room_set c _ (y + 1) (x + 1) H4) as [H5 I5].
  pose proof (room_flood_aux_room_set c _ (y - 1) (x - 1) H5) as [H6 I6].
  pose proof (room_flood_aux_room_set c _ (y - 1) (x + 1) H6) as [H7 I7].
  pose proof (room_flood_aux_room_set c _ (y + 1) (x - 1) H7) as [H8 I8].
  split; [exact H8|].
  repeat (eapply incl_tran; [eassumption|]). apply incl_refl.
Qed.

Lemma room_set_length (c : chunk) (ps : point_set) :
  room_in_bounds c -> room_set c ps ->
  (length ps <= Z.to_nat (height c * width c))%nat.
Proof.
  intros Hrb [Hnd Hall].
  eapply Nat.le_trans; [|apply grid_cells_length].
  apply NoDup_incl_length; [exact Hnd|].
  intros [y x] Hq. apply grid_cells_In. apply Hrb.
  rewrite Forall_forall in Hall. apply (Hall (y, x) Hq).
Qed.

(** The scan ends before its fuel. *)
Lemma room_flood_scan_total (c : chunk) :
  room_in_bounds c ->
  forall (fuel : nat) (ps : point_set) (i : nat),
  room_set c ps ->
  (i <= length ps)%nat ->
  (S (Z.to_nat (height c * width c)) <= fuel + i)%nat ->
  exists ps', room_flood_scan fuel c ps i = Some ps' /\
              room_set c ps' /\ incl ps ps'.
Proof.
  intros Hrb. induction fuel as [|fuel IH]; intros ps i Hps Hi Hfuel.
  - pose proof (room_set_length c ps Hrb Hps) as Hlen. exfalso. lia.
  - cbn [room_flood_scan]. destruct (nth_error ps i) as [[y x]|] eqn:Hn.
    2:{ exists ps. split; [reflexivity|]. split; [exact Hps | apply incl_refl]. }
    assert (Hlt : (i < length ps)%nat)
      by (apply nth_error_Some; congruence).
    destruct (square_isprojectable c y x); cbn [negb].
    + destruct (room_flood_spread_room_set c ps y x Hps) as [Hs Hin].
      destruct (IH (room_flood_spread c ps y x) (S i)) as [ps' [Hr [Hs' Hi']]];
        [ exact Hs
        | pose proof (NoDup_incl_length (proj1 Hps) Hin); lia
        | lia |].
      exists ps'. split; [exact Hr|]. split; [exact Hs'|].
      eapply incl_tran; [exact Hin | exact Hi'].
    + destruct (IH ps (S i) Hps) as [ps' [Hr [Hs' Hi']]]; [lia | lia |].
      exists ps'. auto.
Qed.

Lemma room_flood_total (c : chunk) (y1 x1 : Z) :
  room_in_bounds c ->
  exists ps, room_flood c y1 x1 = Some ps /\ room_set c ps.
Proof.
  intros Hrb. unfold room_flood.
  assert (H0 : room_set c []) by (split; constructor).
  destruct (room_flood_aux_room_set c [] y1 x1 H0) as [H1 _].
  destruct (room_flood_scan_total c Hrb (S (Z.to_nat (height c * width c)))
              (room_flood_aux c [] y1 x1) 0 H1) as [ps [Hr [Hs _]]]; [lia | lia |].
  exists ps. auto.
Qed.


(** ** Flags that the field of view keeps *)

Lemma keeps_flag_refl (f : square_flag) (c : chunk) : keeps_flag f c c.
Proof. intros y x. reflexivity. Qed.

Lemma keeps_flag_trans (f : square_flag) (c1 c2 c3 : chunk) :
  keeps_flag f c1 c2 -> keeps_flag f c2 c3 -> keeps_flag f c1 c3.
Proof. intros H1 H2 y x. now rewrite H2, H1. Qed.

Lemma keeps_flag_info_on (f g : square_flag) (c : chunk) (y x : Z) :
  g <> f -> keeps_flag f c (info_on c y x g).
Proof.
  intros Hne y' x'. rewrite has_info_on.
  destruct (flag_eqb g f) eqn:E; [apply flag_eqb_eq in E; contradiction|].
  now rewrite andb_false_r.
Qed.

Lemma keeps_flag_info_off (f g : square_flag) (c : chunk) (y x : Z) :
  g <> f -> keeps_flag f c (info_off c y x g).
Proof.
  intros Hne y' x'. rewrite has_info_off.
  destruct (flag_eqb g f) eqn:E; [apply flag_eqb_eq in E; contradiction|].
  now rewrite andb_false_r.
Qed.

Lemma keeps_flag_feeling (f : square_flag) (c : chunk) (v : Z) :
  keeps_flag f c (set_feeling_squares c v).
Proof. intros y x. reflexivity. Qed.

Ltac keeps_step :=
  match goal with
  | |- keeps_flag _ ?c ?c => apply keeps_flag_refl
  | |- keeps_flag _ ?c (if ?b then _ else _) => destruct b
  | |- keeps_flag _ ?c (let '(_, _) := ?p in _) => destruct p
  | |- keeps_flag ?f ?c (info_on ?d _ _ _) =>
      apply (keeps_flag_trans f c d); [|apply keeps_flag_info_on; tauto]
  | |- keeps_flag ?f ?c (info_off ?d _ _ _) =>
      apply (keeps_flag_trans f c d); [|apply keeps_flag_info_off; tauto]
  | |- keeps_flag ?f ?c (set_feeling_squares ?d _) =>
      apply (keeps_flag_trans f c d); [|apply keeps_flag_feeling]
  end.

Ltac keeps := cbv beta zeta; repeat keeps_step.

Lemma for_grid_keeps_flag (f : square_flag) (body : chunk -> Z -> Z -> chunk)
    (c : chunk) :
  (forall c y x, keeps_flag f c (body c y x)) -> keeps_flag f c (for_grid body c).
Proof.
  intros Hb. apply (for_grid_invariant (keeps_flag f c)).
  - intros c' y x Hc'. eapply keeps_flag_trans; [exact Hc' | apply Hb].
  - apply keeps_flag_refl.
Qed.

Lemma keeps_flag_update_one (f : square_flag) (c : chunk) (y x blind : Z) :
  stable_flag f -> keeps_flag f c (update_one c y x blind).
Proof.
  intros Hst. unfold stable_flag, not_view_flag in Hst.
  unfold update_one, square_note_spot. keeps.
Qed.

Lemma keeps_flag_become_viewable (f : square_flag) (c : chunk) (y x : Z)
    (lit : bool) (py px : Z) :
  not_view_flag f -> keeps_flag f c (become_viewable c y x lit py px).
Proof. intros Hst. unfold not_view_flag in Hst. unfold become_viewable. keeps. Qed.

Lemma keeps_flag_update_view_one (f : square_flag) (c : chunk)
    (y x radius py px : Z) :
  not_view_flag f -> keeps_flag f c (update_view_one c y x radius py px).
Proof.
  intros Hst. unfold update_view_one. keeps.
  now apply keeps_flag_become_viewable.
Qed.

Lemma keeps_flag_add_monster_lights (f : square_flag) (c : chunk) (from : loc_t) :
  not_view_flag f -> keeps_flag f c (add_monster_lights c from).
Proof.
  intros Hst. unfold not_view_flag in Hst. unfold add_monster_lights.
  apply (fold_left_invariant (keeps_flag f c)); [|apply keeps_flag_refl].
  intros a m _ Ha. unfold add_monster_light.
  destruct (race m) as [r|]; [|exact Ha].
  destruct (negb (rf_has_light r)); [exact Ha|].
  apply (fold_left_invariant (keeps_flag f c)); [|exact Ha]. intros a' i _ Ha'.
  apply (fold_left_invariant (keeps_flag f c)); [|exact Ha']. intros a'' j _ Ha''.
  eapply keeps_flag_trans; [exact Ha''|].
  unfold add_monster_light_at. keeps.
Qed.


Lemma keeps_flag_update_view_scan (f : square_flag) (c : chunk)
    (radius py px : Z) :
  not_view_flag f -> keeps_flag f c (update_view_scan c radius py px).
Proof.
  intros Hst. apply for_grid_keeps_flag. intros.
  now apply keeps_flag_update_view_one.
Qed.

Lemma keeps_flag_update_view (f : square_flag) (c : chunk) (p : player_type) :
  stable_flag f -> keeps_flag f c (update_view c p).
Proof.
  intros Hst. unfold update_view.
  eapply keeps_flag_trans;
    [|apply for_grid_keeps_flag; intros; now apply keeps_flag_update_one].
  eapply keeps_flag_trans; [|apply keeps_flag_update_view_scan, Hst].
  assert (H : keeps_flag f c
                (add_monster_lights (mark_wasseen c) (loc (px p) (py p)))).
  { eapply keeps_flag_trans; [|apply keeps_flag_add_monster_lights, Hst].
    unfold stable_flag, not_view_flag in Hst.
    apply for_grid_keeps_flag. intros. keeps. }
  unfold stable_flag, not_view_flag in Hst. keeps; exact H.
Qed.



Lemma stable_flag_glow : stable_flag SQUARE_GLOW.
Proof. unfold stable_flag, not_view_flag. repeat split; discriminate. Qed.

(** ** What a view update leaves on a grid *)

Lemma update_view_clears_wasseen (c : chunk) (p : player_type) (y x : Z) :
  0 <= y < height c -> 0 <= x < width c ->
  square_wasseen (update_view c p) y x = false.
Proof.
  intros Hy Hx. unfold update_view.
  match goal with
  | |- square_wasseen (for_grid _ ?d) _ _ = _ =>
      assert (Hl : same_level c d)
  end.
  { eapply same_level_trans; [|apply same_level_update_view_scan].
    level.
    all: eapply same_level_trans;
      [apply same_level_mark_wasseen | apply same_level_add_monster_lights]. }
  apply (for_grid_establish (fun c => square_wasseen c y x = false) _ _ y x).
  - intros. apply same_level_width, same_level_update_one.
  - now rewrite (same_level_height _ _ Hl).
  - now rewrite (same_level_width _ _ Hl).
  - intros a. apply update_one_flags.
  - intros a y' x' Ha. destruct (cell_eq_dec (y, x) (y', x')) as [E|Hne].
    + inversion E; subst y' x'. apply update_one_flags.
    + unfold square_wasseen in *. now rewrite update_one_other.
Qed.



(** ** C5: lighting a room, then darkening it *)




(** ** The assertions of the flood *)

Lemma cave_room_aux_flood (c : chunk) (ps : point_set) (y x : Z) :
  square_in_bounds c y x = true ->
  cave_room_aux c ps y x = Some (room_flood_aux c ps y x).
Proof.
  intros Hb. unfold cave_room_aux, room_flood_aux. rewrite Hb. cbn [negb].
  destruct (point_set_contains ps y x); [reflexivity|].
  now destruct (negb (square_isroom c y x)).
Qed.

(** Around a grid off the outer ring no assertion fails. *)
Lemma light_room_spread_flood (c : chunk) (ps : point_set) (y x : Z) :
  square_in_bounds_fully c y x = true ->
  light_room_spread c ps y x = Some (room_flood_spread c ps y x).
Proof.
  intros Hf. unfold square_in_bounds_fully in Hf.
  rewrite !andb_true_iff, !Z.gtb_lt, !Z.ltb_lt in Hf.
  assert (Hn : forall dy dx, -1 <= dy <= 1 -> -1 <= dx <= 1 ->
                 square_in_bounds c (y + dy) (x + dx) = true)
    by (intros; apply square_in_bounds_iff; lia).
  unfold light_room_spread, room_flood_spread. cbv zeta.
  pose proof (Hn 1 0 ltac:(lia) ltac:(lia)) as H1.
  pose proof (Hn (-1) 0 ltac:(lia) ltac:(lia)) as H2.
  pose proof (Hn 0 1 ltac:(lia) ltac:(lia)) as H3.
  pose proof (Hn 0 (-1) ltac:(lia) ltac:(lia)) as H4.
  pose proof (Hn 1 1 ltac:(lia) ltac:(lia)) as H5.
  pose proof (Hn (-1) (-1) ltac:(lia) ltac:(lia)) as H6.
  pose proof (Hn (-1) 1 ltac:(lia) ltac:(lia)) as H7.
  pose proof (Hn 1 (-1) ltac:(lia) ltac:(lia)) as H8.
  rewrite ?Z.add_0_r in *.
  change (y + -1) with (y - 1) in *. change (x + -1) with (x - 1) in *.
  rewrite (cave_room_aux_flood c _ (y + 1) x H1). cbn [opt_bind].
  rewrite (cave_room_aux_flood c _ (y - 1) x H2). cbn [opt_bind].
  rewrite (cave_room_aux_flood c _ y (x + 1) H3). cbn [opt_bind].
  rewrite (cave_room_aux_flood c _ y (x - 1) H4). cbn [opt_bind].
  rewrite (cave_room_aux_flood c _ (y + 1) (x + 1) H5). cbn [opt_bind].
  rewrite (cave_room_aux_flood c _ (y - 1) (x - 1) H6). cbn [opt_bind].
  rewrite (cave_room_aux_flood c _ (y - 1) (x + 1) H7). cbn [opt_bind].
  apply (cave_room_aux_flood c _ (y + 1) (x - 1) H8).
Qed.

(** On a level whose open room grids lie off the outer ring, the scan
    meets no failed assertion. *)
Lemma light_room_scan_flood (c : chunk) :
  room_inside c ->
  forall (fuel : nat) (ps : point_set) (i : nat),
  room_set c ps ->
  light_room_scan fuel c ps i = room_flood_scan fuel c ps i.
Proof.
  intros Hin. induction fuel as [|fuel IH]; intros ps i Hps; [reflexivity|].
  cbn [light_room_scan room_flood_scan].
  destruct (nth_error ps i) as [[y x]|] eqn:Hn; [|reflexivity].
  destruct (square_isprojectable c y x) eqn:Hp; cbn [negb]; [|now apply IH].
  assert (Hroom : square_isroom c y x = true).
  { destruct Hps as [_ Hall]. rewrite Forall_forall in Hall.
    apply (Hall (y, x)). eapply nth_error_In, Hn. }
  rewrite (light_room_spread_flood c ps y x (Hin y x Hroom Hp)).
  cbn [opt_bind]. apply IH. now apply room_flood_spread_room_set.
Qed.

Lemma light_room_set_flood (c : chunk) (y1 x1 : Z) :
  room_inside c -> square_in_bounds c y1 x1 = true ->
  light_room_set c y1 x1 = room_flood c y1 x1.
Proof.
  intros Hin Ho. unfold light_room_set, room_flood.
  rewrite (cave_room_aux_flood c [] y1 x1 Ho). cbn [opt_bind].
  apply light_room_scan_flood; [exact Hin|].
  apply room_flood_aux_room_set. split; constructor.
Qed.



End RoomLighting.

(** Room lighting in the small game. *)

Lemma walled_room_in_bounds : room_in_bounds walled_room.
Proof.
  intros y x. unfold square_isroom, walled_room, demo_chunk.
  cbn [info height width]. intros H.
  destruct (Z.leb_spec 0 y), (Z.leb_spec y 4), (Z.leb_spec 0 x), (Z.leb_spec x 4);
    cbn [andb] in H; try lia; discriminate H.
Qed.

Lemma walled_room_inside : @room_inside demo_game walled_room.
Proof.
  intros y x _. unfold square_isprojectable, square_in_bounds_fully.
  cbn [walled_room demo_chunk feat height width].
  destruct (Z.leb_spec 1 y), (Z.leb_spec y 3), (Z.leb_spec 1 x), (Z.leb_spec x 3);
    cbn [andb]; intros Hp; try discriminate Hp;
    rewrite !andb_true_iff, !Z.gtb_lt, !Z.ltb_lt; lia.
Qed.

(** Without a wall around the room the flood leaves the level: from the
    middle of [edge_room] it collects the eight grids around; spreading
    from [(2, 1)] it offers the grid [(3, 1)] to [cave_room_aux], and the
    assertion fails. *)
Lemma light_room_set_edge : @light_room_set demo_game edge_room 1 1 = None.
Proof. vm_compute. reflexivity. Qed.



(** ** The flow queue as a list *)

Section FlowQueue.

Lemma flow_len_range (st : flow_queue) : 0 <= flow_len st < FLOW_MAX.
Proof. unfold flow_len. apply Z.mod_pos_bound. reflexivity. Qed.

Lemma flow_len_zero (st : flow_queue) :
  flow_wf st -> (flow_len st = 0 <-> flow_head st = flow_tail st).
Proof.
  unfold flow_wf, flow_len, FLOW_MAX. intros [Hh Ht].
  split; intros H; [|rewrite H, Z.sub_diag; reflexivity].
  apply Z.mod_divide in H; [|lia]. destruct H as [k Hk]. lia.
Qed.

Lemma flow_list_length (st : flow_queue) :
  length (flow_list st) = Z.to_nat (flow_len st).
Proof. unfold flow_list. now rewrite length_map, length_seq. Qed.

(** Advancing an index "with wrap". *)
Lemma flow_wrap (i : Z) :
  0 <= i < FLOW_MAX ->
  (if i + 1 =? FLOW_MAX then 0 else i + 1) = (i + 1) mod FLOW_MAX.
Proof.
  unfold FLOW_MAX. intros Hi. destruct (Z.eqb_spec (i + 1) 2048) as [E|E].
  - rewrite E. reflexivity.
  - rewrite Z.mod_small; lia.
Qed.

(** Taking the first entry off the queue. *)
Lemma flow_list_dequeue (st : flow_queue) :
  flow_wf st -> flow_head st <> flow_tail st ->
  let st' := {| fq_chunk := fq_chunk st; flow_y := flow_y st;
                flow_x := flow_x st;
                flow_head := if flow_head st + 1 =? FLOW_MAX then 0
                             else flow_head st + 1;
                flow_tail := flow_tail st |} in
  flow_wf st' /\
  flow_len st' = flow_len st - 1 /\
  flow_list st =
    (flow_y st (flow_head st), flow_x st (flow_head st)) :: flow_list st'.
Proof.
  intros Hwf Hne. cbv zeta. pose proof Hwf as [Hh Ht].
  pose proof (flow_len_range st) as Hr.
  assert (Hpos : flow_len st <> 0) by (rewrite flow_len_zero; assumption).
  rewrite flow_wrap by exact Hh.
  set (st' := {| fq_chunk := fq_chunk st; flow_y := flow_y st;
                 flow_x := flow_x st;
                 flow_head := (flow_head st + 1) mod FLOW_MAX;
                 flow_tail := flow_tail st |}).
  assert (Hh' : 0 <= (flow_head st + 1) mod FLOW_MAX < FLOW_MAX)
    by (apply Z.mod_pos_bound; reflexivity).
  assert (Hlen : flow_len st' = flow_len st - 1).
  { unfold flow_len, st', FLOW_MAX in *. cbn [flow_head flow_tail] in *.
    Z.div_mod_to_equations. lia. }
  split; [split; cbn; assumption|]. split; [exact Hlen|].
  unfold flow_list. rewrite Hlen.
  replace (Z.to_nat (flow_len st)) with (S (Z.to_nat (flow_len st - 1))) by lia.
  cbn [seq map]. f_equal.
  - unfold flow_entry. rewrite Z.add_0_r, Z.mod_small by exact Hh. reflexivity.
  - rewrite <- seq_shift, map_map. apply map_ext. intros k.
    unfold flow_entry, st'. cbn [flow_y flow_x flow_head].
    replace ((flow_head st + Z.of_nat (S k)) mod FLOW_MAX)
      with (((flow_head st + 1) mod FLOW_MAX + Z.of_nat k) mod FLOW_MAX);
      [reflexivity|].
    rewrite Zplus_mod_idemp_l. f_equal. lia.
Qed.

(** Writing an entry at [flow_tail] and moving [flow_tail]: the body of
    [flow_child] after its tests.  The entry joins the list unless the
    queue is full, in which case the list is what it was. *)
Lemma flow_list_enqueue (st : flow_queue) (c' : chunk) (vy vx : Z) :
  flow_wf st ->
  let tail := if flow_tail st + 1 =? FLOW_MAX then 0 else flow_tail st + 1 in
  let st' := {| fq_chunk := c';
                flow_y := upd1 (flow_y st) (flow_tail st) vy;
                flow_x := upd1 (flow_x st) (flow_tail st) vx;
                flow_head := flow_head st;
                flow_tail := if tail =? flow_head st then flow_tail st
                             else tail |} in
  flow_wf st' /\
  ((tail =? flow_head st) = true <-> flow_len st = FLOW_MAX - 1) /\
  flow_list st' = if tail =? flow_head st then flow_list st
                  else flow_list st ++ [(vy, vx)].
Proof.
  intros Hwf. cbv zeta. pose proof Hwf as [Hh Ht].
  pose proof (flow_len_range st) as Hr.
  rewrite flow_wrap by exact Ht.
  assert (Ht' : 0 <= (flow_tail st + 1) mod FLOW_MAX < FLOW_MAX)
    by (apply Z.mod_pos_bound; reflexivity).
  assert (Hfull : (flow_tail st + 1) mod FLOW_MAX = flow_head st <->
                  flow_len st = FLOW_MAX - 1).
  { unfold flow_len, FLOW_MAX in *. Z.div_mod_to_equations. lia. }
  assert (Hold : forall k : nat,
            Z.of_nat k < flow_len st ->
            flow_entry
              {| fq_chunk := c'; flow_y := upd1 (flow_y st) (flow_tail st) vy;
                 flow_x := upd1 (flow_x st) (flow_tail st) vx;
                 flow_head := flow_head st; flow_tail := flow_tail st |}
              (flow_head st + Z.of_nat k)
            = flow_entry st (flow_head st + Z.of_nat k)).
  { intros k Hk. unfold flow_entry. cbn [flow_y flow_x].
    assert (Hi : (flow_head st + Z.of_nat k) mod FLOW_MAX <> flow_tail st).
    { unfold flow_len, FLOW_MAX in *. Z.div_mod_to_equations. lia. }
    now rewrite !upd1_other by exact Hi. }
  destruct (Z.eqb_spec ((flow_tail st + 1) mod FLOW_MAX) (flow_head st))
    as [E|E].
  - split; [split; cbn; assumption|]. split; [rewrite <- Hfull; tauto|].
    unfold flow_list, flow_len. cbn [flow_head flow_tail].
    apply map_ext_in. intros k Hk. apply in_seq in Hk.
    rewrite <- (Hold k); [reflexivity|]. unfold flow_len. lia.
  - split; [split; cbn; assumption|].
    split; [rewrite <- Hfull; split; [discriminate | contradiction]|].
    assert (Hlen : ((flow_tail st + 1) mod FLOW_MAX - flow_head st) mod FLOW_MAX
                   = flow_len st + 1).
    { assert (flow_len st <> FLOW_MAX - 1) by (rewrite <- Hfull; exact E).
      unfold flow_len, FLOW_MAX in *. Z.div_mod_to_equations. lia. }
    unfold flow_list at 1. unfold flow_len at 1. cbn [flow_head flow_tail].
    rewrite Hlen.
    replace (Z.to_nat (flow_len st + 1)) with (Z.to_nat (flow_len st) + 1)%nat
      by lia.
    rewrite seq_app, map_app. cbn [seq map]. f_equal.
    + unfold flow_list. apply map_ext_in. intros k Hk. apply in_seq in Hk.
      rewrite <- (Hold k) by lia. reflexivity.
    + f_equal. unfold flow_entry. cbn [flow_y flow_x].
      replace ((flow_head st + Z.of_nat (0 + Z.to_nat (flow_len st))) mod FLOW_MAX)
        with (flow_tail st).
      * now rewrite !upd1_same.
      * unfold flow_len, FLOW_MAX in *. rewrite Nat.add_0_l, Z2Nat.id by lia.
        Z.div_mod_to_equations. lia.
Qed.

End FlowQueue.

(** ** The flow: one child, one step *)

Lemma filter_length_mono {A : Type} (f g : A -> bool) (l : list A) :
  (forall a, In a l -> g a = true -> f a = true) ->
  (length (filter g l) <= length (filter f l))%nat.
Proof.
  induction l as [|a l IH]; intros H; [apply Nat.le_refl|].
  cbn. assert (IH' := IH (fun b Hb => H b (or_intror Hb))).
  destruct (g a) eqn:Hg.
  - rewrite (H a (or_introl eq_refl) Hg). cbn. lia.
  - destruct (f a); cbn; lia.
Qed.

Lemma filter_length_lt {A : Type} (f g : A -> bool) (l : list A) (a : A) :
  In a l -> f a = true -> g a = false ->
  (forall b, In b l -> g b = true -> f b = true) ->
  (length (filter g l) < length (filter f l))%nat.
Proof.
  induction l as [|b l IH]; intros Hin Hf Hg H; [destruct Hin|].
  cbn. destruct Hin as [->|Hin].
  - rewrite Hf, Hg. cbn.
    pose proof (filter_length_mono f g l (fun b Hb => H b (or_intror Hb))). lia.
  - specialize (IH Hin Hf Hg (fun b Hb => H b (or_intror Hb))).
    destruct (g b) eqn:Hgb.
    + rewrite (H b (or_introl eq_refl) Hgb). cbn. lia.
    + destruct (f b); cbn; lia.
Qed.

Lemma same_map_refl (c : chunk) : same_map c c.
Proof. unfold same_map. tauto. Qed.

Lemma same_map_trans (c1 c2 c3 : chunk) :
  same_map c1 c2 -> same_map c2 c3 -> same_map c1 c3.
Proof.
  unfold same_map. intros (A1 & A2 & A3) (B1 & B2 & B3).
  repeat split; congruence.
Qed.

Lemma grid_cells_same_map (c c' : chunk) :
  same_map c c' -> grid_cells c' = grid_cells c.
Proof. intros (Hh & Hw & _). unfold grid_cells. now rewrite Hh, Hw. Qed.

Section FlowStep.
Context `{G : Game}.

Lemma square_in_bounds_same_map (c c' : chunk) (y x : Z) :
  same_map c c' -> square_in_bounds c' y x = square_in_bounds c y x.
Proof. intros (Hh & Hw & _). unfold square_in_bounds. now rewrite Hh, Hw. Qed.

(** What [flow_child] does: nothing, or a stamp, a cost and, room
    permitting, a new entry at the end of the queue. *)
Lemma flow_child_cases (flow_n n ty tx : Z) (st : flow_queue) (d : nat) :
  flow_wf st ->
  let y := ty + nth d ddy_ddd 0 in
  let x := tx + nth d ddx_ddd 0 in
  let c := fq_chunk st in
  let st' := flow_child flow_n n ty tx st d in
  (st' = st /\
   (square_in_bounds c y x = false \/ when_ c y x = flow_n \/
    tf_has (fflags (f_info (feat c y x))) TF_NO_FLOW = true)) \/
  (square_in_bounds c y x = true /\ when_ c y x <> flow_n /\
   tf_has (fflags (f_info (feat c y x))) TF_NO_FLOW = false /\
   fq_chunk st' = set_cost (set_when c y x flow_n) y x n /\
   flow_head st' = flow_head st /\
   flow_wf st' /\
   flow_len st' = (if flow_len st =? FLOW_MAX - 1 then flow_len st
                   else flow_len st + 1) /\
   flow_list st' = (if flow_len st =? FLOW_MAX - 1 then flow_list st
                    else flow_list st ++ [(to_byte y, to_byte x)])).
Proof.
  intros Hwf. cbv zeta. unfold flow_child.
  set (y := ty + nth d ddy_ddd 0). set (x := tx + nth d ddx_ddd 0).
  destruct (square_in_bounds (fq_chunk st) y x) eqn:Hb; cbn [negb];
    [|left; auto].
  destruct (Z.eqb_spec (when_ (fq_chunk st) y x) flow_n) as [Hs|Hs];
    [left; auto|].
  destruct (tf_has (fflags (f_info (feat (fq_chunk st) y x))) TF_NO_FLOW) eqn:Hf;
    [left; auto|].
  right.
  destruct (flow_list_enqueue st
              (set_cost (set_when (fq_chunk st) y x flow_n) y x n)
              (to_byte y) (to_byte x) Hwf) as (Hwf' & Hfull & Hlist).
  cbv zeta in Hwf', Hfull, Hlist.
  assert (Hlen : flow_len
            {| fq_chunk := set_cost (set_when (fq_chunk st) y x flow_n) y x n;
               flow_y := upd1 (flow_y st) (flow_tail st) (to_byte y);
               flow_x := upd1 (flow_x st) (flow_tail st) (to_byte x);
               flow_head := flow_head st;
               flow_tail :=
                 if (if flow_tail st + 1 =? FLOW_MAX then 0
                     else flow_tail st + 1) =? flow_head st
                 then flow_tail st
                 else if flow_tail st + 1 =? FLOW_MAX then 0
                      else flow_tail st + 1 |}
          = if flow_len st =? FLOW_MAX - 1 then flow_len st
            else flow_len st + 1).
  { unfold flow_len at 1. cbn [flow_head flow_tail].
    pose proof Hwf as [Hh Ht]. pose proof (flow_len_range st) as Hr.
    destruct ((if flow_tail st + 1 =? FLOW_MAX then 0 else flow_tail st + 1)
              =? flow_head st) eqn:E'.
    - rewrite (proj1 Hfull eq_refl), Z.eqb_refl. apply (proj1 Hfull eq_refl).
    - assert (E : flow_len st <> FLOW_MAX - 1)
        by (intros E; apply Hfull in E; discriminate E).
      apply Z.eqb_neq in E. rewrite E. apply Z.eqb_neq in E.
      rewrite flow_wrap by exact Ht.
      unfold flow_len, FLOW_MAX in *. Z.div_mod_to_equations. lia. }
  repeat split; try assumption; try apply Hwf'.
  rewrite Hlist.
  destruct ((if flow_tail st + 1 =? FLOW_MAX then 0 else flow_tail st + 1)
            =? flow_head st) eqn:E'.
  - now rewrite (proj1 Hfull eq_refl), Z.eqb_refl.
  - assert (E : flow_len st <> FLOW_MAX - 1)
      by (intros E; apply Hfull in E; discriminate E).
    apply Z.eqb_neq in E. now rewrite E.
Qed.

(** ** The flow comes to an end *)

Lemma flow_unstamped_stamp (c : chunk) (y x n v : Z) :
  0 <= n < 256 ->
  square_in_bounds c y x = true -> when_ c y x <> n ->
  (flow_unstamped (set_cost (set_when c y x n) y x v) n < flow_unstamped c n)%nat.
Proof.
  intros Hn Hb Hs. unfold flow_unstamped.
  change (grid_cells (set_cost (set_when c y x n) y x v)) with (grid_cells c).
  apply (filter_length_lt _ _ _ (y, x)).
  - apply grid_cells_In, square_in_bounds_iff, Hb.
  - cbn [fst snd]. now apply negb_true_iff, Z.eqb_neq.
  - cbn. rewrite upd2_same, to_byte_small by exact Hn.
    now rewrite Z.eqb_refl.
  - intros [y' x'] _. cbn. unfold upd2.
    destruct ((y' =? y) && (x' =? x)); [|auto].
    rewrite to_byte_small by exact Hn. now rewrite Z.eqb_refl.
Qed.

Lemma flow_child_measure (flow_n n ty tx : Z) (st : flow_queue) (d : nat) :
  0 <= flow_n < 256 -> flow_wf st ->
  flow_wf (flow_child flow_n n ty tx st d) /\
  same_map (fq_chunk st) (fq_chunk (flow_child flow_n n ty tx st d)) /\
  flow_head (flow_child flow_n n ty tx st d) = flow_head st /\
  (flow_measure flow_n (flow_child flow_n n ty tx st d)
   <= flow_measure flow_n st)%nat.
Proof.
  intros Hn Hwf.
  destruct (flow_child_cases flow_n n ty tx st d Hwf)
    as [[-> _]|(Hb & Hs & _ & Hc & Hh & Hwf' & Hlen & _)].
  - repeat split; try apply Hwf; apply Nat.le_refl.
  - split; [exact Hwf'|]. split; [rewrite Hc; unfold same_map; cbn; tauto|].
    split; [exact Hh|]. unfold flow_measure. rewrite Hc, Hlen.
    pose proof (flow_unstamped_stamp _ _ _ _ n Hn Hb Hs).
    pose proof (flow_len_range st).
    destruct (flow_len st =? FLOW_MAX - 1); lia.
Qed.

Lemma flow_children_measure (flow_n n ty tx : Z) (st : flow_queue) :
  0 <= flow_n < 256 -> flow_wf st ->
  flow_wf (flow_children flow_n n ty tx st) /\
  same_map (fq_chunk st) (fq_chunk (flow_children flow_n n ty tx st)) /\
  flow_head (flow_children flow_n n ty tx st) = flow_head st /\
  (flow_measure flow_n (flow_children flow_n n ty tx st)
   <= flow_measure flow_n st)%nat.
Proof.
  intros Hn Hwf. unfold flow_children.
  apply (fold_left_invariant
           (fun st' => flow_wf st' /\ same_map (fq_chunk st) (fq_chunk st') /\
                       flow_head st' = flow_head st /\
                       (flow_measure flow_n st' <= flow_measure flow_n st)%nat)).
  - intros a d _ (Hwa & Hma & Hha & Hle).
    destruct (flow_child_measure flow_n n ty tx a d Hn Hwa)
      as (Hw' & Hm' & Hh' & Hle').
    split; [exact Hw'|]. split; [eapply same_map_trans; eassumption|].
    split; [congruence | lia].
  - split; [exact Hwf|]. split; [apply same_map_refl|]. split; [reflexivity|].
    apply Nat.le_refl.
Qed.

Lemma flow_step_measure (flow_n : Z) (st : flow_queue) :
  0 <= flow_n < 256 -> flow_wf st -> flow_head st <> flow_tail st ->
  flow_wf (flow_step flow_n st) /\
  same_map (fq_chunk st) (fq_chunk (flow_step flow_n st)) /\
  (flow_measure flow_n (flow_step flow_n st) < flow_measure flow_n st)%nat.
Proof.
  intros Hn Hwf Hne. unfold flow_step. cbv zeta.
  destruct (flow_list_dequeue st Hwf Hne) as (Hwf1 & Hlen1 & _).
  cbv zeta in Hwf1, Hlen1.
  set (st1 := {| fq_chunk := fq_chunk st; flow_y := flow_y st;
                 flow_x := flow_x st;
                 flow_head := if flow_head st + 1 =? FLOW_MAX then 0
                              else flow_head st + 1;
                 flow_tail := flow_tail st |}) in *.
  assert (Hm1 : (flow_measure flow_n st1 < flow_measure flow_n st)%nat).
  { unfold flow_measure. rewrite Hlen1. cbn [fq_chunk st1].
    pose proof (flow_len_range st).
    assert (flow_len st <> 0) by (rewrite flow_len_zero; assumption). lia. }
  cbn [fq_chunk st1].
  destruct (cost (fq_chunk st) (flow_y st (flow_head st))
              (flow_x st (flow_head st)) + 1 =? MONSTER_FLOW_DEPTH).
  - split; [exact Hwf1|]. split; [apply same_map_refl | exact Hm1].
  - destruct (flow_children_measure flow_n
                (cost (fq_chunk st) (flow_y st (flow_head st))
                   (flow_x st (flow_head st)) + 1)
                (flow_y st (flow_head st)) (flow_x st (flow_head st))
                st1 Hn Hwf1) as (Hw & Hm & _ & Hle).
    split; [exact Hw|]. split; [exact Hm | lia].
Qed.

(** The loop ends within any fuel above the measure of its state. *)
Lemma flow_process_total (flow_n : Z) :
  0 <= flow_n < 256 ->
  forall (fuel : nat) (st : flow_queue),
  flow_wf st -> (flow_measure flow_n st < fuel)%nat ->
  exists st', flow_process fuel flow_n st = Some st' /\
              same_map (fq_chunk st) (fq_chunk st').
Proof.
  intros Hn. induction fuel as [|fuel IH]; intros st Hwf Hm; [lia|].
  cbn [flow_process]. destruct (Z.eqb_spec (flow_head st) (flow_tail st)) as [E|E].
  - exists st. split; [reflexivity | apply same_map_refl].
  - destruct (flow_step_measure flow_n st Hn Hwf E) as (Hw & Hs & Hlt).
    destruct (IH (flow_step flow_n st) Hw) as [st' [Hr Hs']]; [lia|].
    exists st'. split; [exact Hr|]. eapply same_map_trans; eassumption.
Qed.

Lemma same_map_flow_cycle (c : chunk) : same_map c (flow_cycle c).
Proof.
  unfold flow_cycle. apply (for_grid_invariant (same_map c)).
  - intros a y x Ha. eapply same_map_trans; [exact Ha|].
    unfold same_map. cbn. tauto.
  - apply same_map_refl.
Qed.

Lemma flow_unstamped_le (c : chunk) (n : Z) :
  (flow_unstamped c n <= Z.to_nat (height c * width c))%nat.
Proof.
  unfold flow_unstamped.
  eapply Nat.le_trans; [apply List.filter_length_le | apply grid_cells_length].
Qed.

(** [cave_update_flow] returns, whatever the level, for a generation
    counter within its range. *)
Lemma cave_update_flow_total (c : chunk) (p : player_type) (flow_save : Z) :
  0 <= flow_save <= 255 ->
  exists c', cave_update_flow c p flow_save =
               Some (c', if flow_save =? 255 then 128 else flow_save + 1) /\
             same_map c c'.
Proof.
  intros Hfs. unfold cave_update_flow. cbv zeta.
  set (c0 := if flow_save =? 255 then flow_cycle c else c).
  set (n := if flow_save =? 255 then 128 else flow_save + 1).
  assert (Hc0 : same_map c c0)
    by (unfold c0; destruct (flow_save =? 255);
        [apply same_map_flow_cycle | apply same_map_refl]).
  assert (Hn : 0 <= n < 256)
    by (unfold n; destruct (Z.eqb_spec flow_save 255); lia).
  replace (if flow_save =? 255 then (flow_cycle c, 128) else (c, flow_save + 1))
    with (c0, n) by (unfold c0, n; now destruct (flow_save =? 255)).
  cbn [height width set_cost set_when].
  match goal with
  | |- context [flow_process ?f n ?st] =>
      destruct (flow_process_total n Hn f st) as [st' [Hr Hs]]
  end.
  - split; cbn; unfold FLOW_MAX; lia.
  - unfold flow_measure. cbn [fq_chunk].
    pose proof (flow_unstamped_le
                  (set_cost (set_when c0 (py p) (px p) n) (py p) (px p) 0) n) as H.
    cbn [height width set_cost set_when] in H.
    assert (Hl : flow_len
              {| fq_chunk := set_cost (set_when c0 (py p) (px p) n) (py p) (px p) 0;
                 flow_y := upd1 (fun _ : Z => 0) 0 (to_byte (py p));
                 flow_x := upd1 (fun _ : Z => 0) 0 (to_byte (px p));
                 flow_head := 0; flow_tail := 0 + 1 |} = 1) by reflexivity.
    rewrite Hl. lia.
  - rewrite Hr. exists (fq_chunk st'). split; [reflexivity|].
    eapply same_map_trans; [exact Hc0|].
    eapply same_map_trans; [|exact Hs]. unfold same_map. cbn. tauto.
Qed.

(** ** C8: the queue overflows *)

(** C8, amended.  When advancing the producer index [flow_tail] past a
    newly written child would make it equal to the consumer index
    [flow_head], [cave_update_flow] restores [flow_tail] to its value before
    that child: the one child is dropped, every entry of the queue -- those
    of earlier children of the same grid included -- stays in place, and
    the child keeps its stamp and its cost; and the call returns. *)
Theorem flow_child_overflow (flow_n n ty tx : Z) (st : flow_queue) (d : nat) :
  flow_wf st ->
  square_in_bounds (fq_chunk st) (ty + nth d ddy_ddd 0) (tx + nth d ddx_ddd 0)
    = true ->
  when_ (fq_chunk st) (ty + nth d ddy_ddd 0) (tx + nth d ddx_ddd 0) <> flow_n ->
  tf_has (fflags (f_info (feat (fq_chunk st) (ty + nth d ddy_ddd 0)
                                (tx + nth d ddx_ddd 0)))) TF_NO_FLOW = false ->
  (if flow_tail st + 1 =? FLOW_MAX then 0 else flow_tail st + 1) = flow_head st ->
  (flow_tail (flow_child flow_n n ty tx st d) = flow_tail st /\
   flow_head (flow_child flow_n n ty tx st d) = flow_head st /\
   flow_list (flow_child flow_n n ty tx st d) = flow_list st /\
   when_ (fq_chunk (flow_child flow_n n ty tx st d))
         (ty + nth d ddy_ddd 0) (tx + nth d ddx_ddd 0) = to_byte flow_n /\
   cost (fq_chunk (flow_child flow_n n ty tx st d))
        (ty + nth d ddy_ddd 0) (tx + nth d ddx_ddd 0) = to_byte n) /\
  (forall (c : chunk) (p : player_type) (flow_save : Z),
     0 <= flow_save <= 255 ->
     exists c', cave_update_flow c p flow_save =
                  Some (c', if flow_save =? 255 then 128 else flow_save + 1)).
Proof.
  intros Hwf Hb Hs Hf Hfull. split.
  - destruct (flow_list_enqueue st
                (set_cost (set_when (fq_chunk st) (ty + nth d ddy_ddd 0)
                             (tx + nth d ddx_ddd 0) flow_n)
                   (ty + nth d ddy_ddd 0) (tx + nth d ddx_ddd 0) n)
                (to_byte (ty + nth d ddy_ddd 0)) (to_byte (tx + nth d ddx_ddd 0))
                Hwf) as (_ & _ & Hlist).
    cbv zeta in Hlist. unfold flow_child. rewrite Hb. cbn [negb].
    apply Z.eqb_neq in Hs. rewrite Hs, Hf, Hfull in *.
    rewrite Z.eqb_refl in *. cbn [flow_tail flow_head fq_chunk].
    repeat split; try exact Hlist.
    + cbn. now rewrite upd2_same.
    + cbn. now rewrite upd2_same.
  - intros c p fs Hfs.
    destruct (cave_update_flow_total c p fs Hfs) as [c' [Hr _]].
    exists c'. exact Hr.
Qed.

End FlowStep.

(** The flow queue of the small game at its limit. *)

Lemma flow_child_overflow_witness :
  (flow_wf (demo_queue 1 0) /\
   square_in_bounds (fq_chunk (demo_queue 1 0)) (1 + nth 0%nat ddy_ddd 0)
     (1 + nth 0%nat ddx_ddd 0) = true /\
   when_ (fq_chunk (demo_queue 1 0)) (1 + nth 0%nat ddy_ddd 0)
     (1 + nth 0%nat ddx_ddd 0) <> 1 /\
   tf_has (fflags (@f_info demo_game
                     (feat (fq_chunk (demo_queue 1 0)) (1 + nth 0%nat ddy_ddd 0)
                        (1 + nth 0%nat ddx_ddd 0)))) TF_NO_FLOW = false /\
   (if flow_tail (demo_queue 1 0) + 1 =? FLOW_MAX then 0
    else flow_tail (demo_queue 1 0) + 1) = flow_head (demo_queue 1 0)) /\
  flow_tail (@flow_child demo_game 1 1 1 1 (demo_queue 1 0) 0) = 0 /\
  flow_list (@flow_child demo_game 1 1 1 1 (demo_queue 1 0) 0)
    = flow_list (demo_queue 1 0) /\
  when_ (fq_chunk (@flow_child demo_game 1 1 1 1 (demo_queue 1 0) 0)) 2 1 = 1.
Proof.
  assert (H1 : flow_wf (demo_queue 1 0)) by (split; cbn; unfold FLOW_MAX; lia).
  assert (H2 : square_in_bounds (fq_chunk (demo_queue 1 0))
                 (1 + nth 0%nat ddy_ddd 0) (1 + nth 0%nat ddx_ddd 0) = true)
    by reflexivity.
  assert (H3 : when_ (fq_chunk (demo_queue 1 0)) (1 + nth 0%nat ddy_ddd 0)
                 (1 + nth 0%nat ddx_ddd 0) <> 1) by (cbn; discriminate).
  assert (H4 : tf_has (fflags (@f_info demo_game
                     (feat (fq_chunk (demo_queue 1 0)) (1 + nth 0%nat ddy_ddd 0)
                        (1 + nth 0%nat ddx_ddd 0)))) TF_NO_FLOW = false)
    by reflexivity.
  assert (H5 : (if flow_tail (demo_queue 1 0) + 1 =? FLOW_MAX then 0
                else flow_tail (demo_queue 1 0) + 1) = flow_head (demo_queue 1 0))
    by reflexivity.
  split; [exact (conj H1 (conj H2 (conj H3 (conj H4 H5))))|].
  destruct (@flow_child_overflow demo_game 1 1 1 1 (demo_queue 1 0) 0%nat
              H1 H2 H3 H4 H5) as [(Ht & _ & Hl & Hw & _) _].
  split; [exact Ht|]. split; [exact Hl | exact Hw].
Defined.

(** C8 as stated fails when the queue has room for some of the children
    only.  With one free slot left, expanding the centre of the open room
    stamps its eight children, keeps the first of them, [(2, 1)], in the
    queue and drops the seven others: the batch is not dropped. *)
Lemma flow_children_overflow_counterexample :
  flow_len (demo_queue 2 0) = FLOW_MAX - 2 /\
  forallb (fun d => when_ (fq_chunk (@flow_children demo_game 1 1 1 1
                                       (demo_queue 2 0)))
                      (1 + nth d ddy_ddd 0) (1 + nth d ddx_ddd 0) =? 1)
          (seq 0 8) = true /\
  flow_len (@flow_children demo_game 1 1 1 1 (demo_queue 2 0)) = FLOW_MAX - 1 /\
  flow_tail (@flow_children demo_game 1 1 1 1 (demo_queue 2 0)) = 1 /\
  flow_entry (@flow_children demo_game 1 1 1 1 (demo_queue 2 0)) 0 = (2, 1).
Proof. repeat split; vm_compute; reflexivity. Qed.

(** ** Two runs of the flow on one map *)

Section FlowStable.
Context `{G : Game}.

Lemma flow_wf_rel (n1 n2 : Z) (st1 st2 : flow_queue) :
  flow_rel n1 n2 st1 st2 -> flow_wf st1 -> flow_wf st2.
Proof.
  intros (_ & _ & _ & Hh & Ht & _). unfold flow_wf. now rewrite Hh, Ht.
Qed.

(** A stamp keeps the entries of the queue live, and a new entry is
    live. *)
Lemma flow_child_live (flow_n n ty tx : Z) (st : flow_queue) (d : nat) :
  0 <= flow_n < 256 ->
  height (fq_chunk st) <= 256 -> width (fq_chunk st) <= 256 ->
  flow_wf st -> flow_live flow_n st ->
  flow_live flow_n (flow_child flow_n n ty tx st d).
Proof.
  intros Hn Hh Hw Hwf Hlive.
  destruct (flow_child_cases flow_n n ty tx st d Hwf)
    as [[-> _]|(Hb & Hs & _ & Hc & _ & _ & _ & Hl)]; [exact Hlive|].
  set (y := ty + nth d ddy_ddd 0) in *. set (x := tx + nth d ddx_ddd 0) in *.
  assert (Hkeep : forall q,
            square_in_bounds (fq_chunk st) (fst q) (snd q) = true /\
            when_ (fq_chunk st) (fst q) (snd q) = flow_n ->
            square_in_bounds (fq_chunk (flow_child flow_n n ty tx st d))
              (fst q) (snd q) = true /\
            when_ (fq_chunk (flow_child flow_n n ty tx st d)) (fst q) (snd q)
              = flow_n).
  { intros q [Hqb Hqs]. rewrite Hc. split; [exact Hqb|]. cbn. unfold upd2.
    destruct ((fst q =? y) && (snd q =? x)); [now apply to_byte_small | exact Hqs]. }
  intros q Hq. rewrite Hl in Hq.
  destruct (flow_len st =? FLOW_MAX - 1); [apply Hkeep, Hlive, Hq|].
  apply in_app_or in Hq. destruct Hq as [Hq|[<-|[]]]; [apply Hkeep, Hlive, Hq|].
  apply square_in_bounds_iff in Hb.
  rewrite !to_byte_small by lia. cbn [fst snd]. rewrite Hc. split.
  - now apply square_in_bounds_iff.
  - cbn. rewrite upd2_same. now apply to_byte_small.
Qed.

(** One child, in two runs in step. *)
Lemma flow_child_rel (n1 n2 n ty tx : Z) (st1 st2 : flow_queue) (d : nat) :
  0 <= n1 < 256 -> 0 <= n2 < 256 ->
  flow_rel n1 n2 st1 st2 ->
  flow_rel n1 n2 (flow_child n1 n ty tx st1 d) (flow_child n2 n ty tx st2 d).
Proof.
  intros Hn1 Hn2 Hrel. pose proof Hrel as (Hm & Hy & Hx & Hh & Ht & Ha).
  unfold flow_child. rewrite Hy, Hx, Hh, Ht.
  set (y := ty + nth d ddy_ddd 0). set (x := tx + nth d ddx_ddd 0).
  rewrite (square_in_bounds_same_map _ _ y x Hm).
  destruct (square_in_bounds (fq_chunk st1) y x) eqn:Hb; cbn [negb];
    [|exact Hrel].
  destruct (Ha y x Hb) as [Hiff _].
  destruct (Z.eqb_spec (when_ (fq_chunk st1) y x) n1) as [E1|E1];
    destruct (Z.eqb_spec (when_ (fq_chunk st2) y x) n2) as [E2|E2].
  1:{ exact Hrel. }
  1:{ exfalso. apply E2, Hiff, E1. }
  1:{ exfalso. apply E1, Hiff, E2. }
  pose proof Hm as (Hmh & Hmw & Hmf). rewrite Hmf.
  destruct (tf_has (fflags (f_info (feat (fq_chunk st1) y x))) TF_NO_FLOW);
    [exact Hrel|].
  split; [unfold same_map; cbn; tauto|].
  split; [reflexivity|]. split; [reflexivity|]. split; [reflexivity|].
  split; [reflexivity|].
  intros y0 x0 Hb0. cbn in Hb0 |- *. unfold upd2.
  rewrite !to_byte_small by assumption.
  destruct ((y0 =? y) && (x0 =? x)); [tauto|]. now apply Ha.
Qed.

Lemma flow_children_rel (n1 n2 n ty tx : Z) (l : list nat) :
  0 <= n1 < 256 -> 0 <= n2 < 256 ->
  forall st1 st2,
  flow_rel n1 n2 st1 st2 ->
  flow_rel n1 n2 (fold_left (flow_child n1 n ty tx) l st1)
                 (fold_left (flow_child n2 n ty tx) l st2).
Proof.
  intros Hn1 Hn2. induction l as [|d l IH]; intros st1 st2 Hrel; [exact Hrel|].
  cbn [fold_left]. apply IH. now apply flow_child_rel.
Qed.

(** What the children of one grid keep. *)
Lemma flow_children_live (flow_n n ty tx : Z) (st : flow_queue) :
  0 <= flow_n < 256 ->
  height (fq_chunk st) <= 256 -> width (fq_chunk st) <= 256 ->
  flow_wf st -> flow_live flow_n st ->
  flow_live flow_n (flow_children flow_n n ty tx st).
Proof.
  intros Hn Hh Hw Hwf Hlive. unfold flow_children.
  assert (H : flow_wf (fold_left (flow_child flow_n n ty tx) (seq 0 8) st) /\
              same_map (fq_chunk st)
                (fq_chunk (fold_left (flow_child flow_n n ty tx) (seq 0 8) st)) /\
              flow_live flow_n
                (fold_left (flow_child flow_n n ty tx) (seq 0 8) st));
    [|tauto].
  apply (fold_left_invariant
           (fun a => flow_wf a /\ same_map (fq_chunk st) (fq_chunk a) /\
                     flow_live flow_n a)).
  - intros a d _ (Hwa & Hma & Hla).
    destruct (flow_child_measure flow_n n ty tx a d Hn Hwa) as (Hw' & Hm' & _).
    split; [exact Hw'|]. split; [eapply same_map_trans; eassumption|].
    destruct Hma as (Eh & Ew & _).
    apply flow_child_live; try assumption; lia.
  - split; [exact Hwf|]. split; [apply same_map_refl | exact Hlive].
Qed.

(** One step of the loop, in two runs in step. *)
Lemma flow_step_rel (n1 n2 : Z) (st1 st2 : flow_queue) :
  0 <= n1 < 256 -> 0 <= n2 < 256 ->
  height (fq_chunk st1) <= 256 -> width (fq_chunk st1) <= 256 ->
  flow_wf st1 -> flow_live n1 st1 -> flow_head st1 <> flow_tail st1 ->
  flow_rel n1 n2 st1 st2 ->
  flow_rel n1 n2 (flow_step n1 st1) (flow_step n2 st2) /\
  flow_live n1 (flow_step n1 st1).
Proof.
  intros Hn1 Hn2 Hh Hw Hwf Hlive Hne Hrel.
  pose proof Hrel as (Hm & Hy & Hx & Hhd & Htl & Ha).
  destruct (flow_list_dequeue st1 Hwf Hne) as (Hwf1 & _ & Hlist).
  cbv zeta in Hwf1, Hlist.
  unfold flow_step. cbv zeta. rewrite Hy, Hx, Hhd, Htl. cbn [fq_chunk].
  set (ty := flow_y st1 (flow_head st1)) in *.
  set (tx := flow_x st1 (flow_head st1)) in *.
  set (hd := if flow_head st1 + 1 =? FLOW_MAX then 0 else flow_head st1 + 1) in *.
  destruct (Hlive (ty, tx)) as [Hb Hs]; [rewrite Hlist; now left|].
  cbn [fst snd] in Hb, Hs.
  destruct (Ha ty tx Hb) as [_ Hcost]. rewrite <- (Hcost Hs).
  set (s1 := {| fq_chunk := fq_chunk st1; flow_y := flow_y st1;
                flow_x := flow_x st1; flow_head := hd;
                flow_tail := flow_tail st1 |}) in *.
  set (s2 := {| fq_chunk := fq_chunk st2; flow_y := flow_y st1;
                flow_x := flow_x st1; flow_head := hd;
                flow_tail := flow_tail st1 |}).
  assert (Hrel' : flow_rel n1 n2 s1 s2)
    by (unfold flow_rel, s1, s2; cbn; tauto).
  assert (Hlive' : flow_live n1 s1).
  { intros q Hq. apply (Hlive q). rewrite Hlist. now right. }
  destruct (cost (fq_chunk st1) ty tx + 1 =? MONSTER_FLOW_DEPTH).
  - split; assumption.
  - split.
    + unfold flow_children. now apply flow_children_rel.
    + apply flow_children_live; assumption.
Qed.

Lemma flow_process_rel (n1 n2 : Z) :
  0 <= n1 < 256 -> 0 <= n2 < 256 ->
  forall (fuel : nat) (st1 st2 r1 : flow_queue),
  height (fq_chunk st1) <= 256 -> width (fq_chunk st1) <= 256 ->
  flow_wf st1 -> flow_live n1 st1 ->
  flow_rel n1 n2 st1 st2 ->
  flow_process fuel n1 st1 = Some r1 ->
  exists r2, flow_process fuel n2 st2 = Some r2 /\ flow_rel n1 n2 r1 r2.
Proof.
  intros Hn1 Hn2. induction fuel as [|fuel IH];
    intros st1 st2 r1 Hh Hw Hwf Hlive Hrel Hr; [discriminate Hr|].
  cbn [flow_process] in Hr |- *.
  pose proof Hrel as (_ & _ & _ & Hhd & Htl & _). rewrite Hhd, Htl.
  destruct (Z.eqb_spec (flow_head st1) (flow_tail st1)) as [E|E].
  - inversion Hr; subst r1. exists st2. split; [reflexivity | exact Hrel].
  - destruct (flow_step_rel n1 n2 st1 st2 Hn1 Hn2 Hh Hw Hwf Hlive E Hrel)
      as [Hrel' Hlive'].
    destruct (flow_step_measure n1 st1 Hn1 Hwf E) as (Hwf' & (Eh & Ew & _) & _).
    apply (IH (flow_step n1 st1)); try assumption; lia.
Qed.

(** A property of the level that every child keeps holds at the end of
    the loop. *)
Lemma flow_process_chunk_invariant (P : chunk -> Prop) (flow_n : Z) :
  (forall st n ty tx d,
     P (fq_chunk st) -> P (fq_chunk (flow_child flow_n n ty tx st d))) ->
  forall (fuel : nat) (st r : flow_queue),
  P (fq_chunk st) -> flow_process fuel flow_n st = Some r -> P (fq_chunk r).
Proof.
  intros Hchild. induction fuel as [|fuel IH]; intros st r HP Hr;
    [discriminate Hr|].
  cbn [flow_process] in Hr. destruct (flow_head st =? flow_tail st).
  - now inversion Hr; subst.
  - apply (IH (flow_step flow_n st)); [|exact Hr].
    unfold flow_step. cbv zeta. cbn [fq_chunk].
    destruct (_ =? MONSTER_FLOW_DEPTH); [exact HP|].
    unfold flow_children.
    apply (fold_left_invariant (fun a => P (fq_chunk a))); [|exact HP].
    intros a d _ Ha. now apply Hchild.
Qed.

(** A child changes the level by stamping one grid, if at all. *)
Lemma flow_child_stamps (c0 : chunk) (flow_n : Z) :
  0 <= flow_n < 256 ->
  forall st n ty tx d,
  (forall y x,
     (when_ (fq_chunk st) y x = when_ c0 y x /\
      cost (fq_chunk st) y x = cost c0 y x) \/
     when_ (fq_chunk st) y x = flow_n) ->
  forall y x,
    (when_ (fq_chunk (flow_child flow_n n ty tx st d)) y x = when_ c0 y x /\
     cost (fq_chunk (flow_child flow_n n ty tx st d)) y x = cost c0 y x) \/
    when_ (fq_chunk (flow_child flow_n n ty tx st d)) y x = flow_n.
Proof.
  intros Hn st n ty tx d H y x. unfold flow_child.
  destruct (negb (square_in_bounds _ _ _)); [apply H|].
  destruct (_ =? flow_n); [apply H|].
  destruct (tf_has _ _); [apply H|].
  cbn [fq_chunk when_ cost set_cost set_when]. unfold upd2.
  destruct ((y =? ty + nth d ddy_ddd 0) && (x =? tx + nth d ddx_ddd 0));
    [right; now apply to_byte_small | apply H].
Qed.

(** ** The prologue of [cave_update_flow] *)

Lemma flow_cycle_cost (c : chunk) : cost (flow_cycle c) = cost c.
Proof.
  unfold flow_cycle.
  apply (for_grid_invariant (fun a => cost a = cost c)); [|reflexivity].
  intros a y x Ha. exact Ha.
Qed.

Lemma flow_cycle_when (c : chunk) (y x : Z) :
  square_in_bounds c y x = true ->
  0 <= when_ c y x <= 255 ->
  0 <= when_ (flow_cycle c) y x <= 127.
Proof.
  intros Hb Hw. apply square_in_bounds_iff in Hb. destruct Hb as [Hy Hx].
  unfold flow_cycle.
  apply (for_grid_establish_inv
           (fun a => when_ a y x = when_ c y x)
           (fun a => 0 <= when_ a y x <= 127) _ _ y x); try assumption.
  - reflexivity.
  - intros a y' x' Ha Hne. cbn. rewrite upd2_other by congruence. exact Ha.
  - intros a Ha. cbn. rewrite upd2_same, Ha. unfold to_byte.
    destruct (Z.geb_spec (when_ c y x) 128); rewrite Z.mod_small; lia.
  - intros a y' x' Ha. cbn. unfold upd2.
    destruct (Z.eqb_spec y y') as [<-|], (Z.eqb_spec x x') as [<-|];
      cbn [andb]; try exact Ha.
    unfold to_byte.
    destruct (Z.geb_spec (when_ a y x) 128); rewrite Z.mod_small; lia.
  - reflexivity.
Qed.

(** After the prologue the generation [n] is new: no grid of the level
    carries it yet. *)
Lemma flow_prologue (c : chunk) (flow_save : Z) :
  flow_inv c flow_save ->
  let c0 := if flow_save =? 255 then flow_cycle c else c in
  let n := if flow_save =? 255 then 128 else flow_save + 1 in
  0 < n < 256 /\ same_map c c0 /\ cost c0 = cost c /\
  forall y x, square_in_bounds c y x = true -> 0 <= when_ c0 y x < n.
Proof.
  intros [Hfs Hw]. cbv zeta. destruct (Z.eqb_spec flow_save 255) as [E|E].
  - split; [lia|]. split; [apply same_map_flow_cycle|].
    split; [apply flow_cycle_cost|]. intros y x Hb.
    pose proof (flow_cycle_when c y x Hb) as H. specialize (Hw y x Hb). lia.
  - split; [lia|]. split; [apply same_map_refl|]. split; [reflexivity|].
    intros y x Hb. specialize (Hw y x Hb). lia.
Qed.

(** One call: it returns; the level keeps its map and its invariant; a
    grid that the call does not stamp keeps its cost. *)
Lemma cave_update_flow_inv (c : chunk) (p : player_type) (flow_save : Z) :
  flow_inv c flow_save ->
  exists c',
    cave_update_flow c p flow_save =
      Some (c', if flow_save =? 255 then 128 else flow_save + 1) /\
    same_map c c' /\
    flow_inv c' (if flow_save =? 255 then 128 else flow_save + 1) /\
    forall y x, square_in_bounds c y x = true ->
      when_ c' y x <> (if flow_save =? 255 then 128 else flow_save + 1) ->
      cost c' y x = cost c y x.
Proof.
  intros Hinv. pose proof Hinv as [Hfs _].
  destruct (cave_update_flow_total c p flow_save Hfs) as [c' [Hr Hm]].
  exists c'. split; [exact Hr|]. split; [exact Hm|].
  destruct (flow_prologue c flow_save Hinv) as (Hn & Hm0 & Hc0 & Hfresh).
  cbv zeta in Hn, Hm0, Hc0, Hfresh.
  unfold cave_update_flow in Hr. cbv zeta in Hr.
  set (c0 := if flow_save =? 255 then flow_cycle c else c) in *.
  set (n := if flow_save =? 255 then 128 else flow_save + 1) in *.
  replace (if flow_save =? 255 then (flow_cycle c, 128) else (c, flow_save + 1))
    with (c0, n) in Hr by (unfold c0, n; now destruct (flow_save =? 255)).
  match type of Hr with
  | match flow_process ?f n ?st with _ => _ end = _ =>
      destruct (flow_process f n st) as [r|] eqn:Hp; [|discriminate Hr];
      pose proof (flow_process_chunk_invariant
        (fun a => forall y x,
           (when_ a y x = when_ (fq_chunk st) y x /\
            cost a y x = cost (fq_chunk st) y x) \/ when_ a y x = n)
        n) as Hkeep;
      specialize (Hkeep (flow_child_stamps _ n ltac:(lia))
                    f st r (fun y x => or_introl (conj eq_refl eq_refl)) Hp)
  end.
  inversion Hr; subst c'. clear Hr. cbn [fq_chunk] in Hkeep.
  assert (Hb' : forall y x, square_in_bounds (fq_chunk r) y x = true ->
                            square_in_bounds c y x = true)
    by (intros y x; now rewrite (square_in_bounds_same_map c _ y x Hm)).
  split.
  - split; [lia|]. intros y x Hb. apply Hb' in Hb.
    destruct (Hkeep y x) as [[Hw _]|Hw]; [|lia]. rewrite Hw. cbn. unfold upd2.
    destruct ((y =? py p) && (x =? px p)).
    + rewrite to_byte_small; lia.
    + specialize (Hfresh y x Hb). lia.
  - intros y x Hb Hs. destruct (Hkeep y x) as [[Hw Hc]|Hw]; [|contradiction].
    rewrite Hc. cbn. unfold upd2.
    destruct ((y =? py p) && (x =? px p)) eqn:E.
    + exfalso. apply Hs. rewrite Hw. cbn. unfold upd2. rewrite E.
      apply to_byte_small. lia.
    + now rewrite Hc0.
Qed.

(** Two calls on the same map, from any two states of the flow: the same
    grids are stamped, with the same costs. *)
Lemma cave_update_flow_rel (c1 c2 : chunk) (p : player_type) (fs1 fs2 : Z)
    (c1' : chunk) (n1 : Z) :
  flow_inv c1 fs1 -> flow_inv c2 fs2 -> same_map c1 c2 ->
  height c1 <= 256 -> width c1 <= 256 ->
  square_in_bounds c1 (py p) (px p) = true ->
  cave_update_flow c1 p fs1 = Some (c1', n1) ->
  exists c2',
    cave_update_flow c2 p fs2 =
      Some (c2', if fs2 =? 255 then 128 else fs2 + 1) /\
    flow_agree c1' n1 c2' (if fs2 =? 255 then 128 else fs2 + 1).
Proof.
  intros Hi1 Hi2 Hm Hh Hw Hp Hr.
  destruct (flow_prologue c1 fs1 Hi1) as (Hn1 & Hm1 & _ & Hf1).
  destruct (flow_prologue c2 fs2 Hi2) as (Hn2 & Hm2 & _ & Hf2).
  cbv zeta in Hn1, Hm1, Hf1, Hn2, Hm2, Hf2.
  unfold cave_update_flow in Hr |- *. cbv zeta in Hr |- *.
  set (a1 := if fs1 =? 255 then flow_cycle c1 else c1) in *.
  set (m1 := if fs1 =? 255 then 128 else fs1 + 1) in *.
  set (a2 := if fs2 =? 255 then flow_cycle c2 else c2) in *.
  set (m2 := if fs2 =? 255 then 128 else fs2 + 1) in *.
  replace (if fs1 =? 255 then (flow_cycle c1, 128) else (c1, fs1 + 1))
    with (a1, m1) in Hr by (unfold a1, m1; now destruct (fs1 =? 255)).
  replace (if fs2 =? 255 then (flow_cycle c2, 128) else (c2, fs2 + 1))
    with (a2, m2) by (unfold a2, m2; now destruct (fs2 =? 255)).
  cbn [height width set_cost set_when] in Hr |- *.
  assert (Hm12 : same_map a1 a2).
  { destruct Hm1 as (A1 & A2 & A3), Hm2 as (B1 & B2 & B3), Hm as (C1 & C2 & C3).
    unfold same_map. repeat split; congruence. }
  pose proof Hm12 as (Eh & Ew & _). rewrite Eh, Ew.
  pose proof Hm1 as (Eh1 & Ew1 & _).
  set (fuel := (Z.to_nat (height a1 * width a1) + 2)%nat) in *.
  set (st1 := {| fq_chunk := set_cost (set_when a1 (py p) (px p) m1) (py p) (px p) 0;
                 flow_y := upd1 (fun _ : Z => 0) 0 (to_byte (py p));
                 flow_x := upd1 (fun _ : Z => 0) 0 (to_byte (px p));
                 flow_head := 0; flow_tail := 0 + 1 |}) in *.
  set (st2 := {| fq_chunk := set_cost (set_when a2 (py p) (px p) m2) (py p) (px p) 0;
                 flow_y := upd1 (fun _ : Z => 0) 0 (to_byte (py p));
                 flow_x := upd1 (fun _ : Z => 0) 0 (to_byte (px p));
                 flow_head := 0; flow_tail := 0 + 1 |}).
  destruct (flow_process fuel m1 st1) as [r1|] eqn:Hp1; [|discriminate Hr].
  inversion Hr; subst c1' n1. clear Hr.
  assert (Hwf : flow_wf st1) by (split; cbn; unfold FLOW_MAX; lia).
  assert (Hpb : 0 <= py p < 256 /\ 0 <= px p < 256)
    by (apply square_in_bounds_iff in Hp; lia).
  assert (Hlive : flow_live m1 st1).
  { intros q Hq. change (flow_list st1)
      with [(to_byte (py p), to_byte (px p))] in Hq.
    destruct Hq as [<-|[]]. rewrite !to_byte_small by lia. cbn [fst snd].
    split.
    - unfold st1. cbn [fq_chunk]. unfold square_in_bounds in *.
      cbn [height width set_cost set_when]. now rewrite Eh1, Ew1.
    - cbn. rewrite upd2_same. apply to_byte_small. lia. }
  assert (Hrel : flow_rel m1 m2 st1 st2).
  { split; [unfold same_map in *; cbn; tauto|].
    split; [reflexivity|]. split; [reflexivity|]. split; [reflexivity|].
    split; [reflexivity|].
    intros y x Hb. cbn in Hb |- *. unfold upd2.
    rewrite !to_byte_small by lia.
    assert (Hb1 : square_in_bounds c1 y x = true)
      by (unfold square_in_bounds in *; now rewrite <- Eh1, <- Ew1).
    assert (Hb2 : square_in_bounds c2 y x = true)
      by (now rewrite (square_in_bounds_same_map c1 c2 y x Hm)).
    specialize (Hf1 y x Hb1). specialize (Hf2 y x Hb2).
    destruct ((y =? py p) && (x =? px p)); [tauto|]. split; [lia|]. lia. }
  destruct (flow_process_rel m1 m2 ltac:(lia) ltac:(lia) fuel st1 st2 r1)
    as [r2 [Hp2 Hrel2]]; try assumption.
  - cbn. lia.
  - cbn. lia.
  - rewrite Hp2. exists (fq_chunk r2). split; [reflexivity|]. apply Hrel2.
Qed.

Lemma flow_agree_refl_trans (c1 c2 c3 : chunk) (n1 n2 n3 : Z) :
  same_map c1 c2 ->
  flow_agree c1 n1 c2 n2 -> flow_agree c1 n1 c3 n3 -> flow_agree c2 n2 c3 n3.
Proof.
  intros Hm H12 H13 y x Hb. rewrite (square_in_bounds_same_map _ _ y x Hm) in Hb.
  destruct (H12 y x Hb) as [A1 A2], (H13 y x Hb) as [B1 B2]. split.
  - tauto.
  - intros Hs. apply A1 in Hs. rewrite <- (A2 Hs). now apply B2.
Qed.

(** [k + 1] calls are [k] calls and one more. *)
Lemma cave_update_flow_iter_last (k : nat) (c : chunk) (p : player_type)
    (flow_save : Z) :
  cave_update_flow_iter (S k) c p flow_save =
  match cave_update_flow_iter k c p flow_save with
  | Some (c', flow_save') => cave_update_flow c' p flow_save'
  | None => None
  end.
Proof.
  revert c flow_save. induction k as [|k IH]; intros c fs.
  - cbn. now destruct (cave_update_flow c p fs) as [[c' fs']|].
  - cbn [cave_update_flow_iter].
    destruct (cave_update_flow c p fs) as [[c' fs']|]; [|reflexivity].
    rewrite <- IH. reflexivity.
Qed.

(** ** C9 *)

(** C9. On a static map with the player fixed, whatever the number [k] of
    calls of [cave_update_flow] -- so also after the call that finds the
    generation counter at 255, rebases the time stamps and restarts the
    counter at 128 -- the grids stamped by the last call are those stamped
    by the first one, and the cost stored for every grid of the level is
    the cost stored for it after the first call.  The level fits the byte
    arrays of the queue, its time stamps are those of past generations. *)
Theorem cave_update_flow_stable (c : chunk) (p : player_type) (flow_save : Z)
    (k : nat) :
  height c <= 256 -> width c <= 256 ->
  square_in_bounds c (py p) (px p) = true ->
  flow_inv c flow_save ->
  (1 <= k)%nat ->
  exists c1 fs1 ck fsk,
    cave_update_flow c p flow_save = Some (c1, fs1) /\
    cave_update_flow_iter k c p flow_save = Some (ck, fsk) /\
    forall y x, square_in_bounds c y x = true ->
      (when_ c1 y x = fs1 <-> when_ ck y x = fsk) /\
      cost ck y x = cost c1 y x.
Proof.
  intros Hh Hw Hp Hinv Hk.
  destruct (cave_update_flow_inv c p flow_save Hinv)
    as (c1 & Hr1 & Hm1 & Hinv1 & _).
  set (fs1 := if flow_save =? 255 then 128 else flow_save + 1) in *.
  exists c1, fs1.
  assert (H : exists ck fsk,
            cave_update_flow_iter k c p flow_save = Some (ck, fsk) /\
            same_map c ck /\ flow_inv ck fsk /\
            flow_agree c1 fs1 ck fsk /\
            forall y x, square_in_bounds c y x = true ->
                        cost ck y x = cost c1 y x).
  { induction k as [|k IH]; [lia|]. destruct k as [|k].
    - exists c1, fs1. cbn [cave_update_flow_iter]. rewrite Hr1.
      split; [reflexivity|]. split; [exact Hm1|]. split; [exact Hinv1|].
      split; [|reflexivity]. intros y x _. tauto.
    - destruct IH as (ck & fsk & Hrk & Hmk & Hinvk & Hak & Hck); [lia|].
      rewrite cave_update_flow_iter_last, Hrk.
      destruct (cave_update_flow_inv ck p fsk Hinvk)
        as (c' & Hr' & Hm' & Hinv' & Hkeep).
      destruct (cave_update_flow_rel c ck p flow_save fsk c1 fs1
                  Hinv Hinvk Hmk Hh Hw Hp Hr1) as (c2' & Hr2 & Ha2).
      rewrite Hr2 in Hr'. inversion Hr'; subst c2'. clear Hr'.
      exists c', (if fsk =? 255 then 128 else fsk + 1).
      split; [exact Hr2|]. split; [eapply same_map_trans; eassumption|].
      split; [exact Hinv'|]. split; [exact Ha2|].
      intros y x Hb.
      assert (Hb1 : square_in_bounds c1 y x = true)
        by (now rewrite (square_in_bounds_same_map c c1 y x Hm1)).
      assert (Hbk : square_in_bounds ck y x = true)
        by (now rewrite (square_in_bounds_same_map c ck y x Hmk)).
      destruct (Ha2 y x Hb1) as [Hiff Hcost].
      destruct (Z.eq_dec (when_ c' y x) (if fsk =? 255 then 128 else fsk + 1))
        as [E|E].
      + symmetry. apply Hcost, Hiff, E.
      + rewrite (Hkeep y x Hbk E). apply Hck, Hb. }
  destruct H as (ck & fsk & Hrk & Hmk & _ & Hak & Hck).
  exists ck, fsk. split; [exact Hr1|]. split; [exact Hrk|].
  intros y x Hb. split; [|apply Hck, Hb].
  apply Hak. now rewrite (square_in_bounds_same_map c c1 y x Hm1).
Qed.

End FlowStable.

Lemma cave_update_flow_stable_witness :
  (height walled_room <= 256 /\ width walled_room <= 256 /\
   square_in_bounds walled_room (py (demo_player 1 1 0)) (px (demo_player 1 1 0))
     = true /\
   flow_inv walled_room 0 /\ (1 <= 256)%nat) /\
  exists c1 fs1 ck fsk,
    @cave_update_flow demo_game walled_room (demo_player 1 1 0) 0 = Some (c1, fs1) /\
    @cave_update_flow_iter demo_game 256 walled_room (demo_player 1 1 0) 0
      = Some (ck, fsk) /\
    forall y x, square_in_bounds walled_room y x = true ->
      (when_ c1 y x = fs1 <-> when_ ck y x = fsk) /\
      cost ck y x = cost c1 y x.
Proof.
  assert (H1 : height walled_room <= 256) by (cbn; lia).
  assert (H2 : width walled_room <= 256) by (cbn; lia).
  assert (H3 : square_in_bounds walled_room (py (demo_player 1 1 0))
                 (px (demo_player 1 1 0)) = true) by reflexivity.
  assert (H4 : flow_inv walled_room 0) by (split; [lia | intros; cbn; lia]).
  assert (H5 : (1 <= 256)%nat) by lia.
  split; [exact (conj H1 (conj H2 (conj H3 (conj H4 H5))))|].
  exact (@cave_update_flow_stable demo_game walled_room (demo_player 1 1 0) 0
           256 H1 H2 H3 H4 H5).
Defined.

(** ** Geometry of the flow *)

Lemma box_cells_In (y0 x0 h w y x : Z) :
  In (y, x) (box_cells y0 x0 h w) <-> y0 <= y < y0 + h /\ x0 <= x < x0 + w.
Proof.
  unfold box_cells. rewrite in_flat_map. split.
  - intros [i [Hi H]]. apply in_map_iff in H. destruct H as [j [E Hj]].
    inversion E; subst. rewrite zrange_In in Hi, Hj. lia.
  - intros [Hy Hx]. exists (y - y0). rewrite zrange_In. split; [lia|].
    apply in_map_iff. exists (x - x0). rewrite zrange_In.
    split; [f_equal; lia | lia].
Qed.

Lemma box_cells_length (y0 x0 h w : Z) :
  length (box_cells y0 x0 h w) = (Z.to_nat h * Z.to_nat w)%nat.
Proof.
  unfold box_cells. rewrite <- (zrange_length h).
  induction (zrange h) as [|i l IH]; [reflexivity|].
  cbn. rewrite length_app, length_map, zrange_length, IH. lia.
Qed.

(** The grids at distance [m] or [m + 1] of a point lie in four strips
    around it; there are at most [16 * m + 24] of them. *)
Lemma annulus_length (py px m : Z) (l : list (Z * Z)) :
  0 <= m -> NoDup l ->
  (forall q, In q l -> chebyshev py px (fst q) (snd q) = m \/
                       chebyshev py px (fst q) (snd q) = m + 1) ->
  Z.of_nat (length l) <= 16 * m + 24.
Proof.
  intros Hm Hnd Hl.
  set (strips := box_cells (py - m - 1) (px - m - 1) 2 (2 * m + 3)
                 ++ box_cells (py + m) (px - m - 1) 2 (2 * m + 3)
                 ++ box_cells (py - m - 1) (px - m - 1) (2 * m + 3) 2
                 ++ box_cells (py - m - 1) (px + m) (2 * m + 3) 2).
  assert (Hincl : incl l strips).
  { intros [y x] Hq. specialize (Hl _ Hq). cbn [fst snd] in Hl.
    unfold chebyshev in Hl. unfold strips.
    rewrite !in_app_iff, !box_cells_In. lia. }
  pose proof (NoDup_incl_length Hnd Hincl) as Hlen.
  unfold strips in Hlen. rewrite !length_app, !box_cells_length in Hlen. lia.
Qed.

(** The direction tables hold the eight steps to a neighbour. *)
Lemma ddd_bound (d : nat) :
  -1 <= nth d ddy_ddd 0 <= 1 /\ -1 <= nth d ddx_ddd 0 <= 1.
Proof.
  do 8 (destruct d as [|d]; [cbn; lia|]). destruct d; cbn; lia.
Qed.

Lemma ddd_complete (oy ox : Z) :
  -1 <= oy <= 1 -> -1 <= ox <= 1 -> (oy, ox) <> (0, 0) ->
  exists d, (d < 8)%nat /\ nth d ddy_ddd 0 = oy /\ nth d ddx_ddd 0 = ox.
Proof.
  intros Hy Hx Hne.
  assert (Hc : (oy = -1 \/ oy = 0 \/ oy = 1) /\ (ox = -1 \/ ox = 0 \/ ox = 1))
    by lia.
  destruct Hc as [[Ey | [Ey | Ey]] [Ex | [Ex | Ex]]]; subst oy ox.
  - exists 7%nat. cbn. repeat split; lia.
  - exists 1%nat. cbn. repeat split; lia.
  - exists 6%nat. cbn. repeat split; lia.
  - exists 3%nat. cbn. repeat split; lia.
  - now elim Hne.
  - exists 2%nat. cbn. repeat split; lia.
  - exists 5%nat. cbn. repeat split; lia.
  - exists 0%nat. cbn. repeat split; lia.
  - exists 4%nat. cbn. repeat split; lia.
Qed.

Lemma chebyshev_neighbour (py px y x : Z) (d : nat) :
  chebyshev py px (y + nth d ddy_ddd 0) (x + nth d ddx_ddd 0)
  <= chebyshev py px y x + 1.
Proof. pose proof (ddd_bound d). unfold chebyshev. lia. Qed.

(** A grid of a rectangle that holds the player, away from the player,
    is the neighbour of a grid of the rectangle one step nearer. *)
Lemma chebyshev_predecessor (y0 x0 y1 x1 py px y x : Z) :
  in_rect y0 x0 y1 x1 py px -> in_rect y0 x0 y1 x1 y x ->
  1 <= chebyshev py px y x ->
  exists y' x' d,
    (d < 8)%nat /\ in_rect y0 x0 y1 x1 y' x' /\
    y = y' + nth d ddy_ddd 0 /\ x = x' + nth d ddx_ddd 0 /\
    chebyshev py px y' x' = chebyshev py px y x - 1.
Proof.
  intros Hp Hq Hd. unfold in_rect, chebyshev in *.
  destruct (ddd_complete (y - step_toward y py) (x - step_toward x px))
    as (d & Hd8 & Ey & Ex).
  - unfold step_toward. destruct (Z.ltb_spec y py), (Z.gtb_spec y py); lia.
  - unfold step_toward. destruct (Z.ltb_spec x px), (Z.gtb_spec x px); lia.
  - unfold step_toward. intros E. inversion E.
    destruct (Z.ltb_spec y py), (Z.gtb_spec y py),
      (Z.ltb_spec x px), (Z.gtb_spec x px); lia.
  - exists (step_toward y py), (step_toward x px), d. rewrite Ey, Ex.
    unfold step_toward.
    destruct (Z.ltb_spec y py), (Z.gtb_spec y py),
      (Z.ltb_spec x px), (Z.gtb_spec x px); repeat split; lia.
Qed.

Lemma fold_left_prefix {A B : Type} (P : list B -> A -> Prop) (f : A -> B -> A)
    (l : list B) :
  (forall done b a, P done a -> In b l -> P (done ++ [b]) (f a b)) ->
  forall a, P [] a -> P l (fold_left f l a).
Proof.
  intros Hstep.
  assert (H : forall (rest done : list B) (a : A),
            incl rest l -> P done a -> P (done ++ rest) (fold_left f rest a)).
  { induction rest as [|b rest IH]; intros done a Hin Ha.
    - now rewrite app_nil_r.
    - cbn [fold_left].
      replace (done ++ b :: rest) with ((done ++ [b]) ++ rest)
        by (now rewrite <- app_assoc).
      apply IH.
      + intros x Hx. apply Hin. now right.
      + apply Hstep; [exact Ha | apply Hin; now left]. }
  intros a Ha. apply (H l [] a); [apply incl_refl | exact Ha].
Qed.

(** ** C2: the flow in an open room *)

Section FlowRoom.
Context `{G : Game}.
Variables (c0 : chunk) (y0 x0 y1 x1 py px n : Z).
Hypothesis Hdepth : 1 <= MONSTER_FLOW_DEPTH <= 128.
Hypothesis Hheight : height c0 <= 256.
Hypothesis Hwidth : width c0 <= 256.
Hypothesis Hroom : open_room_at c0 y0 x0 y1 x1.
Hypothesis Hplayer : in_rect y0 x0 y1 x1 py px.
Hypothesis Hn : 0 <= n < 256.

Local Abbreviation bfs_inv := (flow_bfs_inv y0 x0 y1 x1 py px n c0).
Local Abbreviation bfs_mid := (flow_bfs_mid y0 x0 y1 x1 py px n c0).
Local Abbreviation room := (in_rect y0 x0 y1 x1).
Local Abbreviation dist := (chebyshev py px).

Lemma room_in_level (y x : Z) :
  room y x -> 0 <= y < 256 /\ 0 <= x < 256.
Proof.
  intros Hq. destruct Hroom as [Hin _]. destruct (Hin y x Hq) as [Hb _].
  apply square_in_bounds_iff in Hb. lia.
Qed.

Lemma dist_nonneg (y x : Z) : 0 <= dist y x.
Proof. unfold chebyshev. lia. Qed.

Lemma dist_zero (y x : Z) : dist y x = 0 -> y = py /\ x = px.
Proof. unfold chebyshev. lia. Qed.

(** Every grid of the room up to the distance of the front of the queue
    carries the stamp. *)
Lemma flow_bfs_front (st : flow_queue) (K : Z) :
  bfs_inv st ->
  (forall q, In q (flow_list st) -> K <= dist (fst q) (snd q)) ->
  K < MONSTER_FLOW_DEPTH ->
  forall y x, room y x -> dist y x <= K -> when_ (fq_chunk st) y x = n.
Proof.
  intros (_ & _ & _ & Hp & _ & _ & _ & Hexp) HK HKd.
  assert (H : forall (k : nat) y x, dist y x = Z.of_nat k -> room y x ->
                dist y x <= K -> when_ (fq_chunk st) y x = n).
  { induction k as [|k IH]; intros y x Ek Hq Hle.
    - destruct (dist_zero y x Ek) as [-> ->]. exact Hp.
    - destruct (chebyshev_predecessor y0 x0 y1 x1 py px y x Hplayer Hq)
        as (y' & x' & d & Hd & Hq' & Ey & Ex & Ed); [lia|].
      assert (Hs : when_ (fq_chunk st) y' x' = n)
        by (apply IH; [lia | exact Hq' | lia]).
      destruct (Hexp y' x' Hq' Hs) as [Hlim|He].
      + intros Hin. specialize (HK _ Hin). cbn [fst snd] in HK. lia.
      + lia.
      + subst y x. apply He; [exact Hd | exact Hq]. }
  intros y x Hq Hle.
  apply (H (Z.to_nat (dist y x))); [pose proof (dist_nonneg y x); lia | | ];
    assumption.
Qed.

Lemma when_stamp (a : chunk) (y x v y' x' : Z) :
  when_ (set_cost (set_when a y x n) y x v) y' x'
  = if (y' =? y) && (x' =? x) then n else when_ a y' x'.
Proof.
  cbn [when_ set_cost set_when]. unfold upd2.
  now rewrite to_byte_small by exact Hn.
Qed.

Lemma cost_stamp (a : chunk) (y x v y' x' : Z) :
  cost (set_cost (set_when a y x n) y x v) y' x'
  = if (y' =? y) && (x' =? x) then to_byte v else cost a y' x'.
Proof. reflexivity. Qed.

Lemma cell_eqb_true (y x y' x' : Z) :
  (y' =? y) && (x' =? x) = true <-> (y', x') = (y, x).
Proof.
  rewrite andb_true_iff, !Z.eqb_eq. split; [intros [-> ->]; reflexivity|].
  intros E. now inversion E.
Qed.

(** A stamp does not undo the stamps in place. *)
Lemma when_stamp_mono (a : chunk) (y x v y' x' : Z) :
  when_ a y' x' = n -> when_ (set_cost (set_when a y x n) y x v) y' x' = n.
Proof.
  intros H. rewrite when_stamp. now destruct ((y' =? y) && (x' =? x)).
Qed.

Lemma NoDup_snoc {A : Type} (l : list A) (a : A) :
  NoDup l -> ~ In a l -> NoDup (l ++ [a]).
Proof.
  intros Hl Ha. induction l as [|b l IH]; cbn.
  - constructor; [intros [] | constructor].
  - inversion Hl; subst. constructor.
    + rewrite in_app_iff. intros [H|[H|[]]]; [contradiction|].
      subst. apply Ha. now left.
    + apply IH; [assumption|]. intros H. apply Ha. now right.
Qed.

Lemma room_decidable (y x : Z) : room y x \/ ~ room y x.
Proof. unfold in_rect. lia. Qed.

(** A grid of the room, in any level with the map of [c0], is a grid of
    the level whose terrain lets the flow through. *)
Lemma room_open (a : chunk) (y x : Z) :
  same_map c0 a -> room y x ->
  square_in_bounds a y x = true /\
  tf_has (fflags (f_info (feat a y x))) TF_NO_FLOW = false.
Proof.
  intros Hsm Hq. destruct Hroom as [Hin _]. destruct (Hin y x Hq) as [Hb Hf].
  rewrite (square_in_bounds_same_map c0 a) by exact Hsm.
  destruct Hsm as (_ & _ & ->). now split.
Qed.

(** One direction of the loop over the children. *)
Lemma flow_bfs_child (t : Z * Z) (rest : list (Z * Z)) (m : Z)
    (done : list nat) (st : flow_queue) (d : nat) :
  (d < 8)%nat ->
  room (fst t) (snd t) -> dist (fst t) (snd t) = m ->
  m + 1 < MONSTER_FLOW_DEPTH ->
  (forall q, In q rest ->
     dist (fst q) (snd q) = m \/ dist (fst q) (snd q) = m + 1) ->
  bfs_mid t rest m done st ->
  bfs_mid t rest m (done ++ [d]) (flow_child n (m + 1) (fst t) (snd t) st d).
Proof.
  intros Hd Ht Hm Hlim Hrest
    (Hsm & Hwf & Hst & Hlow & Hnd & Hlive & [C [EC HC]] & Hexp & Hdone).
  destruct (flow_child_cases n (m + 1) (fst t) (snd t) st d Hwf)
    as [[E Hskip] | (Hb & Hns & Hnf & Ec & Ehd & Hwf' & Elen & Elist)];
    cbv zeta in *.
  - rewrite E.
    refine (conj Hsm (conj Hwf (conj Hst (conj Hlow (conj Hnd (conj Hlive
             (conj _ (conj Hexp _)))))))); [now exists C|].
    intros d' Hd' Hq. apply in_app_iff in Hd'. destruct Hd' as [Hd'|[<-|[]]].
    + now apply Hdone.
    + destruct (room_open (fq_chunk st) _ _ Hsm Hq) as [Hb Hf].
      destruct Hskip as [H|[H|H]]; [congruence | exact H | congruence].
  - set (y := fst t + nth d ddy_ddd 0) in *.
    set (x := snd t + nth d ddx_ddd 0) in *.
    assert (Hq : room y x).
    { destruct (room_decidable y x) as [H|H]; [exact H|]. exfalso.
      destruct Hroom as [_ Hout].
      destruct (Hout (fst t) (snd t) d Hd Ht H) as [Ho|Ho]; fold y x in Ho.
      - rewrite (square_in_bounds_same_map c0 _ y x Hsm) in Hb. congruence.
      - destruct Hsm as (_ & _ & Ef). rewrite Ef in Hnf. congruence. }
    assert (Hdist : dist y x = m + 1).
    { pose proof (chebyshev_neighbour py px (fst t) (snd t) d) as Hle.
      fold y x in Hle.
      destruct (Z_le_gt_dec (dist y x) m) as [Hle'|Hgt]; [|lia].
      elim Hns. now apply Hlow. }
    destruct (room_in_level y x Hq) as [Hy Hx].
    rewrite (to_byte_small y Hy), (to_byte_small x Hx) in Elist.
    assert (Hfresh : ~ In (y, x) (flow_list st)).
    { intros Hin. destruct (Hlive _ Hin) as [_ H]. cbn [fst snd] in H.
      contradiction. }
    assert (Hall : forall q, In q (flow_list st ++ [(y, x)]) ->
                     dist (fst q) (snd q) = m \/ dist (fst q) (snd q) = m + 1).
    { intros q Hin. apply in_app_iff in Hin. destruct Hin as [Hin|[<-|[]]].
      - rewrite EC in Hin. apply in_app_iff in Hin.
        destruct Hin as [Hin|Hin]; [now apply Hrest | right; now apply HC].
      - right. exact Hdist. }
    assert (Hroomy : (flow_len st =? FLOW_MAX - 1) = false).
    { apply Z.eqb_neq. intros Hfull.
      pose proof (annulus_length py px m (flow_list st ++ [(y, x)])) as Hbound.
      rewrite length_app, flow_list_length in Hbound. cbn [length] in Hbound.
      pose proof (dist_nonneg (fst t) (snd t)) as H0.
      unfold FLOW_MAX in Hfull.
      specialize (Hbound ltac:(lia) (NoDup_snoc _ _ Hnd Hfresh) Hall). lia. }
    rewrite Hroomy in Elist, Elen.
    assert (Hto : to_byte (m + 1) = m + 1).
    { apply to_byte_small. pose proof (dist_nonneg (fst t) (snd t)). lia. }
    unfold flow_bfs_mid. rewrite Ec, Elist.
    split; [unfold same_map in *; cbn; tauto|].
    split; [exact Hwf'|].
    split.
    { intros y' x' Hb' Hs'. rewrite when_stamp in Hs'. rewrite cost_stamp.
      destruct ((y' =? y) && (x' =? x)) eqn:E.
      - apply cell_eqb_true in E. inversion E; subst y' x'.
        split; [exact Hq|]. split; [now rewrite Hto | lia].
      - now apply Hst. }
    split; [intros y' x' Hq' Hle; apply when_stamp_mono; now apply Hlow|].
    split; [now apply NoDup_snoc|].
    split.
    { intros q Hin. apply in_app_iff in Hin. destruct Hin as [Hin|[<-|[]]].
      - destruct (Hlive _ Hin) as [H1 H2]. split; [exact H1|].
        now apply when_stamp_mono.
      - cbn [fst snd]. split; [exact Hq|]. rewrite when_stamp.
        now rewrite !Z.eqb_refl. }
    split.
    { exists (C ++ [(y, x)]). split; [now rewrite EC, app_assoc|].
      intros q Hin. apply in_app_iff in Hin. destruct Hin as [Hin|[<-|[]]];
        [now apply HC | exact Hdist]. }
    split.
    { intros y' x' Hq' Hs' Hnin Hne. rewrite when_stamp in Hs'.
      destruct ((y' =? y) && (x' =? x)) eqn:E.
      - apply cell_eqb_true in E. elim Hnin. rewrite E.
        apply in_app_iff. right. now left.
      - destruct (Hexp y' x' Hq' Hs') as [H|H]; [|exact Hne|now left|].
        + intros Hin. apply Hnin. apply in_app_iff. now left.
        + right. intros d' Hd' Hq''. apply when_stamp_mono. now apply H. }
    intros d' Hd' Hq'. apply in_app_iff in Hd'. destruct Hd' as [Hd'|[<-|[]]].
    + apply when_stamp_mono. now apply Hdone.
    + fold y x. rewrite when_stamp. now rewrite !Z.eqb_refl.
Qed.

(** One turn of the loop keeps the invariant. *)
Lemma flow_bfs_step (st : flow_queue) :
  bfs_inv st -> flow_head st <> flow_tail st -> bfs_inv (flow_step n st).
Proof.
  intros Hinv Hne. pose proof Hinv as
    (Hsm & Hwf & Hst & Hp & Hnd & Hlive & (m0 & A & B & EQ & HA & HB) & Hexp).
  destruct (flow_list_dequeue st Hwf Hne) as (Hwf1 & _ & Elist).
  unfold flow_step. cbv zeta.
  set (st1 := {| fq_chunk := fq_chunk st; flow_y := flow_y st;
                 flow_x := flow_x st;
                 flow_head := if flow_head st + 1 =? FLOW_MAX then 0
                              else flow_head st + 1;
                 flow_tail := flow_tail st |}) in *.
  set (ty := flow_y st (flow_head st)) in *.
  set (tx := flow_x st (flow_head st)) in *.
  change (fq_chunk st1) with (fq_chunk st).
  assert (Hin_t : In (ty, tx) (flow_list st)) by (rewrite Elist; now left).
  destruct (Hlive _ Hin_t) as [Hq_t Hs_t]. cbn [fst snd] in Hq_t, Hs_t.
  destruct (room_open (fq_chunk st) ty tx Hsm Hq_t) as [Hb_t _].
  destruct (Hst ty tx Hb_t Hs_t) as (_ & Hcost & Hlt).
  rewrite Hcost. set (m := dist ty tx) in *.
  rewrite Elist in Hnd. apply NoDup_cons_iff in Hnd.
  destruct Hnd as [Hnin Hnd1].
  assert (Hblocks : exists A' B',
            flow_list st1 = A' ++ B' /\
            (forall q, In q A' -> dist (fst q) (snd q) = m) /\
            (forall q, In q B' -> dist (fst q) (snd q) = m + 1)).
  { rewrite Elist in EQ. destruct A as [|a A1]; cbn [app] in EQ.
    - exists (flow_list st1), []. split; [now rewrite app_nil_r|].
      split; [|intros q []].
      intros q Hq. rewrite (HB q) by (rewrite <- EQ; now right).
      unfold m. rewrite <- (HB (ty, tx)) by (rewrite <- EQ; now left).
      reflexivity.
    - inversion EQ; subst a. exists A1, B. split; [assumption|].
      assert (Em : m = m0) by (apply (HA (ty, tx)); now left).
      rewrite Em. split; [|exact HB]. intros q Hq. apply HA. now right. }
  destruct Hblocks as (A' & B' & EQ' & HA' & HB').
  assert (Hlive1 : forall q, In q (flow_list st1) ->
            room (fst q) (snd q) /\ when_ (fq_chunk st) (fst q) (snd q) = n).
  { intros q Hq. apply Hlive. rewrite Elist. now right. }
  assert (Hexp1 : forall y x, room y x -> when_ (fq_chunk st) y x = n ->
            ~ In (y, x) (flow_list st1) -> (y, x) <> (ty, tx) ->
            dist y x + 1 = MONSTER_FLOW_DEPTH \/
            flow_expanded y0 x0 y1 x1 n (fq_chunk st) y x).
  { intros y x Hq Hs Hni Hnt. apply Hexp; try assumption.
    rewrite Elist. intros [H|H]; [now elim Hnt | contradiction]. }
  destruct (Z.eqb_spec (m + 1) MONSTER_FLOW_DEPTH) as [Elim|Elim].
  - refine (conj Hsm (conj Hwf1 (conj Hst (conj Hp (conj Hnd1 (conj Hlive1
              (conj _ _))))))).
    + now exists m, A', B'.
    + intros y x Hq Hs Hni.
      destruct (cell_eq_dec (y, x) (ty, tx)) as [E|E].
      * inversion E; subst y x. now left.
      * now apply Hexp1.
  - assert (Hlow : forall y x, room y x -> dist y x <= m ->
              when_ (fq_chunk st) y x = n).
    { apply (flow_bfs_front st m Hinv); [|exact Hlt].
      intros q Hq. rewrite Elist in Hq. destruct Hq as [<-|Hq].
      - cbn [fst snd]. fold m. lia.
      - rewrite EQ' in Hq. apply in_app_iff in Hq.
        destruct Hq as [Hq|Hq]; [rewrite (HA' q Hq) | rewrite (HB' q Hq)]; lia. }
    assert (Hmid : bfs_mid (ty, tx) (flow_list st1) m []%list st1).
    { refine (conj Hsm (conj Hwf1 (conj Hst (conj Hlow (conj Hnd1 (conj Hlive1
                (conj _ (conj Hexp1 _)))))))).
      - exists []. split; [now rewrite app_nil_r | intros q []].
      - intros d []. }
    assert (Hend : bfs_mid (ty, tx) (flow_list st1) m (seq 0 8)
                     (flow_children n (m + 1) ty tx st1)).
    { unfold flow_children.
      apply (fold_left_prefix
               (fun done a => bfs_mid (ty, tx) (flow_list st1) m done a));
        [|exact Hmid].
      intros done d a Ha Hd. apply in_seq in Hd.
      apply (flow_bfs_child (ty, tx) (flow_list st1) m done a d);
        try assumption; try reflexivity; try lia.
      intros q Hq. rewrite EQ' in Hq. apply in_app_iff in Hq.
      destruct Hq as [Hq|Hq]; [left; now apply HA' | right; now apply HB']. }
    destruct Hend as (Hsm2 & Hwf2 & Hst2 & Hlow2 & Hnd2 & Hlive2 &
                      [C [EC HC]] & Hexp2 & Hdone2).
    refine (conj Hsm2 (conj Hwf2 (conj Hst2 (conj _ (conj Hnd2 (conj Hlive2
              (conj _ _))))))).
    + apply Hlow2; [exact Hplayer|]. unfold chebyshev, m.
      pose proof (dist_nonneg ty tx). unfold chebyshev in *. lia.
    + exists m, A', (B' ++ C). rewrite EC, EQ', app_assoc.
      split; [reflexivity|]. split; [exact HA'|].
      intros q Hq. apply in_app_iff in Hq.
      destruct Hq as [Hq|Hq]; [now apply HB' | now apply HC].
    + intros y x Hq Hs Hni.
      destruct (cell_eq_dec (y, x) (ty, tx)) as [E|E].
      * inversion E; subst y x. right. intros d Hd Hq'.
        apply (Hdone2 d); [apply in_seq; lia | exact Hq'].
      * now apply Hexp2.
Qed.

(** The invariant holds when the loop ends, and the queue is empty. *)
Lemma flow_bfs_process (fuel : nat) :
  forall st r : flow_queue,
  bfs_inv st -> flow_process fuel n st = Some r ->
  bfs_inv r /\ flow_head r = flow_tail r.
Proof.
  induction fuel as [|fuel IH]; intros st r Hinv Hr; [discriminate Hr|].
  cbn [flow_process] in Hr.
  destruct (Z.eqb_spec (flow_head st) (flow_tail st)) as [E|E].
  - inversion Hr; subst r. now split.
  - apply (IH (flow_step n st)); [now apply flow_bfs_step | exact Hr].
Qed.

(** The invariant holds at the start of the loop, in a level where the
    stamp [n] is new. *)
Lemma flow_bfs_init (a : chunk) :
  same_map c0 a ->
  (forall y x, square_in_bounds c0 y x = true -> when_ a y x <> n) ->
  bfs_inv {| fq_chunk := set_cost (set_when a py px n) py px 0;
             flow_y := upd1 (fun _ => 0) 0 (to_byte py);
             flow_x := upd1 (fun _ => 0) 0 (to_byte px);
             flow_head := 0; flow_tail := 0 + 1 |}.
Proof.
  intros Hsm Hfresh.
  set (st := {| fq_chunk := set_cost (set_when a py px n) py px 0;
                flow_y := upd1 (fun _ => 0) 0 (to_byte py);
                flow_x := upd1 (fun _ => 0) 0 (to_byte px);
                flow_head := 0; flow_tail := 0 + 1 |}).
  destruct (room_in_level py px Hplayer) as [Hy Hx].
  assert (Elist : flow_list st = [(py, px)]).
  { unfold flow_list, flow_len, flow_entry, st.
    cbn [flow_head flow_tail flow_y flow_x].
    change (Z.to_nat ((0 + 1 - 0) mod FLOW_MAX)) with 1%nat.
    cbn [seq map]. change ((0 + Z.of_nat 0) mod FLOW_MAX) with 0.
    now rewrite !upd1_same, !to_byte_small. }
  assert (Hd0 : dist py px = 0) by (unfold chebyshev; lia).
  unfold flow_bfs_inv. rewrite Elist. cbn [fq_chunk st].
  split; [unfold same_map in *; cbn; tauto|].
  split; [unfold flow_wf, FLOW_MAX; cbn; lia|].
  split.
  { intros y x Hb Hs. rewrite when_stamp in Hs. rewrite cost_stamp.
    destruct ((y =? py) && (x =? px)) eqn:E.
    - apply cell_eqb_true in E. inversion E; subst y x.
      split; [exact Hplayer|]. rewrite Hd0. split; [reflexivity | lia].
    - elim (Hfresh y x); [|exact Hs].
      rewrite <- Hb. symmetry.
      apply (square_in_bounds_same_map c0
               (set_cost (set_when a py px n) py px 0)).
      unfold same_map in *. cbn. tauto. }
  split; [rewrite when_stamp; now rewrite !Z.eqb_refl|].
  split; [constructor; [intros [] | constructor]|].
  split.
  { intros q [<-|[]]. cbn [fst snd]. split; [exact Hplayer|].
    rewrite when_stamp. now rewrite !Z.eqb_refl. }
  split.
  { exists 0, [(py, px)], []. split; [reflexivity|].
    split; [intros q [<-|[]]; exact Hd0 | intros q []]. }
  intros y x Hq Hs Hni. exfalso. rewrite when_stamp in Hs.
  destruct ((y =? py) && (x =? px)) eqn:E.
  - apply cell_eqb_true in E. apply Hni. rewrite E. now left.
  - destruct Hroom as [Hin _]. destruct (Hin y x Hq) as [Hb _].
    now apply (Hfresh y x).
Qed.

(** At the end of the loop every grid of the room within the depth limit
    carries the stamp and its distance. *)
Lemma flow_bfs_result (fuel : nat) (st r : flow_queue) :
  bfs_inv st -> flow_process fuel n st = Some r ->
  forall y x, room y x -> dist y x < MONSTER_FLOW_DEPTH ->
    when_ (fq_chunk r) y x = n /\ cost (fq_chunk r) y x = dist y x.
Proof.
  intros Hinv Hr y x Hq Hlt.
  destruct (flow_bfs_process fuel st r Hinv Hr) as [Hinv' Hempty].
  pose proof Hinv' as (Hsm & Hwf & Hst & _).
  assert (Elist : flow_list r = []).
  { apply length_zero_iff_nil. rewrite flow_list_length.
    apply (flow_len_zero r Hwf) in Hempty. now rewrite Hempty. }
  assert (Hs : when_ (fq_chunk r) y x = n).
  { apply (flow_bfs_front r (MONSTER_FLOW_DEPTH - 1) Hinv'); try lia;
      [|exact Hq].
    rewrite Elist. intros q []. }
  split; [exact Hs|].
  destruct (room_open (fq_chunk r) y x Hsm Hq) as [Hb _].
  now destruct (Hst y x Hb Hs) as (_ & Hc & _).
Qed.

End FlowRoom.

(** C2 (amended): in a rectangular room free of flow-blocking terrain and
    closed by such terrain or by the edge of the level, on a level of at
    most 256 by 256 grids and with a depth limit of at most 128, one call
    of [cave_update_flow] with the player in the room returns, and every
    grid of the room nearer than the depth limit carries the new stamp and,
    as its cost, the number of king's moves from the player,
    max(|dy|, |dx|): a diagonal step costs one, like a straight one. *)
Theorem cave_update_flow_open_room `{G : Game} (c : chunk) (p : player_type)
    (flow_save y0 x0 y1 x1 : Z) :
  1 <= MONSTER_FLOW_DEPTH <= 128 ->
  height c <= 256 -> width c <= 256 ->
  open_room_at c y0 x0 y1 x1 ->
  in_rect y0 x0 y1 x1 (py p) (px p) ->
  flow_inv c flow_save ->
  exists c' n,
    cave_update_flow c p flow_save = Some (c', n) /\
    forall y x, in_rect y0 x0 y1 x1 y x ->
      chebyshev (py p) (px p) y x < MONSTER_FLOW_DEPTH ->
      when_ c' y x = n /\ cost c' y x = chebyshev (py p) (px p) y x.
Proof.
  intros Hdepth Hh Hw Hroom Hplayer Hinv. pose proof Hinv as [Hfs _].
  destruct (cave_update_flow_total c p flow_save Hfs) as [c' [Hr Hm]].
  exists c', (if flow_save =? 255 then 128 else flow_save + 1).
  split; [exact Hr|].
  destruct (flow_prologue c flow_save Hinv) as (Hn & Hm0 & _ & Hfresh).
  cbv zeta in Hn, Hm0, Hfresh.
  unfold cave_update_flow in Hr. cbv zeta in Hr.
  set (c0 := if flow_save =? 255 then flow_cycle c else c) in *.
  set (n := if flow_save =? 255 then 128 else flow_save + 1) in *.
  replace (if flow_save =? 255 then (flow_cycle c, 128) else (c, flow_save + 1))
    with (c0, n) in Hr by (unfold c0, n; now destruct (flow_save =? 255)).
  assert (Hn' : 0 <= n < 256) by lia.
  assert (Hnew : forall y x, square_in_bounds c y x = true -> when_ c0 y x <> n)
    by (intros y x Hb; specialize (Hfresh y x Hb); lia).
  pose proof (flow_bfs_init c y0 x0 y1 x1 (py p) (px p) n Hdepth Hh Hw Hroom
                Hplayer Hn' c0 Hm0 Hnew) as Hstart.
  match type of Hr with
  | match flow_process ?f n ?st with _ => _ end = _ =>
      destruct (flow_process f n st) as [r|] eqn:Hp; [|discriminate Hr];
      pose proof (flow_bfs_result c y0 x0 y1 x1 (py p) (px p) n Hdepth Hh Hw
                    Hroom Hplayer Hn' f st r Hstart Hp) as Hres
  end.
  inversion Hr; subst c'. exact Hres.
Qed.

(** The level [open_room h w] is an open room throughout. *)
Lemma open_room_open (h w : Z) :
  @open_room_at demo_game (open_room h w) 0 0 (h - 1) (w - 1).
Proof.
  split.
  - intros y x [Hy Hx]. split; [|reflexivity].
    apply square_in_bounds_iff. cbn. lia.
  - intros y x d _ _ Hout. left.
    destruct (square_in_bounds (open_room h w) _ _) eqn:E; [|reflexivity].
    apply square_in_bounds_iff in E.
    change (height (open_room h w)) with h in E.
    change (width (open_room h w)) with w in E.
    elim Hout. unfold in_rect. lia.
Qed.

(** The floor of the walled room is an open room. *)
Lemma walled_room_open : @open_room_at demo_game walled_room 1 1 3 3.
Proof.
  split.
  - intros y x [Hy Hx]. split.
    + apply square_in_bounds_iff. cbn. lia.
    + cbn [walled_room demo_chunk feat].
      destruct (Z.leb_spec 1 y), (Z.leb_spec y 3), (Z.leb_spec 1 x),
        (Z.leb_spec x 3); try lia. reflexivity.
  - intros y x d Hd [Hy Hx] Hout. right.
    pose proof (ddd_bound d) as [Hdy Hdx].
    cbn [walled_room demo_chunk feat].
    destruct (Z.leb_spec 1 (y + nth d ddy_ddd 0)),
      (Z.leb_spec (y + nth d ddy_ddd 0) 3),
      (Z.leb_spec 1 (x + nth d ddx_ddd 0)),
      (Z.leb_spec (x + nth d ddx_ddd 0) 3); cbn [andb];
      try reflexivity.
    elim Hout. unfold in_rect. lia.
Qed.

Lemma cave_update_flow_open_room_witness :
  (1 <= @MONSTER_FLOW_DEPTH demo_game <= 128 /\
   height walled_room <= 256 /\ width walled_room <= 256 /\
   @open_room_at demo_game walled_room 1 1 3 3 /\
   in_rect 1 1 3 3 (py (demo_player 1 1 0)) (px (demo_player 1 1 0)) /\
   flow_inv walled_room 255) /\
  exists c' n,
    @cave_update_flow demo_game walled_room (demo_player 1 1 0) 255
      = Some (c', n) /\
    forall y x, in_rect 1 1 3 3 y x ->
      chebyshev (py (demo_player 1 1 0)) (px (demo_player 1 1 0)) y x
        < @MONSTER_FLOW_DEPTH demo_game ->
      when_ c' y x = n /\
      cost c' y x
        = chebyshev (py (demo_player 1 1 0)) (px (demo_player 1 1 0)) y x.
Proof.
  assert (H1 : 1 <= @MONSTER_FLOW_DEPTH demo_game <= 128) by (cbn; lia).
  assert (H2 : height walled_room <= 256) by (cbn; lia).
  assert (H3 : width walled_room <= 256) by (cbn; lia).
  assert (H4 : in_rect 1 1 3 3 (py (demo_player 1 1 0)) (px (demo_player 1 1 0)))
    by (unfold in_rect; cbn; lia).
  assert (H5 : flow_inv walled_room 255) by (split; [lia | intros; cbn; lia]).
  split; [exact (conj H1 (conj H2 (conj H3 (conj walled_room_open (conj H4 H5)))))|].
  exact (@cave_update_flow_open_room demo_game walled_room (demo_player 1 1 0)
           255 1 1 3 3 H1 H2 H3 walled_room_open H4 H5).
Defined.

(** C2, as stated, fails: in the open room of five by five grids, with
    the player in the middle, the corner [(0, 0)] is two diagonal steps
    away and gets the cost 2, while its octagonal distance, as [distance]
    computes it, is 3, well within the depth limit of 32. *)
Lemma cave_update_flow_octagonal_counterexample :
  @open_room_at demo_game (open_room 5 5) 0 0 4 4 /\
  in_rect 0 0 4 4 2 2 /\ in_rect 0 0 4 4 0 0 /\
  flow_inv (open_room 5 5) 0 /\
  option_map (fun r => (cost (fst r) 0 0, when_ (fst r) 0 0, snd r))
    (@cave_update_flow demo_game (open_room 5 5) (demo_player 2 2 1) 0)
    = Some (2, 1, 1) /\
  distance 2 2 0 0 = 3 /\
  chebyshev 2 2 0 0 = 2 /\
  @MONSTER_FLOW_DEPTH demo_game = 32.
Proof.
  split; [exact (open_room_open 5 5)|].
  split; [unfold in_rect; lia|]. split; [unfold in_rect; lia|].
  split; [split; [lia | intros; cbn; lia]|].
  repeat split; vm_compute; reflexivity.
Qed.

(** * More properties of [cave.c] *)

(** ** Distance *)

(** [distance] in closed form. *)
Lemma distance_div (y1 x1 y2 x2 : Z) :
  distance y1 x1 y2 x2 =
  Z.max (Z.abs (y2 - y1)) (Z.abs (x2 - x1))
  + Z.min (Z.abs (y2 - y1)) (Z.abs (x2 - x1)) / 2.
Proof.
  unfold distance. cbv zeta. rewrite !Z.shiftr_div_pow2 by lia.
  change (2 ^ 1) with 2.
  destruct (Z.gtb_spec (Z.abs (y2 - y1)) (Z.abs (x2 - x1))).
  - rewrite Z.max_l, Z.min_r by lia. reflexivity.
  - rewrite Z.max_r, Z.min_l by lia. reflexivity.
Qed.

Lemma distance_sym (y1 x1 y2 x2 : Z) :
  distance y1 x1 y2 x2 = distance y2 x2 y1 x1.
Proof.
  rewrite !distance_div.
  replace (Z.abs (y1 - y2)) with (Z.abs (y2 - y1)) by lia.
  replace (Z.abs (x1 - x2)) with (Z.abs (x2 - x1)) by lia.
  reflexivity.
Qed.

(** X1.  Between two grids whose offsets together fit an [int],
    [distance] is symmetric, never negative, and zero between a grid and
    itself only. *)
Theorem distance_symmetric_zero (y1 x1 y2 x2 : Z) :
  distance_in_range y1 x1 y2 x2 ->
  distance y1 x1 y2 x2 = distance y2 x2 y1 x1 /\
  0 <= distance y1 x1 y2 x2 /\
  (distance y1 x1 y2 x2 = 0 <-> y1 = y2 /\ x1 = x2).
Proof.
  intros _. split; [apply distance_sym|]. rewrite distance_div.
  pose proof (Z.div_pos (Z.min (Z.abs (y2 - y1)) (Z.abs (x2 - x1))) 2).
  split; [lia|]. split.
  - intros E. lia.
  - intros [-> ->]. rewrite !Z.sub_diag. reflexivity.
Qed.

(** X2.  Between two grids whose offsets together fit an [int],
    [distance] lies between the number of king's moves and one and a half
    times that number, and never exceeds the number of rook's steps. *)
Theorem distance_between (y1 x1 y2 x2 : Z) :
  distance_in_range y1 x1 y2 x2 ->
  chebyshev y1 x1 y2 x2 <= distance y1 x1 y2 x2 /\
  2 * distance y1 x1 y2 x2 <= 3 * chebyshev y1 x1 y2 x2 /\
  distance y1 x1 y2 x2 <= Z.abs (y2 - y1) + Z.abs (x2 - x1).
Proof.
  intros _. rewrite distance_div. unfold chebyshev.
  set (a := Z.abs (y2 - y1)). set (b := Z.abs (x2 - x1)).
  assert (0 <= a) by (unfold a; lia). assert (0 <= b) by (unfold b; lia).
  pose proof (Z.div_pos (Z.min a b) 2).
  pose proof (Z.mul_div_le (Z.min a b) 2).
  lia.
Qed.

(** X3.  [distance] rounds half steps down, so it obeys the triangle
    inequality up to one unit only; the offsets between each two of the
    three grids together fit an [int]. *)
Theorem distance_triangle (y1 x1 y2 x2 y3 x3 : Z) :
  distance_in_range y1 x1 y2 x2 -> distance_in_range y2 x2 y3 x3 ->
  distance_in_range y1 x1 y3 x3 ->
  distance y1 x1 y3 x3 <= distance y1 x1 y2 x2 + distance y2 x2 y3 x3 + 1.
Proof.
  intros _ _ _. rewrite !distance_div.
  Z.div_mod_to_equations; lia.
Qed.

Lemma distance_symmetric_zero_witness :
  distance_in_range 1 2 4 8 /\
  distance 1 2 4 8 = distance 4 8 1 2 /\
  0 <= distance 1 2 4 8 /\
  (distance 1 2 4 8 = 0 <-> 1 = 4 /\ 2 = 8).
Proof.
  assert (R : distance_in_range 1 2 4 8)
    by (unfold distance_in_range, INT_MAX; simpl; lia).
  split; [exact R|]. exact (distance_symmetric_zero 1 2 4 8 R).
Defined.

Lemma distance_between_witness :
  distance_in_range 0 0 3 5 /\
  chebyshev 0 0 3 5 <= distance 0 0 3 5 /\
  2 * distance 0 0 3 5 <= 3 * chebyshev 0 0 3 5 /\
  distance 0 0 3 5 <= Z.abs (3 - 0) + Z.abs (5 - 0).
Proof.
  assert (R : distance_in_range 0 0 3 5)
    by (unfold distance_in_range, INT_MAX; simpl; lia).
  split; [exact R|]. exact (distance_between 0 0 3 5 R).
Defined.

(** The triangle inequality is tight: from [(0, 0)] by [(1, 1)] to
    [(2, 2)] the two legs count 1 each and the whole counts 3. *)
Lemma distance_triangle_witness :
  (distance_in_range 0 0 1 1 /\ distance_in_range 1 1 2 2 /\
   distance_in_range 0 0 2 2) /\
  distance 0 0 2 2 <= distance 0 0 1 1 + distance 1 1 2 2 + 1.
Proof.
  assert (R1 : distance_in_range 0 0 1 1)
    by (unfold distance_in_range, INT_MAX; simpl; lia).
  assert (R2 : distance_in_range 1 1 2 2)
    by (unfold distance_in_range, INT_MAX; simpl; lia).
  assert (R3 : distance_in_range 0 0 2 2)
    by (unfold distance_in_range, INT_MAX; simpl; lia).
  split; [exact (conj R1 (conj R2 R3))|].
  exact (distance_triangle 0 0 1 1 2 2 R1 R2 R3).
Defined.

(** ** Line of sight: what it reads *)

(** The rows that the line enters lie between its ends. *)
Lemma line_enters_range (a b k j : Z) :
  1 <= b <= a -> 1 <= k < a -> line_enters (b * b) (a * b) k j -> 0 <= j <= b.
Proof.
  unfold line_enters. intros Hab Hk H.
  assert (Hc : (- a <= (2 * k - 1) * b - j * (2 * a) < a) \/
               (- a < (2 * k + 1) * b - j * (2 * a) <= a)) by nia.
  clear H. nia.
Qed.

Section LosLocal.
Context `{G : Game}.

(** [los_clear] reads the terrain strictly inside the bounding rectangle
    only. *)
Lemma los_clear_ext (c c' : chunk) (y1 x1 y2 x2 : Z) :
  (forall y x, los_between y1 x1 y2 x2 y x ->
     square_isprojectable c y x = true -> square_isprojectable c' y x = true) ->
  los_clear c y1 x1 y2 x2 -> los_clear c' y1 x1 y2 x2.
Proof.
  intros Hext. unfold los_clear. cbv zeta.
  destruct ((Z.abs (x2 - x1) <? 2) && (Z.abs (y2 - y1) <? 2)) eqn:Eadj;
    [trivial|].
  destruct (Z.eqb_spec (x2 - x1) 0) as [Ex|Ex].
  { intros H u Hu. apply Hext; [|now apply H].
    unfold los_between. repeat split; try lia; intros E; apply pair_equal_spec in E; lia. }
  destruct (Z.eqb_spec (y2 - y1) 0) as [Ey|Ey].
  { intros H u Hu. apply Hext; [|now apply H].
    unfold los_between. repeat split; try lia; intros E; apply pair_equal_spec in E; lia. }
  destruct ((Z.abs (x2 - x1) =? 1) && (Z.abs (y2 - y1) =? 2)) eqn:Ek1.
  { apply andb_true_iff in Ek1. destruct Ek1 as [E1 E2].
    apply Z.eqb_eq in E1, E2. apply Hext. unfold los_between.
    destruct (Z.ltb_spec (y2 - y1) 0);
      repeat split; try lia; intros E; apply pair_equal_spec in E; lia. }
  destruct ((Z.abs (x2 - x1) =? 2) && (Z.abs (y2 - y1) =? 1)) eqn:Ek2.
  { apply andb_true_iff in Ek2. destruct Ek2 as [E1 E2].
    apply Z.eqb_eq in E1, E2. apply Hext. unfold los_between.
    destruct (Z.ltb_spec (x2 - x1) 0);
      repeat split; try lia; intros E; apply pair_equal_spec in E; lia. }
  unfold diag_clear. cbv zeta.
  destruct (Z.geb_spec (Z.abs (x2 - x1)) (Z.abs (y2 - y1))) as [Hge|Hlt].
  - intros H k j Hk Hl. apply Hext; [|now apply H].
    pose proof (line_enters_range (Z.abs (x2 - x1)) (Z.abs (y2 - y1)) k j
                  ltac:(lia) Hk) as Hj.
    rewrite (Z.mul_comm (Z.abs (x2 - x1))) in Hl.
    rewrite (Z.mul_comm (Z.abs (y2 - y1)) (Z.abs (x2 - x1))) in Hl.
    specialize (Hj Hl). unfold los_between.
    destruct (Z.ltb_spec (x2 - x1) 0), (Z.ltb_spec (y2 - y1) 0);
      repeat split; try lia; intros E; apply pair_equal_spec in E; lia.
  - intros H k j Hk Hl. apply Hext; [|now apply H].
    pose proof (line_enters_range (Z.abs (y2 - y1)) (Z.abs (x2 - x1)) k j
                  ltac:(lia) Hk) as Hj.
    rewrite (Z.mul_comm (Z.abs (x2 - x1)) (Z.abs (y2 - y1))) in Hl.
    specialize (Hj Hl). unfold los_between.
    destruct (Z.ltb_spec (x2 - x1) 0), (Z.ltb_spec (y2 - y1) 0);
      repeat split; try lia; intros E; apply pair_equal_spec in E; lia.
Qed.

(** X4.  Between two grids whose offset is within the bound that the
    source gives for its [int] arithmetic, [los] reads the terrain of the
    grids of the bounding rectangle of its two ends, and never that of the
    ends themselves: two levels that agree there give the same answer. *)
Theorem los_local (c c' : chunk) (y1 x1 y2 x2 : Z) :
  los_in_range y1 x1 y2 x2 ->
  (forall y x, los_between y1 x1 y2 x2 y x ->
     square_isprojectable c' y x = square_isprojectable c y x) ->
  los c' y1 x1 y2 x2 = los c y1 x1 y2 x2.
Proof.
  intros _ Hext.
  destruct (los c y1 x1 y2 x2) eqn:E1, (los c' y1 x1 y2 x2) eqn:E2;
    try reflexivity; exfalso.
  - apply los_iff_clear in E1.
    apply (los_clear_ext c c') in E1;
      [apply los_iff_clear in E1; congruence|].
    intros y x Hb Hp. now rewrite Hext.
  - apply los_iff_clear in E2.
    apply (los_clear_ext c' c) in E2;
      [apply los_iff_clear in E2; congruence|].
    intros y x Hb Hp. now rewrite <- Hext.
Qed.

(** X5.  Opening terrain never takes a line of sight away. *)
Theorem los_monotone (c c' : chunk) (y1 x1 y2 x2 : Z) :
  (forall y x, square_isprojectable c y x = true ->
               square_isprojectable c' y x = true) ->
  los c y1 x1 y2 x2 = true -> los c' y1 x1 y2 x2 = true.
Proof.
  intros Hext H. apply los_iff_clear. apply los_iff_clear in H.
  apply (los_clear_ext c c'); [|exact H]. intros y x _. apply Hext.
Qed.

End LosLocal.

Lemma los_local_witness :
  (los_in_range 0 0 2 3 /\
   forall y x, los_between 0 0 2 3 y x ->
     @square_isprojectable demo_game
       (set_feat (open_room 4 4) 2 3 FEAT_GRANITE) y x
     = @square_isprojectable demo_game (open_room 4 4) y x) /\
  @los demo_game (set_feat (open_room 4 4) 2 3 FEAT_GRANITE) 0 0 2 3
  = @los demo_game (open_room 4 4) 0 0 2 3.
Proof.
  assert (H : forall y x, los_between 0 0 2 3 y x ->
            @square_isprojectable demo_game
              (set_feat (open_room 4 4) 2 3 FEAT_GRANITE) y x
            = @square_isprojectable demo_game (open_room 4 4) y x).
  { intros y x (_ & _ & _ & Hne). unfold square_isprojectable.
    cbn [feat set_feat]. now rewrite upd2_other. }
  assert (R : los_in_range 0 0 2 3)
    by (unfold los_in_range, LOS_OFFSET_MAX; simpl; lia).
  split; [exact (conj R H)|].
  exact (@los_local demo_game (open_room 4 4)
           (set_feat (open_room 4 4) 2 3 FEAT_GRANITE) 0 0 2 3 R H).
Defined.

Lemma los_monotone_witness :
  ((forall y x, @square_isprojectable demo_game walled_room y x = true ->
                @square_isprojectable demo_game (open_room 5 5) y x = true) /\
   @los demo_game walled_room 1 1 3 2 = true) /\
  @los demo_game (open_room 5 5) 1 1 3 2 = true.
Proof.
  assert (H1 : forall y x,
            @square_isprojectable demo_game walled_room y x = true ->
            @square_isprojectable demo_game (open_room 5 5) y x = true)
    by (intros; reflexivity).
  assert (H2 : @los demo_game walled_room 1 1 3 2 = true) by reflexivity.
  split; [exact (conj H1 H2)|].
  exact (@los_monotone demo_game walled_room (open_room 5 5) 1 1 3 2 H1 H2).
Defined.

(** ** Changing the terrain of a grid *)

Lemma filter_update_length {A : Type} (P P' : A -> bool) (l : list A) (a : A) :
  NoDup l -> In a l -> (forall b, b <> a -> P' b = P b) ->
  Z.of_nat (length (filter P' l))
  = Z.of_nat (length (filter P l)) - Z.b2z (P a) + Z.b2z (P' a).
Proof.
  intros Hnd Hin Hext. induction l as [|b l IH]; [destruct Hin|].
  apply NoDup_cons_iff in Hnd. destruct Hnd as [Hb Hnd].
  assert (Hrest : ~ In a l ->
            length (filter P' l) = length (filter P l)).
  { intros Ha. f_equal. apply filter_ext_in. intros e He. apply Hext.
    intros ->. contradiction. }
  cbn [filter]. destruct Hin as [->|Hin].
  - pose proof (Hrest Hb) as E.
    destruct (P a), (P' a); cbn [length Z.b2z]; rewrite ?E; lia.
  - assert (Hne : b <> a) by (intros ->; contradiction).
    rewrite (Hext b Hne). specialize (IH Hnd Hin).
    destruct (P b); cbn [length]; lia.
Qed.

Lemma same_level_square_set_feat (cd : bool) (c : chunk) (y x f : Z) :
  height (square_set_feat cd c y x f) = height c /\
  width (square_set_feat cd c y x f) = width c /\
  feat (square_set_feat cd c y x f) = upd2 (feat c) y x (to_byte f) /\
  forall g,
    feat_count (square_set_feat cd c y x f) g
    = feat_count c g
      - (if (feat c y x =? g) && negb (g =? 0) then 1 else 0)
      + (if (f =? g) && negb (g =? 0) then 1 else 0).
Proof.
  unfold square_set_feat. cbv zeta.
  set (c1 := if feat c y x =? 0 then c
             else set_feat_count c (feat c y x)
                    (feat_count c (feat c y x) - 1)).
  set (c2 := if f =? 0 then c1
             else set_feat_count c1 f (feat_count c1 f + 1)).
  set (c3 := set_feat c2 y x f).
  assert (H3 : height c3 = height c /\ width c3 = width c /\
               feat c3 = upd2 (feat c) y x (to_byte f) /\
               feat_count c3 = feat_count c2).
  { unfold c3, c2, c1.
    destruct (feat c y x =? 0), (f =? 0); cbn; auto. }
  assert (Hc : forall g, feat_count c2 g
                 = feat_count c g
                   - (if (feat c y x =? g) && negb (g =? 0) then 1 else 0)
                   + (if (f =? g) && negb (g =? 0) then 1 else 0)).
  { intros g. unfold c2, c1.
    destruct (Z.eqb_spec (feat c y x) g) as [<-|Hog];
      destruct (Z.eqb_spec f (feat c y x)) as [->|Hfo];
      try destruct (Z.eqb_spec f g) as [<-|Hfg];
      repeat match goal with
             | |- context [Z.eqb ?a ?b] =>
                 destruct (Z.eqb_spec a b);
                 cbn [andb negb feat_count set_feat_count]; unfold upd1
             end; try lia; try congruence. }
  assert (Hs : same_level c3 (if cd then square_note_spot c3 y x
                              else info_off
                                     (info_off (info_off c3 y x SQUARE_WALL_INNER)
                                        y x SQUARE_WALL_OUTER)
                                     y x SQUARE_WALL_SOLID)).
  { destruct cd; [apply same_level_square_note_spot | level]. }
  destruct Hs as (Eh & Ew & Ef & _ & _ & _ & Ec).
  destruct H3 as (H3h & H3w & H3f & H3c).
  rewrite Eh, Ew, Ef, Ec, H3c. repeat split; assumption.
Qed.

(** X6.  The counters of the terrain stay right: when [feat_count] holds,
    for each terrain, the number of grids that have it, it still does after
    [square_set_feat] on a grid of the level, whether the terrain changes,
    stays, comes from or goes to the uncounted [FEAT_NONE]; [feat] fits the
    byte that stores it. *)
Theorem square_set_feat_counted (cd : bool) (c : chunk) (y x f : Z) :
  square_in_bounds c y x = true -> 0 <= f < 256 ->
  feat_counted c -> feat_counted (square_set_feat cd c y x f).
Proof.
  intros Hb Hf Hc g Hg.
  destruct (same_level_square_set_feat cd c y x f) as (Eh & Ew & Ef & Ec).
  rewrite to_byte_small in Ef by exact Hf.
  rewrite Ec, (Hc g Hg). unfold feat_census.
  replace (grid_cells (square_set_feat cd c y x f)) with (grid_cells c)
    by (unfold grid_cells; now rewrite Eh, Ew).
  rewrite Ef.
  rewrite (filter_update_length
             (fun q => feat c (fst q) (snd q) =? g)
             (fun q => upd2 (feat c) y x f (fst q) (snd q) =? g)
             (grid_cells c) (y, x)).
  - cbn [fst snd]. rewrite upd2_same.
    destruct (Z.eqb_spec g 0) as [E0|_]; [contradiction|].
    rewrite !andb_true_r.
    destruct (feat c y x =? g), (f =? g); cbn [Z.b2z]; lia.
  - apply grid_cells_NoDup.
  - apply grid_cells_In. now apply square_in_bounds_iff.
  - intros [y' x'] Hne. cbn [fst snd]. now rewrite upd2_other.
Qed.

Lemma counted_room_counted : feat_counted counted_room.
Proof.
  intros f Hf. unfold feat_census.
  change (grid_cells counted_room) with [(0, 0); (0, 1); (1, 0); (1, 1)].
  cbn [counted_room feat feat_count fst snd filter]. unfold FEAT_FLOOR.
  destruct (Z.eqb_spec f 1), (Z.eqb_spec 1 f); try congruence; reflexivity.
Qed.

Lemma square_set_feat_counted_witness :
  (square_in_bounds counted_room 1 0 = true /\ 0 <= FEAT_GRANITE < 256 /\
   feat_counted counted_room) /\
  feat_counted (square_set_feat true counted_room 1 0 FEAT_GRANITE).
Proof.
  assert (H1 : square_in_bounds counted_room 1 0 = true) by reflexivity.
  assert (H2 : 0 <= FEAT_GRANITE < 256) by (unfold FEAT_GRANITE; lia).
  split; [exact (conj H1 (conj H2 counted_room_counted))|].
  exact (square_set_feat_counted true counted_room 1 0 FEAT_GRANITE H1 H2
           counted_room_counted).
Defined.

Lemma square_note_spot_info (c : chunk) (y x : Z) :
  info (square_note_spot c y x)
  = if sqinfo_has (info c y x) SQUARE_SEEN
       && negb (sqinfo_has (info c y x) SQUARE_MARK)
    then upd2 (info c) y x (sqinfo_on (info c y x) SQUARE_MARK)
    else info c.
Proof.
  unfold square_note_spot, square_isseen, square_ismark.
  destruct (sqinfo_has (info c y x) SQUARE_SEEN),
    (sqinfo_has (info c y x) SQUARE_MARK); reflexivity.
Qed.

Lemma info_square_set_feat (cd : bool) (c : chunk) (y x f : Z) :
  info (square_set_feat cd c y x f)
  = if cd then info (square_note_spot c y x)
    else info (info_off (info_off (info_off c y x SQUARE_WALL_INNER)
                           y x SQUARE_WALL_OUTER) y x SQUARE_WALL_SOLID).
Proof.
  unfold square_set_feat. cbv zeta.
  destruct cd; [rewrite !square_note_spot_info|];
    destruct (feat c y x =? 0), (f =? 0); reflexivity.
Qed.

(** X7.  The last change wins: changing the terrain of a grid of the level
    twice leaves the terrain, the counters and the flags of the level as the
    second change alone would; both terrains fit the byte that stores them. *)
Theorem square_set_feat_twice (cd : bool) (c : chunk) (y x f1 f2 : Z) :
  square_in_bounds c y x = true -> 0 <= f1 < 256 -> 0 <= f2 < 256 ->
  let c2 := square_set_feat cd (square_set_feat cd c y x f1) y x f2 in
  let c2' := square_set_feat cd c y x f2 in
  (forall y' x', feat c2 y' x' = feat c2' y' x') /\
  (forall g, feat_count c2 g = feat_count c2' g) /\
  (forall y' x' g, sqinfo_has (info c2 y' x') g = sqinfo_has (info c2' y' x') g).
Proof.
  intros _ Hf1 Hf2. cbv zeta.
  destruct (same_level_square_set_feat cd c y x f1) as (_ & _ & Ef1 & Ec1).
  destruct (same_level_square_set_feat cd (square_set_feat cd c y x f1) y x f2)
    as (_ & _ & Ef2 & Ec2).
  destruct (same_level_square_set_feat cd c y x f2) as (_ & _ & Ef & Ec).
  rewrite to_byte_small in Ef1 by exact Hf1.
  rewrite to_byte_small in Ef2, Ef by exact Hf2.
  split; [|split].
  - intros y' x'. rewrite Ef2, Ef, Ef1. unfold upd2.
    now destruct ((y' =? y) && (x' =? x)).
  - intros g. rewrite Ec2, Ec, Ec1, Ef1, upd2_same.
    destruct (feat c y x =? g), (f1 =? g), (f2 =? g), (g =? 0);
      cbn [andb negb]; lia.
  - intros y' x' g. rewrite !info_square_set_feat. destruct cd.
    + rewrite !square_note_spot_info, !info_square_set_feat,
        !square_note_spot_info.
      destruct (sqinfo_has (info c y x) SQUARE_SEEN) eqn:Es,
        (sqinfo_has (info c y x) SQUARE_MARK) eqn:Em; cbn [andb negb];
        rewrite ?upd2_same, ?Es, ?Em; cbn [andb negb];
        rewrite ?sqinfo_has_on_same, ?sqinfo_has_on_other by discriminate;
        rewrite ?Es; cbn [andb negb]; reflexivity.
    + clear. destruct g; flags; rewrite info_square_set_feat; flags; bools.
Qed.

Lemma square_set_feat_twice_witness :
  (square_in_bounds counted_room 0 1 = true /\
   0 <= FEAT_GRANITE < 256 /\ 0 <= FEAT_OPEN < 256) /\
  (forall y' x',
     feat (square_set_feat true
             (square_set_feat true counted_room 0 1 FEAT_GRANITE) 0 1 FEAT_OPEN)
          y' x'
     = feat (square_set_feat true counted_room 0 1 FEAT_OPEN) y' x') /\
  (forall g,
     feat_count (square_set_feat true
                   (square_set_feat true counted_room 0 1 FEAT_GRANITE)
                   0 1 FEAT_OPEN) g
     = feat_count (square_set_feat true counted_room 0 1 FEAT_OPEN) g) /\
  (forall y' x' g,
     sqinfo_has (info (square_set_feat true
                         (square_set_feat true counted_room 0 1 FEAT_GRANITE)
                         0 1 FEAT_OPEN) y' x') g
     = sqinfo_has (info (square_set_feat true counted_room 0 1 FEAT_OPEN) y' x')
         g).
Proof.
  assert (H1 : 0 <= FEAT_GRANITE < 256) by (unfold FEAT_GRANITE; lia).
  assert (H2 : 0 <= FEAT_OPEN < 256) by (unfold FEAT_OPEN; lia).
  assert (H0 : square_in_bounds counted_room 0 1 = true) by reflexivity.
  split; [exact (conj H0 (conj H1 H2))|].
  exact (square_set_feat_twice true counted_room 0 1 FEAT_GRANITE FEAT_OPEN
           H0 H1 H2).
Defined.

(** ** Loops that treat each grid on its own *)

(** A loop over the grid whose body rewrites the flags of its own grid
    from those flags alone rewrites the flags of every grid of the level
    once, and no other. *)
Lemma for_grid_pointwise (I : chunk -> Prop) (g : Z -> Z -> Z -> Z)
    (body : chunk -> Z -> Z -> chunk) (c : chunk) :
  (forall a y x, width (body a y x) = width a) ->
  (forall a y x, I a ->
     I (body a y x) /\
     forall y' x', info (body a y x) y' x'
                   = upd2 (info a) y x (g y x (info a y x)) y' x') ->
  I c ->
  forall y x,
    info (for_grid body c) y x
    = if square_in_bounds c y x then g y x (info c y x) else info c y x.
Proof.
  intros Hw Hbody HI y x. rewrite for_grid_cells by exact Hw.
  assert (H : forall (l : list (Z * Z)) (a : chunk),
            NoDup l -> I a ->
            info (fold_left (fun c q => body c (fst q) (snd q)) l a) y x
            = if existsb (fun q => (y =? fst q) && (x =? snd q)) l
              then g y x (info a y x) else info a y x).
  { induction l as [|[y' x'] l IH]; intros a Hnd Ha; [reflexivity|].
    apply NoDup_cons_iff in Hnd. destruct Hnd as [Hni Hnd].
    destruct (Hbody a y' x' Ha) as [Ha' Hinfo].
    cbn [fold_left existsb fst snd]. rewrite (IH _ Hnd Ha'), Hinfo.
    unfold upd2.
    destruct ((y =? y') && (x =? x')) eqn:E; cbn [orb].
    - apply andb_true_iff in E. destruct E as [E1 E2].
      apply Z.eqb_eq in E1, E2. subst y' x'.
      replace (existsb (fun q => (y =? fst q) && (x =? snd q)) l) with false;
        [reflexivity|].
      symmetry. apply not_true_is_false. intros Hex.
      apply existsb_exists in Hex. destruct Hex as [[y' x'] [Hin Hq]].
      cbn [fst snd] in Hq. apply andb_true_iff in Hq. destruct Hq as [E1 E2].
      apply Z.eqb_eq in E1, E2. subst y' x'. contradiction.
    - reflexivity. }
  rewrite (H _ c (grid_cells_NoDup c) HI).
  replace (existsb (fun q => (y =? fst q) && (x =? snd q)) (grid_cells c))
    with (square_in_bounds c y x); [reflexivity|].
  destruct (square_in_bounds c y x) eqn:Hb; symmetry.
  - apply existsb_exists. exists (y, x). cbn [fst snd].
    rewrite !Z.eqb_refl. split; [|reflexivity].
    apply grid_cells_In. now apply square_in_bounds_iff.
  - apply not_true_is_false. intros Hex.
    apply existsb_exists in Hex. destruct Hex as [[y' x'] [Hin Hq]].
    cbn [fst snd] in Hq. apply andb_true_iff in Hq. destruct Hq as [E1 E2].
    apply Z.eqb_eq in E1, E2. subst y' x'.
    apply grid_cells_In in Hin. apply square_in_bounds_iff in Hin. congruence.
Qed.

(** ** Forgetting the view *)



(** ** The field of view: more of [update_view] *)

Ltac frame_step :=
  match goal with
  | |- keeps_flag _ ?c ?c => apply keeps_flag_refl
  | |- keeps_flag _ ?c (if ?b then _ else _) => destruct b
  | |- keeps_flag ?f ?c (info_on ?d _ _ _) =>
      apply (keeps_flag_trans f c d); [|apply keeps_flag_info_on; tauto]
  | |- keeps_flag ?f ?c (info_off ?d _ _ _) =>
      apply (keeps_flag_trans f c d); [|apply keeps_flag_info_off; tauto]
  end.

Ltac frame := cbv beta zeta; repeat frame_step.

Lemma monster_eq_dec (m m' : monster) : {m = m'} + {m <> m'}.
Proof.
  decide equality; try apply Z.eq_dec.
  decide equality. decide equality. apply bool_dec.
Qed.

Section ViewMore.
Context `{G : Game}.

Lemma square_isprojectable_same_feat (c c' : chunk) (y x : Z) :
  feat c' = feat c -> square_isprojectable c' y x = square_isprojectable c y x.
Proof. intros E. unfold square_isprojectable. now rewrite E. Qed.

(** [los] reads the terrain only. *)
Lemma los_same_feat (c c' : chunk) (y1 x1 y2 x2 : Z) :
  feat c' = feat c -> los c' y1 x1 y2 x2 = los c y1 x1 y2 x2.
Proof.
  intros E.
  destruct (los c y1 x1 y2 x2) eqn:E1, (los c' y1 x1 y2 x2) eqn:E2;
    try reflexivity; exfalso.
  - apply los_iff_clear in E1.
    apply (los_clear_ext c c') in E1;
      [apply los_iff_clear in E1; congruence|].
    intros y x _ Hp. now rewrite (square_isprojectable_same_feat c c').
  - apply los_iff_clear in E2.
    apply (los_clear_ext c' c) in E2;
      [apply los_iff_clear in E2; congruence|].
    intros y x _ Hp. now rewrite <- (square_isprojectable_same_feat c c').
Qed.

Lemma same_level_feat (c c' : chunk) : same_level c c' -> feat c' = feat c.
Proof. now intros (_ & _ & E & _). Qed.

Lemma keeps_flag_mark_wasseen (f : square_flag) (c : chunk) :
  not_view_flag f -> SQUARE_WASSEEN <> f -> keeps_flag f c (mark_wasseen c).
Proof.
  intros [Hv Hs] Hw. unfold mark_wasseen.
  apply for_grid_keeps_flag. intros. frame.
Qed.

(** *** The lights of the monsters *)

(** A property of the level that every grid of every box keeps, for the
    living monsters that carry a light, holds after [add_monster_lights];
    [a0] is the level on which the line of sight to the monster is
    computed. *)
Lemma add_monster_lights_invariant (P : chunk -> Prop) (c : chunk)
    (from : loc_t) :
  (forall a0 a m r i j,
     In m (monsters c) -> race m = Some r -> rf_has_light r = true ->
     -1 <= i <= 1 -> -1 <= j <= 1 ->
     P a0 -> P a ->
     P (add_monster_light_at from m
          (los a0 (loc_y from) (loc_x from) (fy m) (fx m)) a i j)) ->
  P c -> P (add_monster_lights c from).
Proof.
  intros Hstep. unfold add_monster_lights.
  apply (fold_left_invariant P). intros a m Hm Ha. unfold add_monster_light.
  destruct (race m) as [r|] eqn:Er; [|exact Ha].
  destruct (rf_has_light r) eqn:El; cbn [negb]; [|exact Ha].
  apply (fold_left_invariant P); [|exact Ha]. intros a' i Hi Ha'.
  apply (fold_left_invariant P); [|exact Ha']. intros a'' j Hj Ha''.
  apply (Hstep a a'' m r); try assumption.
  - cbn in Hi. lia.
  - cbn in Hj. lia.
Qed.

(** One grid of one box: the two flags are set together, when the tests
    of the source pass. *)
Lemma add_monster_light_at_flag (from : loc_t) (m : monster) (in_los : bool)
    (a : chunk) (i j y x : Z) (f : square_flag) :
  f = SQUARE_VIEW \/ f = SQUARE_SEEN ->
  sqinfo_has (info (add_monster_light_at from m in_los a i j) y x) f
  = sqinfo_has (info a y x) f
    || ((y =? fy m + i) && (x =? fx m + j)
        && (in_los || square_isprojectable a y x)
        && (distance (loc_y from) (loc_x from) y x <=? MAX_SIGHT)
        && los a (loc_y from) (loc_x from) y x).
Proof.
  intros Hf. unfold add_monster_light_at. cbv zeta.
  destruct (Z.eqb_spec y (fy m + i)) as [->|Hy];
    [destruct (Z.eqb_spec x (fx m + j)) as [->|Hx]|]; cbn [andb].
  - destruct in_los, (square_isprojectable a (fy m + i) (fx m + j));
      cbn [negb andb orb];
      rewrite ?orb_false_r; try reflexivity;
      (destruct (Z.gtb_spec (distance (loc_y from) (loc_x from)
                               (fy m + i) (fx m + j)) MAX_SIGHT) as [Hd|Hd];
       [destruct (Z.leb_spec (distance (loc_y from) (loc_x from)
                                (fy m + i) (fx m + j)) MAX_SIGHT);
        [lia | now rewrite orb_false_r]|]);
      (destruct (Z.leb_spec (distance (loc_y from) (loc_x from)
                               (fy m + i) (fx m + j)) MAX_SIGHT); [|lia]);
      (destruct (los a (loc_y from) (loc_x from) (fy m + i) (fx m + j));
       cbn [negb andb]; [|now rewrite orb_false_r]);
      rewrite orb_true_r; destruct Hf as [-> | ->]; flags;
      rewrite !Z.eqb_refl; cbn [andb orb]; rewrite ?orb_true_r; reflexivity.
  - rewrite orb_false_r. split_ifs; try reflexivity.
    rewrite !info_info_on_other; [reflexivity | |];
      intros E; apply pair_equal_spec in E; lia.
  - rewrite orb_false_r. split_ifs; try reflexivity.
    rewrite !info_info_on_other; [reflexivity | |];
      intros E; apply pair_equal_spec in E; lia.
Qed.


(** X9.  After [add_monster_lights] a grid is in view, and seen, exactly
    when it was before or a monster lights it. *)
Theorem add_monster_lights_lit (c : chunk) (from : loc_t) (y x : Z)
    (f : square_flag) :
  f = SQUARE_VIEW \/ f = SQUARE_SEEN ->
  (sqinfo_has (info (add_monster_lights c from) y x) f = true <->
   sqinfo_has (info c y x) f = true \/ monster_lit c from y x).
Proof.
  intros Hf. split.
  - assert (H : same_level c (add_monster_lights c from) /\
                (sqinfo_has (info (add_monster_lights c from) y x) f = true ->
                 sqinfo_has (info c y x) f = true \/ monster_lit c from y x));
      [|tauto].
    apply (add_monster_lights_invariant
             (fun a => same_level c a /\
                       (sqinfo_has (info a y x) f = true ->
                        sqinfo_has (info c y x) f = true \/
                        monster_lit c from y x)));
      [|split; [apply same_level_refl | tauto]].
    intros a0 a m r i j Hm Hr Hl Hi Hj [Hs0 _] [Hs Ha]. split.
    + eapply same_level_trans; [exact Hs|].
      apply same_level_add_monster_light_at.
    + rewrite (add_monster_light_at_flag from m _ a i j y x f Hf).
      intros H. apply orb_true_iff in H. destruct H as [H|H]; [now apply Ha|].
      right. repeat (apply andb_true_iff in H; destruct H as [H ?]).
      apply Z.eqb_eq in H. match goal with E : (x =? _) = true |- _ =>
                                    apply Z.eqb_eq in E end.
      exists m, r.
      rewrite (los_same_feat c a0) in * by now apply same_level_feat.
      rewrite (los_same_feat c a) in * by now apply same_level_feat.
      rewrite (square_isprojectable_same_feat c a) in *
        by now apply same_level_feat.
      repeat split; try assumption; try lia.
      now apply orb_true_iff.
  - intros [H|(m & r & Hm & Hr & Hl & Hi & Hj & Hvis & Hd & Hlos)].
    + revert H.
      apply (add_monster_lights_invariant
               (fun a => sqinfo_has (info c y x) f = true ->
                         sqinfo_has (info a y x) f = true)); [|tauto].
      intros a0 a m r i j _ _ _ _ _ _ Ha H.
      rewrite (add_monster_light_at_flag from m _ a i j y x f Hf).
      now rewrite (Ha H).
    + assert (H : same_level c (add_monster_lights c from) /\
                  sqinfo_has (info (add_monster_lights c from) y x) f = true);
        [|tauto].
      unfold add_monster_lights.
      apply (fold_left_establish_inv (same_level c)
               (fun a => same_level c a /\ sqinfo_has (info a y x) f = true)
               _ _ m monster_eq_dec Hm); [| | |apply same_level_refl].
      * intros a m' Ha _. eapply same_level_trans; [exact Ha|].
        apply same_level_add_monster_light.
      * intros a Ha. split.
        { eapply same_level_trans; [exact Ha|].
          apply same_level_add_monster_light. }
        unfold add_monster_light. rewrite Hr, Hl. cbn [negb].
        assert (H : same_level c
                      (fold_left
                         (fun c0 i =>
                            fold_left
                              (fun c1 j =>
                                 add_monster_light_at from m
                                   (los a (loc_y from) (loc_x from) (fy m) (fx m))
                                   c1 i j) [-1; 0; 1] c0) [-1; 0; 1] a) /\
                    sqinfo_has
                      (info
                         (fold_left
                            (fun c0 i =>
                               fold_left
                                 (fun c1 j =>
                                    add_monster_light_at from m
                                      (los a (loc_y from) (loc_x from)
                                         (fy m) (fx m))
                                      c1 i j) [-1; 0; 1] c0) [-1; 0; 1] a)
                         y x) f = true); [|tauto].
        apply (fold_left_establish_inv (same_level c)
                 (fun a' => same_level c a' /\
                            sqinfo_has (info a' y x) f = true)
                 _ _ (y - fy m) Z.eq_dec); [cbn; lia | | | |exact Ha].
        { intros a' i Ha' _.
          apply (fold_left_invariant (same_level c)); [|exact Ha'].
          intros a'' j _ Ha''. eapply same_level_trans; [exact Ha''|].
          apply same_level_add_monster_light_at. }
        { intros a' Ha'.
          apply (fold_left_establish_inv (same_level c)
                   (fun a'' => same_level c a'' /\
                               sqinfo_has (info a'' y x) f = true)
                   _ _ (x - fx m) Z.eq_dec); [cbn; lia | | | |exact Ha'].
          - intros a'' j Ha'' _. eapply same_level_trans; [exact Ha''|].
            apply same_level_add_monster_light_at.
          - intros a'' Ha''. split.
            + eapply same_level_trans; [exact Ha''|].
              apply same_level_add_monster_light_at.
            + rewrite (add_monster_light_at_flag from m _ a'' _ _ y x f Hf).
              rewrite (los_same_feat c a) by now apply same_level_feat.
              rewrite (los_same_feat c a'') by now apply same_level_feat.
              rewrite (square_isprojectable_same_feat c a'')
                by now apply same_level_feat.
              replace (y =? fy m + (y - fy m)) with true
                by (symmetry; apply Z.eqb_eq; lia).
              replace (x =? fx m + (x - fx m)) with true
                by (symmetry; apply Z.eqb_eq; lia).
              rewrite Hlos. apply Z.leb_le in Hd. rewrite Hd.
              destruct Hvis as [-> | ->]; cbn [andb orb];
                rewrite ?orb_true_r; reflexivity.
          - intros a'' j [Hs'' Hf'']. split.
            + eapply same_level_trans; [exact Hs''|].
              apply same_level_add_monster_light_at.
            + rewrite (add_monster_light_at_flag from m _ a'' _ _ y x f Hf).
              now rewrite Hf''. }
        { intros a' i [Hs' Hf'].
          apply (fold_left_invariant
                   (fun a'' => same_level c a'' /\
                               sqinfo_has (info a'' y x) f = true));
            [|now split].
          intros a'' j _ [Hs'' Hf'']. split.
          - eapply same_level_trans; [exact Hs''|].
            apply same_level_add_monster_light_at.
          - rewrite (add_monster_light_at_flag from m _ a'' _ _ y x f Hf).
            now rewrite Hf''. }
      * intros a m' [Hs' Hf']. split.
        { eapply same_level_trans; [exact Hs'|].
          apply same_level_add_monster_light. }
        revert Hf'. unfold add_monster_light.
        destruct (race m') as [r'|]; [|tauto].
        destruct (negb (rf_has_light r')); [tauto|].
        intros Hf'.
        apply (fold_left_invariant
                 (fun a' => sqinfo_has (info a' y x) f = true)); [|exact Hf'].
        intros a' i _ Ha'.
        apply (fold_left_invariant
                 (fun a' => sqinfo_has (info a' y x) f = true)); [|exact Ha'].
        intros a'' j _ Ha''.
        rewrite (add_monster_light_at_flag from m' _ a'' _ _ y x f Hf).
        now rewrite Ha''.
Qed.

End ViewMore.

Lemma add_monster_lights_lit_witness :
  (SQUARE_SEEN = SQUARE_VIEW \/ SQUARE_SEEN = SQUARE_SEEN) /\
  (sqinfo_has
     (info (@add_monster_lights demo_game lit_monster_room (loc 0 0)) 2 4)
     SQUARE_SEEN = true <->
   sqinfo_has (info lit_monster_room 2 4) SQUARE_SEEN = true \/
   @monster_lit demo_game lit_monster_room (loc 0 0) 2 4).
Proof.
  assert (H : SQUARE_SEEN = SQUARE_VIEW \/ SQUARE_SEEN = SQUARE_SEEN)
    by (right; reflexivity).
  split; [exact H|].
  exact (@add_monster_lights_lit demo_game lit_monster_room (loc 0 0) 2 4
           SQUARE_SEEN H).
Defined.

(** A loop over the grid comes to each grid of the level once. *)
Lemma fold_left_once {A B : Type} (P Q : A -> Prop) (f : A -> B -> A)
    (l : list B) (b : B) :
  NoDup l -> In b l ->
  (forall a b', b' <> b -> P a -> P (f a b')) ->
  (forall a, P a -> Q (f a b)) ->
  (forall a b', b' <> b -> Q a -> Q (f a b')) ->
  forall a, P a -> Q (fold_left f l a).
Proof.
  intros Hnd Hin HP HPQ HQ. induction l as [|b0 l IH]; [destruct Hin|].
  apply NoDup_cons_iff in Hnd. destruct Hnd as [Hni Hnd].
  intros a Ha. cbn [fold_left]. destruct Hin as [->|Hin].
  - apply (fold_left_invariant Q); [|now apply HPQ].
    intros a' b' Hb' Ha'. apply HQ; [|exact Ha'].
    intros ->. contradiction.
  - apply (IH Hnd Hin). apply HP; [|exact Ha]. intros ->. contradiction.
Qed.

Lemma for_grid_once (P Q : chunk -> Prop) (body : chunk -> Z -> Z -> chunk)
    (c : chunk) (y x : Z) :
  (forall c y x, width (body c y x) = width c) ->
  square_in_bounds c y x = true ->
  (forall a y' x', (y', x') <> (y, x) -> P a -> P (body a y' x')) ->
  (forall a, P a -> Q (body a y x)) ->
  (forall a y' x', (y', x') <> (y, x) -> Q a -> Q (body a y' x')) ->
  P c -> Q (for_grid body c).
Proof.
  intros Hw Hb HP HPQ HQ Hc. rewrite for_grid_cells by exact Hw.
  apply (fold_left_once P Q _ (grid_cells c) (y, x)).
  - apply grid_cells_NoDup.
  - apply grid_cells_In. now apply square_in_bounds_iff.
  - intros a [y' x'] Hne. now apply HP.
  - exact HPQ.
  - intros a [y' x'] Hne. now apply HQ.
  - exact Hc.
Qed.

Section ViewUpdate.
Context `{G : Game}.

Lemma update_view_split (c : chunk) (p : player_type) :
  update_view c p
  = for_grid (fun c y x => update_one c y x (timed_blind p))
      (update_view_lit c p).
Proof. reflexivity. Qed.

Lemma same_level_update_view_lit (c : chunk) (p : player_type) :
  same_level c (update_view_lit c p).
Proof.
  unfold update_view_lit.
  eapply same_level_trans; [|apply same_level_update_view_scan].
  level.
  all: eapply same_level_trans;
    [apply same_level_mark_wasseen | apply same_level_add_monster_lights].
Qed.

Lemma square_in_bounds_same_level (c c' : chunk) (y x : Z) :
  same_level c c' -> square_in_bounds c' y x = square_in_bounds c y x.
Proof.
  intros H. unfold square_in_bounds.
  now rewrite (same_level_height _ _ H), (same_level_width _ _ H).
Qed.

(** The scan and the lights write VIEW and SEEN only. *)
Lemma keeps_flag_update_view_lit (f : square_flag) (c : chunk)
    (p : player_type) :
  not_view_flag f -> keeps_flag f (mark_wasseen c) (update_view_lit c p).
Proof.
  intros Hst. unfold update_view_lit.
  eapply keeps_flag_trans; [|apply keeps_flag_update_view_scan, Hst].
  assert (H : keeps_flag f (mark_wasseen c)
                (add_monster_lights (mark_wasseen c) (loc (px p) (py p))))
    by apply keeps_flag_add_monster_lights, Hst.
  unfold not_view_flag in Hst. frame; exact H.
Qed.

Lemma mark_wasseen_info (c : chunk) (y x : Z) :
  square_in_bounds c y x = true ->
  info (mark_wasseen c) y x
  = sqinfo_off
      (sqinfo_off
         (if sqinfo_has (info c y x) SQUARE_SEEN
          then sqinfo_on (info c y x) SQUARE_WASSEEN else info c y x)
         SQUARE_VIEW) SQUARE_SEEN.
Proof.
  intros Hb. unfold mark_wasseen.
  rewrite (for_grid_pointwise (fun _ => True)
             (fun _ _ s =>
                sqinfo_off
                  (sqinfo_off
                     (if sqinfo_has s SQUARE_SEEN
                      then sqinfo_on s SQUARE_WASSEEN else s)
                     SQUARE_VIEW) SQUARE_SEEN)); [now rewrite Hb | | | exact I].
  - intros a y' x'. cbv zeta. now destruct (square_isseen a y' x').
  - intros a y' x' _. split; [exact I|]. intros y'' x''. cbv zeta.
    unfold square_isseen.
    destruct (sqinfo_has (info a y' x') SQUARE_SEEN);
      cbn [info info_off info_on set_info]; unfold upd2;
      destruct ((y'' =? y') && (x'' =? x')) eqn:E; try reflexivity;
      now rewrite ?Z.eqb_refl.
Qed.

(** The last pass of [update_view], grid by grid. *)
Lemma update_one_pass_flags (c : chunk) (blind y x : Z) :
  square_in_bounds c y x = true ->
  let c' := for_grid (fun c y x => update_one c y x blind) c in
  square_isseen c' y x = (blind =? 0) && square_isseen c y x /\
  square_wasseen c' y x = false /\
  square_isview c' y x = square_isview c y x /\
  square_ismark c' y x
    = square_ismark c y x
      || ((blind =? 0) && square_isseen c y x && negb (square_wasseen c y x)).
Proof.
  intros Hb. cbv zeta.
  apply (for_grid_once
           (fun a => info a y x = info c y x)
           (fun a =>
              square_isseen a y x = (blind =? 0) && square_isseen c y x /\
              square_wasseen a y x = false /\
              square_isview a y x = square_isview c y x /\
              square_ismark a y x
                = square_ismark c y x
                  || ((blind =? 0) && square_isseen c y x
                      && negb (square_wasseen c y x)))
           _ _ y x); try assumption; try reflexivity.
  - intros. apply same_level_width, same_level_update_one.
  - intros a y' x' Hne Ha. rewrite update_one_other by congruence. exact Ha.
  - intros a Ha.
    destruct (update_one_flags a y x blind) as (-> & -> & -> & ->).
    unfold square_isseen, square_isview, square_ismark, square_wasseen.
    rewrite Ha. repeat split; reflexivity.
  - intros a y' x' Hne Ha.
    unfold square_isseen, square_isview, square_ismark, square_wasseen in *.
    rewrite update_one_other by congruence. exact Ha.
Qed.

(** Before the last pass the player's grid is in view, and seen when the
    player carries a light or stands on a glowing grid. *)
Lemma update_view_lit_player (c : chunk) (p : player_type) :
  square_in_bounds c (py p) (px p) = true ->
  square_isview (update_view_lit c p) (py p) (px p) = true /\
  (cur_light p > 0 \/ square_isglow c (py p) (px p) = true ->
   square_isseen (update_view_lit c p) (py p) (px p) = true).
Proof.
  intros Hb. unfold update_view_lit. cbv zeta.
  set (c2 := add_monster_lights (mark_wasseen c) (loc (px p) (py p))).
  set (r := if cur_light p >? 0 then cur_light p + 1 else cur_light p).
  set (c3 := info_on c2 (py p) (px p) SQUARE_VIEW).
  set (c4 := if (r >? 0) || square_isglow c3 (py p) (px p)
             then info_on c3 (py p) (px p) SQUARE_SEEN else c3).
  assert (Hglow : square_isglow c3 (py p) (px p) = square_isglow c (py p) (px p)).
  { unfold square_isglow, c3, c2.
    rewrite keeps_flag_info_on by discriminate.
    rewrite keeps_flag_add_monster_lights by (split; discriminate).
    apply keeps_flag_mark_wasseen; [split|]; discriminate. }
  assert (H4 : square_isview c4 (py p) (px p) = true /\
               (cur_light p > 0 \/ square_isglow c (py p) (px p) = true ->
                square_isseen c4 (py p) (px p) = true)).
  { assert (Hr : (r >? 0) = true <-> cur_light p > 0).
    { unfold r. destruct (Z.gtb_spec (cur_light p) 0);
        rewrite Z.gtb_lt; lia. }
    unfold c4. rewrite Hglow.
    destruct (r >? 0) eqn:Er; cbn [orb].
    - unfold c3. flags. now rewrite !Z.eqb_refl.
    - destruct (square_isglow c (py p) (px p)) eqn:Eg; unfold c3; flags;
        rewrite !Z.eqb_refl; cbn [andb orb]; split; try reflexivity.
      intros [H|H]; [|discriminate]. apply Hr in H. discriminate. }
  clearbody c4. destruct H4 as [Hv Hs].
  assert (H : info (update_view_scan c4 r (py p) (px p)) (py p) (px p)
              = info c4 (py p) (px p)).
  { unfold update_view_scan.
    apply (for_grid_invariant
             (fun a => info a (py p) (px p) = info c4 (py p) (px p)));
      [|reflexivity].
    intros a y x Ha. rewrite update_view_one_keeps_viewed; [exact Ha|].
    unfold square_isview in *. now rewrite Ha. }
  unfold square_isview, square_isseen in *. rewrite H. now split.
Qed.

(** Before the last pass a grid of the level in view is the player's
    grid or a grid within [MAX_SIGHT]. *)
Lemma update_view_lit_near (c : chunk) (p : player_type) (y x : Z) :
  square_in_bounds c y x = true ->
  square_isview (update_view_lit c p) y x = true ->
  (y, x) = (py p, px p) \/ distance y x (py p) (px p) <= MAX_SIGHT.
Proof.
  intros Hb. unfold update_view_lit. cbv zeta.
  set (near := fun a : chunk =>
                 square_isview a y x = true ->
                 (y, x) = (py p, px p) \/
                 distance y x (py p) (px p) <= MAX_SIGHT).
  change (near (update_view_scan
                  (if ((if cur_light p >? 0 then cur_light p + 1
                        else cur_light p) >? 0)
                      || square_isglow
                           (info_on
                              (add_monster_lights (mark_wasseen c)
                                 (loc (px p) (py p)))
                              (py p) (px p) SQUARE_VIEW) (py p) (px p)
                   then info_on
                          (info_on
                             (add_monster_lights (mark_wasseen c)
                                (loc (px p) (py p)))
                             (py p) (px p) SQUARE_VIEW)
                          (py p) (px p) SQUARE_SEEN
                   else info_on
                          (add_monster_lights (mark_wasseen c)
                             (loc (px p) (py p)))
                          (py p) (px p) SQUARE_VIEW)
                  (if cur_light p >? 0 then cur_light p + 1 else cur_light p)
                  (py p) (px p))).
  assert (H1 : near (mark_wasseen c)).
  { intros Hv. apply square_in_bounds_iff in Hb. destruct Hb as [Hy Hx].
    destruct (mark_wasseen_clears c y x Hy Hx) as [_ Hv']. congruence. }
  assert (H2 : near (add_monster_lights (mark_wasseen c) (loc (px p) (py p)))).
  { apply (add_monster_lights_invariant near); [|exact H1].
    intros a0 a m r i j _ _ _ _ _ _ Ha. unfold near, square_isview.
    rewrite (add_monster_light_at_flag _ m _ a i j y x SQUARE_VIEW)
      by (left; reflexivity).
    intros H. apply orb_true_iff in H. destruct H as [H|H]; [now apply Ha|].
    right. repeat (apply andb_true_iff in H; destruct H as [H ?]).
    cbn [loc loc_y loc_x] in *. rewrite distance_sym. lia. }
  set (c2 := add_monster_lights (mark_wasseen c) (loc (px p) (py p))) in *.
  assert (H3 : near (info_on c2 (py p) (px p) SQUARE_VIEW)).
  { unfold near. flags. intros H. apply orb_true_iff in H.
    destruct H as [H|H]; [|now apply H2].
    left. apply andb_true_iff in H. destruct H as [E1 E2].
    apply Z.eqb_eq in E1, E2. now subst. }
  set (c3 := info_on c2 (py p) (px p) SQUARE_VIEW) in *.
  set (r := if cur_light p >? 0 then cur_light p + 1 else cur_light p).
  assert (H4 : near (if (r >? 0) || square_isglow c3 (py p) (px p)
                     then info_on c3 (py p) (px p) SQUARE_SEEN else c3)).
  { destruct ((r >? 0) || square_isglow c3 (py p) (px p)); [|exact H3].
    unfold near, square_isview. rewrite keeps_flag_info_on by discriminate.
    exact H3. }
  unfold update_view_scan. apply (for_grid_invariant near); [|exact H4].
  intros a y' x' Ha. unfold near, update_view_one. cbv zeta.
  destruct (Z.gtb_spec (distance y' x' (py p) (px p)) MAX_SIGHT) as [Hd|Hd];
    [exact Ha|].
  destruct (view_reference a y' x' (py p) (px p)) as [yc xc].
  destruct (los a (py p) (px p) yc xc); [|exact Ha].
  destruct (cell_eq_dec (y, x) (y', x')) as [E|Hne].
  - apply pair_equal_spec in E. destruct E as [<- <-]. intros _. now right.
  - unfold square_isview. rewrite become_viewable_other by exact Hne.
    exact Ha.
Qed.

(** X10.  A blind player sees nothing: after [update_view] no grid of the
    level is SEEN. *)
Theorem update_view_blind (c : chunk) (p : player_type) (y x : Z) :
  timed_blind p <> 0 -> square_in_bounds c y x = true ->
  square_isseen (update_view c p) y x = false.
Proof.
  intros Hblind Hb. rewrite update_view_split.
  rewrite <- (square_in_bounds_same_level c (update_view_lit c p))
    in Hb by apply same_level_update_view_lit.
  destruct (update_one_pass_flags _ (timed_blind p) y x Hb) as (-> & _).
  apply Z.eqb_neq in Hblind. now rewrite Hblind.
Qed.

(** X11.  After [update_view] the player's own grid is in view; when the
    player is not blind and carries a light, or stands on a glowing grid,
    that grid is seen: the player is not in the dark. *)
Theorem update_view_player_grid (c : chunk) (p : player_type) :
  square_in_bounds c (py p) (px p) = true ->
  player_has_los_bold (update_view c p) (py p) (px p) = true /\
  (timed_blind p = 0 ->
   cur_light p > 0 \/ square_isglow c (py p) (px p) = true ->
   no_light (update_view c p) p = false).
Proof.
  intros Hb. rewrite update_view_split.
  destruct (update_view_lit_player c p Hb) as [Hv Hs].
  rewrite <- (square_in_bounds_same_level c (update_view_lit c p))
    in Hb by apply same_level_update_view_lit.
  destruct (update_one_pass_flags _ (timed_blind p) _ _ Hb)
    as (Es & _ & Ev & _).
  unfold no_light, player_has_los_bold, player_can_see_bold.
  unfold square_isview, square_isseen in *. rewrite Ev, Es, Hv.
  split; [reflexivity|]. intros Hblind Hlight.
  rewrite (Hs Hlight), Hblind. reflexivity.
Qed.

(** X12.  After [update_view] a grid of the level that is in view, other
    than the player's own, lies within [MAX_SIGHT] of the player. *)
Theorem update_view_within_sight (c : chunk) (p : player_type) (y x : Z) :
  square_in_bounds c y x = true ->
  square_isview (update_view c p) y x = true ->
  (y, x) = (py p, px p) \/ distance y x (py p) (px p) <= MAX_SIGHT.
Proof.
  intros Hb Hv. apply (update_view_lit_near c p y x Hb).
  rewrite update_view_split in Hv.
  rewrite <- (square_in_bounds_same_level c (update_view_lit c p))
    in Hb by apply same_level_update_view_lit.
  destruct (update_one_pass_flags _ (timed_blind p) y x Hb)
    as (_ & _ & Ev & _).
  now rewrite <- Ev.
Qed.

(** X13.  [update_view] touches the flags of the view only: the terrain, the
    monsters, the flow and the counters of the level, and every flag other
    than VIEW, SEEN, WASSEEN, MARK and FEEL, are as before; and it leaves
    the scratch flag WASSEEN on no grid of the level. *)
Theorem update_view_frame (c : chunk) (p : player_type) :
  same_level c (update_view c p) /\
  (forall f, stable_flag f -> keeps_flag f c (update_view c p)) /\
  (forall y x, square_in_bounds c y x = true ->
     square_wasseen (update_view c p) y x = false).
Proof.
  split; [apply same_level_update_view|].
  split; [intros f Hf; now apply keeps_flag_update_view|].
  intros y x Hb. apply square_in_bounds_iff in Hb.
  now apply update_view_clears_wasseen.
Qed.

(** What [update_view] memorises: a grid of the level is remembered after
    it when it was before, or when it is seen now and was neither seen nor
    flagged WASSEEN before. *)
Lemma update_view_mark (c : chunk) (p : player_type) (y x : Z) :
  square_in_bounds c y x = true ->
  square_ismark (update_view c p) y x
  = square_ismark c y x
    || (square_isseen (update_view c p) y x
        && negb (square_wasseen c y x || square_isseen c y x)).
Proof.
  intros Hb. rewrite update_view_split.
  pose proof Hb as Hb'.
  rewrite <- (square_in_bounds_same_level c (update_view_lit c p))
    in Hb' by apply same_level_update_view_lit.
  destruct (update_one_pass_flags _ (timed_blind p) y x Hb')
    as (-> & _ & _ & ->).
  assert (Hm : square_ismark (update_view_lit c p) y x = square_ismark c y x).
  { unfold square_ismark.
    rewrite keeps_flag_update_view_lit by (split; discriminate).
    rewrite mark_wasseen_info by exact Hb.
    rewrite !sqinfo_has_off_other by discriminate.
    destruct (sqinfo_has (info c y x) SQUARE_SEEN); [|reflexivity].
    now rewrite sqinfo_has_on_other by discriminate. }
  assert (Hw : square_wasseen (update_view_lit c p) y x
               = square_wasseen c y x || square_isseen c y x).
  { unfold square_wasseen, square_isseen.
    rewrite keeps_flag_update_view_lit by (split; discriminate).
    rewrite mark_wasseen_info by exact Hb.
    rewrite !sqinfo_has_off_other by discriminate.
    destruct (sqinfo_has (info c y x) SQUARE_SEEN).
    - rewrite sqinfo_has_on_same. now rewrite orb_true_r.
    - now rewrite orb_false_r. }
  rewrite Hm, Hw.
  destruct (timed_blind p =? 0), (square_isseen (update_view_lit c p) y x),
    (square_wasseen c y x), (square_isseen c y x), (square_ismark c y x);
    reflexivity.
Qed.

(** X14.  The view stays settled: if no grid of the level carries WASSEEN
    and every seen grid is remembered, the same holds after [update_view]. *)
Theorem update_view_settled (c : chunk) (p : player_type) :
  view_settled c -> view_settled (update_view c p).
Proof.
  intros Hc y x Hb.
  rewrite (square_in_bounds_same_level c (update_view c p))
    in Hb by apply same_level_update_view.
  destruct (Hc y x Hb) as [Hw Hm]. split.
  - apply square_in_bounds_iff in Hb. now apply update_view_clears_wasseen.
  - intros Hs. rewrite update_view_mark by exact Hb. rewrite Hs, Hw.
    destruct (square_isseen c y x) eqn:Es.
    + now rewrite (Hm eq_refl).
    + now rewrite orb_true_r.
Qed.

End ViewUpdate.

Lemma update_view_blind_witness :
  (timed_blind {| py := 1; px := 1; cur_light := 2; timed_blind := 5 |} <> 0 /\
   square_in_bounds walled_room 2 2 = true) /\
  square_isseen
    (@update_view demo_game walled_room
       {| py := 1; px := 1; cur_light := 2; timed_blind := 5 |}) 2 2 = false.
Proof.
  assert (H1 : timed_blind {| py := 1; px := 1; cur_light := 2;
                              timed_blind := 5 |} <> 0) by (cbn; lia).
  assert (H2 : square_in_bounds walled_room 2 2 = true) by reflexivity.
  split; [exact (conj H1 H2)|].
  exact (@update_view_blind demo_game walled_room _ 2 2 H1 H2).
Defined.

Lemma update_view_player_grid_witness :
  square_in_bounds walled_room (py (demo_player 2 2 1)) (px (demo_player 2 2 1))
    = true /\
  player_has_los_bold (@update_view demo_game walled_room (demo_player 2 2 1))
    (py (demo_player 2 2 1)) (px (demo_player 2 2 1)) = true.
Proof.
  assert (H : square_in_bounds walled_room (py (demo_player 2 2 1))
                (px (demo_player 2 2 1)) = true) by reflexivity.
  split; [exact H|].
  exact (proj1 (@update_view_player_grid demo_game walled_room
                  (demo_player 2 2 1) H)).
Defined.

Lemma update_view_within_sight_witness :
  (square_in_bounds walled_room 1 3 = true /\
   square_isview (@update_view demo_game walled_room (demo_player 2 2 1)) 1 3
     = true) /\
  ((1, 3) = (py (demo_player 2 2 1), px (demo_player 2 2 1)) \/
   distance 1 3 (py (demo_player 2 2 1)) (px (demo_player 2 2 1))
     <= @MAX_SIGHT demo_game).
Proof.
  assert (H1 : square_in_bounds walled_room 1 3 = true) by reflexivity.
  assert (H2 : square_isview
                 (@update_view demo_game walled_room (demo_player 2 2 1)) 1 3
               = true) by (vm_compute; reflexivity).
  split; [exact (conj H1 H2)|].
  exact (@update_view_within_sight demo_game walled_room (demo_player 2 2 1)
           1 3 H1 H2).
Defined.

Lemma open_room_settled (h w : Z) : view_settled (open_room h w).
Proof. intros y x _. split; [reflexivity | discriminate]. Qed.

Lemma update_view_settled_witness :
  view_settled (open_room 5 5) /\
  view_settled (@update_view demo_game (open_room 5 5) (demo_player 2 2 1)).
Proof.
  split; [exact (open_room_settled 5 5)|].
  exact (@update_view_settled demo_game (open_room 5 5) (demo_player 2 2 1)
           (open_room_settled 5 5)).
Defined.

(** ** Room lighting: what the flood collects *)

Section RoomFlood.
Context `{G : Game}.

Lemma room_flood_spread_fold (c : chunk) (ps : point_set) (y x : Z) :
  room_flood_spread c ps y x
  = fold_left (fun ps o => room_flood_aux c ps (y + fst o) (x + snd o))
      spread_offsets ps.
Proof.
  unfold room_flood_spread, spread_offsets. cbn [fold_left fst snd].
  rewrite !Z.add_0_r. reflexivity.
Qed.

Lemma room_flood_aux_app (c : chunk) (ps : point_set) (y x : Z) :
  exists l, room_flood_aux c ps y x = ps ++ l /\
            (forall q, In q l -> q = (y, x) /\ square_isroom c y x = true) /\
            (square_isroom c y x = true -> In (y, x) (ps ++ l)).
Proof.
  unfold room_flood_aux, add_to_point_set.
  destruct (point_set_contains ps y x) eqn:Hc.
  - exists []. rewrite app_nil_r. split; [reflexivity|].
    split; [intros q []|]. intros _. now apply point_set_contains_In.
  - destruct (square_isroom c y x) eqn:Hr; cbn [negb].
    + exists [(y, x)]. split; [reflexivity|]. split.
      * intros q [<-|[]]. now split.
      * intros _. apply in_app_iff. right. now left.
    + exists []. rewrite app_nil_r. split; [reflexivity|].
      split; [intros q [] | discriminate].
Qed.

Lemma spread_offsets_complete (dy dx : Z) :
  -1 <= dy <= 1 -> -1 <= dx <= 1 -> (dy, dx) <> (0, 0) ->
  In (dy, dx) spread_offsets.
Proof.
  intros Hy Hx Hne.
  assert (Hc : (dy = -1 \/ dy = 0 \/ dy = 1) /\ (dx = -1 \/ dx = 0 \/ dx = 1))
    by lia.
  destruct Hc as [[Ey | [Ey | Ey]] [Ex | [Ex | Ex]]]; subst dy dx;
    cbn; tauto.
Qed.

Lemma spread_offsets_near (o : Z * Z) :
  In o spread_offsets -> -1 <= fst o <= 1 /\ -1 <= snd o <= 1.
Proof.
  cbn. intros H.
  repeat (destruct H as [<-|H]; [cbn; lia|]). destruct H.
Qed.

(** One spread appends room grids that touch [(y, x)], and leaves every
    room grid that touches [(y, x)] in the set. *)
Lemma room_flood_spread_app (c : chunk) (ps : point_set) (y x : Z) :
  exists l,
    room_flood_spread c ps y x = ps ++ l /\
    (forall q, In q l ->
       square_isroom c (fst q) (snd q) = true /\
       -1 <= fst q - y <= 1 /\ -1 <= snd q - x <= 1) /\
    (forall y' x', -1 <= y' - y <= 1 -> -1 <= x' - x <= 1 ->
       (y', x') <> (y, x) -> square_isroom c y' x' = true ->
       In (y', x') (ps ++ l)).
Proof.
  rewrite room_flood_spread_fold.
  assert (H : forall (offs : list (Z * Z)) (ps : point_set),
            (forall o, In o offs -> -1 <= fst o <= 1 /\ -1 <= snd o <= 1) ->
            exists l,
              fold_left (fun ps o => room_flood_aux c ps (y + fst o) (x + snd o))
                offs ps = ps ++ l /\
              (forall q, In q l ->
                 square_isroom c (fst q) (snd q) = true /\
                 -1 <= fst q - y <= 1 /\ -1 <= snd q - x <= 1) /\
              (forall o, In o offs ->
                 square_isroom c (y + fst o) (x + snd o) = true ->
                 In (y + fst o, x + snd o) (ps ++ l))).
  { induction offs as [|o offs IH]; intros ps0 Hnear.
    - exists []. rewrite app_nil_r. split; [reflexivity|].
      split; [intros q [] | intros o []].
    - cbn [fold_left].
      destruct (room_flood_aux_app c ps0 (y + fst o) (x + snd o))
        as (l1 & E1 & S1 & C1).
      destruct (IH (room_flood_aux c ps0 (y + fst o) (x + snd o)))
        as (l2 & E2 & S2 & C2);
        [intros o' Ho'; apply Hnear; now right|].
      exists (l1 ++ l2). rewrite E2, E1, app_assoc.
      split; [reflexivity|]. split.
      + intros q Hq. apply in_app_iff in Hq. destruct Hq as [Hq|Hq];
          [|now apply S2].
        destruct (S1 q Hq) as [-> Hr]. cbn [fst snd].
        pose proof (Hnear o (or_introl eq_refl)). split; [exact Hr | lia].
      + intros o' [<-|Ho'] Hr.
        * rewrite <- app_assoc. rewrite app_assoc. apply in_app_iff. left.
          now apply C1.
        * rewrite <- E1. now apply C2. }
  destruct (H spread_offsets ps spread_offsets_near) as (l & E & S & C).
  exists l. split; [exact E|]. split; [exact S|].
  intros y' x' Hy Hx Hne Hr.
  specialize (C (y' - y, x' - x)). cbn [fst snd] in C.
  replace (y + (y' - y)) with y' in C by lia.
  replace (x + (x' - x)) with x' in C by lia.
  apply C; [|exact Hr].
  apply spread_offsets_complete; try assumption.
  intros E0. apply pair_equal_spec in E0. apply Hne.
  apply pair_equal_spec. lia.
Qed.

(** The scan, from a set of reached grids whose first [i] grids have
    spread, ends on the set of the reached grids. *)
Lemma room_flood_scan_reach (c : chunk) (y1 x1 : Z) :
  forall (fuel : nat) (ps ps' : point_set) (i : nat),
  room_flood_scan fuel c ps i = Some ps' ->
  (forall q, In q ps -> room_reach c y1 x1 (fst q) (snd q)) ->
  (square_isroom c y1 x1 = true -> In (y1, x1) ps) ->
  (forall k y x, (k < i)%nat -> nth_error ps k = Some (y, x) ->
     square_isprojectable c y x = true ->
     forall y' x', -1 <= y' - y <= 1 -> -1 <= x' - x <= 1 ->
       square_isroom c y' x' = true -> In (y', x') ps) ->
  forall y x, In (y, x) ps' <-> room_reach c y1 x1 y x.
Proof.
  induction fuel as [|fuel IH]; intros ps ps' i Hr Hsound Horigin Hclosed;
    [discriminate Hr|].
  cbn [room_flood_scan] in Hr.
  destruct (nth_error ps i) as [[yi xi]|] eqn:Hn.
  - assert (Hin_i : In (yi, xi) ps) by (eapply nth_error_In; eassumption).
    assert (Hlt : (i < length ps)%nat) by (apply nth_error_Some; congruence).
    destruct (square_isprojectable c yi xi) eqn:Hp; cbn [negb] in Hr.
    + destruct (room_flood_spread_app c ps yi xi) as (l & E & S & C).
      rewrite E in Hr. apply (IH _ _ _ Hr).
      * intros q Hq. apply in_app_iff in Hq. destruct Hq as [Hq|Hq];
          [now apply Hsound|].
        destruct (S q Hq) as (Hroom & Hy & Hx).
        apply (room_reach_step c y1 x1 yi xi); try assumption.
        apply (Hsound (yi, xi) Hin_i).
      * intros H. apply in_app_iff. left. now apply Horigin.
      * intros k y x Hk Hnk Hpk y' x' Hy Hx Hroom.
        destruct (Nat.eq_dec k i) as [->|Hki].
        { rewrite nth_error_app1 in Hnk by exact Hlt.
          rewrite Hn in Hnk. inversion Hnk; subst y x.
          destruct (cell_eq_dec (y', x') (yi, xi)) as [Ec|Hne].
          - rewrite Ec. apply in_app_iff. now left.
          - now apply C. }
        assert (Hk' : (k < i)%nat) by lia.
        rewrite nth_error_app1 in Hnk by lia.
        apply in_app_iff. left.
        now apply (Hclosed k y x Hk' Hnk Hpk).
    + apply (IH _ _ _ Hr); try assumption.
      intros k y x Hk Hnk Hpk y' x' Hy Hx Hroom.
      destruct (Nat.eq_dec k i) as [->|Hki].
      { rewrite Hn in Hnk. inversion Hnk; subst y x. congruence. }
      apply (Hclosed k y x); try assumption. lia.
  - inversion Hr; subst ps'. clear Hr.
    apply nth_error_None in Hn. intros y x. split.
    + intros Hin. apply (Hsound (y, x) Hin).
    + intros Hreach. induction Hreach as [Hroom | y x y' x' _ IHr Hp Hy Hx Hroom].
      * now apply Horigin.
      * destruct (In_nth_error _ _ IHr) as [k Hk].
        apply (Hclosed k y x); try assumption.
        assert (k < length ps)%nat by (apply nth_error_Some; congruence). lia.
Qed.

Lemma room_flood_spec (c : chunk) (y1 x1 : Z) (ps : point_set) :
  room_flood c y1 x1 = Some ps ->
  forall y x, In (y, x) ps <-> room_reach c y1 x1 y x.
Proof.
  unfold room_flood. intros Hr.
  apply (room_flood_scan_reach c y1 x1 _ _ _ _ Hr).
  - intros q Hq. destruct (room_flood_aux_app c [] y1 x1) as (l & E & S & _).
    rewrite E in Hq. cbn [app] in Hq. destruct (S q Hq) as [-> Hroom].
    now apply room_reach_origin.
  - intros Hroom. destruct (room_flood_aux_app c [] y1 x1) as (l & E & _ & C).
    rewrite E. now apply C.
  - intros k y x Hk. lia.
Qed.

(** X17.  [light_room] collects, each once, the grids that its flood
    reaches: the room grids joined to the origin through grids that let
    projections through. The ROOM flags lie on grids of the level, the
    open room grids off its outer ring, and the origin is in bounds. *)
Theorem light_room_set_reach (c : chunk) (y1 x1 : Z) :
  room_in_bounds c -> room_inside c -> square_in_bounds c y1 x1 = true ->
  exists ps,
    light_room_set c y1 x1 = Some ps /\ NoDup ps /\
    forall y x, In (y, x) ps <-> room_reach c y1 x1 y x.
Proof.
  intros Hrb Hin Ho.
  destruct (room_flood_total c y1 x1 Hrb) as (ps & Hr & Hnd & _).
  exists ps. split; [now rewrite light_room_set_flood|]. split; [exact Hnd|].
  now apply room_flood_spec.
Qed.




End RoomFlood.

Lemma light_room_set_reach_witness :
  (room_in_bounds walled_room /\ @room_inside demo_game walled_room /\
   square_in_bounds walled_room 2 2 = true) /\
  exists ps,
    @light_room_set demo_game walled_room 2 2 = Some ps /\ NoDup ps /\
    forall y x, In (y, x) ps <-> @room_reach demo_game walled_room 2 2 y x.
Proof.
  assert (Ho : square_in_bounds walled_room 2 2 = true) by reflexivity.
  split; [exact (conj walled_room_in_bounds (conj walled_room_inside Ho))|].
  exact (@light_room_set_reach demo_game walled_room 2 2 walled_room_in_bounds
           walled_room_inside Ho).
Defined.


(** ** The flow on any map *)

Lemma cell_eqb_iff (y x y' x' : Z) :
  (y' =? y) && (x' =? x) = true <-> y' = y /\ x' = x.
Proof. now rewrite andb_true_iff, !Z.eqb_eq. Qed.

Section FlowAny.
Context `{G : Game}.

(** X19.  [cave_forget_flow] leaves a level whose flow can start afresh: the
    counter is 0 and no stamp is ahead of it; unless the counter was 0
    already, every cost and every stamp of the level is 0. *)
Theorem cave_forget_flow_resets (c : chunk) (flow_save : Z) :
  flow_inv c flow_save ->
  snd (cave_forget_flow c flow_save) = 0 /\
  flow_inv (fst (cave_forget_flow c flow_save)) 0 /\
  same_map c (fst (cave_forget_flow c flow_save)) /\
  (flow_save <> 0 ->
   forall y x, square_in_bounds c y x = true ->
     cost (fst (cave_forget_flow c flow_save)) y x = 0 /\
     when_ (fst (cave_forget_flow c flow_save)) y x = 0).
Proof.
  intros [Hfs Hw]. unfold cave_forget_flow.
  destruct (Z.eqb_spec flow_save 0) as [E|E]; cbn [fst snd].
  - subst flow_save. split; [reflexivity|]. split; [now split|].
    split; [apply same_map_refl | contradiction].
  - set (body := fun (c : chunk) (y x : Z) =>
                   let c := set_cost c y x 0 in set_when c y x 0).
    assert (Hm : same_map c (for_grid body c)).
    { apply (for_grid_invariant (same_map c)); [|apply same_map_refl].
      intros a y x Ha. unfold body, same_map in *. cbn. tauto. }
    assert (Hz : forall y x, square_in_bounds c y x = true ->
                   cost (for_grid body c) y x = 0 /\
                   when_ (for_grid body c) y x = 0).
    { intros y x Hb. apply square_in_bounds_iff in Hb. destruct Hb as [Hy Hx].
      apply (for_grid_establish
               (fun a => cost a y x = 0 /\ when_ a y x = 0) _ _ y x);
        try assumption.
      - reflexivity.
      - intros a. unfold body. cbn. now rewrite !upd2_same.
      - intros a y' x' [Hc Hw']. unfold body. cbn. unfold upd2.
        destruct ((y =? y') && (x =? x')); [now split | now split]. }
    split; [reflexivity|]. split; [|split; [exact Hm | intros _; exact Hz]].
    split; [lia|]. intros y x Hb.
    rewrite (square_in_bounds_same_map c _ y x Hm) in Hb.
    destruct (Hz y x Hb) as [_ ->]. lia.
Qed.

(** Each step of the direction tables has its opposite in them. *)
Lemma ddd_opposite (d : nat) :
  (d < 8)%nat ->
  exists d', (d' < 8)%nat /\
             nth d' ddy_ddd 0 = - nth d ddy_ddd 0 /\
             nth d' ddx_ddd 0 = - nth d ddx_ddd 0.
Proof.
  intros Hd. pose proof (ddd_bound d) as [Hy Hx].
  apply ddd_complete; try lia.
  do 8 (destruct d as [|d]; [cbn; intros E; discriminate E|]). lia.
Qed.

(** A stamp on a fresh grid, one step from a stamped grid [t] of cost
    [nn - 1], keeps the costs downhill. *)
Lemma flow_downhill_stamp (py px n nn ty tx : Z) (a : chunk) (d : nat) :
  0 <= n < 256 -> 1 <= nn < MONSTER_FLOW_DEPTH -> MONSTER_FLOW_DEPTH <= 256 ->
  (d < 8)%nat ->
  square_in_bounds a ty tx = true -> when_ a ty tx = n ->
  cost a ty tx = nn - 1 ->
  when_ a (ty + nth d ddy_ddd 0) (tx + nth d ddx_ddd 0) <> n ->
  tf_has (fflags (f_info (feat a (ty + nth d ddy_ddd 0)
                                 (tx + nth d ddx_ddd 0)))) TF_NO_FLOW = false ->
  flow_downhill py px n a ->
  flow_downhill py px n
    (set_cost (set_when a (ty + nth d ddy_ddd 0) (tx + nth d ddx_ddd 0) n)
       (ty + nth d ddy_ddd 0) (tx + nth d ddx_ddd 0) nn).
Proof.
  intros Hn Hnn Hdepth Hd Hbt Hst Hct Hfresh Hflow Hdown.
  set (y := ty + nth d ddy_ddd 0) in *. set (x := tx + nth d ddx_ddd 0) in *.
  assert (Hwhen : forall y' x',
            when_ (set_cost (set_when a y x n) y x nn) y' x'
            = if (y' =? y) && (x' =? x) then n else when_ a y' x').
  { intros y' x'. cbn [when_ set_cost set_when]. unfold upd2.
    now rewrite to_byte_small by exact Hn. }
  assert (Hcost : forall y' x',
            cost (set_cost (set_when a y x n) y x nn) y' x'
            = if (y' =? y) && (x' =? x) then nn else cost a y' x').
  { intros y' x'. cbn [cost set_cost set_when]. unfold upd2.
    now rewrite to_byte_small by lia. }
  assert (Hkeep : forall y' x', when_ a y' x' = n ->
            (y' =? y) && (x' =? x) = false).
  { intros y' x' Hs. apply not_true_is_false. intros E.
    apply cell_eqb_iff in E.
    destruct E as [-> ->]. contradiction. }
  intros y' x' Hb Hs.
  change (square_in_bounds (set_cost (set_when a y x n) y x nn) y' x')
    with (square_in_bounds a y' x') in Hb.
  change (feat (set_cost (set_when a y x n) y x nn)) with (feat a).
  rewrite Hwhen in Hs. rewrite Hcost.
  destruct ((y' =? y) && (x' =? x)) eqn:E.
  - apply cell_eqb_iff in E.
    destruct E as [-> ->]. right. split; [lia|]. split; [exact Hflow|].
    destruct (ddd_opposite d Hd) as (d' & Hd' & Ey & Ex).
    exists d'. rewrite Ey, Ex.
    replace (y + - nth d ddy_ddd 0) with ty by (unfold y; lia).
    replace (x + - nth d ddx_ddd 0) with tx by (unfold x; lia).
    change (square_in_bounds (set_cost (set_when a y x n) y x nn) ty tx)
      with (square_in_bounds a ty tx).
    rewrite Hwhen, Hcost, (Hkeep ty tx Hst). repeat split; assumption.
  - destruct (Hdown y' x' Hb Hs) as [Hl|(Hc & Hf & d' & Hd' & Hb' & Hs' & Hc')];
      [now left|].
    right. split; [exact Hc|]. split; [exact Hf|].
    exists d'.
    change (square_in_bounds (set_cost (set_when a y x n) y x nn)
              (y' + nth d' ddy_ddd 0) (x' + nth d' ddx_ddd 0))
      with (square_in_bounds a (y' + nth d' ddy_ddd 0) (x' + nth d' ddx_ddd 0)).
    rewrite Hwhen, Hcost, (Hkeep _ _ Hs'). repeat split; assumption.
Qed.

(** One child keeps the invariant of the run and the grid [t] as it
    is. *)
Lemma flow_child_run (c0 : chunk) (py px n nn ty tx : Z) (st : flow_queue)
    (d : nat) :
  0 <= n < 256 -> 1 <= nn < MONSTER_FLOW_DEPTH -> MONSTER_FLOW_DEPTH <= 256 ->
  height c0 <= 256 -> width c0 <= 256 -> (d < 8)%nat ->
  flow_run_inv c0 py px n st /\
  square_in_bounds (fq_chunk st) ty tx = true /\
  when_ (fq_chunk st) ty tx = n /\ cost (fq_chunk st) ty tx = nn - 1 ->
  flow_run_inv c0 py px n (flow_child n nn ty tx st d) /\
  square_in_bounds (fq_chunk (flow_child n nn ty tx st d)) ty tx = true /\
  when_ (fq_chunk (flow_child n nn ty tx st d)) ty tx = n /\
  cost (fq_chunk (flow_child n nn ty tx st d)) ty tx = nn - 1.
Proof.
  intros Hn Hnn Hdepth Hh Hw Hd ((Hsm & Hwf & Hlive & Hdown) & Hbt & Hst & Hct).
  pose proof Hsm as (Eh & Ew & _).
  assert (Hlive' : flow_live n (flow_child n nn ty tx st d))
    by (apply flow_child_live; try assumption; lia).
  destruct (flow_child_cases n nn ty tx st d Hwf)
    as [[E _] | (Hb & Hns & Hnf & Ec & Ehd & Hwf' & _ & _)];
    cbv zeta in *.
  - rewrite E.
    exact (conj (conj Hsm (conj Hwf (conj Hlive Hdown)))
             (conj Hbt (conj Hst Hct))).
  - split; [split; [|split; [exact Hwf'|split; [exact Hlive'|]]]|].
    + rewrite Ec. unfold same_map in *. cbn. tauto.
    + rewrite Ec. now apply flow_downhill_stamp.
    + rewrite Ec.
      change (square_in_bounds
                (set_cost (set_when (fq_chunk st) (ty + nth d ddy_ddd 0)
                             (tx + nth d ddx_ddd 0) n)
                   (ty + nth d ddy_ddd 0) (tx + nth d ddx_ddd 0) nn) ty tx)
        with (square_in_bounds (fq_chunk st) ty tx).
      cbn [when_ cost set_cost set_when]. unfold upd2.
      destruct ((ty =? ty + nth d ddy_ddd 0) && (tx =? tx + nth d ddx_ddd 0))
        eqn:E.
      * exfalso. apply cell_eqb_iff in E.
        destruct E as [E1 E2]. apply Hns. now rewrite <- E1, <- E2.
      * repeat split; assumption.
Qed.

(** One turn of the loop keeps the invariant of the run. *)
Lemma flow_step_run (c0 : chunk) (py px n : Z) (st : flow_queue) :
  0 <= n < 256 -> 1 <= MONSTER_FLOW_DEPTH <= 256 ->
  height c0 <= 256 -> width c0 <= 256 ->
  flow_run_inv c0 py px n st -> flow_head st <> flow_tail st ->
  flow_run_inv c0 py px n (flow_step n st).
Proof.
  intros Hn Hdepth Hh Hw (Hsm & Hwf & Hlive & Hdown) Hne.
  destruct (flow_list_dequeue st Hwf Hne) as (Hwf1 & _ & Hlist).
  cbv zeta in Hwf1, Hlist. unfold flow_step. cbv zeta. cbn [fq_chunk].
  set (ty := flow_y st (flow_head st)) in *.
  set (tx := flow_x st (flow_head st)) in *.
  set (s1 := {| fq_chunk := fq_chunk st; flow_y := flow_y st;
                flow_x := flow_x st;
                flow_head := if flow_head st + 1 =? FLOW_MAX then 0
                             else flow_head st + 1;
                flow_tail := flow_tail st |}) in *.
  destruct (Hlive (ty, tx)) as [Hb Hs]; [rewrite Hlist; now left|].
  cbn [fst snd] in Hb, Hs.
  assert (H1 : flow_run_inv c0 py px n s1).
  { split; [exact Hsm|]. split; [exact Hwf1|]. split; [|exact Hdown].
    intros q Hq. apply (Hlive q). rewrite Hlist. now right. }
  assert (Hcost : 0 <= cost (fq_chunk st) ty tx < MONSTER_FLOW_DEPTH).
  { destruct (Hdown ty tx Hb Hs) as [[_ ->]|[Hc _]]; lia. }
  destruct (Z.eqb_spec (cost (fq_chunk st) ty tx + 1) MONSTER_FLOW_DEPTH)
    as [E|E]; [exact H1|].
  unfold flow_children.
  apply (fold_left_invariant
           (fun s =>
              flow_run_inv c0 py px n s /\
              square_in_bounds (fq_chunk s) ty tx = true /\
              when_ (fq_chunk s) ty tx = n /\
              cost (fq_chunk s) ty tx = cost (fq_chunk st) ty tx + 1 - 1)).
  - intros s d Hd Hs'. apply in_seq in Hd.
    apply (flow_child_run c0 py px n _ ty tx s d); try assumption; lia.
  - split; [exact H1|]. cbn [fq_chunk s1]. repeat split; try assumption. lia.
Qed.

(** A property of the state that every turn of the loop keeps holds when
    the loop ends. *)
Lemma flow_process_invariant (P : flow_queue -> Prop) (n : Z) :
  (forall st, P st -> flow_head st <> flow_tail st -> P (flow_step n st)) ->
  forall (fuel : nat) (st r : flow_queue),
  P st -> flow_process fuel n st = Some r -> P r.
Proof.
  intros Hstep. induction fuel as [|fuel IH]; intros st r HP Hr;
    [discriminate Hr|].
  cbn [flow_process] in Hr.
  destruct (Z.eqb_spec (flow_head st) (flow_tail st)) as [E|E].
  - inversion Hr; subst r. exact HP.
  - apply (IH (flow_step n st)); [now apply Hstep | exact Hr].
Qed.

(** One call on any map: it returns, and the costs it leaves lead
    downhill. *)
Lemma cave_update_flow_run (c : chunk) (p : player_type) (flow_save : Z) :
  1 <= MONSTER_FLOW_DEPTH <= 256 ->
  height c <= 256 -> width c <= 256 ->
  square_in_bounds c (py p) (px p) = true ->
  flow_inv c flow_save ->
  exists r,
    cave_update_flow c p flow_save
    = Some (fq_chunk r, if flow_save =? 255 then 128 else flow_save + 1) /\
    flow_run_inv c (py p) (px p)
      (if flow_save =? 255 then 128 else flow_save + 1) r.
Proof.
  intros Hdepth Hh Hw Hp Hinv. pose proof Hinv as [Hfs _].
  destruct (cave_update_flow_total c p flow_save Hfs) as [c' [Hr Hm]].
  destruct (flow_prologue c flow_save Hinv) as (Hn & Hm0 & _ & Hfresh).
  cbv zeta in Hn, Hm0, Hfresh.
  unfold cave_update_flow in Hr |- *. cbv zeta in Hr |- *.
  set (c0 := if flow_save =? 255 then flow_cycle c else c) in *.
  set (n := if flow_save =? 255 then 128 else flow_save + 1) in *.
  replace (if flow_save =? 255 then (flow_cycle c, 128) else (c, flow_save + 1))
    with (c0, n) in Hr |- * by (unfold c0, n; now destruct (flow_save =? 255)).
  pose proof Hm0 as (Eh0 & Ew0 & Ef0).
  assert (Hpb : 0 <= py p < 256 /\ 0 <= px p < 256)
    by (apply square_in_bounds_iff in Hp; lia).
  match type of Hr with
  | match flow_process ?f n ?st with _ => _ end = _ =>
      set (fuel := f) in *; set (st0 := st) in *
  end.
  assert (Hstart : flow_run_inv c (py p) (px p) n st0).
  { split; [unfold st0, same_map in *; cbn; tauto|].
    split; [split; cbn; unfold FLOW_MAX; lia|]. split.
    - intros q Hq.
      change (flow_list st0) with [(to_byte (py p), to_byte (px p))] in Hq.
      destruct Hq as [<-|[]]. rewrite !to_byte_small by lia. cbn [fst snd].
      split.
      + unfold st0. cbn [fq_chunk]. unfold square_in_bounds in *.
        cbn [height width set_cost set_when]. now rewrite Eh0, Ew0.
      + unfold st0. cbn. rewrite upd2_same. apply to_byte_small. lia.
    - intros y x Hb Hs. left. unfold st0 in Hb, Hs |- *.
      cbn [fq_chunk] in Hb, Hs |- *.
      change (square_in_bounds
                (set_cost (set_when c0 (py p) (px p) n) (py p) (px p) 0) y x)
        with (square_in_bounds c0 y x) in Hb.
      rewrite (square_in_bounds_same_map c c0 y x Hm0) in Hb.
      cbn [when_ cost set_cost set_when] in Hs |- *. unfold upd2 in Hs |- *.
      destruct ((y =? py p) && (x =? px p)) eqn:E.
      + apply cell_eqb_iff in E. destruct E as [-> ->]. now split.
      + specialize (Hfresh y x Hb). lia. }
  destruct (flow_process fuel n st0) as [r|] eqn:Hpr; [|discriminate Hr].
  exists r. split; [reflexivity|].
  apply (flow_process_invariant (flow_run_inv c (py p) (px p) n) n)
    with (fuel := fuel) (st := st0); try assumption.
  intros st Hst Hne. apply flow_step_run; try assumption. lia.
Qed.

(** X20.  On any map, after one call of [cave_update_flow], the costs lead
    downhill to the player: every grid of the level that the call stamps,
    other than the player's, lets the flow through, has a cost from 1 to the
    depth limit excluded, and a stamped neighbour whose cost is one less.
    The level fits the byte arrays of the queue. *)
Theorem cave_update_flow_downhill (c : chunk) (p : player_type)
    (flow_save : Z) :
  1 <= MONSTER_FLOW_DEPTH <= 256 ->
  height c <= 256 -> width c <= 256 ->
  square_in_bounds c (py p) (px p) = true ->
  flow_inv c flow_save ->
  exists c' n,
    cave_update_flow c p flow_save = Some (c', n) /\
    flow_downhill (py p) (px p) n c'.
Proof.
  intros Hdepth Hh Hw Hp Hinv.
  destruct (cave_update_flow_run c p flow_save Hdepth Hh Hw Hp Hinv)
    as (r & Hr & _ & _ & _ & Hdown).
  exists (fq_chunk r), (if flow_save =? 255 then 128 else flow_save + 1).
  now split.
Qed.

Lemma chebyshev_step_back (py px y x : Z) (d : nat) :
  chebyshev py px y x
  <= chebyshev py px (y + nth d ddy_ddd 0) (x + nth d ddx_ddd 0) + 1.
Proof. pose proof (ddd_bound d). unfold chebyshev. lia. Qed.

(** Downhill costs are at least the number of king's moves to the
    player. *)
Lemma flow_downhill_lower (py px n : Z) (a : chunk) :
  flow_downhill py px n a ->
  forall y x, square_in_bounds a y x = true -> when_ a y x = n ->
    chebyshev py px y x <= cost a y x.
Proof.
  intros Hdown.
  assert (H : forall (k : nat) y x,
            square_in_bounds a y x = true -> when_ a y x = n ->
            cost a y x <= Z.of_nat k -> chebyshev py px y x <= cost a y x).
  { induction k as [|k IH]; intros y x Hb Hs Hk;
      destruct (Hdown y x Hb Hs) as [[E ->]|(Hc & _ & d & _ & Hb' & Hs' & Hc')];
      try (apply pair_equal_spec in E; destruct E as [-> ->];
           unfold chebyshev; lia); try lia.
    pose proof (chebyshev_step_back py px y x d).
    specialize (IH _ _ Hb' Hs'). lia. }
  intros y x Hb Hs.
  destruct (Hdown y x Hb Hs) as [[E Hc]|(Hc & _)].
  - apply pair_equal_spec in E. destruct E as [-> ->]. rewrite Hc.
    unfold chebyshev. lia.
  - apply (H (Z.to_nat (cost a y x))); try assumption. lia.
Qed.

(** X21.  On any map, the cost that [cave_update_flow] stores on a grid it
    stamps is never less than the number of king's moves from the player:
    walls can only lengthen the way. *)
Theorem cave_update_flow_cost_lower (c : chunk) (p : player_type)
    (flow_save : Z) :
  1 <= MONSTER_FLOW_DEPTH <= 256 ->
  height c <= 256 -> width c <= 256 ->
  square_in_bounds c (py p) (px p) = true ->
  flow_inv c flow_save ->
  exists c' n,
    cave_update_flow c p flow_save = Some (c', n) /\
    forall y x, square_in_bounds c y x = true -> when_ c' y x = n ->
      chebyshev (py p) (px p) y x <= cost c' y x < MONSTER_FLOW_DEPTH.
Proof.
  intros Hdepth Hh Hw Hp Hinv.
  destruct (cave_update_flow_run c p flow_save Hdepth Hh Hw Hp Hinv)
    as (r & Hr & Hsm & _ & _ & Hdown).
  exists (fq_chunk r), (if flow_save =? 255 then 128 else flow_save + 1).
  split; [exact Hr|]. intros y x Hb Hs.
  rewrite <- (square_in_bounds_same_map c (fq_chunk r) y x Hsm) in Hb.
  split; [now apply (flow_downhill_lower _ _ _ _ Hdown)|].
  destruct (Hdown y x Hb Hs) as [[_ ->]|[Hc _]]; lia.
Qed.

(** X22.  The calls chain: from a level whose stamps are not ahead of the
    counter, any number of calls of [cave_update_flow] in a row returns, on
    the same map, with the stamps not ahead of the counter. *)
Theorem cave_update_flow_iter_total (c : chunk) (p : player_type)
    (flow_save : Z) (k : nat) :
  flow_inv c flow_save ->
  exists c' fs',
    cave_update_flow_iter k c p flow_save = Some (c', fs') /\
    same_map c c' /\ flow_inv c' fs'.
Proof.
  revert c flow_save. induction k as [|k IH]; intros c flow_save Hinv.
  - exists c, flow_save. split; [reflexivity|].
    split; [apply same_map_refl | exact Hinv].
  - cbn [cave_update_flow_iter].
    destruct (cave_update_flow_inv c p flow_save Hinv)
      as (c1 & Hr & Hm & Hinv1 & _).
    rewrite Hr. destruct (IH c1 _ Hinv1) as (c' & fs' & Hr' & Hm' & Hinv').
    exists c', fs'. split; [exact Hr'|]. split; [|exact Hinv'].
    eapply same_map_trans; eassumption.
Qed.

End FlowAny.

Lemma walled_room_flow_inv (fs : Z) : 0 <= fs <= 255 -> flow_inv walled_room fs.
Proof. intros H. split; [exact H | intros; cbn; lia]. Qed.

Lemma flowed_room_flow_inv : flow_inv flowed_room 7.
Proof.
  split; [lia|]. intros y x Hb. apply square_in_bounds_iff in Hb.
  change (height flowed_room) with 5 in Hb.
  change (width flowed_room) with 5 in Hb.
  assert (Hy : y = 0 \/ y = 1 \/ y = 2 \/ y = 3 \/ y = 4) by lia.
  assert (Hx : x = 0 \/ x = 1 \/ x = 2 \/ x = 3 \/ x = 4) by lia.
  destruct Hy as [->|[->|[->|[->| ->]]]];
    destruct Hx as [->|[->|[->|[->| ->]]]]; vm_compute; split; discriminate.
Qed.

(** On the walled room after one flow from [(2, 2)], the grid [(1, 1)]
    carries the stamp 7 and the cost 1; [cave_forget_flow] clears both and
    the counter. *)
Lemma cave_forget_flow_resets_witness :
  flow_inv flowed_room 7 /\
  (when_ flowed_room 1 1 = 7 /\ cost flowed_room 1 1 = 1) /\
  snd (cave_forget_flow flowed_room 7) = 0 /\
  flow_inv (fst (cave_forget_flow flowed_room 7)) 0 /\
  cost (fst (cave_forget_flow flowed_room 7)) 1 1 = 0 /\
  when_ (fst (cave_forget_flow flowed_room 7)) 1 1 = 0.
Proof.
  assert (H : flow_inv flowed_room 7) by exact flowed_room_flow_inv.
  split; [exact H|].
  split; [split; vm_compute; reflexivity|].
  destruct (cave_forget_flow_resets flowed_room 7 H) as (H1 & H2 & _ & H4).
  split; [exact H1|]. split; [exact H2|].
  apply H4; [lia | reflexivity].
Defined.

Lemma cave_update_flow_downhill_witness :
  (1 <= @MONSTER_FLOW_DEPTH demo_game <= 256 /\
   height walled_room <= 256 /\ width walled_room <= 256 /\
   square_in_bounds walled_room (py (demo_player 1 1 0)) (px (demo_player 1 1 0))
     = true /\
   flow_inv walled_room 0) /\
  exists c' n,
    @cave_update_flow demo_game walled_room (demo_player 1 1 0) 0
      = Some (c', n) /\
    @flow_downhill demo_game (py (demo_player 1 1 0)) (px (demo_player 1 1 0))
      n c'.
Proof.
  assert (H1 : 1 <= @MONSTER_FLOW_DEPTH demo_game <= 256) by (cbn; lia).
  assert (H2 : height walled_room <= 256) by (cbn; lia).
  assert (H3 : width walled_room <= 256) by (cbn; lia).
  assert (H4 : square_in_bounds walled_room (py (demo_player 1 1 0))
                 (px (demo_player 1 1 0)) = true) by reflexivity.
  assert (H5 : flow_inv walled_room 0) by (apply walled_room_flow_inv; lia).
  split; [exact (conj H1 (conj H2 (conj H3 (conj H4 H5))))|].
  exact (@cave_update_flow_downhill demo_game walled_room (demo_player 1 1 0) 0
           H1 H2 H3 H4 H5).
Defined.

Lemma cave_update_flow_cost_lower_witness :
  (1 <= @MONSTER_FLOW_DEPTH demo_game <= 256 /\
   height walled_room <= 256 /\ width walled_room <= 256 /\
   square_in_bounds walled_room (py (demo_player 3 3 0)) (px (demo_player 3 3 0))
     = true /\
   flow_inv walled_room 255) /\
  exists c' n,
    @cave_update_flow demo_game walled_room (demo_player 3 3 0) 255
      = Some (c', n) /\
    forall y x, square_in_bounds walled_room y x = true -> when_ c' y x = n ->
      chebyshev (py (demo_player 3 3 0)) (px (demo_player 3 3 0)) y x
      <= cost c' y x < @MONSTER_FLOW_DEPTH demo_game.
Proof.
  assert (H1 : 1 <= @MONSTER_FLOW_DEPTH demo_game <= 256) by (cbn; lia).
  assert (H2 : height walled_room <= 256) by (cbn; lia).
  assert (H3 : width walled_room <= 256) by (cbn; lia).
  assert (H4 : square_in_bounds walled_room (py (demo_player 3 3 0))
                 (px (demo_player 3 3 0)) = true) by reflexivity.
  assert (H5 : flow_inv walled_room 255) by (apply walled_room_flow_inv; lia).
  split; [exact (conj H1 (conj H2 (conj H3 (conj H4 H5))))|].
  exact (@cave_update_flow_cost_lower demo_game walled_room (demo_player 3 3 0)
           255 H1 H2 H3 H4 H5).
Defined.

Lemma cave_update_flow_iter_total_witness :
  flow_inv walled_room 200 /\
  exists c' fs',
    @cave_update_flow_iter demo_game 100 walled_room (demo_player 2 2 0) 200
      = Some (c', fs') /\
    same_map walled_room c' /\ flow_inv c' fs'.
Proof.
  assert (H : flow_inv walled_room 200) by (apply walled_room_flow_inv; lia).
  split; [exact H|].
  exact (@cave_update_flow_iter_total demo_game walled_room (demo_player 2 2 0)
           200 100 H).
Defined.

(** ** Forgetting the map, and the edge of a trap detection *)

Section Forgetting.
Context `{G : Game}.



Lemma square_in_bounds_fully_iff (c : chunk) (y x : Z) :
  square_in_bounds_fully c y x = true
  <-> 0 < x < width c - 1 /\ 0 < y < height c - 1.
Proof.
  unfold square_in_bounds_fully. rewrite !andb_true_iff.
  rewrite !Z.gtb_lt, !Z.ltb_lt. lia.
Qed.

(** [dtrap_edge] in words: the grid is detected, and one of its four
    orthogonal neighbours is a grid of the interior of the level that is
    not. *)
Lemma dtrap_edge_iff (c : chunk) (y x : Z) :
  dtrap_edge c y x = true <->
  square_isdtrap c y x = true /\
  exists y' x',
    (y' = y + 1 /\ x' = x \/ y' = y /\ x' = x + 1 \/
     y' = y - 1 /\ x' = x \/ y' = y /\ x' = x - 1) /\
    square_in_bounds_fully c y' x' = true /\ square_isdtrap c y' x' = false.
Proof.
  unfold dtrap_edge. split.
  - destruct (square_isdtrap c y x); cbn [negb]; [|discriminate].
    intros H. split; [reflexivity|].
    destruct (square_in_bounds_fully c (y + 1) x) eqn:B1,
      (square_isdtrap c (y + 1) x) eqn:D1; cbn [andb negb] in H;
      try (exists (y + 1), x; split; [tauto | now split]);
      (destruct (square_in_bounds_fully c y (x + 1)) eqn:B2,
         (square_isdtrap c y (x + 1)) eqn:D2; cbn [andb negb] in H;
       try (exists y, (x + 1); split; [tauto | now split]));
      (destruct (square_in_bounds_fully c (y - 1) x) eqn:B3,
         (square_isdtrap c (y - 1) x) eqn:D3; cbn [andb negb] in H;
       try (exists (y - 1), x; split; [tauto | now split]));
      (destruct (square_in_bounds_fully c y (x - 1)) eqn:B4,
         (square_isdtrap c y (x - 1)) eqn:D4; cbn [andb negb] in H;
       try (exists y, (x - 1); split; [tauto | now split]));
      discriminate H.
  - intros [Hd (y' & x' & Hn & Hb & Hnd)]. rewrite Hd. cbn [negb].
    destruct Hn as [[-> ->]|[[-> ->]|[[-> ->]|[-> ->]]]];
      rewrite ?Hb, ?Hnd; cbn [andb negb];
      repeat match goal with
             | |- context [if ?b then _ else _] => destruct b
             end; reflexivity.
Qed.

(** X24.  When the detected grids are those of a rectangle that lies at
    least two grids inside the level, the edge that [dtrap_edge] finds on
    the level is the border of the rectangle. *)
Theorem dtrap_edge_rectangle (c : chunk) (y0 x0 y1 x1 y x : Z) :
  (forall y x, square_isdtrap c y x = true <-> in_rect y0 x0 y1 x1 y x) ->
  1 < y0 -> y1 + 2 < height c -> 1 < x0 -> x1 + 2 < width c ->
  square_in_bounds c y x = true ->
  (dtrap_edge c y x = true <->
   in_rect y0 x0 y1 x1 y x /\ (y = y0 \/ y = y1 \/ x = x0 \/ x = x1)).
Proof.
  intros Hrect Hy0 Hy1 Hx0 Hx1 _. rewrite dtrap_edge_iff, Hrect.
  assert (Hout : forall y' x', square_isdtrap c y' x' = false <->
                               ~ in_rect y0 x0 y1 x1 y' x').
  { intros y' x'. rewrite <- Hrect.
    destruct (square_isdtrap c y' x'); split; congruence. }
  unfold in_rect in *. split.
  - intros [Hin (y' & x' & Hn & Hb & Hnd)]. split; [exact Hin|].
    apply Hout in Hnd. lia.
  - intros [Hin Hborder]. split; [exact Hin|].
    assert (Hcase : y = y0 \/ (y <> y0 /\ y = y1) \/
                    (y <> y0 /\ y <> y1 /\ x = x0) \/
                    (y <> y0 /\ y <> y1 /\ x <> x0 /\ x = x1)) by lia.
    destruct Hcase as [E|[[_ E]|[(_ & _ & E)|(_ & _ & _ & E)]]].
    + exists (y - 1), x. split; [tauto|].
      split; [apply square_in_bounds_fully_iff; lia | apply Hout; lia].
    + exists (y + 1), x. split; [tauto|].
      split; [apply square_in_bounds_fully_iff; lia | apply Hout; lia].
    + exists y, (x - 1). split; [tauto|].
      split; [apply square_in_bounds_fully_iff; lia | apply Hout; lia].
    + exists y, (x + 1). split; [tauto|].
      split; [apply square_in_bounds_fully_iff; lia | apply Hout; lia].
Qed.

End Forgetting.

Lemma detected_room_rect (y x : Z) :
  square_isdtrap detected_room y x = true <-> in_rect 2 2 4 4 y x.
Proof.
  unfold square_isdtrap, in_rect. cbn [detected_room demo_chunk info].
  destruct (Z.leb_spec 2 y), (Z.leb_spec y 4), (Z.leb_spec 2 x),
    (Z.leb_spec x 4); cbn [andb]; split; intros Hyp;
    try lia; try reflexivity; try discriminate Hyp.
Qed.

Lemma dtrap_edge_rectangle_witness :
  ((forall y x, square_isdtrap detected_room y x = true <-> in_rect 2 2 4 4 y x)
   /\ 1 < 2 /\ 4 + 2 < height detected_room /\ 1 < 2 /\
   4 + 2 < width detected_room /\
   square_in_bounds detected_room 2 3 = true) /\
  (dtrap_edge detected_room 2 3 = true <->
   in_rect 2 2 4 4 2 3 /\ (2 = 2 \/ 2 = 4 \/ 3 = 2 \/ 3 = 4)).
Proof.
  assert (H1 : 1 < 2) by lia.
  assert (H2 : 4 + 2 < height detected_room) by (cbn; lia).
  assert (H3 : 4 + 2 < width detected_room) by (cbn; lia).
  assert (H4 : square_in_bounds detected_room 2 3 = true) by reflexivity.
  split;
    [exact (conj detected_room_rect
              (conj H1 (conj H2 (conj H1 (conj H3 H4)))))|].
  exact (dtrap_edge_rectangle detected_room 2 2 4 4 2 3 detected_room_rect
           H1 H2 H1 H3 H4).
Defined.

(** ** Counting the features around the player *)

Lemma ddd9_bound (d : nat) :
  -1 <= nth d ddy_ddd9 0 <= 1 /\ -1 <= nth d ddx_ddd9 0 <= 1.
Proof.
  do 9 (destruct d as [|d]; [cbn; lia|]). destruct d; cbn; lia.
Qed.

Lemma ddd9_away (d : nat) :
  (d < 8)%nat -> (nth d ddy_ddd9 0, nth d ddx_ddd9 0) <> (0, 0).
Proof.
  intros Hd. do 8 (destruct d as [|d]; [cbn; intros E; discriminate E|]). lia.
Qed.

(** X25.  [count_feats] counts at most the eight neighbours of the player,
    and the player's own grid when [under] is set. When it counts nothing it
    leaves the location it was given; otherwise the location it leaves is a
    grid of the interior of the level, next to the player or, with [under],
    the player's own, that is remembered and passes the test. *)
Theorem count_feats_result (c : chunk) (p : player_type)
    (y x : Z) (test : chunk -> Z -> Z -> bool) (under : bool) :
  let '(count, y', x') := count_feats c p y x test under in
  0 <= count <= (if under then 9 else 8) /\
  (count = 0 -> (y', x') = (y, x)) /\
  (0 < count ->
   square_in_bounds_fully c y' x' = true /\
   square_ismark c y' x' = true /\ test c y' x' = true /\
   -1 <= y' - py p <= 1 /\ -1 <= x' - px p <= 1 /\
   (under = false -> (y', x') <> (py p, px p))).
Proof.
  unfold count_feats.
  set (ok := fun (done : list nat) (acc : Z * Z * Z) =>
               let '(count, y', x') := acc in
               0 <= count
               <= Z.of_nat (length (filter (fun d => negb (Nat.eqb d 8) || under)
                                           done)) /\
               (count = 0 -> (y', x') = (y, x)) /\
               (0 < count ->
                square_in_bounds_fully c y' x' = true /\
                square_ismark c y' x' = true /\ test c y' x' = true /\
                -1 <= y' - py p <= 1 /\ -1 <= x' - px p <= 1 /\
                (under = false -> (y', x') <> (py p, px p)))).
  assert (H : ok (seq 0 9) (fold_left (count_feats_step c p test under)
                              (seq 0 9) (0, y, x))).
  { apply (fold_left_prefix ok).
    - intros done d [[count y'] x'] (Hc & H0 & Hpos) Hd. apply in_seq in Hd.
      unfold ok, count_feats_step.
      rewrite filter_app, length_app. cbn [filter].
      destruct (Nat.eqb_spec d 8) as [E8|E8]; cbn [negb andb orb];
        destruct under; cbn [negb andb orb length];
        try (split; [lia | now split]);
        (destruct (square_in_bounds_fully c (py p + nth d ddy_ddd9 0)
                     (px p + nth d ddx_ddd9 0)) eqn:Hb; cbn [negb];
         [|split; [lia | now split]]);
        (destruct (square_ismark c (py p + nth d ddy_ddd9 0)
                     (px p + nth d ddx_ddd9 0)) eqn:Hm; cbn [negb];
         [|split; [lia | now split]]);
        (destruct (test c (py p + nth d ddy_ddd9 0)
                     (px p + nth d ddx_ddd9 0)) eqn:Ht; cbn [negb];
         [|split; [lia | now split]]);
        (split; [lia|]); (split; [lia|]); intros _;
        pose proof (ddd9_bound d) as [Hy Hx];
        repeat (split; [first [assumption | lia]|]);
        intros Hu; try discriminate Hu.
      intros E. apply pair_equal_spec in E.
      apply (ddd9_away d); [lia|]. apply pair_equal_spec. lia.
    - unfold ok. cbn. split; [lia|]. split; [reflexivity | lia]. }
  revert H. unfold ok.
  destruct (fold_left (count_feats_step c p test under) (seq 0 9) (0, y, x))
    as [[count y'] x'].
  intros (Hc & H0 & Hpos). split; [|now split].
  destruct under; cbn in Hc; lia.
Qed.

(** ** Doors *)

(** X26.  The power of a door is what [square_lock_door] stored: locking a
    door of the level with a power from 0 to 7 and reading the power back
    gives that power; the terrain of the door fits the byte that stores it. *)
Theorem square_door_power_lock (FEAT_DOOR_HEAD : Z) (cd : bool) (c : chunk)
    (y x power : Z) :
  square_in_bounds c y x = true ->
  0 <= FEAT_DOOR_HEAD -> FEAT_DOOR_HEAD + 7 < 256 -> 0 <= power <= 7 ->
  square_door_power FEAT_DOOR_HEAD
    (square_lock_door FEAT_DOOR_HEAD cd c y x power) y x = power.
Proof.
  intros _ Hh0 Hh7 Hp. unfold square_door_power, square_lock_door.
  destruct (same_level_square_set_feat cd c y x (FEAT_DOOR_HEAD + power))
    as (_ & _ & -> & _).
  rewrite upd2_same, to_byte_small by lia.
  replace (FEAT_DOOR_HEAD + power - FEAT_DOOR_HEAD) with power by lia.
  assert (Hc : power = 0 \/ power = 1 \/ power = 2 \/ power = 3 \/
               power = 4 \/ power = 5 \/ power = 6 \/ power = 7) by lia.
  destruct Hc as [->|[->|[->|[->|[->|[->|[->| ->]]]]]]]; reflexivity.
Qed.

Lemma square_door_power_lock_witness :
  (square_in_bounds counted_room 1 1 = true /\
   0 <= 32 /\ 32 + 7 < 256 /\ 0 <= 5 <= 7) /\
  square_door_power 32 (square_lock_door 32 true counted_room 1 1 5) 1 1 = 5.
Proof.
  assert (H1 : 0 <= 32) by lia.
  assert (H2 : 32 + 7 < 256) by lia.
  assert (H3 : 0 <= 5 <= 7) by lia.
  assert (H0 : square_in_bounds counted_room 1 1 = true) by reflexivity.
  split; [exact (conj H0 (conj H1 (conj H2 H3)))|].
  exact (square_door_power_lock 32 true counted_room 1 1 5 H0 H1 H2 H3).
Defined.

(** ** Lighting the town *)

(** A loop over the grid keeps what its body keeps on the grids of the
    level. *)
Lemma for_grid_invariant_in (P : chunk -> Prop)
    (body : chunk -> Z -> Z -> chunk) (c : chunk) :
  (forall c y x, width (body c y x) = width c) ->
  (forall a y x, 0 <= y < height c -> 0 <= x < width c ->
     P a -> P (body a y x)) ->
  P c -> P (for_grid body c).
Proof.
  intros Hw Hbody Hc. rewrite for_grid_cells by exact Hw.
  apply (fold_left_invariant P); [|exact Hc].
  intros a [y x] Hin Ha. apply grid_cells_In in Hin. now apply Hbody.
Qed.

Section Town.
Context `{G : Game}.

Lemma same_level_cave_illuminate_apply (c : chunk) (daytime : bool) :
  same_level c (cave_illuminate_apply c daytime).
Proof. unfold cave_illuminate_apply. apply for_grid_same_level. intros. level. Qed.

Lemma same_level_cave_illuminate_shop (c : chunk) (y x : Z) :
  same_level c (cave_illuminate_shop c y x).
Proof.
  unfold cave_illuminate_shop. destruct (negb (square_isshop c y x)); [level|].
  apply (fold_left_invariant (same_level c)); [|level].
  intros a i _ Ha. eapply same_level_trans; [exact Ha | level].
Qed.

(** The first pass, grid by grid. *)
Lemma cave_illuminate_apply_flag (c : chunk) (daytime : bool) (y x : Z)
    (f : square_flag) :
  f = SQUARE_GLOW \/ f = SQUARE_MARK ->
  square_in_bounds c y x = true ->
  sqinfo_has (info (cave_illuminate_apply c daytime) y x) f
  = daytime || negb (square_isfloor c y x).
Proof.
  intros Hf Hb. unfold cave_illuminate_apply.
  rewrite (for_grid_pointwise (fun a => feat a = feat c)
             (fun y x s =>
                if daytime
                   || negb (tf_has_more (fflags (f_info (feat c y x))) TF_FLOOR)
                then sqinfo_on (sqinfo_on s SQUARE_GLOW) SQUARE_MARK
                else sqinfo_off (sqinfo_off s SQUARE_GLOW) SQUARE_MARK));
    [| | |reflexivity].
  - rewrite Hb. unfold square_isfloor.
    destruct (daytime
              || negb (tf_has_more (fflags (f_info (feat c y x))) TF_FLOOR));
      destruct Hf as [-> | ->];
      rewrite ?sqinfo_has_on_same, ?sqinfo_has_off_same; try reflexivity.
    + rewrite sqinfo_has_on_other by discriminate. apply sqinfo_has_on_same.
    + rewrite sqinfo_has_off_other by discriminate. apply sqinfo_has_off_same.
  - intros a y' x'. cbv zeta.
    now destruct (daytime || negb (tf_has_more _ TF_FLOOR)).
  - intros a y' x' Ha. cbv zeta. rewrite Ha. split.
    + now destruct (daytime || negb (tf_has_more _ TF_FLOOR)).
    + intros y'' x''.
      destruct (daytime || negb (tf_has_more _ TF_FLOOR));
        cbn [info info_on info_off set_info]; unfold upd2;
        destruct ((y'' =? y') && (x'' =? x')) eqn:E; try reflexivity;
        now rewrite !Z.eqb_refl.
Qed.

(** The second pass at one grid: the eight grids around a shop entrance
    get the two flags. *)
Lemma cave_illuminate_shop_flag (a : chunk) (ys xs y x : Z) (f : square_flag) :
  f = SQUARE_GLOW \/ f = SQUARE_MARK ->
  sqinfo_has (info (cave_illuminate_shop a ys xs) y x) f
  = sqinfo_has (info a y x) f
    || (square_isshop a ys xs
        && existsb (fun i => (y =? ys + nth i ddy_ddd 0)
                             && (x =? xs + nth i ddx_ddd 0)) (seq 0 8)).
Proof.
  intros Hf. unfold cave_illuminate_shop.
  destruct (square_isshop a ys xs); cbn [negb andb];
    [|now rewrite orb_false_r].
  generalize (seq 0 8). intros l. revert a.
  induction l as [|i l IH]; intros a; cbn [fold_left existsb].
  - now rewrite orb_false_r.
  - rewrite IH. cbv zeta.
    destruct Hf as [-> | ->]; flags;
      destruct ((y =? ys + nth i ddy_ddd 0) && (x =? xs + nth i ddx_ddd 0)),
        (sqinfo_has (info a y x) _); reflexivity.
Qed.

(** X27.  After [cave_illuminate] a grid of the level glows, and is
    remembered, exactly when it is day, or the grid is not floor, or it
    touches the entrance of a shop. *)
Theorem cave_illuminate_lit (c : chunk) (daytime : bool) (y x : Z)
    (f : square_flag) :
  f = SQUARE_GLOW \/ f = SQUARE_MARK ->
  square_in_bounds c y x = true ->
  (sqinfo_has (info (cave_illuminate c daytime) y x) f = true <->
   daytime = true \/ square_isfloor c y x = false \/ by_shop c y x).
Proof.
  intros Hf Hb. unfold cave_illuminate. cbv zeta.
  set (c1 := cave_illuminate_apply c daytime).
  assert (Hl1 : same_level c c1) by apply same_level_cave_illuminate_apply.
  assert (H1 : sqinfo_has (info c1 y x) f
               = daytime || negb (square_isfloor c y x))
    by now apply cave_illuminate_apply_flag.
  assert (Hshop : forall a ys xs, same_level c a ->
            square_isshop a ys xs = square_isshop c ys xs).
  { intros a ys xs Ha. unfold square_isshop.
    now rewrite (same_level_feat c a Ha). }
  clearbody c1. split.
  - assert (H : same_level c (for_grid cave_illuminate_shop c1) /\
                (sqinfo_has (info (for_grid cave_illuminate_shop c1) y x) f
                 = true ->
                 sqinfo_has (info c1 y x) f = true \/ by_shop c y x)).
    { apply (for_grid_invariant_in
               (fun a => same_level c a /\
                         (sqinfo_has (info a y x) f = true ->
                          sqinfo_has (info c1 y x) f = true \/ by_shop c y x)));
        [| |split; [exact Hl1 | tauto]].
      - intros a ys xs. apply same_level_width, same_level_cave_illuminate_shop.
      - intros a ys xs Hys Hxs [Ha Hflag]. split.
        + eapply same_level_trans; [exact Ha|].
          apply same_level_cave_illuminate_shop.
        + rewrite (cave_illuminate_shop_flag a ys xs y x f Hf).
          intros H. apply orb_true_iff in H. destruct H as [H|H];
            [now apply Hflag|].
          apply andb_true_iff in H. destruct H as [Hs He].
          apply existsb_exists in He. destruct He as (i & Hi & He).
          apply in_seq in Hi. apply andb_true_iff in He.
          destruct He as [E1 E2]. apply Z.eqb_eq in E1, E2.
          right. exists ys, xs, i. rewrite <- (Hshop a ys xs Ha).
          repeat split; try assumption; try lia.
          apply square_in_bounds_iff.
          rewrite (same_level_height _ _ Hl1) in Hys.
          rewrite (same_level_width _ _ Hl1) in Hxs. lia. }
    destruct H as [_ H]. intros Hflag. destruct (H Hflag) as [H'|H'];
      [|tauto].
    rewrite H1 in H'. apply orb_true_iff in H'.
    destruct H' as [H'|H']; [now left|].
    right. left. now apply negb_true_iff.
  - intros H.
    assert (Hmono : sqinfo_has (info c1 y x) f = true ->
                    sqinfo_has (info (for_grid cave_illuminate_shop c1) y x) f
                    = true).
    { intros H'.
      apply (for_grid_invariant (fun a => sqinfo_has (info a y x) f = true));
        [|exact H'].
      intros a ys xs Ha.
      rewrite (cave_illuminate_shop_flag a ys xs y x f Hf). now rewrite Ha. }
    destruct H as [->|[H|(ys & xs & i & Hbs & Hs & Hi & Ey & Ex)]].
    + apply Hmono. now rewrite H1.
    + apply Hmono. rewrite H1, H. now rewrite orb_true_r.
    + assert (Hq : same_level c (for_grid cave_illuminate_shop c1) /\
                   sqinfo_has (info (for_grid cave_illuminate_shop c1) y x) f
                   = true); [|tauto].
      apply square_in_bounds_iff in Hbs. destruct Hbs as [Hys Hxs].
      apply (for_grid_establish_inv (same_level c)
               (fun a => same_level c a /\ sqinfo_has (info a y x) f = true)
               _ _ ys xs).
      * intros a y' x'. apply same_level_width, same_level_cave_illuminate_shop.
      * now rewrite (same_level_height _ _ Hl1).
      * now rewrite (same_level_width _ _ Hl1).
      * intros a y' x' Ha _. eapply same_level_trans; [exact Ha|].
        apply same_level_cave_illuminate_shop.
      * intros a Ha. split.
        { eapply same_level_trans; [exact Ha|].
          apply same_level_cave_illuminate_shop. }
        rewrite (cave_illuminate_shop_flag a ys xs y x f Hf).
        rewrite (Hshop a ys xs Ha), Hs. cbn [andb].
        replace (existsb _ (seq 0 8)) with true; [now rewrite orb_true_r|].
        symmetry. apply existsb_exists. exists i. split; [apply in_seq; lia|].
        rewrite Ey, Ex. now rewrite !Z.eqb_refl.
      * intros a y' x' [Ha Hflag]. split.
        { eapply same_level_trans; [exact Ha|].
          apply same_level_cave_illuminate_shop. }
        rewrite (cave_illuminate_shop_flag a y' x' y x f Hf). now rewrite Hflag.
      * exact Hl1.
Qed.

End Town.

Lemma cave_illuminate_lit_witness :
  ((SQUARE_GLOW = SQUARE_GLOW \/ SQUARE_GLOW = SQUARE_MARK) /\
   square_in_bounds town 3 3 = true) /\
  (sqinfo_has (info (@cave_illuminate town_game town false) 3 3) SQUARE_GLOW
   = true <->
   false = true \/ @square_isfloor town_game town 3 3 = false \/
   @by_shop town_game town 3 3).
Proof.
  assert (H1 : SQUARE_GLOW = SQUARE_GLOW \/ SQUARE_GLOW = SQUARE_MARK)
    by (left; reflexivity).
  assert (H2 : square_in_bounds town 3 3 = true) by reflexivity.
  split; [exact (conj H1 H2)|].
  exact (@cave_illuminate_lit town_game town false 3 3 SQUARE_GLOW H1 H2).
Defined.

(** ** Lighting the whole level *)

Lemma zrange_from_In (a b v : Z) : In v (zrange_from a b) <-> a <= v < b.
Proof.
  unfold zrange_from. rewrite in_map_iff. split.
  - intros [i [<- Hi]]. apply zrange_In in Hi. lia.
  - intros Hv. exists (v - a). split; [lia|]. apply zrange_In. lia.
Qed.

Lemma interior_cells_In (c : chunk) (y x : Z) :
  In (y, x) (interior_cells c)
  <-> 1 <= y < height c - 1 /\ 1 <= x < width c - 1.
Proof.
  unfold interior_cells. rewrite in_flat_map. split.
  - intros [y' [Hy H]]. apply in_map_iff in H. destruct H as [x' [E Hx]].
    apply pair_equal_spec in E. destruct E as [-> ->].
    now rewrite zrange_from_In in Hy, Hx.
  - intros [Hy Hx]. exists y. rewrite zrange_from_In. split; [exact Hy|].
    apply in_map_iff. exists x. now rewrite zrange_from_In.
Qed.

(** The double loop over the interior is one loop over
    [interior_cells], when the body keeps the width of the level. *)
Lemma for_interior_cells (body : chunk -> Z -> Z -> chunk) (c : chunk) :
  (forall c y x, width (body c y x) = width c) ->
  for_interior body c
  = fold_left (fun c q => body c (fst q) (snd q)) (interior_cells c) c.
Proof.
  intros Hw. unfold for_interior, interior_cells.
  assert (Hin : forall (l : list Z) (c' : chunk) (y : Z),
    fold_left (fun c x => body c y x) l c' =
    fold_left (fun c q => body c (fst q) (snd q)) (map (fun x => (y, x)) l) c').
  { induction l as [|x l IH]; intros c' y; [reflexivity|]. cbn. apply IH. }
  assert (Hwf : forall (l : list Z) (c' : chunk) (y : Z),
    width (fold_left (fun c x => body c y x) l c') = width c').
  { intros l c' y. apply (fold_left_invariant (fun d => width d = width c'));
      [intros; rewrite Hw; assumption | reflexivity]. }
  generalize (zrange_from 1 (height c - 1)). intros rows.
  generalize (eq_refl (width c)). generalize (width c) at 1 3. intros w.
  revert c. induction rows as [|y rows IH]; intros c Hc; [reflexivity|].
  cbn [fold_left flat_map]. rewrite fold_left_app, <- Hin, <- Hc. apply IH.
  now rewrite Hwf.
Qed.

Lemma ddd9_complete (oy ox : Z) :
  -1 <= oy <= 1 -> -1 <= ox <= 1 ->
  exists i, (i < 9)%nat /\ nth i ddy_ddd9 0 = oy /\ nth i ddx_ddd9 0 = ox.
Proof.
  intros Hy Hx.
  destruct (Z.eq_dec oy 0) as [Ey|Ey], (Z.eq_dec ox 0) as [Ex|Ex];
    try subst oy; try subst ox.
  1: exists 8%nat; cbn; repeat split; lia.
  all: match goal with
       | |- exists i, _ /\ nth i _ 0 = ?a /\ nth i _ 0 = ?b =>
           destruct (ddd_complete a b) as (d & Hd & E1 & E2);
           [lia | lia | intros E; apply pair_equal_spec in E; lia |];
           exists d; split; [lia|];
           unfold ddy_ddd9, ddx_ddd9;
           rewrite !app_nth1 by (cbn; lia); now split
       end.
Qed.

Section WizLight.
Context `{G : Game}.
Variable visible_trap : chunk -> Z -> Z -> bool.

Lemma same_level_wiz_light_around (a : chunk) (yc xc : Z) :
  same_level a (wiz_light_around visible_trap a yc xc).
Proof.
  unfold wiz_light_around.
  apply (fold_left_invariant (same_level a)); [|level].
  intros b i _ Hb. eapply same_level_trans; [exact Hb | level].
Qed.

(** What the nine steps around a grid do to one flag of one grid. *)
Lemma wiz_light_around_flag (a : chunk) (yc xc y x : Z) (f : square_flag) :
  (sqinfo_has (info a y x) f = true ->
   sqinfo_has (info (wiz_light_around visible_trap a yc xc) y x) f = true) /\
  (sqinfo_has (info (wiz_light_around visible_trap a yc xc) y x) f = true ->
   sqinfo_has (info a y x) f = true \/
   ((f = SQUARE_GLOW \/ f = SQUARE_MARK) /\
    -1 <= y - yc <= 1 /\ -1 <= x - xc <= 1)) /\
  (-1 <= y - yc <= 1 -> -1 <= x - xc <= 1 ->
   square_isglow (wiz_light_around visible_trap a yc xc) y x = true).
Proof.
  unfold wiz_light_around.
  assert (Hstep : forall (g : square_flag) (b : chunk) (i : nat),
            let yy := yc + nth i ddy_ddd9 0 in
            let xx := xc + nth i ddx_ddd9 0 in
            let b' := (let b1 := info_on b yy xx SQUARE_GLOW in
                       if negb (square_isfloor b1 yy xx) || visible_trap b1 yy xx
                       then info_on b1 yy xx SQUARE_MARK else b1) in
            (sqinfo_has (info b y x) g = true ->
             sqinfo_has (info b' y x) g = true) /\
            (sqinfo_has (info b' y x) g = true ->
             sqinfo_has (info b y x) g = true \/
             ((g = SQUARE_GLOW \/ g = SQUARE_MARK) /\ y = yy /\ x = xx)) /\
            (y = yy -> x = xx -> square_isglow b' y x = true)).
  { intros g b i. cbv zeta.
    set (yy := yc + nth i ddy_ddd9 0). set (xx := xc + nth i ddx_ddd9 0).
    assert (Hcell : (y =? yy) && (x =? xx) = true -> y = yy /\ x = xx)
      by (rewrite andb_true_iff, !Z.eqb_eq; tauto).
    destruct (negb (square_isfloor (info_on b yy xx SQUARE_GLOW) yy xx)
              || visible_trap (info_on b yy xx SQUARE_GLOW) yy xx);
      unfold square_isglow; rewrite !has_info_on.
    - split; [intros H; rewrite H, !orb_true_r; reflexivity|]. split.
      + intros H. apply orb_true_iff in H. destruct H as [H|H].
        * apply andb_true_iff in H. destruct H as [Hc Hf].
          apply flag_eqb_eq in Hf. right. split; [now right | now apply Hcell].
        * apply orb_true_iff in H. destruct H as [H|H]; [|now left].
          apply andb_true_iff in H. destruct H as [Hc Hf].
          apply flag_eqb_eq in Hf. right. split; [now left | now apply Hcell].
      + intros E1 E2. rewrite E1, E2, !Z.eqb_refl. reflexivity.
    - split; [intros H; rewrite H, !orb_true_r; reflexivity|]. split.
      + intros H. apply orb_true_iff in H. destruct H as [H|H]; [|now left].
        apply andb_true_iff in H. destruct H as [Hc Hf].
        apply flag_eqb_eq in Hf. right. split; [now left | now apply Hcell].
      + intros E1 E2. rewrite E1, E2, !Z.eqb_refl. reflexivity. }
  split; [|split].
  - apply (fold_left_invariant
             (fun b => sqinfo_has (info a y x) f = true ->
                       sqinfo_has (info b y x) f = true)); [|tauto].
    intros b i _ Hb H. exact (proj1 (Hstep f b i) (Hb H)).
  - apply (fold_left_invariant
             (fun b => sqinfo_has (info b y x) f = true ->
                       sqinfo_has (info a y x) f = true \/
                       ((f = SQUARE_GLOW \/ f = SQUARE_MARK) /\
                        -1 <= y - yc <= 1 /\ -1 <= x - xc <= 1))); [|tauto].
    intros b i _ Hb H. apply (proj1 (proj2 (Hstep f b i))) in H.
    destruct H as [H|(Hf & -> & ->)]; [now apply Hb|].
    right. split; [exact Hf|]. pose proof (ddd9_bound i). lia.
  - intros Hy Hx.
    destruct (ddd9_complete (y - yc) (x - xc) Hy Hx) as (i & Hi & E1 & E2).
    apply (fold_left_establish (fun b => square_isglow b y x = true) _ _ i).
    + apply in_seq. lia.
    + intros b. apply (proj2 (proj2 (Hstep f b i))); lia.
    + intros b i' Hb. exact (proj1 (Hstep SQUARE_GLOW b i') Hb).
Qed.


(** What [wiz_light] does to one flag of one grid. *)
Lemma wiz_light_flags (c : chunk) (full : bool) (y x : Z) (f : square_flag) :
  (sqinfo_has (info c y x) f = true ->
   sqinfo_has (info (wiz_light visible_trap c full) y x) f = true) /\
  (sqinfo_has (info (wiz_light visible_trap c full) y x) f = true ->
   sqinfo_has (info c y x) f = true \/
   ((f = SQUARE_GLOW \/ f = SQUARE_MARK) /\
    square_in_bounds c y x = true /\ by_open_interior c y x)).
Proof.
  unfold wiz_light. rewrite for_interior_cells.
  2:{ intros a y' x'. destruct (negb (square_seemslikewall a y' x'));
        [|reflexivity].
      apply same_level_width, same_level_wiz_light_around. }
  assert (H : same_level c
                (fold_left
                   (fun c q =>
                      if negb (square_seemslikewall c (fst q) (snd q))
                      then wiz_light_around visible_trap c (fst q) (snd q)
                      else c) (interior_cells c) c) /\
              (sqinfo_has (info c y x) f = true ->
               sqinfo_has
                 (info (fold_left
                          (fun c q =>
                             if negb (square_seemslikewall c (fst q) (snd q))
                             then wiz_light_around visible_trap c (fst q) (snd q)
                             else c) (interior_cells c) c) y x) f = true) /\
              (sqinfo_has
                 (info (fold_left
                          (fun c q =>
                             if negb (square_seemslikewall c (fst q) (snd q))
                             then wiz_light_around visible_trap c (fst q) (snd q)
                             else c) (interior_cells c) c) y x) f = true ->
               sqinfo_has (info c y x) f = true \/
               ((f = SQUARE_GLOW \/ f = SQUARE_MARK) /\
                square_in_bounds c y x = true /\ by_open_interior c y x)));
    [|tauto].
  apply (fold_left_invariant
           (fun a =>
              same_level c a /\
              (sqinfo_has (info c y x) f = true ->
               sqinfo_has (info a y x) f = true) /\
              (sqinfo_has (info a y x) f = true ->
               sqinfo_has (info c y x) f = true \/
               ((f = SQUARE_GLOW \/ f = SQUARE_MARK) /\
                square_in_bounds c y x = true /\ by_open_interior c y x))));
    [|split; [level | tauto]].
  intros a [yc xc] Hin (Ha & Hup & Hdown). cbn [fst snd].
  apply interior_cells_In in Hin.
  destruct (square_seemslikewall a yc xc) eqn:Ew; cbn [negb];
    [exact (conj Ha (conj Hup Hdown))|].
  destruct (wiz_light_around_flag a yc xc y x f) as (H1 & H2 & _).
  split; [|split].
  - eapply same_level_trans; [exact Ha | apply same_level_wiz_light_around].
  - intros H. now apply H1, Hup.
  - intros H. apply H2 in H. destruct H as [H|(Hf & Hy & Hx)];
      [now apply Hdown|].
    right. split; [exact Hf|]. split.
    + apply square_in_bounds_iff. lia.
    + exists yc, xc. split; [apply square_in_bounds_fully_iff; lia|].
      split; [|now split]. unfold square_seemslikewall in *.
      now rewrite <- (same_level_feat c a Ha).
Qed.


(** X29.  After [wiz_light] a grid glows exactly when it did before, or when
    it is, or touches, a grid of the interior that does not look like a
    wall. *)
Theorem wiz_light_glow (c : chunk) (full : bool) (y x : Z) :
  square_isglow (wiz_light visible_trap c full) y x = true <->
  square_isglow c y x = true \/ by_open_interior c y x.
Proof.
  split.
  - intros H.
    destruct (proj2 (wiz_light_flags c full y x SQUARE_GLOW) H)
      as [H'|(_ & _ & H')]; tauto.
  - intros [H|(yc & xc & Hb & Hw & Hy & Hx)].
    + now apply (proj1 (wiz_light_flags c full y x SQUARE_GLOW)).
    + unfold wiz_light. rewrite for_interior_cells.
      2:{ intros a y' x'. destruct (negb (square_seemslikewall a y' x'));
            [|reflexivity].
          apply same_level_width, same_level_wiz_light_around. }
      assert (H : same_level c
                    (fold_left
                       (fun c q =>
                          if negb (square_seemslikewall c (fst q) (snd q))
                          then wiz_light_around visible_trap c (fst q) (snd q)
                          else c) (interior_cells c) c) /\
                  square_isglow
                    (fold_left
                       (fun c q =>
                          if negb (square_seemslikewall c (fst q) (snd q))
                          then wiz_light_around visible_trap c (fst q) (snd q)
                          else c) (interior_cells c) c) y x = true);
        [|tauto].
      apply (fold_left_establish_inv (same_level c)
               (fun a => same_level c a /\ square_isglow a y x = true)
               _ _ (yc, xc) cell_eq_dec).
      * apply interior_cells_In. apply square_in_bounds_fully_iff in Hb. lia.
      * intros a q Ha _.
        destruct (negb (square_seemslikewall a (fst q) (snd q))); [|exact Ha].
        eapply same_level_trans; [exact Ha | apply same_level_wiz_light_around].
      * intros a Ha. cbn [fst snd].
        replace (square_seemslikewall a yc xc) with false
          by (unfold square_seemslikewall in *;
              now rewrite (same_level_feat c a Ha)).
        cbn [negb]. split.
        { eapply same_level_trans; [exact Ha|].
          apply same_level_wiz_light_around. }
        apply (proj2 (proj2 (wiz_light_around_flag a yc xc y x SQUARE_GLOW)));
          assumption.
      * intros a q [Ha Hg].
        destruct (negb (square_seemslikewall a (fst q) (snd q)));
          [|now split].
        split.
        { eapply same_level_trans; [exact Ha|].
          apply same_level_wiz_light_around. }
        now apply (proj1 (wiz_light_around_flag a (fst q) (snd q) y x
                            SQUARE_GLOW)).
      * level.
Qed.

End WizLight.

(** ** Updating the view twice *)

Lemma fold_left_rel {A B : Type} (R : A -> A -> Prop) (f : A -> B -> A)
    (l : list B) :
  (forall a b x, In x l -> R a b -> R (f a x) (f b x)) ->
  forall a b, R a b -> R (fold_left f l a) (fold_left f l b).
Proof.
  intros Hstep. induction l as [|x l IH]; intros a b Hab; [exact Hab|].
  cbn [fold_left]. apply IH.
  - intros a' b' x' Hx'. apply Hstep. now right.
  - apply Hstep; [now left | exact Hab].
Qed.

(** A loop over a list without duplicates, with an invariant on the
    state and on the entries that remain. *)
Lemma fold_left_remaining {A B : Type} (I : A -> list B -> Prop)
    (f : A -> B -> A) (l : list B) :
  NoDup l ->
  (forall a x rest, ~ In x rest -> I a (x :: rest) -> I (f a x) rest) ->
  forall a, I a l -> I (fold_left f l a) [].
Proof.
  intros Hnd Hstep. induction l as [|x l IH]; intros a Ha; [exact Ha|].
  apply NoDup_cons_iff in Hnd. destruct Hnd as [Hni Hnd].
  cbn [fold_left]. apply (IH Hnd). now apply Hstep.
Qed.

Section ViewTwice.
Context `{G : Game}.

Lemma same_scene_bounds (a b : chunk) (y x : Z) :
  same_scene a b -> square_in_bounds b y x = square_in_bounds a y x.
Proof. intros (H1 & H2 & _). unfold square_in_bounds. now rewrite H1, H2. Qed.

Lemma same_scene_wall (a b : chunk) (y x : Z) :
  same_scene a b -> square_iswall b y x = square_iswall a y x.
Proof.
  intros (_ & _ & H3 & _). unfold square_iswall, square_isprojectable.
  now rewrite H3.
Qed.

Lemma same_scene_glow (a b : chunk) (y x : Z) :
  same_scene a b -> square_isglow b y x = square_isglow a y x.
Proof. intros (_ & _ & _ & _ & H). apply H. Qed.

Lemma same_scene_feat (a b : chunk) : same_scene a b -> feat b = feat a.
Proof. now intros (_ & _ & H & _). Qed.

(** A level with the same terrain and monsters, and the same glowing
    grids, shows the same scene. *)
Lemma same_scene_of_level (a b : chunk) :
  same_level a b -> keeps_flag SQUARE_GLOW a b -> same_scene a b.
Proof.
  intros (H1 & H2 & H3 & H4 & _) Hg.
  exact (conj H1 (conj H2 (conj H3 (conj H4 Hg)))).
Qed.

Lemma same_scene_step (a b a' b' : chunk) :
  same_scene a b -> same_level a a' -> same_level b b' ->
  keeps_flag SQUARE_GLOW a a' -> keeps_flag SQUARE_GLOW b b' ->
  same_scene a' b'.
Proof.
  intros (H1 & H2 & H3 & H4 & H5) (A1 & A2 & A3 & A4 & _)
    (B1 & B2 & B3 & B4 & _) Ka Kb.
  unfold same_scene.
  refine (conj _ (conj _ (conj _ (conj _ _)))); try congruence.
  intros y x. unfold square_isglow in *. now rewrite Ka, Kb.
Qed.

Lemma view_reference_same_scene (a b : chunk) (y x py px : Z) :
  same_scene a b -> view_reference b y x py px = view_reference a y x py px.
Proof.
  intros H. unfold view_reference. cbv zeta.
  now rewrite !(same_scene_wall a b) by exact H.
Qed.

Lemma same_view_info_on (a b : chunk) (y x : Z) (f : square_flag) :
  f <> SQUARE_GLOW -> same_view a b ->
  same_view (info_on a y x f) (info_on b y x f).
Proof.
  intros Hf [Hsc Hv]. split.
  - destruct Hsc as (H1 & H2 & H3 & H4 & H5). unfold same_scene.
    refine (conj H1 (conj H2 (conj H3 (conj H4 _)))).
    intros y' x'. now rewrite !square_isglow_info_on.
  - intros y' x' Hb. change (square_in_bounds a y' x' = true) in Hb.
    destruct (Hv y' x' Hb) as [E1 E2].
    unfold square_isview, square_isseen in *.
    rewrite !has_info_on. now rewrite E1, E2.
Qed.

(** The flags that [become_viewable] leaves on a grid out of view. *)
Lemma become_viewable_flags (c : chunk) (y x : Z) (lit : bool) (py px : Z) :
  square_isview c y x = false ->
  square_isview (become_viewable c y x lit py px) y x = true /\
  square_isseen (become_viewable c y x lit py px) y x =
    square_isseen c y x
    || lit || (square_isglow c y x &&
               if square_iswall c y x
               then square_isglow c (step_toward y py) (step_toward x px)
               else square_isglow c y x).
Proof.
  intros Hv. unfold become_viewable. rewrite Hv. cbv zeta.
  fold (step_toward y py). fold (step_toward x px).
  destruct lit; rewrite !square_iswall_info_on;
    rewrite !square_isglow_info_on by discriminate;
    destruct (square_iswall c y x); cbv beta iota;
    rewrite ?square_isglow_info_on by discriminate;
    destruct (square_isglow c y x) eqn:Hg; cbn [andb orb];
    try destruct (square_isglow c (step_toward y py) (step_toward x px));
    flags; rewrite ?Z.eqb_refl; cbn [andb orb];
    destruct (sqinfo_has (info c y x) SQUARE_SEEN); split; reflexivity.
Qed.

(** One grid of the scan, on two levels with the same view. *)
Lemma update_view_one_same_view (a b : chunk) (y x radius py px : Z) :
  square_in_bounds a y x = true ->
  same_view a b ->
  same_view (update_view_one a y x radius py px)
            (update_view_one b y x radius py px).
Proof.
  intros Hb [Hsc Hv].
  assert (Hsc' : same_scene (update_view_one a y x radius py px)
                            (update_view_one b y x radius py px)).
  { apply (same_scene_step a b); try assumption;
      try apply same_level_update_view_one;
      apply keeps_flag_update_view_one; split; discriminate. }
  split; [exact Hsc'|]. intros y' x' Hb'.
  rewrite (square_in_bounds_same_level a) in Hb'
    by apply same_level_update_view_one.
  unfold update_view_one. cbv zeta.
  rewrite (view_reference_same_scene a b) by exact Hsc.
  destruct (distance y x py px >? MAX_SIGHT); [now apply Hv|].
  destruct (view_reference a y x py px) as [yc xc].
  rewrite (los_same_feat a b) by now apply same_scene_feat.
  destruct (los a py px yc xc); [|now apply Hv].
  destruct (cell_eq_dec (y', x') (y, x)) as [E|Hne].
  - apply pair_equal_spec in E. destruct E as [-> ->].
    destruct (Hv y x Hb) as [Ev Es].
    destruct (square_isview a y x) eqn:Hva.
    + rewrite (become_viewable_in_view a) by exact Hva.
      rewrite (become_viewable_in_view b) by exact Ev.
      split; [now rewrite Hva | exact Es].
    + destruct (become_viewable_flags a y x (distance y x py px <? radius)
                  py px Hva) as [-> ->].
      destruct (become_viewable_flags b y x (distance y x py px <? radius)
                  py px Ev) as [-> ->].
      rewrite Es, !(same_scene_glow a b), (same_scene_wall a b) by exact Hsc.
      now split.
  - unfold square_isview, square_isseen.
    rewrite !become_viewable_other by exact Hne. now apply Hv.
Qed.

Lemma add_monster_light_at_same_view (from : loc_t) (m : monster)
    (in_los : bool) (a b : chunk) (i j : Z) :
  same_view a b ->
  same_view (add_monster_light_at from m in_los a i j)
            (add_monster_light_at from m in_los b i j).
Proof.
  intros H. unfold add_monster_light_at. cbv zeta.
  pose proof (same_scene_feat a b (proj1 H)) as Ef.
  rewrite (square_isprojectable_same_feat a b) by exact Ef.
  rewrite (los_same_feat a b) by exact Ef.
  destruct (negb in_los && negb (square_isprojectable a (fy m + i) (fx m + j)));
    [exact H|].
  destruct (distance (loc_y from) (loc_x from) (fy m + i) (fx m + j)
            >? MAX_SIGHT); [exact H|].
  destruct (negb (los a (loc_y from) (loc_x from) (fy m + i) (fx m + j)));
    [exact H|].
  apply same_view_info_on; [discriminate|].
  apply same_view_info_on; [discriminate | exact H].
Qed.

Lemma add_monster_lights_same_view (a b : chunk) (from : loc_t) :
  same_view a b ->
  same_view (add_monster_lights a from) (add_monster_lights b from).
Proof.
  intros H. unfold add_monster_lights.
  replace (monsters b) with (monsters a)
    by (destruct H as [(_ & _ & _ & E & _) _]; now rewrite E).
  apply fold_left_rel; [|exact H]. clear H.
  intros a' b' m _ H. unfold add_monster_light.
  rewrite (los_same_feat a' b') by apply same_scene_feat, H.
  destruct (race m) as [r|]; [|exact H].
  destruct (negb (rf_has_light r)); [exact H|].
  apply fold_left_rel; [|exact H]. intros a1 b1 i _ H1.
  apply fold_left_rel; [|exact H1]. intros a2 b2 j _ H2.
  now apply add_monster_light_at_same_view.
Qed.

Lemma update_view_scan_same_view (a b : chunk) (radius py px : Z) :
  same_view a b ->
  same_view (update_view_scan a radius py px)
            (update_view_scan b radius py px).
Proof.
  intros H. unfold update_view_scan.
  rewrite !for_grid_cells
    by (intros; apply same_level_width, same_level_update_view_one).
  replace (grid_cells b) with (grid_cells a)
    by (destruct H as [(E1 & E2 & _) _]; unfold grid_cells;
        now rewrite E1, E2).
  assert (K : same_level a
                (fold_left
                   (fun c q => update_view_one c (fst q) (snd q) radius py px)
                   (grid_cells a) a) /\
              same_view
                (fold_left
                   (fun c q => update_view_one c (fst q) (snd q) radius py px)
                   (grid_cells a) a)
                (fold_left
                   (fun c q => update_view_one c (fst q) (snd q) radius py px)
                   (grid_cells a) b)); [|apply K].
  apply (fold_left_rel (fun a' b' => same_level a a' /\ same_view a' b'));
    [|split; [apply same_level_refl | exact H]].
  intros a' b' [y x] Hin [Hl Hv]. cbn [fst snd]. split.
  - eapply same_level_trans; [exact Hl | apply same_level_update_view_one].
  - apply update_view_one_same_view; [|exact Hv].
    rewrite (square_in_bounds_same_level a a' y x Hl).
    apply square_in_bounds_iff. now apply grid_cells_In.
Qed.

(** Before the scan no grid of the level is in view or seen: two levels
    with the same scene start the scan with the same view. *)
Lemma mark_wasseen_same_view (a b : chunk) :
  same_scene a b -> same_view (mark_wasseen a) (mark_wasseen b).
Proof.
  intros Hsc. split.
  - apply (same_scene_step a b); try assumption;
      try apply same_level_mark_wasseen;
      apply keeps_flag_mark_wasseen; try split; discriminate.
  - intros y x Hb.
    rewrite (square_in_bounds_same_level a) in Hb
      by apply same_level_mark_wasseen.
    pose proof Hb as Hb2. rewrite <- (same_scene_bounds a b) in Hb2 by exact Hsc.
    unfold square_isview, square_isseen.
    rewrite !mark_wasseen_info by assumption.
    rewrite !sqinfo_has_off_same.
    rewrite !(sqinfo_has_off_other _ SQUARE_SEEN SQUARE_VIEW) by discriminate.
    rewrite !sqinfo_has_off_same. now split.
Qed.

(** The view before the last pass depends on the scene only, not on the
    flags of the view that the level had. *)
Lemma update_view_lit_same_view (a b : chunk) (p : player_type) :
  same_scene a b -> same_view (update_view_lit a p) (update_view_lit b p).
Proof.
  intros Hsc. unfold update_view_lit. cbv zeta.
  apply update_view_scan_same_view.
  pose proof (add_monster_lights_same_view _ _ (loc (px p) (py p))
                (mark_wasseen_same_view a b Hsc)) as H.
  set (a2 := add_monster_lights (mark_wasseen a) (loc (px p) (py p))) in *.
  set (b2 := add_monster_lights (mark_wasseen b) (loc (px p) (py p))) in *.
  pose proof (same_view_info_on a2 b2 (py p) (px p) SQUARE_VIEW
                ltac:(discriminate) H) as H3.
  rewrite (same_scene_glow _ _ (py p) (px p) (proj1 H3)).
  destruct ((_ >? 0) || _); [|exact H3].
  apply same_view_info_on; [discriminate | exact H3].
Qed.

(** The passes before the last one count no grid for the level feeling. *)
Lemma update_view_lit_feeling (c : chunk) (p : player_type) :
  feeling_squares (update_view_lit c p) = feeling_squares c.
Proof.
  unfold update_view_lit. cbv zeta.
  match goal with
  | |- feeling_squares (update_view_scan ?d _ _ _) = _ =>
      assert (H : feeling_squares d = feeling_squares c)
  end.
  { assert (H : feeling_squares
                  (add_monster_lights (mark_wasseen c) (loc (px p) (py p)))
                = feeling_squares c).
    { apply (add_monster_lights_invariant
               (fun a => feeling_squares a = feeling_squares c)).
      - intros a0 a m r i j _ _ _ _ _ _ Ha. unfold add_monster_light_at.
        cbv zeta. split_ifs; exact Ha.
      - unfold mark_wasseen.
        apply (for_grid_invariant
                 (fun a => feeling_squares a = feeling_squares c));
          [|reflexivity].
        intros a y x Ha. cbv zeta. split_ifs; exact Ha. }
    split_ifs; exact H. }
  unfold update_view_scan.
  apply (for_grid_invariant (fun a => feeling_squares a = feeling_squares c));
    [|exact H].
  intros a y x Ha. unfold update_view_one, become_viewable. cbv zeta.
  split_ifs; exact Ha.
Qed.

(** Before the last pass a grid carries WASSEEN when it did before, or
    when it was seen. *)
Lemma update_view_lit_wasseen (c : chunk) (p : player_type) (y x : Z) :
  square_in_bounds c y x = true ->
  square_wasseen (update_view_lit c p) y x
  = square_wasseen c y x || square_isseen c y x.
Proof.
  intros Hb. unfold square_wasseen, square_isseen.
  rewrite keeps_flag_update_view_lit by (split; discriminate).
  rewrite mark_wasseen_info by exact Hb.
  rewrite !sqinfo_has_off_other by discriminate.
  destruct (sqinfo_has (info c y x) SQUARE_SEEN).
  - rewrite sqinfo_has_on_same. now rewrite orb_true_r.
  - now rewrite orb_false_r.
Qed.

(** [update_one] on a grid that is not newly seen: SEEN is taken off a
    blind player's grid, WASSEEN is taken off, and nothing else is
    done. *)
Lemma update_one_quiet (a : chunk) (y x blind : Z) :
  (blind =? 0) && square_isseen a y x && negb (square_wasseen a y x) = false ->
  update_one a y x blind
  = info_off (if negb (blind =? 0) then info_off a y x SQUARE_SEEN else a)
      y x SQUARE_WASSEEN.
Proof.
  intros H. unfold update_one. cbv zeta.
  destruct (blind =? 0); cbn [negb andb] in *.
  - now rewrite H.
  - unfold square_isseen at 1. rewrite has_info_off, !Z.eqb_refl.
    replace (flag_eqb SQUARE_SEEN SQUARE_SEEN) with true by reflexivity.
    reflexivity.
Qed.

(** The last pass over a level where no grid is newly seen. *)
Lemma update_one_pass_quiet (c : chunk) (blind : Z) :
  (forall y x, square_in_bounds c y x = true ->
     (blind =? 0) && square_isseen c y x && negb (square_wasseen c y x)
     = false) ->
  let c' := for_grid (fun c y x => update_one c y x blind) c in
  feeling_squares c' = feeling_squares c /\
  forall y x f, square_in_bounds c y x = true ->
    SQUARE_SEEN <> f -> SQUARE_WASSEEN <> f ->
    sqinfo_has (info c' y x) f = sqinfo_has (info c y x) f.
Proof.
  intros Hq. cbv zeta.
  assert (Hoff : forall (a : chunk) (y x : Z) (f g : square_flag),
            f <> g ->
            sqinfo_has (info (info_off a y x f) y x) g
            = sqinfo_has (info a y x) g).
  { intros a y x f g Hfg. rewrite has_info_off.
    destruct (flag_eqb f g) eqn:E; [apply flag_eqb_eq in E; contradiction|].
    now rewrite andb_false_r. }
  split.
  - rewrite for_grid_cells
      by (intros; apply same_level_width, same_level_update_one).
    apply (fold_left_remaining
             (fun a rest =>
                feeling_squares a = feeling_squares c /\
                forall q, In q rest ->
                  square_in_bounds c (fst q) (snd q) = true /\
                  info a (fst q) (snd q) = info c (fst q) (snd q))
             _ (grid_cells c) (grid_cells_NoDup c)).
    + intros a [y x] rest Hni [Hfs Hrest]. cbn [fst snd].
      destruct (Hrest (y, x) (or_introl eq_refl)) as [Hb Hi].
      cbn [fst snd] in Hb, Hi. split.
      * rewrite update_one_quiet.
        -- destruct (negb (blind =? 0)); exact Hfs.
        -- unfold square_isseen, square_wasseen. rewrite Hi.
           now apply Hq.
      * intros [y' x'] Hq'. cbn [fst snd].
        destruct (Hrest (y', x') (or_intror Hq')) as [Hb' Hi'].
        cbn [fst snd] in Hb', Hi'. split; [exact Hb'|].
        rewrite update_one_other; [exact Hi'|].
        intros E. rewrite E in Hq'. contradiction.
    + split; [reflexivity|]. intros [y x] Hin. cbn [fst snd].
      split; [|reflexivity].
      apply square_in_bounds_iff. now apply grid_cells_In.
  - intros y x f Hb Hs Hw.
    apply (for_grid_once
             (fun a => info a y x = info c y x)
             (fun a => sqinfo_has (info a y x) f = sqinfo_has (info c y x) f)
             _ _ y x); try assumption; try reflexivity.
    + intros. apply same_level_width, same_level_update_one.
    + intros a y' x' Hne Ha. rewrite update_one_other by congruence. exact Ha.
    + intros a Ha. rewrite update_one_quiet.
      * rewrite Hoff by exact Hw.
        destruct (negb (blind =? 0)); [|now rewrite Ha].
        rewrite Hoff by exact Hs. now rewrite Ha.
      * unfold square_isseen, square_wasseen. rewrite Ha. now apply Hq.
    + intros a y' x' Hne Ha. rewrite update_one_other by congruence. exact Ha.
Qed.

(** X15.  The view depends on the scene only: on two levels with the same
    terrain, monsters and glowing grids, whatever their flags of the view
    were, [update_view] leaves the same grids of the level in view, and the
    same grids seen. *)
Theorem update_view_scene (a b : chunk) (p : player_type) (y x : Z) :
  same_scene a b -> square_in_bounds a y x = true ->
  square_isview (update_view b p) y x = square_isview (update_view a p) y x /\
  square_isseen (update_view b p) y x = square_isseen (update_view a p) y x.
Proof.
  intros Hsc Hb. rewrite !update_view_split.
  destruct (update_view_lit_same_view a b p Hsc) as [Hsc' Hv].
  pose proof Hb as Ha.
  rewrite <- (square_in_bounds_same_level a (update_view_lit a p))
    in Ha by apply same_level_update_view_lit.
  pose proof Ha as Hb'.
  rewrite <- (same_scene_bounds _ _ y x Hsc') in Hb'.
  destruct (update_one_pass_flags _ (timed_blind p) y x Ha)
    as (-> & _ & -> & _).
  destruct (update_one_pass_flags _ (timed_blind p) y x Hb')
    as (-> & _ & -> & _).
  destruct (Hv y x Ha) as [-> ->]. now split.
Qed.

(** X16.  Updating the view twice is updating it once: a second
    [update_view], with nothing changed in between, leaves the level, the
    count of the grids that give the level feeling and every flag of every
    grid of the level as the first left them. *)
Theorem update_view_twice (c : chunk) (p : player_type) :
  same_level (update_view c p) (update_view (update_view c p) p) /\
  feeling_squares (update_view (update_view c p) p)
  = feeling_squares (update_view c p) /\
  forall y x f, square_in_bounds c y x = true ->
    sqinfo_has (info (update_view (update_view c p) p) y x) f
    = sqinfo_has (info (update_view c p) y x) f.
Proof.
  split; [apply same_level_update_view|].
  set (c1 := update_view c p).
  assert (Hl1 : same_level c c1) by apply same_level_update_view.
  assert (Hsc : same_scene c c1).
  { apply same_scene_of_level; [exact Hl1|].
    apply keeps_flag_update_view, stable_flag_glow. }
  destruct (update_view_lit_same_view c c1 p Hsc) as [Hsc' Hv].
  assert (Hl2 : same_level c1 (update_view_lit c1 p))
    by apply same_level_update_view_lit.
  assert (Hlit : same_level c (update_view_lit c p))
    by apply same_level_update_view_lit.
  (* the flags of the first result, from the first scan *)
  assert (H1 : forall y x, square_in_bounds c y x = true ->
            square_isseen c1 y x
            = (timed_blind p =? 0) && square_isseen (update_view_lit c p) y x /\
            square_wasseen c1 y x = false /\
            square_isview c1 y x = square_isview (update_view_lit c p) y x).
  { intros y x Hb. unfold c1. rewrite update_view_split.
    rewrite <- (square_in_bounds_same_level c _ y x Hlit) in Hb.
    destruct (update_one_pass_flags _ (timed_blind p) y x Hb)
      as (E1 & E2 & E3 & _).
    now rewrite E1, E2, E3. }
  (* the second scan starts the last pass with no grid newly seen *)
  assert (Hq : forall y x, square_in_bounds (update_view_lit c1 p) y x = true ->
            (timed_blind p =? 0) && square_isseen (update_view_lit c1 p) y x
            && negb (square_wasseen (update_view_lit c1 p) y x) = false).
  { intros y x Hb.
    rewrite (square_in_bounds_same_level c1 _ y x Hl2) in Hb.
    pose proof Hb as Hb1.
    rewrite (square_in_bounds_same_level c c1 y x Hl1) in Hb.
    rewrite update_view_lit_wasseen by exact Hb1.
    destruct (H1 y x Hb) as (-> & -> & _).
    rewrite <- (square_in_bounds_same_level c _ y x Hlit) in Hb.
    destruct (Hv y x Hb) as [_ ->].
    destruct (timed_blind p =? 0), (square_isseen (update_view_lit c p) y x);
      reflexivity. }
  destruct (update_one_pass_quiet _ (timed_blind p) Hq) as [Hfs Hfl].
  rewrite (update_view_split c1 p). split.
  - rewrite Hfs. apply update_view_lit_feeling.
  - intros y x f Hb.
    pose proof Hb as Hbc.
    rewrite <- (square_in_bounds_same_level c c1 y x Hl1) in Hb.
    pose proof Hb as Hb1.
    rewrite <- (square_in_bounds_same_level c1 _ y x Hl2) in Hb.
    pose proof Hbc as Hbl.
    rewrite <- (square_in_bounds_same_level c _ y x Hlit) in Hbl.
    destruct (update_one_pass_flags _ (timed_blind p) y x Hb)
      as (E1 & E2 & E3 & _).
    destruct (H1 y x Hbc) as (F1 & F2 & F3).
    destruct (Hv y x Hbl) as [V1 V2].
    unfold square_isseen, square_wasseen, square_isview in *.
    destruct f;
      try (rewrite E1, F1, V2; reflexivity);
      try (rewrite E2, F2; reflexivity);
      try (rewrite E3, F3, V1; reflexivity);
      (rewrite Hfl by (assumption || discriminate);
       rewrite keeps_flag_update_view_lit by (split; discriminate);
       apply keeps_flag_mark_wasseen; try split; discriminate).
Qed.

End ViewTwice.

Lemma update_view_scene_witness :
  (same_scene walled_room (info_on walled_room 2 2 SQUARE_SEEN) /\
   square_in_bounds walled_room 2 2 = true) /\
  square_isview
    (@update_view demo_game (info_on walled_room 2 2 SQUARE_SEEN) (demo_player 1 1 1)) 2 2
  = square_isview (@update_view demo_game walled_room (demo_player 1 1 1)) 2 2 /\
  square_isseen
    (@update_view demo_game (info_on walled_room 2 2 SQUARE_SEEN) (demo_player 1 1 1)) 2 2
  = square_isseen (@update_view demo_game walled_room (demo_player 1 1 1)) 2 2.
Proof.
  assert (H1 : same_scene walled_room (info_on walled_room 2 2 SQUARE_SEEN)).
  { refine (conj eq_refl (conj eq_refl (conj eq_refl (conj eq_refl _)))).
    intros y x. apply square_isglow_info_on. discriminate. }
  assert (H2 : square_in_bounds walled_room 2 2 = true) by reflexivity.
  split; [exact (conj H1 H2)|].
  exact (@update_view_scene demo_game walled_room
           (info_on walled_room 2 2 SQUARE_SEEN) (demo_player 1 1 1) 2 2 H1 H2).
Defined.
